(** * Strided tiled smoothness sieve (erdos/962): shallow embedding

    The C program [mk_iocp_tiled_sieve_strided_fastdiv.c] searches, for each
    [k], the least [m] whose window [m+1 .. m+k] passes the window scan.
    Unsigned machine integers are modelled as [Z] with the wrap-around written
    out ([wrap32], [wrap64]); arrays are lists read with a total lookup and
    written with stdpp's list insert; loops that the C code cannot bound are
    run on fuel inside a three-valued result type. *)

From Stdlib Require Import ZArith Lia Znumtheory.
From stdpp Require Import base tactics option list list_numbers.

Local Open Scope Z_scope.

(** ** Machine integers *)

Definition UINT32_MAX : Z := 2 ^ 32 - 1.
Definition UINT64_MAX : Z := 2 ^ 64 - 1.

Definition wrap32 (x : Z) : Z := x mod 2 ^ 32.
Definition wrap64 (x : Z) : Z := x mod 2 ^ 64.

(** [(uint64_t)(((__uint128_t)a * (__uint128_t)b) >> 64)] *)
Definition mulhi_u64 (a b : Z) : Z :=
  wrap64 (Z.shiftr ((a * b) mod 2 ^ 128) 64).

(** ** Results of partial computations

    [Undefined] is C undefined behaviour reached by the model (the only
    source modelled is [__builtin_ctzll(0)]); [OutOfFuel] is a loop that did
    not finish within the fuel given. *)

Inductive result (A : Type) : Type :=
  | Ok (a : A)
  | Undefined
  | OutOfFuel.
Arguments Ok {A} a.
Arguments Undefined {A}.
Arguments OutOfFuel {A}.

Definition rbind {A B} (r : result A) (f : A -> result B) : result B :=
  match r with
  | Ok a => f a
  | Undefined => Undefined
  | OutOfFuel => OutOfFuel
  end.

Notation "'let*' x ':=' e 'in' k" := (rbind e (fun x => k))
  (at level 10, x pattern, e at level 200, k at level 200).

(** [while (cond s) s = body s;] *)
Fixpoint while_loop {S : Type} (fuel : nat) (cond : S -> bool)
    (body : S -> result S) (s : S) : result S :=
  match fuel with
  | O => OutOfFuel
  | Datatypes.S fuel' =>
      if cond s then let* s' := body s in while_loop fuel' cond body s'
      else Ok s
  end.

(** ** FastDivU32 (u64 / u32, u64 % u32) using mulhi + 1-2 corrections *)

Record FastDivU32 : Type := mkFastDiv {
  fd_d : Z;     (* uint32_t d *)
  fd_mul : Z    (* uint64_t mul *)
}.

(** In C, [UINT64_MAX / 0] is undefined; the program only calls this on
    primes.  [Z.div] by zero gives 0. *)
Definition fastdiv_u32_make_prime (d : Z) : FastDivU32 :=
  {| fd_d := d;
     fd_mul := if d =? 2 then wrap64 (Z.shiftl 1 63) else UINT64_MAX / d |}.

(** One conditional correction [if (rr >= d) { rr -= d; ++q0; }] on the pair
    [(q0, rr)]. *)
Definition fastdiv_correct (d : Z) (qr : Z * Z) : Z * Z :=
  let '(q0, rr) := qr in
  if rr >=? d then (wrap64 (q0 + 1), wrap64 (rr - d)) else (q0, rr).

(** Returns [( *q, *r )].  [FASTDIV_2X_CORRECT] is 1. *)
Definition fastdiv_u32_divmod (fd : FastDivU32) (n : Z) : Z * Z :=
  let d := fd_d fd in
  let q0 := mulhi_u64 n (fd_mul fd) in
  let rr := wrap64 (n - wrap64 (q0 * d)) in
  let '(q0, rr) := fastdiv_correct d (fastdiv_correct d (q0, rr)) in
  (q0, wrap32 rr).

Definition fastdiv_u32_mod (fd : FastDivU32) (n : Z) : Z :=
  snd (fastdiv_u32_divmod fd n).

(** Returns the flag and the new value of [*n_io]. *)
Definition fastdiv_u32_divide_if_divisible (fd : FastDivU32) (n_io : Z)
    : bool * Z :=
  let '(q, r) := fastdiv_u32_divmod fd n_io in
  if negb (r =? 0) then (false, n_io) else (true, q).

(** ** Loops and arrays

    [for (uint32_t i = lo; i < hi; ++i) s = body i s;]  The counter stops at
    [hi], so it cannot wrap. *)
Definition for_range {S : Type} (lo hi : Z) (body : Z -> S -> S) (s : S) : S :=
  foldl (fun s i => body i s) s (seqZ lo (hi - lo)).

Fixpoint rfoldl {S B : Type} (f : S -> B -> result S) (s : S) (l : list B)
    : result S :=
  match l with
  | [] => Ok s
  | b :: l' => let* s' := f s b in rfoldl f s' l'
  end.

(** The same loop with a body that may fail. *)
Definition for_range_r {S : Type} (lo hi : Z) (body : Z -> S -> result S)
    (s : S) : result S :=
  rfoldl (fun s i => body i s) s (seqZ lo (hi - lo)).

(** Array read [a[i]] and write [a[i] = v].  Out of range the C program has
    undefined behaviour; the model reads the default and drops the write, and
    the theorems below carry the size hypotheses that keep every access in
    range. *)
Definition aget {A : Type} `{Inhabited A} (a : list A) (i : Z) : A :=
  a !!! Z.to_nat i.
Definition aset {A : Type} (a : list A) (i : Z) (v : A) : list A :=
  <[Z.to_nat i := v]> a.

(** ** Prime list up to k *)

Record PrimeList : Type := mkPrimeList {
  pl_p : option (list Z);   (* uint32_t* p; [None] is NULL *)
  pl_count : Z              (* uint32_t count *)
}.

(** The C runtime decides whether a request of a given size succeeds. *)
Record Allocator : Type := mkAllocator {
  calloc_ok : Z -> bool;
  malloc_ok : Z -> bool
}.

(** [PrimeList out = { 0 };] *)
Definition PrimeList_zero : PrimeList := {| pl_p := None; pl_count := 0 |}.

(** [for (uint32_t j = i * i; j <= n; j += i) mark[j] = 1;] *)
Definition primes_mark_multiples (fuel : nat) (n i : Z) (mark : list Z)
    : result (list Z) :=
  let* (_, mark) :=
    while_loop fuel (fun '(j, _) => j <=? n)
      (fun '(j, mark) => Ok (wrap32 (j + i), aset mark j 1))
      (wrap32 (i * i), mark) in
  Ok mark.

Definition primes_upto (heap : Allocator) (fuel : nat) (n : Z)
    : result PrimeList :=
  let out := PrimeList_zero in
  if n <? 2 then Ok out else
  if negb (calloc_ok heap (n + 1)) then Ok out else
  let mark := replicate (Z.to_nat (n + 1)) 0 in
  let* (_, mark) :=
    while_loop fuel (fun '(i, _) => i * i <=? n)
      (fun '(i, mark) =>
         if negb (aget mark i =? 0) then Ok (wrap32 (i + 1), mark)
         else let* mark := primes_mark_multiples fuel n i mark in
              Ok (wrap32 (i + 1), mark))
      (2, mark) in
  let* (_, cnt) :=
    while_loop fuel (fun '(i, _) => i <=? n)
      (fun '(i, cnt) =>
         Ok (wrap32 (i + 1), if aget mark i =? 0 then wrap32 (cnt + 1) else cnt))
      (2, 0) in
  if negb (malloc_ok heap (cnt * 4)) then Ok out else
  let p := replicate (Z.to_nat cnt) 0 in
  let* (_, _, p) :=
    while_loop fuel (fun '(i, _, _) => i <=? n)
      (fun '(i, w, p) =>
         if aget mark i =? 0 then Ok (wrap32 (i + 1), wrap32 (w + 1), aset p w i)
         else Ok (wrap32 (i + 1), w, p))
      (2, 0, p) in
  Ok {| pl_p := Some p; pl_count := cnt |}.

(** [primes_free] *)
Definition primes_free (pl : PrimeList) : PrimeList := PrimeList_zero.

(** [pl.p[i]] *)
Definition primes_at (pl : PrimeList) (i : Z) : Z :=
  aget (default [] (pl_p pl)) i.

(** ** Bitset helpers *)

(** [memset(bits, 0, (bit_count + 7u) >> 3)] *)
Definition bitset_clear (bits : list Z) (bit_count : Z) : list Z :=
  let nbytes := Z.to_nat (Z.shiftr (wrap32 (bit_count + 7)) 3) in
  list_inserts 0 (replicate nbytes 0) bits.

(** [bits[i >> 3] |= (uint8_t)(1u << (i & 7))] *)
Definition bitset_set (bits : list Z) (i : Z) : list Z :=
  aset bits (Z.shiftr i 3)
    (Z.lor (aget bits (Z.shiftr i 3)) (Z.shiftl 1 (Z.land i 7) mod 2 ^ 8)).

(** [(bits[i >> 3] >> (i & 7)) & 1u] *)
Definition bitset_get (bits : list Z) (i : Z) : Z :=
  Z.land (Z.shiftr (aget bits (Z.shiftr i 3)) (Z.land i 7)) 1.

(** ** Epoch and worker state *)

Definition KEY_START : Z := 1.
Definition KEY_STOP : Z := 2.

Record Epoch : Type := mkEpoch {
  e_k : Z;
  e_tile_len : Z;
  e_step : Z;              (* tile_len * thread_count *)
  e_start_m : Z;           (* inclusive *)
  e_end_m : Z;             (* inclusive *)
  e_primes : PrimeList;
  e_fd : list FastDivU32;  (* [prime_count] *)
  e_step_mod : list Z;     (* [prime_count]  (step % p) *)
  e_best_m : Z;            (* global min found *)
  e_end_limit : Z;         (* shrinks to best_m-1 *)
  e_active_workers : Z;
  e_evt_done : bool        (* the manual-reset event is signalled *)
}.

#[global] Instance FastDivU32_inhabited : Inhabited FastDivU32 :=
  populate {| fd_d := 0; fd_mul := 0 |}.

(** ** Sieve (carried offsets + FastDiv in factor stripping) *)

Fixpoint ctz_pos (p : positive) : Z :=
  match p with
  | xO q => Z.succ (ctz_pos q)
  | _ => 0
  end.

(** [__builtin_ctzll(x)]: undefined for [x == 0]. *)
Definition ctzll (x : Z) : result Z :=
  match x with
  | Zpos p => Ok (ctz_pos p)
  | _ => Undefined
  end.

(** The body of the inner loop between [x = residual[i]] and
    [residual[i] = x]. *)
Definition sieve_strip (fuel : nat) (p : Z) (f : FastDivU32) (x : Z)
    : result Z :=
  if p =? 2 then
    let* c := ctzll x in Ok (Z.shiftr x c)
  else
    while_loop fuel
      (fun x => fst (fastdiv_u32_divide_if_divisible f x))
      (fun x => Ok (snd (fastdiv_u32_divide_if_divisible f x)))
      x.

(** [for (uint32_t i = off[pi]; i < win_len; i += p) { ... }] *)
Definition sieve_prime_pass (fuel : nat) (p : Z) (f : FastDivU32)
    (win_len o : Z) (residual : list Z) : result (list Z) :=
  let* (_, residual) :=
    while_loop fuel (fun '(i, _) => i <? win_len)
      (fun '(i, residual) =>
         let x := aget residual i in
         let* x := sieve_strip fuel p f x in
         Ok (wrap32 (i + p), aset residual i x))
      (o, residual) in
  Ok residual.


(** [if (sm) { o = off[pi]; off[pi] = (o >= sm) ? (o - sm) : (o + p - sm); }] *)
Definition advance_off (p sm o : Z) : Z :=
  if sm =? 0 then o
  else if o >=? sm then wrap32 (o - sm) else wrap32 (wrap32 (o + p) - sm).

(** The loop over the primes, on the pair [(off, residual)]. *)
Definition sieve_primes (fuel : nat) (e : Epoch) (win_len : Z)
    (off residual : list Z) : result (list Z * list Z) :=
  for_range_r 0 (pl_count (e_primes e))
    (fun pi '(off, residual) =>
       let p := primes_at (e_primes e) pi in
       let* residual :=
         sieve_prime_pass fuel p (aget (e_fd e) pi) win_len (aget off pi)
           residual in
       let sm := aget (e_step_mod e) pi in
       Ok (aset off pi (advance_off p sm (aget off pi)), residual))
    (off, residual).

(** Returns the new [(off, residual, bad_bits)]. *)
Definition sieve_window_bad_bits_carried_fastdiv (fuel : nat) (e : Epoch)
    (base_test start_count : Z) (off residual bad_bits : list Z)
    : result (list Z * list Z * list Z) :=
  let k := e_k e in
  let win_len := wrap32 (start_count + k) in
  let residual :=
    for_range 0 win_len (fun i res => aset res i (wrap64 (base_test + i)))
      residual in
  let bad_bits := bitset_clear bad_bits win_len in
  let* (off, residual) := sieve_primes fuel e win_len off residual in
  (* k-smooth iff residual == 1 *)
  let bad_bits :=
    for_range 0 win_len
      (fun i bits => if aget residual i =? 1 then bitset_set bits i else bits)
      bad_bits in
  Ok (off, residual, bad_bits).

(** The loop [for (uint32_t s = 1; s < start_count; ++s)] of the window scan,
    with [n] iterations left. *)
Fixpoint window_scan_from (n : nat) (k : Z) (bad_bits : list Z)
    (m0 s bad : Z) : Z :=
  match n with
  | O => UINT64_MAX
  | Datatypes.S n' =>
      let bad := wrap32 (bad - bitset_get bad_bits (wrap32 (s - 1))) in
      let bad :=
        wrap32 (bad + bitset_get bad_bits (wrap32 (wrap32 (s + k) - 1))) in
      if bad =? 0 then wrap64 (m0 + s)
      else window_scan_from n' k bad_bits m0 (s + 1) bad
  end.

(** Lines 387-396 of [scan_tile_find_m_carried_fastdiv]: the rolling count of
    set bits over a window of [k] positions; a window is reported when the
    count is 0. *)
Definition window_scan (k start_count : Z) (bad_bits : list Z) (m0 : Z) : Z :=
  let bad :=
    for_range 0 k (fun i bad => wrap32 (bad + bitset_get bad_bits i)) 0 in
  if bad =? 0 then m0
  else window_scan_from (Z.to_nat (start_count - 1)) k bad_bits m0 1 bad.

(** Returns the found [m] (or [UINT64_MAX]) and the new
    [(off, residual, bad_bits)]. *)
Definition scan_tile_find_m_carried_fastdiv (fuel : nat) (e : Epoch)
    (m0 start_count : Z) (off residual bad_bits : list Z)
    : result (Z * (list Z * list Z * list Z)) :=
  if start_count =? 0 then Ok (UINT64_MAX, (off, residual, bad_bits)) else
  let k := e_k e in
  let win_len := wrap32 (start_count + k) in
  if win_len <? k then Ok (UINT64_MAX, (off, residual, bad_bits)) else
  let* (off, residual, bad_bits) :=
    sieve_window_bad_bits_carried_fastdiv fuel e (wrap64 (m0 + 1)) start_count
      off residual bad_bits in
  Ok (window_scan k start_count bad_bits m0, (off, residual, bad_bits)).

(** ** IOCP epoch system *)

Definition set_atomics (e : Epoch) (best_m end_limit active : Z) (done : bool)
    : Epoch :=
  {| e_k := e_k e; e_tile_len := e_tile_len e; e_step := e_step e;
     e_start_m := e_start_m e; e_end_m := e_end_m e; e_primes := e_primes e;
     e_fd := e_fd e; e_step_mod := e_step_mod e;
     e_best_m := best_m; e_end_limit := end_limit;
     e_active_workers := active; e_evt_done := done |}.

Definition set_best_m (e : Epoch) (m : Z) : Epoch :=
  set_atomics e m (e_end_limit e) (e_active_workers e) (e_evt_done e).

Definition set_end_limit (e : Epoch) (lim : Z) : Epoch :=
  set_atomics e (e_best_m e) lim (e_active_workers e) (e_evt_done e).

(** Where a worker thread stands.  Every constructor but [Parked] and
    [Exited] is a point just before one access to the shared epoch atomics;
    the arguments are the thread's live locals. *)
Inductive WorkerPc : Type :=
  | Parked                                  (* in GetQueuedCompletionStatus *)
  | TileLoop (base : Z)                     (* before load_u64(&end_limit) *)
  | BestLoad (base m : Z)                   (* try_set_best: before load_u64(&best_m) *)
  | BestCas (base m cur : Z)                (* before the CAS on best_m *)
  | LimLoad (base new_lim : Z)              (* before load_u64(&end_limit) *)
  | LimCas (base new_lim old_lim : Z)       (* before the CAS on end_limit *)
  | EpochDone                               (* before InterlockedDecrement *)
  | EpochSignal                             (* before SetEvent(evt_done) *)
  | Exited.                                 (* after KEY_STOP *)

Record WorkerCtx : Type := mkWorkerCtx {
  w_tid : Z;
  w_residual : list Z;
  w_bad_bits : list Z;
  w_cap_win_len : Z;
  w_off : list Z;        (* carried offsets, [prime_count] *)
  w_off_cap : Z;
  w_pc : WorkerPc
}.

Definition set_pc (w : WorkerCtx) (pc : WorkerPc) : WorkerCtx :=
  {| w_tid := w_tid w; w_residual := w_residual w; w_bad_bits := w_bad_bits w;
     w_cap_win_len := w_cap_win_len w; w_off := w_off w;
     w_off_cap := w_off_cap w; w_pc := pc |}.

Definition set_bufs (w : WorkerCtx) (off residual bad_bits : list Z)
    : WorkerCtx :=
  {| w_tid := w_tid w; w_residual := residual; w_bad_bits := bad_bits;
     w_cap_win_len := w_cap_win_len w; w_off := off;
     w_off_cap := w_off_cap w; w_pc := w_pc w |}.

(** [VirtualAlloc] returns zeroed pages; its failure ends the process and is
    not modelled. *)
Definition ensure_worker_buffers (w : WorkerCtx) (win_len : Z) : WorkerCtx :=
  if w_cap_win_len w >=? win_len then w
  else
    {| w_tid := w_tid w;
       w_residual := replicate (Z.to_nat win_len) 0;
       w_bad_bits := replicate (Z.to_nat (Z.shiftr (wrap32 (win_len + 7)) 3)) 0;
       w_cap_win_len := win_len; w_off := w_off w;
       w_off_cap := w_off_cap w; w_pc := w_pc w |}.

Definition ensure_worker_off (w : WorkerCtx) (prime_count : Z) : WorkerCtx :=
  if prime_count =? 0 then
    {| w_tid := w_tid w; w_residual := w_residual w;
       w_bad_bits := w_bad_bits w; w_cap_win_len := w_cap_win_len w;
       w_off := []; w_off_cap := 0; w_pc := w_pc w |}
  else if w_off_cap w >=? prime_count then w
  else
    {| w_tid := w_tid w; w_residual := w_residual w;
       w_bad_bits := w_bad_bits w; w_cap_win_len := w_cap_win_len w;
       w_off := replicate (Z.to_nat prime_count) 0;
       w_off_cap := prime_count; w_pc := w_pc w |}.

(** ** Precompute per-k epoch arrays: fd[] and step_mod[] *)

Definition set_math (e : Epoch) (fd : list FastDivU32) (step_mod : list Z)
    : Epoch :=
  {| e_k := e_k e; e_tile_len := e_tile_len e; e_step := e_step e;
     e_start_m := e_start_m e; e_end_m := e_end_m e; e_primes := e_primes e;
     e_fd := fd; e_step_mod := step_mod;
     e_best_m := e_best_m e; e_end_limit := e_end_limit e;
     e_active_workers := e_active_workers e; e_evt_done := e_evt_done e |}.

Definition epoch_free_math (e : Epoch) : Epoch := set_math e [] [].

Definition epoch_prepare_math (e : Epoch) : Epoch :=
  let n := pl_count (e_primes e) in
  if n =? 0 then epoch_free_math e
  else
    let fd :=
      for_range 0 n
        (fun i fd => aset fd i (fastdiv_u32_make_prime (primes_at (e_primes e) i)))
        (replicate (Z.to_nat n) inhabitant) in
    let step_mod :=
      for_range 0 n
        (fun i sm =>
           let p := primes_at (e_primes e) i in
           if p =? 2 then aset sm i (wrap32 (Z.land (e_step e) 1))
           else aset sm i (fastdiv_u32_mod (aget fd i) (e_step e)))
        (replicate (Z.to_nat n) 0) in
    set_math e fd step_mod.

(** ** Worker epoch init: initialize off[] for base_test0 once per epoch *)

Definition worker_init_offsets_for_epoch (e : Epoch) (w : WorkerCtx)
    : WorkerCtx :=
  let pc := pl_count (e_primes e) in
  let w := ensure_worker_off w pc in
  if pc =? 0 then w
  else
    let base_test0 :=
      wrap64 (wrap64 (e_start_m e + wrap64 (w_tid w * e_tile_len e)) + 1) in
    let off :=
      for_range 0 pc
        (fun pi off =>
           let p := primes_at (e_primes e) pi in
           if p =? 2 then aset off pi (wrap32 (Z.land base_test0 1))
           else
             let r := fastdiv_u32_mod (aget (e_fd e) pi) base_test0 in
             aset off pi (if negb (r =? 0) then wrap32 (p - r) else 0))
        (w_off w) in
    set_bufs w off (w_residual w) (w_bad_bits w).

(** ** Worker thread (strided tiles) *)

(** One step of a worker: the thread-local work up to and including its next
    access to the completion port or to the epoch atomics.  The
    [Interlocked*] operations are sequentially consistent, so a run of the
    process is an interleaving of such steps.  Returns the new epoch, port
    queue and worker. *)
Definition worker_step (fuel : nat) (e : Epoch) (iocp : list Z)
    (w : WorkerCtx) : result (Epoch * list Z * WorkerCtx) :=
  match w_pc w with
  | Parked =>
      match iocp with
      | [] => Ok (e, iocp, w)                  (* blocked *)
      | key :: iocp' =>
          if key =? KEY_STOP then Ok (e, iocp', set_pc w Exited)
          else if key =? KEY_START then
            let base := wrap64 (e_start_m e + wrap64 (w_tid w * e_tile_len e)) in
            let w := worker_init_offsets_for_epoch e w in
            Ok (e, iocp', set_pc w (TileLoop base))
          else Ok (e, iocp', w)
      end
  | TileLoop base =>
      let lim := e_end_limit e in
      if base >? lim then Ok (e, iocp, set_pc w EpochDone)
      else
        let max_starts := wrap64 (lim - base + 1) in
        let start_count :=
          if max_starts >=? e_tile_len e then e_tile_len e
          else wrap32 max_starts in
        let win_len := wrap32 (start_count + e_k e) in
        let w := ensure_worker_buffers w win_len in
        let* (found, (off, residual, bad_bits)) :=
          scan_tile_find_m_carried_fastdiv fuel e base start_count
            (w_off w) (w_residual w) (w_bad_bits w) in
        let w := set_bufs w off residual bad_bits in
        if negb (found =? UINT64_MAX) then
          Ok (e, iocp, set_pc w (BestLoad base found))
        else Ok (e, iocp, set_pc w (TileLoop (wrap64 (base + e_step e))))
  | BestLoad base m =>
      let cur := e_best_m e in
      if m >=? cur then
        Ok (e, iocp, set_pc w (TileLoop (wrap64 (base + e_step e))))
      else Ok (e, iocp, set_pc w (BestCas base m cur))
  | BestCas base m cur =>
      if e_best_m e =? cur then
        let new_lim := if m =? 0 then 0 else wrap64 (m - 1) in
        Ok (set_best_m e m, iocp, set_pc w (LimLoad base new_lim))
      else Ok (e, iocp, set_pc w (BestLoad base m))
  | LimLoad base new_lim =>
      let old_lim := e_end_limit e in
      if new_lim >=? old_lim then
        Ok (e, iocp, set_pc w (TileLoop (wrap64 (base + e_step e))))
      else Ok (e, iocp, set_pc w (LimCas base new_lim old_lim))
  | LimCas base new_lim old_lim =>
      if e_end_limit e =? old_lim then
        Ok (set_end_limit e new_lim, iocp,
            set_pc w (TileLoop (wrap64 (base + e_step e))))
      else Ok (e, iocp, set_pc w (LimLoad base new_lim))
  | EpochDone =>
      (* worker_epoch_done: InterlockedDecrement(&active_workers) == 0 *)
      let n := e_active_workers e - 1 in
      Ok (set_atomics e (e_best_m e) (e_end_limit e) n (e_evt_done e),
          iocp, set_pc w (if n =? 0 then EpochSignal else Parked))
  | EpochSignal =>
      (* SetEvent(js->epoch.evt_done) by the thread that reached 0 *)
      Ok (set_atomics e (e_best_m e) (e_end_limit e) (e_active_workers e)
            true,
          iocp, set_pc w Parked)
  | Exited => Ok (e, iocp, w)
  end.

Record JobSystem : Type := mkJobSystem {
  js_iocp : list Z;        (* keys of the packets queued on the port *)
  js_thread_count : Z;
  js_epoch : Epoch
}.

(** The process: [js] and the array [w] of [main]. *)
Record System : Type := mkSystem {
  sys_js : JobSystem;
  sys_w : list WorkerCtx
}.

(** Worker [i] takes one step. *)
Definition system_step (fuel : nat) (i : nat) (sys : System) : result System :=
  match sys_w sys !! i with
  | None => Ok sys
  | Some w =>
      let js := sys_js sys in
      let* (e, iocp, w) := worker_step fuel (js_epoch js) (js_iocp js) w in
      Ok {| sys_js := {| js_iocp := iocp;
                         js_thread_count := js_thread_count js;
                         js_epoch := e |};
            sys_w := <[i := w]> (sys_w sys) |}
  end.

(** The workers run in the order [sched] gives. *)
Definition run_workers (fuel : nat) (sched : list nat) (sys : System)
    : result System :=
  rfoldl (fun sys i => system_step fuel i sys) sys sched.

(** ** Epoch orchestration (contiguous batch scan) *)

Definition epoch_begin (js : JobSystem) (k start_m end_m tile_len : Z)
    : JobSystem :=
  let e := js_epoch js in
  {| js_iocp :=
       js_iocp js ++ replicate (Z.to_nat (js_thread_count js)) KEY_START;
     js_thread_count := js_thread_count js;
     js_epoch :=
       {| e_k := k; e_tile_len := tile_len;
          e_step := wrap64 (tile_len * js_thread_count js);
          e_start_m := start_m; e_end_m := end_m;
          e_primes := e_primes e; e_fd := e_fd e; e_step_mod := e_step_mod e;
          e_best_m := UINT64_MAX; e_end_limit := end_m;
          e_active_workers := js_thread_count js;
          e_evt_done := false |} |}.

(** [WaitForSingleObject(evt_done)] then [load_u64(&best_m)]: the workers
    run along [sched] until the event is signalled.  Returns the best [m],
    the unused schedule and the system. *)
Fixpoint epoch_wait (fuel : nat) (sched : list nat) (sys : System)
    : result (Z * list nat * System) :=
  if e_evt_done (js_epoch (sys_js sys)) then
    Ok (e_best_m (js_epoch (sys_js sys)), sched, sys)
  else
    match sched with
    | [] => OutOfFuel
    | i :: sched' =>
        let* sys' := system_step fuel i sys in epoch_wait fuel sched' sys'
    end.

Definition safe_add_u64 (a b : Z) : Z :=
  let c := wrap64 (a + b) in
  if c <? a then UINT64_MAX else c.

Definition set_js (sys : System) (js : JobSystem) : System :=
  {| sys_js := js; sys_w := sys_w sys |}.

Definition set_epoch (js : JobSystem) (e : Epoch) : JobSystem :=
  {| js_iocp := js_iocp js; js_thread_count := js_thread_count js;
     js_epoch := e |}.

Definition set_primes (e : Epoch) (pl : PrimeList) : Epoch :=
  {| e_k := e_k e; e_tile_len := e_tile_len e; e_step := e_step e;
     e_start_m := e_start_m e; e_end_m := e_end_m e; e_primes := pl;
     e_fd := e_fd e; e_step_mod := e_step_mod e;
     e_best_m := e_best_m e; e_end_limit := e_end_limit e;
     e_active_workers := e_active_workers e; e_evt_done := e_evt_done e |}.

(** The prelude of [find_m_for_k]: the prime list and the per-k arrays. *)
Definition find_m_setup (heap : Allocator) (fuel : nat) (js : JobSystem)
    (k tile_len : Z) : result JobSystem :=
  let e := js_epoch js in
  let* primes := primes_upto heap fuel k in
  let e :=
    {| e_k := k; e_tile_len := tile_len;
       e_step := wrap64 (tile_len * js_thread_count js);
       e_start_m := e_start_m e; e_end_m := e_end_m e; e_primes := primes;
       e_fd := e_fd e; e_step_mod := e_step_mod e;
       e_best_m := e_best_m e; e_end_limit := e_end_limit e;
       e_active_workers := e_active_workers e;
       e_evt_done := e_evt_done e |} in
  Ok (set_epoch js (epoch_prepare_math e)).

(** The [for (;;)] over the batches, with [n] batches of fuel. *)
Fixpoint find_m_batches (n : nat) (fuel : nat) (sched : list nat)
    (sys : System) (k cur tile_len batch_tiles : Z)
    : result (Z * list nat * System) :=
  match n with
  | O => OutOfFuel
  | Datatypes.S n' =>
      let span := wrap64 (tile_len * batch_tiles) in
      let span := if span =? 0 then tile_len else span in
      let end_ := safe_add_u64 cur (wrap64 (span - 1)) in
      let sys := set_js sys (epoch_begin (sys_js sys) k cur end_ tile_len) in
      let* (best, sched, sys) := epoch_wait fuel sched sys in
      if negb (best =? UINT64_MAX) then
        let js := sys_js sys in
        let e := epoch_free_math
                   (set_primes (js_epoch js) (primes_free (e_primes (js_epoch js)))) in
        Ok (best, sched, set_js sys (set_epoch js e))
      else
        find_m_batches n' fuel sched sys k (safe_add_u64 end_ 1) tile_len
          batch_tiles
  end.

(** Find minimal m(k) by scanning contiguous batches. *)
Definition find_m_for_k (heap : Allocator) (fuel : nat) (sched : list nat)
    (sys : System) (k start_m tile_len batch_tiles : Z)
    : result (Z * list nat * System) :=
  let* js := find_m_setup heap fuel (sys_js sys) k tile_len in
  find_m_batches fuel fuel sched (set_js sys js) k start_m tile_len batch_tiles.

(** ** Main *)

(** The state of the loop over [k] in [main]: the counter, [last_m],
    [last_print], the rows printed so far, the schedule left and the
    process. *)
Record MainState : Type := mkMainState {
  ms_k : Z;
  ms_last_m : Z;
  ms_last_print : Z;
  ms_out : list (Z * Z);
  ms_sched : list nat;
  ms_sys : System
}.

(** The system once [start_workers] has created [threads] parked workers. *)
Definition system_started (threads : Z) : System :=
  {| sys_js :=
       {| js_iocp := []; js_thread_count := threads;
          js_epoch :=
            {| e_k := 0; e_tile_len := 0; e_step := 0; e_start_m := 0;
               e_end_m := 0; e_primes := PrimeList_zero; e_fd := [];
               e_step_mod := []; e_best_m := 0; e_end_limit := 0;
               e_active_workers := 0; e_evt_done := false |} |};
     sys_w :=
       map (fun i =>
              {| w_tid := i; w_residual := []; w_bad_bits := [];
                 w_cap_win_len := 0; w_off := []; w_off_cap := 0;
                 w_pc := Parked |})
           (seqZ 0 threads) |}.

(** The loop [for (uint32_t k = 1; k <= K; ++k)] of [main]; the result is
    the list of rows [(k, m)] printed after the header line. *)
Definition main_loop (heap : Allocator) (fuel : nat) (sched : list nat)
    (K threads tile_len batch_tiles : Z) : result (list (Z * Z)) :=
  let* st :=
    while_loop fuel (fun st => ms_k st <=? K)
      (fun st =>
         let* (m, sched, sys) :=
           find_m_for_k heap fuel (ms_sched st) (ms_sys st) (ms_k st)
             (ms_last_m st) tile_len batch_tiles in
         Ok {| ms_k := wrap32 (ms_k st + 1);
               ms_last_m := m;
               ms_last_print :=
                 if negb (m =? ms_last_print st) then m else ms_last_print st;
               ms_out :=
                 if negb (m =? ms_last_print st) then ms_out st ++ [(ms_k st, m)]
                 else ms_out st;
               ms_sched := sched;
               ms_sys := sys |})
      {| ms_k := 1; ms_last_m := 0; ms_last_print := UINT64_MAX;
         ms_out := []; ms_sched := sched;
         ms_sys := system_started threads |} in
  Ok (ms_out st).

(** ** Specification predicates *)

(** At [LimCas] the thread has just seen [new_lim < old_lim] fail to hold the
    other way round: it is only reached from the check in [LimLoad]. *)
Definition lim_cas_checked (pc : WorkerPc) : Prop :=
  match pc with
  | LimCas _ new_lim old_lim => new_lim < old_lim
  | _ => True
  end.

Definition sys_epoch (sys : System) : Epoch := js_epoch (sys_js sys).

(** Number of set bits among the positions [0 .. n-1]. *)
Definition bits_upto (bits : list Z) (n : Z) : Z :=
  for_range 0 n (fun i c => c + bitset_get bits i) 0.

(** The window [s .. s+k-1] has no bit set / has every bit set. *)
Definition window_clear (bits : list Z) (k s : Z) : Prop :=
  forall j, s <= j < s + k -> bitset_get bits j = 0.
Definition window_full (bits : list Z) (k s : Z) : Prop :=
  forall j, s <= j < s + k -> bitset_get bits j = 1.

(** [s] is the first start position below [start_count] whose window
    satisfies [W]. *)
Definition first_window (W : Z -> Prop) (start_count s : Z) : Prop :=
  0 <= s < start_count /\ W s /\ forall s', 0 <= s' < s -> ~ W s'.
Definition no_window (W : Z -> Prop) (start_count : Z) : Prop :=
  forall s, 0 <= s < start_count -> ~ W s.

(** The window scan as the specification words it (section 4.5): the same
    rolling count, a hit being [count == k]. *)
Fixpoint window_scan_normalized_from (n : nat) (k : Z) (bad_bits : list Z)
    (m0 s count : Z) : Z :=
  match n with
  | O => UINT64_MAX
  | Datatypes.S n' =>
      let count :=
        count + bitset_get bad_bits (s + k - 1) - bitset_get bad_bits (s - 1) in
      if count =? k then wrap64 (m0 + s)
      else window_scan_normalized_from n' k bad_bits m0 (s + 1) count
  end.

Definition window_scan_normalized (k start_count : Z) (bad_bits : list Z)
    (m0 : Z) : Z :=
  let count := bits_upto bad_bits k in
  if count =? k then m0
  else window_scan_normalized_from (Z.to_nat (start_count - 1)) k bad_bits
         m0 1 count.

(** The tile scan with the specification's scanner in place of the
    program's. *)
Definition scan_tile_normalized (fuel : nat) (e : Epoch)
    (m0 start_count : Z) (off residual bad_bits : list Z) : result Z :=
  let* (_, _, bad_bits) :=
    sieve_window_bad_bits_carried_fastdiv fuel e (wrap64 (m0 + 1)) start_count
      off residual bad_bits in
  Ok (window_scan_normalized (e_k e) start_count bad_bits m0).

(** Trial division: [n] has no divisor [d] with [1 < d < n]. *)
Definition prime_b (n : Z) : bool :=
  (1 <? n) && forallb (fun d => negb (n mod d =? 0)) (seqZ 2 (n - 2)).

(** The ordered list of the primes [<= k]. *)
Definition primes_le (k : Z) : list Z := List.filter prime_b (seqZ 2 (k - 1)).

(** [n] is k-smooth: a positive integer whose prime factors are all [<= k]. *)
Definition smooth (k n : Z) : Prop :=
  0 < n /\ forall p, Z.prime p -> (p | n) -> p <= k.

(** [o] is the least [i >= 0] with [base_test + i] divisible by [p]. *)
Definition least_offset (p base_test o : Z) : Prop :=
  0 <= o /\ (p | base_test + o) /\
  forall i, 0 <= i < o -> ~ (p | base_test + i).

(** What one visit of the inner loop leaves in [residual[i]]: [x] with every
    factor [p] divided out. *)
Definition stripped_of (p x x' : Z) : Prop :=
  1 <= x' /\ ~ (p | x') /\ exists t, 0 <= t /\ x = p ^ t * x'.

(** The prime table of the epoch is the ordered list of the primes [<= k],
    and [fd] holds their reciprocals. *)
Definition epoch_primes_ok (e : Epoch) : Prop :=
  default [] (pl_p (e_primes e)) = primes_le (e_k e) /\
  pl_count (e_primes e) = Z.of_nat (length (primes_le (e_k e))) /\
  pl_count (e_primes e) <= Z.of_nat (length (e_fd e)) /\
  forall pi, 0 <= pi < pl_count (e_primes e) ->
    aget (e_fd e) pi = fastdiv_u32_make_prime (primes_at (e_primes e) pi).

(** [step_mod[pi] = step % p]. *)
Definition epoch_step_mod_ok (e : Epoch) : Prop :=
  forall pi, 0 <= pi < pl_count (e_primes e) ->
    aget (e_step_mod e) pi = e_step e mod primes_at (e_primes e) pi.

(** [r] is [n] with every factor in [Q] divided out. *)
Definition stripped_by (Q : Z -> Prop) (n r : Z) : Prop :=
  1 <= r /\
  exists c, 1 <= c /\ n = c * r /\
    (forall q, Z.prime q -> (q | c) -> Q q) /\
    (forall q, Z.prime q -> Q q -> ~ (q | r)).

(** The primes at the indices below [pi]. *)
Definition primes_before (pl : PrimeList) (pi : Z) (q : Z) : Prop :=
  exists t, 0 <= t < pi /\ primes_at pl t = q.

(** [m] is a hit for [k]: none of [m+1 .. m+k] is k-smooth, that is, each
    has a prime factor above [k]. *)
Definition hit (k m : Z) : Prop :=
  forall j, 1 <= j <= k -> ~ smooth k (m + j).

(** The window of the specification: [m+1 .. m+k] are all k-smooth. *)
Definition all_smooth (k m : Z) : Prop :=
  forall j, 1 <= j <= k -> smooth k (m + j).

(** ** Example inputs *)

Definition heap_ok : Allocator :=
  {| calloc_ok := fun _ => true; malloc_ok := fun _ => true |}.

(** The epoch of [k = 1] (no primes), one thread, tiles of one start. *)
Definition epoch_k1 : Epoch :=
  {| e_k := 1; e_tile_len := 1; e_step := 1; e_start_m := 0; e_end_m := 0;
     e_primes := PrimeList_zero; e_fd := []; e_step_mod := [];
     e_best_m := UINT64_MAX; e_end_limit := 0; e_active_workers := 1;
     e_evt_done := false |}.

(** The epoch of [k = 5], one thread, tiles of four starts over [0 .. 7]. *)
Definition epoch_k5 : Epoch :=
  {| e_k := 5; e_tile_len := 4; e_step := 4; e_start_m := 0; e_end_m := 7;
     e_primes := {| pl_p := Some [2; 3; 5]; pl_count := 3 |};
     e_fd := [fastdiv_u32_make_prime 2; fastdiv_u32_make_prime 3;
              fastdiv_u32_make_prime 5];
     e_step_mod := [0; 1; 4];
     e_best_m := UINT64_MAX; e_end_limit := 7; e_active_workers := 1;
     e_evt_done := false |}.



(** The marks after the outer loop has handled every [q < i]. *)
Definition marks_upto (n i : Z) (mark : list Z) : Prop :=
  Z.of_nat (length mark) = n + 1 /\
  forall t, 0 <= t <= n ->
    (aget mark t = 0 \/ aget mark t = 1) /\
    (aget mark t = 1 -> exists d, 1 < d < t /\ (d | t)) /\
    (forall q, 2 <= q < i -> q * q <= t -> (q | t) -> aget mark t = 1).

(** ** Invariants of an epoch

    [e0] is the epoch as [epoch_begin] leaves it and [T] the thread count;
    [D] lists the workers that have taken a start packet so far. *)

(** The fields of the epoch that the workers never write. *)
Definition same_header (e e0 : Epoch) : Prop :=
  e_k e = e_k e0 /\ e_tile_len e = e_tile_len e0 /\ e_step e = e_step e0 /\
  e_start_m e = e_start_m e0 /\ e_end_m e = e_end_m e0 /\
  e_primes e = e_primes e0 /\ e_fd e = e_fd e0 /\
  e_step_mod e = e_step_mod e0.

(** [m] is a hit of the span [start_m .. end_m]. *)
Definition in_span (e0 : Epoch) (m : Z) : Prop :=
  e_start_m e0 <= m <= e_end_m e0 /\ hit (e_k e0) m.

(** The base of the [c]-th tile of worker [i]. *)
Definition tile_base (e0 : Epoch) (T i c : Z) : Z :=
  e_start_m e0 + (i + c * T) * e_tile_len e0.

Definition in_tile (e0 : Epoch) (T i c m : Z) : Prop :=
  tile_base e0 T i c <= m < tile_base e0 T i c + e_tile_len e0.

(** Every hit of the span inside the tile is at or above [best]. *)
Definition tile_covered (e0 : Epoch) (T best i c : Z) : Prop :=
  forall m, in_span e0 m -> in_tile e0 T i c m -> best <= m.

Definition offsets_for (e0 : Epoch) (base_test : Z) (off : list Z) : Prop :=
  pl_count (e_primes e0) <= Z.of_nat (length off) /\
  forall pi, 0 <= pi < pl_count (e_primes e0) ->
    least_offset (primes_at (e_primes e0) pi) base_test (aget off pi).

Definition bufs_ok (w : WorkerCtx) : Prop :=
  0 <= w_cap_win_len w <= Z.of_nat (length (w_residual w)) /\
  (w_cap_win_len w + 7) / 8 <= Z.of_nat (length (w_bad_bits w)) /\
  Z.of_nat (length (w_off w)) = w_off_cap w.

(** The worker is at tile [j]: [base] is that tile's base, the tiles before
    it are covered, and the carried offsets are those of [base_test]. *)
Definition at_tile (e0 : Epoch) (T best : Z) (i j base base_test : Z)
    (off : list Z) (covered_upto : Z) : Prop :=
  0 <= j /\ base = tile_base e0 T i j /\
  offsets_for e0 base_test off /\
  forall c, 0 <= c < covered_upto -> tile_covered e0 T best i c.

Definition worker_inv (e0 : Epoch) (T : Z) (e : Epoch) (D : list nat)
    (i : nat) (w : WorkerCtx) : Prop :=
  w_tid w = Z.of_nat i /\ bufs_ok w /\
  match w_pc w with
  | Parked =>
      i ∈ D -> forall c, 0 <= c -> tile_covered e0 T (e_best_m e) (Z.of_nat i) c
  | TileLoop base =>
      i ∈ D /\ exists j,
        at_tile e0 T (e_best_m e) (Z.of_nat i) j base (base + 1) (w_off w) j /\
        base <= e_end_m e0 + e_step e0
  | BestLoad base m =>
      i ∈ D /\ exists j,
        at_tile e0 T (e_best_m e) (Z.of_nat i) j base (base + e_step e0 + 1)
          (w_off w) j /\
        base <= e_end_m e0 /\ in_span e0 m /\
        forall m', in_span e0 m' -> in_tile e0 T (Z.of_nat i) j m' ->
          e_best_m e <= m' \/ m <= m'
  | BestCas base m cur =>
      i ∈ D /\ exists j,
        at_tile e0 T (e_best_m e) (Z.of_nat i) j base (base + e_step e0 + 1)
          (w_off w) j /\
        base <= e_end_m e0 /\ in_span e0 m /\
        (forall m', in_span e0 m' -> in_tile e0 T (Z.of_nat i) j m' ->
           e_best_m e <= m' \/ m <= m') /\
        m < cur /\ e_best_m e <= cur
  | LimLoad base new_lim =>
      i ∈ D /\ exists j,
        at_tile e0 T (e_best_m e) (Z.of_nat i) j base (base + e_step e0 + 1)
          (w_off w) (j + 1) /\
        base <= e_end_m e0 /\
        0 <= new_lim <= e_end_m e0 /\ e_best_m e <= new_lim + 1
  | LimCas base new_lim old_lim =>
      i ∈ D /\ exists j,
        at_tile e0 T (e_best_m e) (Z.of_nat i) j base (base + e_step e0 + 1)
          (w_off w) (j + 1) /\
        base <= e_end_m e0 /\
        0 <= new_lim <= e_end_m e0 /\ e_best_m e <= new_lim + 1 /\
        new_lim < old_lim
  | EpochDone | EpochSignal =>
      i ∈ D /\ forall c, 0 <= c -> tile_covered e0 T (e_best_m e) (Z.of_nat i) c
  | Exited => False
  end.

(** The worker has taken a start packet and has not yet decremented
    [active_workers]. *)
Definition is_running (pc : WorkerPc) : Z :=
  match pc with
  | Parked | EpochSignal | Exited => 0
  | _ => 1
  end.

(** The number of workers inside their tile loop. *)
Definition running (ws : list WorkerCtx) : Z :=
  foldr (fun w n => is_running (w_pc w) + n) 0 ws.

(** The worker has brought [active_workers] to 0 and is about to set the
    done event. *)
Definition is_signalling (pc : WorkerPc) : Z :=
  match pc with
  | EpochSignal => 1
  | _ => 0
  end.

Definition signalling (ws : list WorkerCtx) : Z :=
  foldr (fun w n => is_signalling (w_pc w) + n) 0 ws.

Definition atomics_inv (e0 e : Epoch) : Prop :=
  same_header e e0 /\
  (e_best_m e = UINT64_MAX \/ in_span e0 (e_best_m e)) /\
  0 <= e_end_limit e <= e_end_m e0 /\
  (e_end_limit e < e_end_m e0 -> e_best_m e <= e_end_limit e + 1).

Definition system_inv (e0 : Epoch) (T : Z) (D : list nat) (sys : System)
    : Prop :=
  let e := sys_epoch sys in
  atomics_inv e0 e /\
  (exists q : nat,
     js_iocp (sys_js sys) = replicate q KEY_START /\
     Z.of_nat (length D) + Z.of_nat q = T /\
     e_active_workers e = Z.of_nat q + running (sys_w sys)) /\
  ((if e_evt_done e then 1 else 0) + signalling (sys_w sys)
   = (if e_active_workers e =? 0 then 1 else 0)) /\
  Z.of_nat (length (sys_w sys)) = T /\
  (forall i w, sys_w sys !! i = Some w -> worker_inv e0 T e D i w) /\
  (forall i, i ∈ D -> Z.of_nat i < T).

(** The ranges an epoch must stay in for the machine arithmetic not to wrap,
    and the fuel the loops of one tile need. *)
Definition epoch_in_range (e0 : Epoch) (T : Z) (fuel : nat) : Prop :=
  1 <= e_k e0 /\ 1 <= e_tile_len e0 /\ 1 <= T /\
  e_step e0 = e_tile_len e0 * T /\
  0 <= e_start_m e0 <= e_end_m e0 /\
  e_end_m e0 + e_tile_len e0 * T + e_k e0 + 2 <= 2 ^ 64 /\
  e_tile_len e0 + 2 * e_k e0 + 8 <= 2 ^ 32 /\
  e_tile_len e0 + 2 * e_k e0 + 64 <= Z.of_nat fuel.

(** The workers that take a start packet along the schedule, in order. *)
Definition takes_start (sys : System) (i : nat) : bool :=
  match sys_w sys !! i, js_iocp (sys_js sys) with
  | Some w, key :: _ =>
      match w_pc w with
      | Parked => key =? KEY_START
      | _ => false
      end
  | _, _ => false
  end.

Fixpoint dequeues (fuel : nat) (sched : list nat) (sys : System) : list nat :=
  match sched with
  | [] => []
  | i :: sched' =>
      match system_step fuel i sys with
      | Ok sys' =>
          (if takes_start sys i then [i] else []) ++ dequeues fuel sched' sys'
      | _ => []
      end
  end.

(** The worker takes a start packet in this step: it is parked and there are
    [q > 0] packets queued. *)
Definition took_start (w : WorkerCtx) (q : nat) : bool :=
  match w_pc w, q with
  | Parked, Datatypes.S _ => true
  | _, _ => false
  end.

(** The process between epochs: nothing queued, every worker parked. *)
Definition workers_parked (sys : System) : Prop :=
  js_iocp (sys_js sys) = [] /\
  Z.of_nat (length (sys_w sys)) = js_thread_count (sys_js sys) /\
  forall i w, sys_w sys !! i = Some w ->
    w_tid w = Z.of_nat i /\ bufs_ok w /\ w_pc w = Parked.

(** [best] is the least hit of the span [start_m .. end_m], or
    [UINT64_MAX] when the span has none. *)
Definition least_hit_in (k start_m end_m best : Z) : Prop :=
  (start_m <= best <= end_m /\ hit k best /\
   forall m, start_m <= m <= end_m -> hit k m -> best <= m) \/
  (best = UINT64_MAX /\ forall m, start_m <= m <= end_m -> ~ hit k m).

(** The specification's reading: the least [m] of the span with
    [m+1 .. m+k] all k-smooth, or [UINT64_MAX]. *)
Definition least_all_smooth_in (k start_m end_m best : Z) : Prop :=
  (start_m <= best <= end_m /\ all_smooth k best /\
   forall m, start_m <= m <= end_m -> all_smooth k m -> best <= m) \/
  (best = UINT64_MAX /\ forall m, start_m <= m <= end_m -> ~ all_smooth k m).

(** ** Termination measure of an epoch *)

(** Tiles of a worker's stride from [base] on that can still start at or
    below [end_m]. *)
Definition tiles_left (e0 : Epoch) (base : Z) : Z :=
  (e_end_m e0 + e_step e0 - base) / e_step e0.

(** Steps a worker can still take if no other thread interferes; a compare
    and swap whose expected value is stale costs a retry. *)
Definition worker_measure (e0 : Epoch) (b l : Z) (pc : WorkerPc) : Z :=
  match pc with
  | Parked | Exited => 0
  | EpochSignal => 1
  | EpochDone => 2
  | TileLoop base => 7 * tiles_left e0 base + 3
  | BestLoad base _ => 7 * tiles_left e0 base
  | BestCas base _ cur =>
      7 * tiles_left e0 base + (if b =? cur then -1 else 1)
  | LimLoad base _ => 7 * tiles_left e0 base - 3
  | LimCas base _ old =>
      7 * tiles_left e0 base + (if l =? old then -4 else -2)
  end.

Definition workers_measure (e0 : Epoch) (b l : Z) (ws : list WorkerCtx) : Z :=
  foldr (fun w n => worker_measure e0 b l (w_pc w) + n) 0 ws.

(** Queued start packets weigh more than a whole stride, and each decrease
    of [best_m + end_limit] pays for the retries it causes. *)
Definition epoch_measure (e0 : Epoch) (T : Z) (sys : System) : Z :=
  let e := sys_epoch sys in
  Z.of_nat (length (js_iocp (sys_js sys)))
    * (7 * tiles_left e0 (e_start_m e0) + 4)
  + (e_best_m e + e_end_limit e) * (2 * T + 1)
  + workers_measure e0 (e_best_m e) (e_end_limit e) (sys_w sys).

(** Worker [i] is not blocked: it is inside its loop, or parked with a
    packet to take. *)
Definition effective (sys : System) (i : nat) : bool :=
  match sys_w sys !! i with
  | Some w =>
      match w_pc w with
      | Parked =>
          match js_iocp (sys_js sys) with [] => false | _ => true end
      | Exited => false
      | _ => true
      end
  | None => false
  end.

(** The number of steps of the schedule in which the scheduled worker was
    not blocked. *)
Fixpoint effective_steps (fuel : nat) (sched : list nat) (sys : System)
    : nat :=
  match sched with
  | [] => 0
  | i :: sched' =>
      match system_step fuel i sys with
      | Ok sys' =>
          ((if effective sys i then 1 else 0)
           + effective_steps fuel sched' sys')%nat
      | _ => 0%nat
      end
  end.

(** The base of a worker inside its loop is a tile base of the span. *)
Definition pc_in_range (e0 : Epoch) (pc : WorkerPc) : Prop :=
  match pc with
  | TileLoop base => base <= e_end_m e0 + e_step e0
  | BestLoad base _ | BestCas base _ _ | LimLoad base _ | LimCas base _ _ =>
      base <= e_end_m e0
  | _ => True
  end.

(** The process with [threads] workers after [find_m_setup] and
    [epoch_begin] for the span [start_m .. end_m]; then the workers run
    along [sched]. *)
Definition epoch_started (threads k start_m end_m tile_len : Z)
    : result System :=
  let* js1 :=
    find_m_setup heap_ok 200 (sys_js (system_started threads)) k tile_len in
  Ok (set_js (system_started threads)
        (epoch_begin js1 k start_m end_m tile_len)).

Definition epoch_run (threads k start_m end_m tile_len : Z)
    (sched : list nat) : result System :=
  let* sys0 := epoch_started threads k start_m end_m tile_len in
  run_workers 200 sched sys0.

(** ** Deciding smoothness, for the concrete scenarios *)

(** [n] with the factors [d] divided out, at most [fuel] times. *)
Fixpoint strip_factor (fuel : nat) (d n : Z) : Z :=
  match fuel with
  | O => n
  | Datatypes.S fuel' =>
      if n mod d =? 0 then strip_factor fuel' d (n / d) else n
  end.

Definition smooth_b (k n : Z) : bool :=
  (0 <? n) &&
  (for_range 2 (k + 1)
     (fun d r => strip_factor (Datatypes.S (Z.to_nat (Z.log2 r))) d r) n =? 1).

Definition hit_b (k m : Z) : bool :=
  forallb (fun j => negb (smooth_b k (m + j))) (seqZ 1 k).

(** [m] is a hit for [k] and no smaller [m' >= 0] is. *)
Definition least_hit_b (k m : Z) : bool :=
  hit_b k m && forallb (fun m' => negb (hit_b k m')) (seqZ 0 m).

(** The schedule of a single worker. *)
Definition sched_one : list nat := replicate 2000 0%nat.

(** One worker about to run [try_set_best(0)] (at tile base 0 of an epoch
    for [k = 1]) while [best_m = 5] and [end_limit = 7]. *)
Definition sys_best0 : System :=
  {| sys_js :=
       {| js_iocp := []; js_thread_count := 1;
          js_epoch := set_atomics epoch_k1 5 7 1 false |};
     sys_w :=
       [ {| w_tid := 0; w_residual := []; w_bad_bits := [];
            w_cap_win_len := 0; w_off := []; w_off_cap := 0;
            w_pc := BestLoad 0 0 |} ] |}.
From stdpp Require Import sorting.
Local Open Scope Z_scope.

(** ** Further parts of the program *)

(** [fastdiv_u32_divmod] as compiled with [FASTDIV_2X_CORRECT] set to 0: the
    second correction is left out. *)
Definition fastdiv_u32_divmod_1x (fd : FastDivU32) (n : Z) : Z * Z :=
  let d := fd_d fd in
  let q0 := mulhi_u64 n (fd_mul fd) in
  let rr := wrap64 (n - wrap64 (q0 * d)) in
  let '(q0, rr) := fastdiv_correct d (q0, rr) in
  (q0, wrap32 rr).

(** A worker of thread id 1 with no scratch buffers yet. *)
Definition worker_fresh : WorkerCtx :=
  {| w_tid := 1; w_residual := []; w_bad_bits := []; w_cap_win_len := 0;
     w_off := []; w_off_cap := 0; w_pc := Parked |}.

(** ** Thread pool stop *)

(** [stop_workers]: one [KEY_STOP] packet per thread. *)
Definition stop_workers (js : JobSystem) : JobSystem :=
  {| js_iocp :=
       for_range 0 (js_thread_count js) (fun _ q => q ++ [KEY_STOP])
         (js_iocp js);
     js_thread_count := js_thread_count js;
     js_epoch := js_epoch js |}.

Definition is_parked (pc : WorkerPc) : Z :=
  match pc with
  | Parked => 1
  | _ => 0
  end.

(** The number of workers blocked on the port. *)
Definition parked (ws : list WorkerCtx) : Z :=
  foldr (fun w n => is_parked (w_pc w) + n) 0 ws.

(** While the pool shuts down: only stop packets are queued, one for each
    worker still parked; the workers in [V] have exited. *)
Definition stopping (e : Epoch) (V : list nat) (sys : System) : Prop :=
  js_epoch (sys_js sys) = e /\
  (exists q : nat,
     js_iocp (sys_js sys) = replicate q KEY_STOP /\
     Z.of_nat q = parked (sys_w sys)) /\
  forall i w, sys_w sys !! i = Some w ->
    (i ∈ V -> w_pc w = Exited) /\ (i ∉ V -> w_pc w = Parked).

(** ** The batches of [find_m_for_k] *)

(** The length of a batch: [tile_len * batch_tiles], or [tile_len] when that
    product is 0. *)
Definition batch_span (tile_len batch_tiles : Z) : Z :=
  let span := wrap64 (tile_len * batch_tiles) in
  if span =? 0 then tile_len else span.

(** The process between two epochs of the search for [k]: the pool is
    quiescent and the per-k tables are in place. *)
Definition epoch_ready (k tile_len : Z) (sys : System) : Prop :=
  workers_parked sys /\
  epoch_primes_ok (sys_epoch sys) /\ epoch_step_mod_ok (sys_epoch sys) /\
  e_k (sys_epoch sys) = k /\
  e_step (sys_epoch sys) = tile_len * js_thread_count (sys_js sys).

(** [m] is the least [m' >= lo] such that none of [m'+1 .. m'+k] is
    k-smooth. *)
Definition least_hit_from (k lo m : Z) : Prop :=
  lo <= m /\ hit k m /\ forall m', lo <= m' < m -> ~ hit k m'.

(** A fair schedule of two workers. *)
Definition sched_two : list nat := concat (replicate 200 [0; 1]%nat).

(** ** The table [main] prints *)

(** Rows are printed with increasing [k] and increasing [m]. *)
Definition rows_lt (a b : Z * Z) : Prop := fst a < fst b /\ snd a < snd b.

(** Reading the table: the value for [k] is the [m] of the last row whose
    index is at most [k] (rows that would repeat the previous [m] are not
    printed). *)
Definition plateau (rows : list (Z * Z)) (k : Z) : Z :=
  foldl (fun acc r => if fst r <=? k then snd r else acc) 0 rows.

(** The invariant of the loop over [k] in [main]: what holds of the rows
    printed so far. *)
Definition table_inv (K T : Z) (st : MainState) : Prop :=
  1 <= ms_k st <= K + 1 /\
  workers_parked (ms_sys st) /\
  js_thread_count (sys_js (ms_sys st)) = T /\
  0 <= ms_last_m st /\
  StronglySorted rows_lt (ms_out st) /\
  Forall (fun r => 1 <= fst r < ms_k st /\ hit (fst r) (snd r) /\
                   snd r <= ms_last_m st) (ms_out st) /\
  (ms_k st = 1 ->
   ms_out st = [] /\ ms_last_print st = UINT64_MAX /\ ms_last_m st = 0) /\
  (1 < ms_k st ->
   ms_last_print st = ms_last_m st /\
   plateau (ms_out st) (ms_k st - 1) = ms_last_m st /\
   exists m, head (ms_out st) = Some (1, m)) /\
  (T = 1 ->
   forall k, 1 <= k < ms_k st -> least_hit_from k 0 (plateau (ms_out st) k)).

(** The same with the bound on [last_m] that [fuel] batches per search
    give. *)
Definition main_inv (fuel : nat) (K T tile_len batch_tiles : Z)
    (st : MainState) : Prop :=
  table_inv K T st /\
  ms_last_m st
    <= (ms_k st - 1) * (Z.of_nat fuel * batch_span tile_len batch_tiles).

(** The state of the loop of [main] after the search for [ms_k st] has
    returned [m], the schedule [sched] and the process [sys]. *)
Definition main_next (st : MainState) (m : Z) (sched : list nat)
    (sys : System) : MainState :=
  {| ms_k := wrap32 (ms_k st + 1);
     ms_last_m := m;
     ms_last_print :=
       if negb (m =? ms_last_print st) then m else ms_last_print st;
     ms_out :=
       if negb (m =? ms_last_print st) then ms_out st ++ [(ms_k st, m)]
       else ms_out st;
     ms_sched := sched;
     ms_sys := sys |}.


(** ** Thread pool start and waiting *)

Definition MAXIMUM_WAIT_OBJECTS : Z := 64.

(** [wait_all_threads]: the result lists the calls
    [WaitForMultipleObjects(n, th + i, TRUE, INFINITE)] as pairs [(i, n)]. *)
Definition wait_all_threads (fuel : nat) (count : Z) : result (list (Z * Z)) :=
  let MAXW := MAXIMUM_WAIT_OBJECTS in
  let* (_, calls) :=
    while_loop fuel (fun '(i, _) => i <? count)
      (fun '(i, calls) =>
         let n := if wrap32 (count - i) >? MAXW then MAXW
                  else wrap32 (count - i) in
         Ok (wrap32 (i + n), calls ++ [(i, n)]))
      (0, []) in
  Ok calls.

(** The handles one call waits on. *)
Definition waited (call : Z * Z) : list Z := seqZ (fst call) (snd call).

Definition wrap16 (x : Z) : Z := x mod 2 ^ 16.

(** The processor groups of the machine: [os !! g] is what
    [GetActiveProcessorCount(g)] returns, and the length of [os] what
    [GetActiveProcessorGroupCount()] returns. *)
Definition count_total_logical (os : list Z) : Z :=
  for_range 0 (Z.of_nat (length os))
    (fun g total => wrap32 (total + wrap32 (aget os g))) 0.

(** [w[i]] once its thread runs: the array was zeroed by [calloc], the
    thread id is set, and the thread blocks on the completion port. *)
Definition new_worker (i : Z) : WorkerCtx :=
  {| w_tid := i; w_residual := []; w_bad_bits := []; w_cap_win_len := 0;
     w_off := []; w_off_cap := 0; w_pc := Parked |}.

(** The locals of [start_workers]: the count [i] of threads started, the
    entries of [w] filled so far, the affinity (group, core) given to each
    thread, and the value of an early [return]. *)
Record Pool : Type := mkPool {
  p_i : Z;
  p_w : list WorkerCtx;
  p_aff : list (Z * Z);
  p_ret : option bool
}.

(** The loop over the cores of group [g].  [cap] is the number of entries
    of the arrays [w] and [threads]; [thread_ok i] tells whether
    [CreateThread] and [SetThreadGroupAffinity] succeed for thread [i]. *)
Definition start_workers_group (fuel : nat) (thread_ok : Z -> bool)
    (cap tc g cores : Z) (p : Pool) : result Pool :=
  let* (_, p) :=
    while_loop fuel
      (fun '(c, p) =>
         match p_ret p with
         | Some _ => false
         | None => (c <? cores) && (p_i p <? tc)
         end)
      (fun '(c, p) =>
         let i := p_i p in
         if cap <=? i then Undefined            (* w[i] out of bounds *)
         else if negb (thread_ok i) then
           Ok (c, {| p_i := i; p_w := p_w p; p_aff := p_aff p;
                     p_ret := Some false |})   (* return 0 *)
         else
           Ok (wrap32 (c + 1),
               {| p_i := wrap32 (i + 1); p_w := p_w p ++ [new_worker i];
                  p_aff := p_aff p ++ [(g, c)]; p_ret := None |}))
      (0, p) in
  Ok p.

(** Returns the result of [start_workers], [js] with its thread count
    clamped, the entries of [w] that got a thread and their affinities. *)
Definition start_workers (os : list Z) (thread_ok : Z -> bool) (fuel : nat)
    (cap : Z) (js : JobSystem)
    : result (bool * JobSystem * list WorkerCtx * list (Z * Z)) :=
  let total := count_total_logical os in
  let tc := js_thread_count js in
  let tc := if tc =? 0 then total else tc in
  let tc := if tc >? total then total else tc in
  let groups := Z.of_nat (length os) in
  let* (_, p) :=
    while_loop fuel
      (fun '(g, p) =>
         match p_ret p with
         | Some _ => false
         | None => (g <? groups) && (p_i p <? tc)
         end)
      (fun '(g, p) =>
         let cores := aget os g in
         (* defensive: groups are max 64 LPs *)
         let cores := if cores >? 64 then 64 else cores in
         let* p := start_workers_group fuel thread_ok cap tc g cores p in
         Ok (wrap16 (g + 1), p))
      (0, {| p_i := 0; p_w := []; p_aff := []; p_ret := None |}) in
  let ret :=
    match p_ret p with
    | Some b => b
    | None => p_i p =? tc
    end in
  Ok (ret,
      {| js_iocp := js_iocp js; js_thread_count := tc;
         js_epoch := js_epoch js |},
      p_w p, p_aff p).

(** The cores of the groups before [g]. *)
Definition cores_before (os : list Z) (g : Z) : Z :=
  for_range 0 g (fun g' t => t + aget os g') 0.
(** ** Arithmetic helpers *)

Lemma two_p_32 : 2 ^ 32 = 4294967296.
Proof. reflexivity. Qed.

Lemma two_p_64 : 2 ^ 64 = 18446744073709551616.
Proof. reflexivity. Qed.

Lemma two_p_128 : 2 ^ 128 = 340282366920938463463374607431768211456.
Proof. reflexivity. Qed.

Lemma wrap64_small x : 0 <= x < 2 ^ 64 -> wrap64 x = x.
Proof. intros H. unfold wrap64. apply Z.mod_small. exact H. Qed.

Lemma wrap32_small x : 0 <= x < 2 ^ 32 -> wrap32 x = x.
Proof. intros H. unfold wrap32. apply Z.mod_small. exact H. Qed.

Lemma wrap64_range x : 0 <= wrap64 x < 2 ^ 64.
Proof. unfold wrap64. apply Z.mod_pos_bound. reflexivity. Qed.

Lemma wrap32_range x : 0 <= wrap32 x < 2 ^ 32.
Proof. unfold wrap32. apply Z.mod_pos_bound. reflexivity. Qed.

Lemma mulhi_u64_spec a b :
  0 <= a < 2 ^ 64 -> 0 <= b < 2 ^ 64 -> mulhi_u64 a b = a * b / 2 ^ 64.
Proof.
  intros Ha Hb. unfold mulhi_u64.
  assert (Hab : 0 <= a * b < 2 ^ 128).
  { change (2 ^ 128) with (2 ^ 64 * 2 ^ 64). nia. }
  rewrite (Z.mod_small _ _ Hab), Z.shiftr_div_pow2 by lia.
  apply wrap64_small. split.
  - apply Z.div_pos; lia.
  - apply Z.div_lt_upper_bound; [lia|].
    change (2 ^ 64 * 2 ^ 64) with (2 ^ 128). lia.
Qed.

(** The reciprocal estimate is the true quotient or one below it. *)
Lemma mulhi_estimate d n :
  1 <= d < 2 ^ 32 -> 0 <= n < 2 ^ 64 ->
  let q0 := n * (UINT64_MAX / d) / 2 ^ 64 in
  n / d - 1 <= q0 <= n / d.
Proof.
  intros Hd Hn q0.
  set (mu := UINT64_MAX / d).
  assert (Hmu : d * mu <= UINT64_MAX < d * mu + d).
  { pose proof (Z.div_mod UINT64_MAX d ltac:(lia)) as E.
    pose proof (Z.mod_pos_bound UINT64_MAX d ltac:(lia)) as B.
    fold mu in E. lia. }
  unfold UINT64_MAX in Hmu.
  pose proof (Z.div_mod n d ltac:(lia)) as En.
  pose proof (Z.mod_pos_bound n d ltac:(lia)) as Bn.
  set (q := n / d) in *. set (r := n mod d) in *.
  assert (Hq : 0 <= q). { apply Z.div_pos; lia. }
  assert (Hmu0 : 0 <= mu). { apply Z.div_pos; unfold UINT64_MAX; lia. }
  split.
  - (* (q - 1) * 2^64 <= n * mu *)
    apply Z.div_le_lower_bound; [lia|].
    assert (2 ^ 64 * q <= d * mu * q + d * q) by nia.
    assert (d * q <= n) by lia.
    assert (n * mu = d * q * mu + r * mu) by (rewrite En at 1; ring).
    assert (0 <= r * mu) by nia.
    nia.
  - (* n * mu < (q + 1) * 2^64 *)
    apply Z.lt_succ_r. apply Z.div_lt_upper_bound; [lia|].
    assert (n < d * (q + 1)) by lia.
    assert (n * mu <= (d * (q + 1) - 1) * mu) by nia.
    assert (d * mu * (q + 1) <= (2 ^ 64 - 1) * (q + 1)) by nia.
    nia.
Qed.

Lemma fastdiv_u32_divmod_general d n :
  1 <= d < 2 ^ 32 -> d <> 2 -> 0 <= n < 2 ^ 64 ->
  fastdiv_u32_divmod (fastdiv_u32_make_prime d) n = (n / d, n mod d).
Proof.
  intros Hd Hd2 Hn.
  unfold fastdiv_u32_divmod, fastdiv_u32_make_prime; cbn [fd_d fd_mul].
  destruct (Z.eqb_spec d 2) as [|_]; [contradiction|].
  assert (Hmu : 0 <= UINT64_MAX / d < 2 ^ 64).
  { split; [apply Z.div_pos; unfold UINT64_MAX; lia|].
    apply Z.div_lt_upper_bound; unfold UINT64_MAX; nia. }
  rewrite mulhi_u64_spec by assumption.
  pose proof (mulhi_estimate d n Hd Hn) as Hq0. cbv zeta in Hq0.
  set (q0 := n * (UINT64_MAX / d) / 2 ^ 64) in *.
  pose proof (Z.div_mod n d ltac:(lia)) as En.
  pose proof (Z.mod_pos_bound n d ltac:(lia)) as Bn.
  set (q := n / d) in *. set (r := n mod d) in *.
  assert (Hq : 0 <= q). { apply Z.div_pos; lia. }
  assert (Hq00 : 0 <= q0).
  { apply Z.div_pos; [|lia]. apply Z.mul_nonneg_nonneg; lia. }
  assert (Hqd : 0 <= q0 * d <= n) by nia.
  rewrite (wrap64_small (q0 * d)) by lia.
  rewrite (wrap64_small (n - q0 * d)) by lia.
  assert (Hcase : q0 = q \/ q0 = q - 1) by lia.
  destruct Hcase as [-> | ->].
  - replace (n - q * d) with r by lia.
    unfold fastdiv_correct.
    destruct (Z.geb_spec r d); [lia|].
    destruct (Z.geb_spec r d); [lia|].
    rewrite wrap32_small by lia. reflexivity.
  - replace (n - (q - 1) * d) with (r + d) by lia.
    unfold fastdiv_correct at 2.
    destruct (Z.geb_spec (r + d) d); [|lia].
    rewrite (wrap64_small (q - 1 + 1)), (wrap64_small (r + d - d)) by nia.
    replace (q - 1 + 1) with q by lia. replace (r + d - d) with r by lia.
    unfold fastdiv_correct.
    destruct (Z.geb_spec r d); [lia|].
    rewrite wrap32_small by lia. reflexivity.
Qed.

Lemma fastdiv_u32_divmod_two n :
  0 <= n < 2 ^ 64 ->
  fastdiv_u32_divmod (fastdiv_u32_make_prime 2) n = (n / 2, n mod 2).
Proof.
  intros Hn.
  unfold fastdiv_u32_divmod, fastdiv_u32_make_prime; cbn [fd_d fd_mul].
  change (2 =? 2) with true. cbv iota.
  change (wrap64 (Z.shiftl 1 63)) with (2 ^ 63).
  rewrite mulhi_u64_spec by lia.
  assert (E : n * 2 ^ 63 / 2 ^ 64 = n / 2).
  { change (2 ^ 64) with (2 ^ 63 * 2).
    rewrite <- Z.div_div by lia. rewrite Z.div_mul by lia. reflexivity. }
  rewrite E.
  pose proof (Z.div_mod n 2 ltac:(lia)) as En.
  pose proof (Z.mod_pos_bound n 2 ltac:(lia)) as Bn.
  set (q := n / 2) in *. set (r := n mod 2) in *.
  rewrite (wrap64_small (q * 2)) by lia.
  rewrite (wrap64_small (n - q * 2)) by lia.
  replace (n - q * 2) with r by lia.
  unfold fastdiv_correct.
  destruct (Z.geb_spec r 2); [lia|]. cbv beta iota.
  destruct (Z.geb_spec r 2); [lia|].
  rewrite wrap32_small by lia. reflexivity.
Qed.

Lemma fastdiv_u32_divmod_correct d n :
  1 <= d < 2 ^ 32 -> 0 <= n < 2 ^ 64 ->
  fastdiv_u32_divmod (fastdiv_u32_make_prime d) n = (n / d, n mod d).
Proof.
  intros Hd Hn. destruct (Z.eq_dec d 2) as [->|Hne].
  - apply fastdiv_u32_divmod_two. exact Hn.
  - apply fastdiv_u32_divmod_general; assumption.
Qed.

(** ** Loop rules *)

Lemma rbind_Ok {A B} (r : result A) (f : A -> result B) b :
  rbind r f = Ok b -> exists a, r = Ok a /\ f a = Ok b.
Proof. destruct r; simpl; intros H; try discriminate. eauto. Qed.

(** Total correctness of [while_loop]: an invariant [I] kept by the body and
    a variant [V] that the body decreases and the invariant keeps
    non-negative. *)
Lemma while_loop_total {S : Type} (I : S -> Prop) (V : S -> Z)
    (cond : S -> bool) (body : S -> result S) :
  (forall s, I s -> 0 <= V s) ->
  (forall s, I s -> cond s = true ->
     exists s', body s = Ok s' /\ I s' /\ V s' < V s) ->
  forall fuel s, I s -> V s < Z.of_nat fuel ->
    exists s', while_loop fuel cond body s = Ok s' /\ I s' /\ cond s' = false.
Proof.
  intros Hpos Hstep fuel. induction fuel as [|fuel IH]; intros s HI HV.
  - specialize (Hpos s HI). lia.
  - simpl. destruct (cond s) eqn:Hc.
    + destruct (Hstep s HI Hc) as (s' & -> & HI' & Hlt). simpl.
      apply IH; [exact HI'|]. lia.
    + exists s. auto.
Qed.

(** Partial correctness: whatever the fuel, a finished loop ends in a state
    of the invariant where the condition is false. *)
Lemma while_loop_partial {S : Type} (I : S -> Prop)
    (cond : S -> bool) (body : S -> result S) :
  (forall s s', I s -> cond s = true -> body s = Ok s' -> I s') ->
  forall fuel s s', I s -> while_loop fuel cond body s = Ok s' ->
    I s' /\ cond s' = false.
Proof.
  intros Hstep fuel. induction fuel as [|fuel IH]; intros s s' HI Hrun.
  - discriminate.
  - simpl in Hrun. destruct (cond s) eqn:Hc.
    + apply rbind_Ok in Hrun as (s1 & Hb & Hrun).
      eapply IH; [|exact Hrun]. eapply Hstep; eauto.
    + injection Hrun as <-. auto.
Qed.

Lemma for_range_empty {S : Type} lo hi (body : Z -> S -> S) s :
  hi <= lo -> for_range lo hi body s = s.
Proof.
  intros H. unfold for_range.
  replace (seqZ lo (hi - lo)) with (@nil Z); [reflexivity|].
  symmetry. apply length_zero_iff_nil. rewrite length_seqZ. lia.
Qed.

Lemma for_range_snoc {S : Type} lo hi (body : Z -> S -> S) s :
  lo <= hi ->
  for_range lo (hi + 1) body s = body hi (for_range lo hi body s).
Proof.
  intros H. unfold for_range.
  replace (hi + 1 - lo) with (Z.of_nat (Datatypes.S (Z.to_nat (hi - lo)))) by lia.
  rewrite seqZ_S, foldl_snoc.
  replace (Z.of_nat (Z.to_nat (hi - lo))) with (hi - lo) by lia.
  replace (lo + (hi - lo)) with hi by lia. reflexivity.
Qed.

Lemma for_range_inv {S : Type} (I : Z -> S -> Prop) lo hi
    (body : Z -> S -> S) s :
  lo <= hi -> I lo s ->
  (forall i s, lo <= i < hi -> I i s -> I (i + 1) (body i s)) ->
  I hi (for_range lo hi body s).
Proof.
  intros Hle H0 Hstep.
  assert (G : forall n : nat, lo + Z.of_nat n <= hi ->
            I (lo + Z.of_nat n) (for_range lo (lo + Z.of_nat n) body s)).
  { induction n as [|n IH]; intros Hn.
    - rewrite Z.add_0_r, for_range_empty by lia. exact H0.
    - replace (lo + Z.of_nat (Datatypes.S n)) with (lo + Z.of_nat n + 1) by lia.
      rewrite for_range_snoc by lia. apply Hstep; [lia|]. apply IH. lia. }
  specialize (G (Z.to_nat (hi - lo))).
  replace (lo + Z.of_nat (Z.to_nat (hi - lo))) with hi in G by lia.
  apply G. lia.
Qed.

Lemma rfoldl_snoc {S B : Type} (f : S -> B -> result S) s l b :
  rfoldl f s (l ++ [b]) = let* s' := rfoldl f s l in f s' b.
Proof.
  revert s. induction l as [|a l IH]; intros s; simpl.
  - destruct (f s b); reflexivity.
  - destruct (f s a); simpl; auto.
Qed.

Lemma rfoldl_app {S B : Type} (f : S -> B -> result S) s l1 l2 :
  rfoldl f s (l1 ++ l2) = let* s' := rfoldl f s l1 in rfoldl f s' l2.
Proof.
  revert s. induction l1 as [|a l IH]; intros s; simpl.
  - reflexivity.
  - destruct (f s a); simpl; auto.
Qed.

Lemma for_range_r_empty {S : Type} lo hi (body : Z -> S -> result S) s :
  hi <= lo -> for_range_r lo hi body s = Ok s.
Proof.
  intros H. unfold for_range_r.
  replace (seqZ lo (hi - lo)) with (@nil Z); [reflexivity|].
  symmetry. apply length_zero_iff_nil. rewrite length_seqZ. lia.
Qed.

Lemma for_range_r_snoc {S : Type} lo hi (body : Z -> S -> result S) s :
  lo <= hi ->
  for_range_r lo (hi + 1) body s =
  let* s' := for_range_r lo hi body s in body hi s'.
Proof.
  intros H. unfold for_range_r.
  replace (hi + 1 - lo) with (Z.of_nat (Datatypes.S (Z.to_nat (hi - lo)))) by lia.
  rewrite seqZ_S, rfoldl_snoc.
  replace (Z.of_nat (Z.to_nat (hi - lo))) with (hi - lo) by lia.
  replace (lo + (hi - lo)) with hi by lia. reflexivity.
Qed.

(** A failing body is never reached when each step keeps the invariant. *)
Lemma for_range_r_inv {S : Type} (I : Z -> S -> Prop) lo hi
    (body : Z -> S -> result S) s :
  lo <= hi -> I lo s ->
  (forall i s, lo <= i < hi -> I i s ->
     exists s', body i s = Ok s' /\ I (i + 1) s') ->
  exists s', for_range_r lo hi body s = Ok s' /\ I hi s'.
Proof.
  intros Hle H0 Hstep.
  assert (G : forall n : nat, lo + Z.of_nat n <= hi ->
            exists s', for_range_r lo (lo + Z.of_nat n) body s = Ok s' /\
                       I (lo + Z.of_nat n) s').
  { induction n as [|n IH]; intros Hn.
    - rewrite Z.add_0_r, for_range_r_empty by lia. eauto.
    - replace (lo + Z.of_nat (Datatypes.S n)) with (lo + Z.of_nat n + 1) by lia.
      rewrite for_range_r_snoc by lia.
      destruct IH as (s1 & -> & H1); [lia|]. simpl.
      apply Hstep; [lia|exact H1]. }
  specialize (G (Z.to_nat (hi - lo))).
  replace (lo + Z.of_nat (Z.to_nat (hi - lo))) with hi in G by lia.
  apply G. lia.
Qed.

Lemma for_range_r_partial {S : Type} (I : Z -> S -> Prop) lo hi
    (body : Z -> S -> result S) s s' :
  lo <= hi -> I lo s ->
  (forall i s s', lo <= i < hi -> I i s -> body i s = Ok s' -> I (i + 1) s') ->
  for_range_r lo hi body s = Ok s' -> I hi s'.
Proof.
  intros Hle H0 Hstep.
  assert (G : forall n : nat, lo + Z.of_nat n <= hi -> forall s',
            for_range_r lo (lo + Z.of_nat n) body s = Ok s' ->
            I (lo + Z.of_nat n) s').
  { induction n as [|n IH]; intros Hn s1 Hrun.
    - rewrite Z.add_0_r, for_range_r_empty in Hrun by lia.
      injection Hrun as <-. rewrite Z.add_0_r. exact H0.
    - replace (lo + Z.of_nat (Datatypes.S n)) with (lo + Z.of_nat n + 1) in * by lia.
      rewrite for_range_r_snoc in Hrun by lia.
      apply rbind_Ok in Hrun as (s2 & Hrun & Hb).
      eapply Hstep; [| |exact Hb]; [lia|]. apply IH; [lia|exact Hrun]. }
  specialize (G (Z.to_nat (hi - lo))).
  replace (lo + Z.of_nat (Z.to_nat (hi - lo))) with hi in G by lia.
  apply G. lia.
Qed.

(** ** Array access *)

Lemma aget_aset_eq {A} `{Inhabited A} (a : list A) i v :
  0 <= i < Z.of_nat (length a) -> aget (aset a i v) i = v.
Proof.
  intros Hi. unfold aget, aset.
  apply list_lookup_total_insert_eq. lia.
Qed.

Lemma aget_aset_ne {A} `{Inhabited A} (a : list A) i j v :
  0 <= i -> 0 <= j -> i <> j -> aget (aset a i v) j = aget a j.
Proof.
  intros Hi Hj Hne. unfold aget, aset.
  apply list_lookup_total_insert_ne. lia.
Qed.

Lemma length_aset {A} (a : list A) i v : length (aset a i v) = length a.
Proof. unfold aset. apply length_insert. Qed.

Lemma aget_replicate {A} `{Inhabited A} n (x : A) i :
  0 <= i < Z.of_nat n -> aget (replicate n x) i = x.
Proof.
  intros Hi. unfold aget. apply list_lookup_total_correct.
  apply lookup_replicate_2. lia.
Qed.

(** ** FastDiv on primes *)

Lemma odd_prime_reciprocal p :
  Z.prime p -> p <> 2 -> UINT64_MAX / p = 2 ^ 64 / p.
Proof.
  intros Hp Hne.
  assert (Hp1 : 1 < p) by (destruct Hp; assumption).
  assert (Hnd : ~ (p | 2 ^ 64)).
  { intros Hd. apply Hne.
    apply (Z.divide_prime_pp p 2 64); auto using Z.prime_2. lia. }
  pose proof (Z.div_mod (2 ^ 64) p ltac:(lia)) as E.
  pose proof (Z.mod_pos_bound (2 ^ 64) p ltac:(lia)) as B.
  assert (Hr : 2 ^ 64 mod p <> 0).
  { intros H0. apply Hnd. apply Z.mod_divide; [lia|exact H0]. }
  symmetry. apply (Z.div_unique UINT64_MAX p (2 ^ 64 / p) (2 ^ 64 mod p - 1)).
  - left. lia.
  - unfold UINT64_MAX. lia.
Qed.

(** C6: for every prime [p] (a [uint32_t]) and every 64-bit [n], the
    reciprocal is [2^63] for [p = 2] and [floor(2^64 / p)] for odd [p], and
    the multiply-high estimate followed by the two conditional corrections
    gives exactly the quotient [n / p] and the remainder [n mod p]; so
    [fastdiv_u32_mod] is [n mod p]. *)
Theorem fastdiv_prime_exact (p n : Z) :
  Z.prime p -> p < 2 ^ 32 -> 0 <= n < 2 ^ 64 ->
  fd_mul (fastdiv_u32_make_prime p) = (if p =? 2 then 2 ^ 63 else 2 ^ 64 / p) /\
  fastdiv_u32_divmod (fastdiv_u32_make_prime p) n = (n / p, n mod p) /\
  fastdiv_u32_mod (fastdiv_u32_make_prime p) n = n mod p.
Proof.
  intros Hp Hlt Hn.
  assert (Hp1 : 1 < p) by (destruct Hp; assumption).
  assert (E : fastdiv_u32_divmod (fastdiv_u32_make_prime p) n = (n / p, n mod p)).
  { apply fastdiv_u32_divmod_correct; lia. }
  split; [|split].
  - unfold fastdiv_u32_make_prime; cbn [fd_mul].
    destruct (Z.eqb_spec p 2) as [->|Hne]; [reflexivity|].
    apply odd_prime_reciprocal; assumption.
  - exact E.
  - unfold fastdiv_u32_mod. rewrite E. reflexivity.
Qed.

Lemma fastdiv_prime_exact_witness :
  fastdiv_u32_divmod (fastdiv_u32_make_prime 3) (2 ^ 64 - 1)
  = ((2 ^ 64 - 1) / 3, (2 ^ 64 - 1) mod 3).
Proof.
  apply (fastdiv_prime_exact 3 (2 ^ 64 - 1)); [exact Z.prime_3|lia|lia].
Defined.

Lemma fastdiv_u32_mod_correct d n :
  1 <= d < 2 ^ 32 -> 0 <= n < 2 ^ 64 ->
  fastdiv_u32_mod (fastdiv_u32_make_prime d) n = n mod d.
Proof.
  intros Hd Hn. unfold fastdiv_u32_mod.
  rewrite fastdiv_u32_divmod_correct by assumption. reflexivity.
Qed.

Lemma fastdiv_divide_if_divisible_correct d n :
  1 <= d < 2 ^ 32 -> 0 <= n < 2 ^ 64 ->
  fastdiv_u32_divide_if_divisible (fastdiv_u32_make_prime d) n =
  if n mod d =? 0 then (true, n / d) else (false, n).
Proof.
  intros Hd Hn. unfold fastdiv_u32_divide_if_divisible.
  rewrite fastdiv_u32_divmod_correct by assumption.
  destruct (n mod d =? 0); reflexivity.
Qed.

(** ** The end limit only shrinks *)

Lemma set_pc_pc w pc : w_pc (set_pc w pc) = pc.
Proof. reflexivity. Qed.

Lemma worker_step_end_limit fuel e iocp w e' iocp' w' :
  lim_cas_checked (w_pc w) ->
  worker_step fuel e iocp w = Ok (e', iocp', w') ->
  e_end_limit e' <= e_end_limit e /\ lim_cas_checked (w_pc w').
Proof.
  intros Hwf Hstep. unfold worker_step in Hstep.
  destruct (w_pc w) as [|base|base m|base m cur|base nl|base nl old| | |]
    eqn:Hpc.
  - destruct iocp as [|key iocp1].
    + injection Hstep as <- <- <-. rewrite Hpc. split; [lia|exact I].
    + destruct (key =? KEY_STOP); [|destruct (key =? KEY_START)];
        injection Hstep as <- <- <-; simpl; (split; [lia|]);
        try exact I. rewrite Hpc. exact I.
  - destruct (base >? e_end_limit e).
    + injection Hstep as <- <- <-. split; [lia|exact I].
    + apply rbind_Ok in Hstep as ([found [[off res] bits]] & _ & Hstep).
      destruct (negb (found =? UINT64_MAX));
        injection Hstep as <- <- <-; (split; [lia|exact I]).
  - destruct (m >=? e_best_m e);
      injection Hstep as <- <- <-; (split; [lia|exact I]).
  - destruct (e_best_m e =? cur);
      injection Hstep as <- <- <-; (split; [simpl; lia|exact I]).
  - destruct (Z.geb_spec nl (e_end_limit e));
      injection Hstep as <- <- <-; (split; [lia|]); simpl; [exact I|lia].
  - simpl in Hwf.
    destruct (Z.eqb_spec (e_end_limit e) old);
      injection Hstep as <- <- <-; (split; [simpl; lia|exact I]).
  - injection Hstep as <- <- <-. split; [simpl; lia|].
    simpl. destruct (e_active_workers e - 1 =? 0); exact I.
  - injection Hstep as <- <- <-. split; [simpl; lia|exact I].
  - injection Hstep as <- <- <-. rewrite Hpc. split; [lia|exact I].
Qed.

Lemma system_step_end_limit fuel i sys sys' :
  Forall (fun w => lim_cas_checked (w_pc w)) (sys_w sys) ->
  system_step fuel i sys = Ok sys' ->
  e_end_limit (sys_epoch sys') <= e_end_limit (sys_epoch sys) /\
  Forall (fun w => lim_cas_checked (w_pc w)) (sys_w sys').
Proof.
  intros Hwf Hstep. unfold system_step in Hstep.
  destruct (sys_w sys !! i) as [w|] eqn:Hw.
  - apply rbind_Ok in Hstep as ([[e iocp] w'] & Hws & Hstep).
    injection Hstep as <-. unfold sys_epoch; simpl.
    apply worker_step_end_limit in Hws as [Hle Hpc].
    + split; [exact Hle|]. apply Forall_insert; assumption.
    + eapply Forall_lookup_1 in Hwf; eauto.
  - injection Hstep as <-. split; [lia|exact Hwf].
Qed.

Lemma run_workers_end_limit fuel sched : forall sys sys',
  Forall (fun w => lim_cas_checked (w_pc w)) (sys_w sys) ->
  run_workers fuel sched sys = Ok sys' ->
  e_end_limit (sys_epoch sys') <= e_end_limit (sys_epoch sys) /\
  Forall (fun w => lim_cas_checked (w_pc w)) (sys_w sys').
Proof.
  induction sched as [|i sched IH]; intros sys sys' Hwf Hrun.
  - injection Hrun as <-. split; [lia|exact Hwf].
  - unfold run_workers in Hrun. simpl in Hrun.
    apply rbind_Ok in Hrun as (sys1 & Hstep & Hrun).
    apply system_step_end_limit in Hstep as [Hle1 Hwf1]; [|exact Hwf].
    destruct (IH sys1 sys' Hwf1 Hrun) as [Hle2 Hwf2].
    split; [lia|exact Hwf2].
Qed.

(** C10: along every interleaving of the workers, started from any values of
    the epoch atomics, [end_limit] never increases; the thread that improves
    [best_m] to [m = 0] goes on with [new_lim = 0] (not [0 - 1]), leaves
    [end_limit] as it is in that step, and its exchange on [end_limit] writes
    0; and after [epoch_begin] the limit stays at or below the epoch's
    [end_m]. *)
Theorem try_set_best_never_raises_end_limit fuel sched sys sys' :
  Forall (fun w => lim_cas_checked (w_pc w)) (sys_w sys) ->
  run_workers fuel sched sys = Ok sys' ->
  e_end_limit (sys_epoch sys') <= e_end_limit (sys_epoch sys) /\
  (forall e iocp w base,
     w_pc w = BestCas base 0 (e_best_m e) ->
     worker_step fuel e iocp w =
       Ok (set_best_m e 0, iocp, set_pc w (LimLoad base 0)) /\
     e_end_limit (set_best_m e 0) = e_end_limit e) /\
  (forall e iocp w base,
     w_pc w = LimCas base 0 (e_end_limit e) ->
     worker_step fuel e iocp w =
       Ok (set_end_limit e 0, iocp,
           set_pc w (TileLoop (wrap64 (base + e_step e))))) /\
  (forall js k start_m end_m tile_len,
     sys_js sys = epoch_begin js k start_m end_m tile_len ->
     e_end_limit (sys_epoch sys') <= end_m).
Proof.
  intros Hwf Hrun.
  destruct (run_workers_end_limit fuel sched sys sys' Hwf Hrun) as [Hle _].
  split; [exact Hle|]. split; [|split].
  - intros e iocp w base Hpc. unfold worker_step. rewrite Hpc.
    rewrite Z.eqb_refl. split; reflexivity.
  - intros e iocp w base Hpc. unfold worker_step. rewrite Hpc.
    rewrite Z.eqb_refl. reflexivity.
  - intros js k start_m end_m tile_len Hjs.
    unfold sys_epoch in *. rewrite Hjs in Hle. exact Hle.
Qed.

(** ** Bitset helpers *)

Lemma bitset_get_testbit bits i :
  bitset_get bits i =
  Z.b2z (Z.testbit (aget bits (Z.shiftr i 3)) (Z.land i 7)).
Proof.
  unfold bitset_get.
  assert (Hs : 0 <= Z.land i 7).
  { change 7 with (Z.ones 3). rewrite Z.land_ones by lia.
    apply Z.mod_pos_bound. lia. }
  change 1 with (Z.ones 1) at 1. rewrite Z.land_ones by lia.
  change (2 ^ 1) with 2. rewrite <- Z.bit0_mod.
  rewrite Z.shiftr_spec by lia. reflexivity.
Qed.

Lemma bitset_get_range bits i : 0 <= bitset_get bits i <= 1.
Proof. rewrite bitset_get_testbit. destruct (Z.testbit _ _); simpl; lia. Qed.

Lemma land7 i : Z.land i 7 = i mod 8.
Proof. change 7 with (Z.ones 3). rewrite Z.land_ones by lia. reflexivity. Qed.

Lemma shiftr3 i : Z.shiftr i 3 = i / 8.
Proof. rewrite Z.shiftr_div_pow2 by lia. reflexivity. Qed.

Lemma one_shl_byte s : 0 <= s < 8 -> Z.shiftl 1 s mod 2 ^ 8 = 2 ^ s.
Proof.
  intros Hs. rewrite Z.shiftl_1_l. apply Z.mod_small. split.
  - apply Z.pow_nonneg. lia.
  - apply Z.pow_lt_mono_r; lia.
Qed.

Lemma length_bitset_set bits i : length (bitset_set bits i) = length bits.
Proof. unfold bitset_set. apply length_aset. Qed.

Lemma length_bitset_clear bits n : length (bitset_clear bits n) = length bits.
Proof. unfold bitset_clear. apply length_inserts. Qed.

Lemma bitset_get_set_eq bits i :
  0 <= i -> i / 8 < Z.of_nat (length bits) ->
  bitset_get (bitset_set bits i) i = 1.
Proof.
  intros Hi Hlen. rewrite bitset_get_testbit. unfold bitset_set.
  rewrite shiftr3, land7.
  assert (Hq : 0 <= i / 8) by (apply Z.div_pos; lia).
  pose proof (Z.mod_pos_bound i 8 ltac:(lia)) as Hr.
  rewrite aget_aset_eq by lia.
  rewrite one_shl_byte by lia.
  rewrite Z.lor_spec, Z.pow2_bits_true by lia.
  rewrite orb_true_r. reflexivity.
Qed.

Lemma bitset_get_set_ne bits i j :
  0 <= i -> 0 <= j -> i <> j ->
  bitset_get (bitset_set bits i) j = bitset_get bits j.
Proof.
  intros Hi Hj Hne. rewrite !bitset_get_testbit. unfold bitset_set.
  rewrite !shiftr3, !land7.
  assert (Hqi : 0 <= i / 8) by (apply Z.div_pos; lia).
  assert (Hqj : 0 <= j / 8) by (apply Z.div_pos; lia).
  pose proof (Z.mod_pos_bound i 8 ltac:(lia)) as Hri.
  pose proof (Z.mod_pos_bound j 8 ltac:(lia)) as Hrj.
  destruct (Z.eq_dec (i / 8) (j / 8)) as [Heq|Hq].
  - assert (Hr : i mod 8 <> j mod 8).
    { intros Hr. apply Hne.
      rewrite (Z.div_mod i 8), (Z.div_mod j 8) by lia. lia. }
    rewrite Heq.
    destruct (decide (j / 8 < Z.of_nat (length bits))) as [Hin|Hout].
    + rewrite aget_aset_eq by lia.
      rewrite one_shl_byte by lia.
      rewrite Z.lor_spec, Z.pow2_bits_false by lia.
      rewrite orb_false_r. reflexivity.
    + unfold aset. rewrite list_insert_ge by lia. reflexivity.
  - rewrite aget_aset_ne by lia. reflexivity.
Qed.

Lemma bitset_get_clear bits n j :
  0 <= n -> n + 7 < 2 ^ 32 -> 0 <= j < n ->
  (n + 7) / 8 <= Z.of_nat (length bits) ->
  bitset_get (bitset_clear bits n) j = 0.
Proof.
  intros Hn Hw Hj Hlen. rewrite bitset_get_testbit. unfold bitset_clear.
  rewrite wrap32_small by lia. rewrite !shiftr3.
  assert (Hq : 0 <= j / 8 < (n + 7) / 8).
  { split; [apply Z.div_pos; lia|].
    apply Z.div_lt_upper_bound; [lia|].
    pose proof (Z.div_mod (n + 7) 8 ltac:(lia)).
    pose proof (Z.mod_pos_bound (n + 7) 8 ltac:(lia)). lia. }
  unfold aget.
  rewrite list_lookup_total_inserts.
  - replace (Z.to_nat (j / 8) - 0)%nat with (Z.to_nat (j / 8)) by lia.
    rewrite (list_lookup_total_correct _ _ 0).
    + rewrite Z.bits_0. reflexivity.
    + apply lookup_replicate_2. lia.
  - rewrite length_replicate. lia.
  - lia.
Qed.

(** ** Window scan *)

Lemma bits_upto_0 bits : bits_upto bits 0 = 0.
Proof. unfold bits_upto. apply for_range_empty. lia. Qed.

Lemma bits_upto_succ bits n :
  0 <= n -> bits_upto bits (n + 1) = bits_upto bits n + bitset_get bits n.
Proof. intros Hn. unfold bits_upto. rewrite for_range_snoc by lia. reflexivity. Qed.

Lemma bits_upto_window bits s (n : nat) :
  0 <= s ->
  0 <= bits_upto bits (s + Z.of_nat n) - bits_upto bits s <= Z.of_nat n /\
  (bits_upto bits (s + Z.of_nat n) - bits_upto bits s = 0 <->
   window_clear bits (Z.of_nat n) s) /\
  (bits_upto bits (s + Z.of_nat n) - bits_upto bits s = Z.of_nat n <->
   window_full bits (Z.of_nat n) s).
Proof.
  intros Hs. induction n as [|n (IHr & IH0 & IH1)].
  - rewrite Z.add_0_r. split; [simpl; lia|].
    split; (split; [intros _ j Hj; simpl in Hj; lia|intros _; simpl; lia]).
  - replace (s + Z.of_nat (Datatypes.S n)) with (s + Z.of_nat n + 1) by lia.
    rewrite bits_upto_succ by lia.
    pose proof (bitset_get_range bits (s + Z.of_nat n)) as Hb.
    split; [lia|]. split; split.
    + intros H j Hj.
      destruct (Z.eq_dec j (s + Z.of_nat n)) as [->|Hne]; [lia|].
      apply IH0; lia.
    + intros H.
      assert (bitset_get bits (s + Z.of_nat n) = 0) by (apply H; lia).
      assert (bits_upto bits (s + Z.of_nat n) - bits_upto bits s = 0).
      { apply IH0. intros j Hj. apply H. lia. }
      lia.
    + intros H j Hj.
      destruct (Z.eq_dec j (s + Z.of_nat n)) as [->|Hne]; [lia|].
      apply IH1; lia.
    + intros H.
      assert (bitset_get bits (s + Z.of_nat n) = 1) by (apply H; lia).
      assert (bits_upto bits (s + Z.of_nat n) - bits_upto bits s = Z.of_nat n).
      { apply IH1. intros j Hj. apply H. lia. }
      lia.
Qed.

(** Count of set bits in the window at [s]. *)
Lemma window_count bits k s :
  0 <= k -> 0 <= s ->
  let c := bits_upto bits (s + k) - bits_upto bits s in
  0 <= c <= k /\ (c = 0 <-> window_clear bits k s) /\
  (c = k <-> window_full bits k s).
Proof.
  intros Hk Hs. pose proof (bits_upto_window bits s (Z.to_nat k) Hs) as H.
  rewrite Z2Nat.id in H by lia. exact H.
Qed.

Lemma window_count_first bits k :
  0 <= k -> k < 2 ^ 32 ->
  for_range 0 k (fun i bad => wrap32 (bad + bitset_get bits i)) 0 =
  bits_upto bits k.
Proof.
  intros Hk Hk32.
  apply (for_range_inv (fun i bad => bad = bits_upto bits i /\ 0 <= bad <= i)).
  - lia.
  - rewrite bits_upto_0. lia.
  - intros i bad Hi [-> Hr]. rewrite bits_upto_succ by lia.
    pose proof (bitset_get_range bits i).
    rewrite wrap32_small by lia. lia.
Qed.

Lemma window_scan_from_spec bits k m0 start_count : forall (n : nat) s bad,
  1 <= k -> 1 <= s -> s + Z.of_nat n = start_count ->
  start_count + k <= 2 ^ 32 ->
  bad = bits_upto bits (s - 1 + k) - bits_upto bits (s - 1) ->
  (forall s', 0 <= s' < s -> ~ window_clear bits k s') ->
  (exists s1, first_window (window_clear bits k) start_count s1 /\
     window_scan_from n k bits m0 s bad = wrap64 (m0 + s1)) \/
  (no_window (window_clear bits k) start_count /\
     window_scan_from n k bits m0 s bad = UINT64_MAX).
Proof.
  induction n as [|n IH]; intros s bad Hk Hs Hn H32 Hbad Hnone.
  - right. split; [|reflexivity]. intros s' Hs'. apply Hnone. lia.
  - cbn [window_scan_from].
    rewrite (wrap32_small (s - 1)), (wrap32_small (s + k)) by lia.
    rewrite (wrap32_small (s + k - 1)) by lia.
    pose proof (window_count bits k (s - 1) ltac:(lia) ltac:(lia)) as (Hr0 & _).
    pose proof (window_count bits k s ltac:(lia) ltac:(lia)) as (Hr1 & Hc1 & _).
    cbv zeta in Hr0, Hr1, Hc1.
    pose proof (bits_upto_succ bits (s - 1) ltac:(lia)) as E1.
    pose proof (bits_upto_succ bits (s + k - 1) ltac:(lia)) as E2.
    replace (s - 1 + 1) with s in E1 by lia.
    replace (s + k - 1 + 1) with (s + k) in E2 by lia.
    replace (s - 1 + k) with (s + k - 1) in * by lia.
    pose proof (bitset_get_range bits (s - 1)).
    pose proof (bitset_get_range bits (s + k - 1)).
    assert (Hge : bitset_get bits (s - 1) <= bad).
    { subst bad.
      destruct (Z.eq_dec k 1) as [->|Hk1].
      - replace (s + 1 - 1) with s in * by lia. lia.
      - pose proof (window_count bits (k - 1) s ltac:(lia) ltac:(lia)) as (Hr2 & _).
        cbv zeta in Hr2. replace (s + (k - 1)) with (s + k - 1) in Hr2 by lia.
        lia. }
    rewrite (wrap32_small (bad - _)) by lia.
    rewrite (wrap32_small (bad - _ + _)) by lia.
    assert (Hnew : bad - bitset_get bits (s - 1) + bitset_get bits (s + k - 1)
                   = bits_upto bits (s + k) - bits_upto bits s) by lia.
    rewrite Hnew.
    destruct (Z.eqb_spec (bits_upto bits (s + k) - bits_upto bits s) 0) as [Hz|Hnz].
    + left. exists s. split; [|reflexivity].
      split; [lia|]. split; [apply Hc1; exact Hz|exact Hnone].
    + apply IH; try lia.
      * replace (s + 1 - 1 + k) with (s + k) by lia.
        replace (s + 1 - 1) with s by lia. reflexivity.
      * intros s' Hs'. destruct (Z.eq_dec s' s) as [->|Hne].
        -- intros Hcl. apply Hnz. apply Hc1. exact Hcl.
        -- apply Hnone. lia.
Qed.

Lemma window_scan_spec k start_count bits m0 :
  1 <= k -> 1 <= start_count -> start_count + k <= 2 ^ 32 ->
  0 <= m0 < 2 ^ 64 ->
  (exists s, first_window (window_clear bits k) start_count s /\
     window_scan k start_count bits m0 = wrap64 (m0 + s)) \/
  (no_window (window_clear bits k) start_count /\
     window_scan k start_count bits m0 = UINT64_MAX).
Proof.
  intros Hk Hsc H32 Hm0. unfold window_scan.
  rewrite window_count_first by lia.
  pose proof (window_count bits k 0 ltac:(lia) ltac:(lia)) as (Hr & Hc & _).
  cbv zeta in Hr, Hc. rewrite bits_upto_0, Z.add_0_l, Z.sub_0_r in Hr, Hc.
  destruct (Z.eqb_spec (bits_upto bits k) 0) as [Hz|Hnz].
  - left. exists 0. split.
    + split; [lia|]. split; [apply Hc; exact Hz|]. intros s' Hs'. lia.
    + rewrite Z.add_0_r, wrap64_small by lia. reflexivity.
  - apply window_scan_from_spec; try lia.
    + replace (1 - 1 + k) with k by lia. replace (1 - 1) with 0 by lia.
      rewrite bits_upto_0. lia.
    + intros s' Hs'. assert (s' = 0) as -> by lia.
      intros Hcl. apply Hnz. apply Hc. exact Hcl.
Qed.

(** ** Primes and smooth numbers *)

Lemma prime_b_spec n : prime_b n = true <-> Z.prime n.
Proof.
  unfold prime_b, Z.prime. rewrite andb_true_iff, Z.ltb_lt, forallb_forall.
  split; intros [H1 H2]; (split; [exact H1|]).
  - intros d Hd Hdiv.
    assert (Hin : In d (seqZ 2 (n - 2))).
    { apply list_elem_of_In, elem_of_seqZ. lia. }
    specialize (H2 d Hin). apply negb_true_iff, Z.eqb_neq in H2.
    apply H2. apply Z.mod_divide; [lia|exact Hdiv].
  - intros d Hin. apply list_elem_of_In, elem_of_seqZ in Hin.
    apply negb_true_iff, Z.eqb_neq. intros Hm.
    apply (H2 d); [lia|]. apply Z.mod_divide; [lia|exact Hm].
Qed.

Lemma prime_b_false_divisor n :
  1 < n -> prime_b n = false -> exists d, 1 < d < n /\ (d | n).
Proof.
  intros Hn Hb. unfold prime_b in Hb.
  apply andb_false_iff in Hb as [Hb|Hb]; [apply Z.ltb_ge in Hb; lia|].
  assert (Hex : existsb (fun d => n mod d =? 0) (seqZ 2 (n - 2)) = true).
  { revert Hb. generalize (seqZ 2 (n - 2)). intros l.
    induction l as [|d l IH]; simpl; [discriminate|].
    destruct (n mod d =? 0); simpl; auto. }
  apply existsb_exists in Hex as (d & Hin & Hd).
  apply list_elem_of_In, elem_of_seqZ in Hin. apply Z.eqb_eq in Hd.
  exists d. split; [lia|]. apply Z.mod_divide; [lia|exact Hd].
Qed.

Lemma prime_or_divisor n :
  1 < n -> Z.prime n \/ exists d, 1 < d < n /\ (d | n).
Proof.
  intros Hn. destruct (prime_b n) eqn:Hb.
  - left. apply prime_b_spec. exact Hb.
  - right. apply prime_b_false_divisor; assumption.
Qed.

Lemma exists_prime_divisor n :
  1 < n -> exists p, Z.prime p /\ (p | n).
Proof.
  intros Hn. assert (H0 : 0 <= n) by lia. revert Hn.
  pattern n. apply Z_lt_induction; [|exact H0]. clear n H0.
  intros n IH Hn. destruct (prime_or_divisor n Hn) as [Hp|(d & Hd & Hdiv)].
  - exists n. split; [exact Hp|apply Z.divide_refl].
  - destruct (IH d ltac:(lia) ltac:(lia)) as (p & Hp & Hpd).
    exists p. split; [exact Hp|]. eapply Z.divide_trans; eauto.
Qed.

(** A composite number has a prime factor at or below its square root. *)
Lemma composite_small_prime_factor n :
  1 < n -> ~ Z.prime n -> exists q, Z.prime q /\ (q | n) /\ q * q <= n.
Proof.
  intros Hn Hnp.
  destruct (prime_or_divisor n Hn) as [Hp|(d & Hd & [c Hc])]; [contradiction|].
  assert (Hc1 : 1 < c < n) by nia.
  assert (Hsmall : exists a, 1 < a /\ (a | n) /\ a * a <= n).
  { destruct (Z_le_gt_dec d c).
    - exists d. split; [lia|]. split; [exists c; lia|nia].
    - exists c. split; [lia|]. split; [exists d; lia|nia]. }
  destruct Hsmall as (a & Ha & Han & Haa).
  destruct (exists_prime_divisor a Ha) as (q & Hq & Hqa).
  exists q. split; [exact Hq|]. split; [eapply Z.divide_trans; eauto|].
  assert (1 < q) by (destruct Hq; assumption).
  assert (q <= a) by (apply Z.divide_pos_le; [lia|exact Hqa]).
  nia.
Qed.

Lemma primes_le_elem k x : x ∈ primes_le k <-> Z.prime x /\ x <= k.
Proof.
  unfold primes_le. rewrite list_elem_of_In, filter_In, prime_b_spec.
  rewrite <- list_elem_of_In, elem_of_seqZ.
  split.
  - intros [Hr Hp]. split; [exact Hp|lia].
  - intros [Hp Hk]. split; [|exact Hp]. destruct Hp. lia.
Qed.

Lemma least_offset_iff p base_test o :
  0 < p -> least_offset p base_test o <-> (0 <= o < p /\ (p | base_test + o)).
Proof.
  intros Hp. unfold least_offset. split.
  - intros (Ho & Hd & Hleast). split; [|exact Hd]. split; [exact Ho|].
    destruct (Z_lt_ge_dec o p) as [|Hge]; [assumption|exfalso].
    apply (Hleast (o - p)); [lia|].
    replace (base_test + (o - p)) with (base_test + o - 1 * p) by lia.
    apply Z.divide_sub_r; [exact Hd|]. apply Z.divide_factor_r.
  - intros ([Ho Hlt] & Hd). split; [exact Ho|]. split; [exact Hd|].
    intros i Hi Hdi.
    assert (Hdiff : (p | o - i)).
    { replace (o - i) with (base_test + o - (base_test + i)) by lia.
      apply Z.divide_sub_r; assumption. }
    apply Z.divide_pos_le in Hdiff; lia.
Qed.

(** With a valid offset, the multiples of [p] in the window are the positions
    congruent to the offset. *)
Lemma off_valid_divides p base_test o j :
  0 < p -> 0 <= o < p -> (p | base_test + o) -> 0 <= j ->
  ((p | base_test + j) <-> j mod p = o).
Proof.
  intros Hp Ho Hd Hj. split.
  - intros Hdj.
    assert (Hdiff : (p | j - o)).
    { replace (j - o) with (base_test + j - (base_test + o)) by lia.
      apply Z.divide_sub_r; assumption. }
    destruct Hdiff as [c Hc].
    replace j with (o + c * p) by lia.
    rewrite Z.mod_add by lia. apply Z.mod_small. lia.
  - intros Hm.
    pose proof (Z.div_mod j p ltac:(lia)) as E. rewrite Hm in E.
    replace (base_test + j) with (base_test + o + (j / p) * p) by lia.
    apply Z.divide_add_r; [exact Hd|]. apply Z.divide_factor_r.
Qed.

(** ** Factor stripping *)

Lemma ctz_pos_spec p :
  0 <= ctz_pos p /\ exists m, 0 <= m /\ Zpos p = 2 ^ ctz_pos p * (2 * m + 1).
Proof.
  induction p as [p _|p (Hc & m & Hm & E)|].
  - split; [simpl; lia|]. exists (Zpos p). split; [lia|]. simpl ctz_pos. lia.
  - cbn [ctz_pos]. split; [lia|]. exists m. split; [exact Hm|].
    rewrite Z.pow_succ_r by exact Hc.
    change (Zpos p~0) with (2 * Zpos p). rewrite E. ring.
  - split; [simpl; lia|]. exists 0. split; [lia|reflexivity].
Qed.

Lemma sieve_strip_two fuel f x :
  1 <= x -> exists x', sieve_strip fuel 2 f x = Ok x' /\ stripped_of 2 x x'.
Proof.
  intros Hx. unfold sieve_strip. change (2 =? 2) with true. cbv iota.
  destruct x as [|px|px]; try lia. cbn [ctzll rbind].
  destruct (ctz_pos_spec px) as (Hc & m & Hm & E).
  exists (2 * m + 1).
  assert (Hsh : Z.shiftr (Z.pos px) (ctz_pos px) = 2 * m + 1).
  { rewrite Z.shiftr_div_pow2 by exact Hc. rewrite E.
    rewrite Z.mul_comm, Z.div_mul; [reflexivity|].
    apply Z.pow_nonzero; lia. }
  rewrite Hsh. split; [reflexivity|]. split; [lia|]. split.
  - intros [c Hd]. lia.
  - exists (ctz_pos px). split; [exact Hc|exact E].
Qed.

Lemma sieve_strip_odd fuel p x :
  2 <= p < 2 ^ 32 -> p <> 2 -> 1 <= x < 2 ^ 64 -> (64 <= fuel)%nat ->
  exists x', sieve_strip fuel p (fastdiv_u32_make_prime p) x = Ok x' /\
             stripped_of p x x'.
Proof.
  intros Hp Hp2 Hx Hfuel. unfold sieve_strip.
  destruct (Z.eqb_spec p 2) as [|_]; [contradiction|].
  set (I := fun y : Z => 1 <= y <= x /\ exists t, 0 <= t /\ x = p ^ t * y).
  destruct (while_loop_total I Z.log2
              (fun y => fst (fastdiv_u32_divide_if_divisible
                               (fastdiv_u32_make_prime p) y))
              (fun y => Ok (snd (fastdiv_u32_divide_if_divisible
                                   (fastdiv_u32_make_prime p) y))))
    with (fuel := fuel) (s := x) as (x' & Hrun & HI & Hcond).
  - intros y _. apply Z.log2_nonneg.
  - intros y (Hy & t & Ht & E) Hc.
    rewrite fastdiv_divide_if_divisible_correct in Hc |- * by lia.
    destruct (Z.eqb_spec (y mod p) 0) as [Hm|]; [|discriminate].
    cbn [snd]. eexists. split; [reflexivity|].
    pose proof (Z.div_mod y p ltac:(lia)) as Ey. rewrite Hm in Ey.
    assert (Hq : 1 <= y / p) by nia.
    split; [split; [nia|]|].
    + exists (t + 1). split; [lia|].
      rewrite Z.pow_add_r, Z.pow_1_r by lia. rewrite E. nia.
    + assert (Hdbl : Z.log2 (2 * (y / p)) = Z.succ (Z.log2 (y / p))).
      { apply Z.log2_double. lia. }
      assert (Hle : Z.log2 (2 * (y / p)) <= Z.log2 y).
      { apply Z.log2_le_mono. nia. }
      lia.
  - split; [lia|]. exists 0. split; [lia|]. rewrite Z.pow_0_r. lia.
  - assert (Z.log2 x < 64). { apply Z.log2_lt_pow2; lia. } lia.
  - exists x'. split; [exact Hrun|].
    destruct HI as (Hy & t & Ht & E).
    rewrite fastdiv_divide_if_divisible_correct in Hcond by lia.
    split; [lia|]. split.
    + intros Hd. apply Z.mod_divide in Hd; [|lia].
      rewrite Hd in Hcond. discriminate.
    + exists t. auto.
Qed.

Lemma sieve_strip_spec fuel p x :
  2 <= p < 2 ^ 32 -> 1 <= x < 2 ^ 64 -> (64 <= fuel)%nat ->
  exists x', sieve_strip fuel p (fastdiv_u32_make_prime p) x = Ok x' /\
             stripped_of p x x'.
Proof.
  intros Hp Hx Hfuel. destruct (Z.eq_dec p 2) as [->|Hne].
  - apply sieve_strip_two. lia.
  - apply sieve_strip_odd; assumption.
Qed.

Lemma stripped_of_le p x x' : 2 <= p -> stripped_of p x x' -> x' <= x.
Proof.
  intros Hp (Hx' & _ & t & Ht & E).
  assert (0 < p ^ t) by (apply Z.pow_pos_nonneg; lia). nia.
Qed.

(** ** One prime over the window *)

Lemma sieve_prime_pass_spec fuel p win_len o (residual : list Z) :
  2 <= p < 2 ^ 32 -> 0 <= o < p -> 0 <= win_len -> win_len + p <= 2 ^ 32 ->
  win_len <= Z.of_nat (length residual) ->
  (forall j, 0 <= j < win_len -> 1 <= aget residual j < 2 ^ 64) ->
  win_len + p + 64 <= Z.of_nat fuel ->
  exists residual',
    sieve_prime_pass fuel p (fastdiv_u32_make_prime p) win_len o residual
      = Ok residual' /\
    length residual' = length residual /\
    forall j, 0 <= j < win_len ->
      (j mod p = o -> stripped_of p (aget residual j) (aget residual' j)) /\
      (j mod p <> o -> aget residual' j = aget residual j).
Proof.
  intros Hp Ho Hw H32 Hlen Hres Hfuel. unfold sieve_prime_pass.
  set (done := fun (i j : Z) => j mod p = o /\ j < i).
  set (I := fun s : Z * list Z =>
    let '(i, r) := s in
    o <= i < win_len + p /\ i mod p = o /\ length r = length residual /\
    forall j, 0 <= j < win_len ->
      (done i j -> stripped_of p (aget residual j) (aget r j)) /\
      (~ done i j -> aget r j = aget residual j)).
  match goal with
  | |- context [while_loop fuel ?c0 ?b0 ?s0] =>
      destruct (while_loop_total I (fun s => win_len + p - fst s) c0 b0)
        with (fuel := fuel) (s := s0) as ([i' r'] & Hrun & HI & Hcond)
  end.
  - intros [i r] (Hi & _). cbn [fst]. lia.
  - intros [i r] (Hi & Him & Hl & Hinv) Hc. apply Z.ltb_lt in Hc.
    destruct (Hinv i ltac:(lia)) as [_ Hsame].
    assert (Hx : aget r i = aget residual i).
    { apply Hsame. unfold done. lia. }
    destruct (sieve_strip_spec fuel p (aget r i)) as (x' & Hstrip & Hpost);
      [lia|rewrite Hx; apply Hres; lia|lia|].
    rewrite Hstrip. cbn [rbind]. eexists. split; [reflexivity|].
    rewrite wrap32_small by lia. cbn [fst]. split; [|lia].
    split; [lia|]. split.
    { replace (i + p) with (i + 1 * p) by lia.
      rewrite Z.mod_add by lia. exact Him. }
    split; [rewrite length_aset; exact Hl|].
    intros j Hj. destruct (Z.eq_dec j i) as [->|Hne].
    + rewrite aget_aset_eq by lia. split; [intros _; rewrite <- Hx; exact Hpost|].
      intros Hnd. exfalso. apply Hnd. unfold done. lia.
    + rewrite aget_aset_ne by lia.
      destruct (Hinv j Hj) as [Hd Hnd]. split.
      * intros [Hjm Hjlt]. apply Hd. split; [exact Hjm|].
        destruct (Z_lt_ge_dec j i) as [|Hge]; [assumption|exfalso].
        (* i < j < i + p with j = i mod p *)
        pose proof (Z.div_mod i p ltac:(lia)) as Ei.
        pose proof (Z.div_mod j p ltac:(lia)) as Ej.
        rewrite Him in Ei. rewrite Hjm in Ej.
        assert (p * (j / p - i / p) = j - i) by lia.
        assert (0 < j / p - i / p) by nia.
        nia.
      * intros Hnd'. apply Hnd. intros [Hjm Hjlt]. apply Hnd'.
        split; [exact Hjm|lia].
  - unfold I. split; [lia|]. split; [apply Z.mod_small; lia|].
    split; [reflexivity|]. intros j Hj. split.
    + intros [Hjm Hjlt].
      pose proof (Z.mod_le j p ltac:(lia) ltac:(lia)). lia.
    + intros _. reflexivity.
  - cbn [fst]. lia.
  - rewrite Hrun. cbn [rbind]. exists r'. split; [reflexivity|].
    destruct HI as (Hi & Him & Hl & Hinv). apply Z.ltb_ge in Hcond.
    split; [exact Hl|]. intros j Hj. destruct (Hinv j Hj) as [Hd Hnd]. split.
    + intros Hjm. apply Hd. split; [exact Hjm|lia].
    + intros Hjm. apply Hnd. intros [Hjm' _]. contradiction.
Qed.

(** ** The prime table *)

Lemma epoch_primes_at e pi :
  epoch_primes_ok e -> 0 <= pi < pl_count (e_primes e) ->
  Z.prime (primes_at (e_primes e) pi) /\ primes_at (e_primes e) pi <= e_k e.
Proof.
  intros (Hps & Hcnt & _) Hpi. apply primes_le_elem.
  unfold primes_at, aget. rewrite Hps.
  apply list_elem_of_lookup_total_2. lia.
Qed.

Lemma epoch_primes_all e q :
  epoch_primes_ok e -> Z.prime q -> q <= e_k e ->
  primes_before (e_primes e) (pl_count (e_primes e)) q.
Proof.
  intros (Hps & Hcnt & _) Hq Hk.
  assert (Hin : q ∈ primes_le (e_k e)) by (apply primes_le_elem; auto).
  apply list_elem_of_lookup_total in Hin as (i & Hi & Hl).
  exists (Z.of_nat i). split; [lia|].
  unfold primes_at, aget. rewrite Hps, Nat2Z.id. exact Hl.
Qed.

(** ** Stripping a window prime by prime *)

Lemma stripped_by_le Q n r : stripped_by Q n r -> 1 <= r <= n.
Proof. intros (Hr & c & Hc & E & _). nia. Qed.

Lemma stripped_by_start n : 1 <= n -> stripped_by (fun _ => False) n n.
Proof.
  intros Hn. split; [exact Hn|]. exists 1. split; [lia|]. split; [lia|].
  split.
  - intros q Hq Hd. apply Z.divide_1_r_nonneg in Hd; destruct Hq; lia.
  - intros q _ [].
Qed.

Lemma stripped_by_ext (Q Q' : Z -> Prop) n r :
  (forall q, Z.prime q -> (Q q <-> Q' q)) ->
  stripped_by Q n r -> stripped_by Q' n r.
Proof.
  intros HQ (Hr & c & Hc & E & H1 & H2). split; [exact Hr|].
  exists c. split; [exact Hc|]. split; [exact E|]. split.
  - intros q Hq Hd. apply HQ; auto.
  - intros q Hq HQ'. apply H2; [exact Hq|]. apply HQ; auto.
Qed.

Lemma stripped_by_hit (Q : Z -> Prop) p n r r' :
  Z.prime p -> stripped_by Q n r -> stripped_of p r r' ->
  stripped_by (fun q => Q q \/ q = p) n r'.
Proof.
  intros Hp (Hr & c & Hc & E & H1 & H2) (Hr' & Hnd & t & Ht & Et).
  assert (Hp2 : 2 <= p) by (apply Z.prime_ge_2; exact Hp).
  assert (Hpt : 0 < p ^ t) by (apply Z.pow_pos_nonneg; lia).
  split; [exact Hr'|]. exists (c * p ^ t).
  split; [nia|]. split; [rewrite E, Et; ring|]. split.
  - intros q Hq Hd. apply (Z.divide_prime_mul c (p ^ t) q Hq) in Hd as [Hd|Hd].
    + left. apply H1; assumption.
    + right. apply (Z.divide_prime_pp q p t); assumption.
  - intros q Hq [HQ| ->] Hd.
    + apply (H2 q Hq HQ). rewrite Et. apply Z.divide_mul_r. exact Hd.
    + contradiction.
Qed.

Lemma stripped_by_miss (Q : Z -> Prop) p n r :
  stripped_by Q n r -> ~ (p | n) ->
  stripped_by (fun q => Q q \/ q = p) n r.
Proof.
  intros (Hr & c & Hc & E & H1 & H2) Hnd. split; [exact Hr|].
  exists c. split; [exact Hc|]. split; [exact E|]. split.
  - intros q Hq Hd. left. apply H1; assumption.
  - intros q Hq [HQ| ->] Hd.
    + apply (H2 q Hq HQ Hd).
    + apply Hnd. rewrite E. apply Z.divide_mul_r. exact Hd.
Qed.

Lemma stripped_by_smooth (Q : Z -> Prop) k n r :
  (forall q, Z.prime q -> (Q q <-> q <= k)) ->
  stripped_by Q n r -> (r = 1 <-> smooth k n).
Proof.
  intros HQ (Hr & c & Hc & E & H1 & H2). split.
  - intros ->. split; [lia|]. intros p Hp Hd. apply HQ; [exact Hp|].
    apply H1; [exact Hp|]. replace c with n by lia. exact Hd.
  - intros [Hn Hsm].
    destruct (Z.eq_dec r 1) as [|Hne]; [assumption|exfalso].
    destruct (exists_prime_divisor r ltac:(lia)) as (q & Hq & Hd).
    apply (H2 q Hq); [|exact Hd]. apply HQ; [exact Hq|].
    apply Hsm; [exact Hq|]. rewrite E. apply Z.divide_mul_r. exact Hd.
Qed.

Lemma primes_before_succ pl pi q :
  0 <= pi ->
  (primes_before pl (pi + 1) q <-> primes_before pl pi q \/ q = primes_at pl pi).
Proof.
  intros Hpi. unfold primes_before. split.
  - intros (t & Ht & E). destruct (Z.eq_dec t pi) as [->|Hne].
    + right. auto.
    + left. exists t. split; [lia|exact E].
  - intros [(t & Ht & E)| ->].
    + exists t. split; [lia|exact E].
    + exists pi. split; [lia|reflexivity].
Qed.

Lemma sieve_primes_spec fuel e base_test win_len (off residual : list Z) :
  epoch_primes_ok e -> e_k e < 2 ^ 32 ->
  0 <= win_len -> win_len + e_k e <= 2 ^ 32 ->
  1 <= base_test -> base_test + win_len <= 2 ^ 64 ->
  pl_count (e_primes e) <= Z.of_nat (length off) ->
  (forall pi, 0 <= pi < pl_count (e_primes e) ->
     least_offset (primes_at (e_primes e) pi) base_test (aget off pi)) ->
  win_len <= Z.of_nat (length residual) ->
  (forall j, 0 <= j < win_len -> aget residual j = base_test + j) ->
  win_len + e_k e + 64 <= Z.of_nat fuel ->
  exists off' residual',
    sieve_primes fuel e win_len off residual = Ok (off', residual') /\
    length off' = length off /\ length residual' = length residual /\
    (forall j, 0 <= j < win_len ->
       stripped_by (primes_before (e_primes e) (pl_count (e_primes e)))
         (base_test + j) (aget residual' j)) /\
    (forall pi, 0 <= pi < pl_count (e_primes e) ->
       aget off' pi =
       advance_off (primes_at (e_primes e) pi) (aget (e_step_mod e) pi)
         (aget off pi)) /\
    (forall pi, pl_count (e_primes e) <= pi -> aget off' pi = aget off pi).
Proof.
  intros Hok Hk32 Hw H32 Hb H64 Hoff Hvalid Hlen Hseed Hfuel.
  unfold sieve_primes.
  set (pl := e_primes e) in *. set (pc := pl_count pl) in *.
  set (I := fun (pi : Z) (s : list Z * list Z) =>
    let '(off', r) := s in
    length off' = length off /\ length r = length residual /\
    (forall j, 0 <= j < win_len ->
       stripped_by (primes_before pl pi) (base_test + j) (aget r j)) /\
    (forall t, 0 <= t < pi ->
       aget off' t =
       advance_off (primes_at pl t) (aget (e_step_mod e) t) (aget off t)) /\
    (forall t, pi <= t -> aget off' t = aget off t)).
  assert (Hpc : 0 <= pc).
  { destruct Hok as (_ & Hc & _). fold pl pc in Hc. lia. }
  match goal with
  | |- context [for_range_r 0 pc ?b0 ?s0] =>
      destruct (for_range_r_inv I 0 pc b0 s0) as ([off' r'] & Hrun & HI)
  end.
  - exact Hpc.
  - unfold I. split; [reflexivity|]. split; [reflexivity|]. split; [|split].
    + intros j Hj. rewrite Hseed by exact Hj.
      eapply stripped_by_ext; [|apply stripped_by_start; lia].
      intros q _. split; [intros []|]. intros (t & Ht & _). lia.
    + intros t Ht. lia.
    + intros t _. reflexivity.
  - intros pi [off1 r1] Hpi (Hl1 & Hl2 & Hstr & Hadv & Hrest).
    destruct (epoch_primes_at e pi Hok Hpi) as [Hprime Hple].
    fold pl in Hprime, Hple. set (p := primes_at pl pi) in *.
    assert (Hp2 : 2 <= p) by (apply Z.prime_ge_2; exact Hprime).
    assert (Hfd : aget (e_fd e) pi = fastdiv_u32_make_prime p).
    { destruct Hok as (_ & _ & _ & Hfd). apply Hfd. exact Hpi. }
    rewrite Hfd.
    assert (Ho : aget off1 pi = aget off pi) by (apply Hrest; lia).
    rewrite Ho.
    pose proof (Hvalid pi Hpi) as Hleast. fold pl p in Hleast.
    apply least_offset_iff in Hleast as [Horange Hodiv]; [|lia].
    destruct (sieve_prime_pass_spec fuel p win_len (aget off pi) r1)
      as (r2 & Hpass & Hl3 & Hpost); try lia.
    { intros j Hj. pose proof (stripped_by_le _ _ _ (Hstr j Hj)). lia. }
    rewrite Hpass. cbn [rbind]. eexists. split; [reflexivity|].
    unfold I. split; [rewrite length_aset; exact Hl1|].
    split; [lia|]. split; [|split].
    + intros j Hj. destruct (Hpost j Hj) as [Hhit Hmiss].
      eapply stripped_by_ext.
      { intros q _. symmetry. apply primes_before_succ. lia. }
      fold p.
      destruct (Z.eq_dec (j mod p) (aget off pi)) as [Hjm|Hjm].
      * apply stripped_by_hit with (r := aget r1 j); auto.
      * rewrite (Hmiss Hjm). apply stripped_by_miss; [auto|].
        intros Hd. apply Hjm.
        apply (off_valid_divides p base_test (aget off pi) j); auto; lia.
    + intros t Ht. destruct (Z.eq_dec t pi) as [->|Hne].
      * rewrite aget_aset_eq by lia. reflexivity.
      * rewrite aget_aset_ne by lia. apply Hadv. lia.
    + intros t Ht. rewrite aget_aset_ne by lia. apply Hrest. lia.
  - exists off', r'. destruct HI as (Hl1 & Hl2 & Hstr & Hadv & Hrest).
    split; [exact Hrun|]. auto 6.
Qed.

(** ** The tile sieve *)

Lemma sieve_seed_spec base_test win_len (residual : list Z) :
  0 <= win_len -> 0 <= base_test -> base_test + win_len <= 2 ^ 64 ->
  win_len <= Z.of_nat (length residual) ->
  let r := for_range 0 win_len
             (fun i res => aset res i (wrap64 (base_test + i))) residual in
  length r = length residual /\
  forall j, 0 <= j < win_len -> aget r j = base_test + j.
Proof.
  intros Hw Hb H64 Hlen r. subst r.
  apply (for_range_inv (fun i (r : list Z) =>
           length r = length residual /\
           forall j, 0 <= j < i -> aget r j = base_test + j)).
  - exact Hw.
  - split; [reflexivity|]. intros j Hj. lia.
  - intros i r Hi [Hl Hr]. split; [rewrite length_aset; exact Hl|].
    intros j Hj. destruct (Z.eq_dec j i) as [->|Hne].
    + rewrite aget_aset_eq by lia. apply wrap64_small. lia.
    + rewrite aget_aset_ne by lia. apply Hr. lia.
Qed.

Lemma sieve_classify_spec win_len (residual bits : list Z) :
  0 <= win_len -> (win_len + 7) / 8 <= Z.of_nat (length bits) ->
  (forall j, 0 <= j < win_len -> bitset_get bits j = 0) ->
  let bits' := for_range 0 win_len
                 (fun i b => if aget residual i =? 1 then bitset_set b i else b)
                 bits in
  length bits' = length bits /\
  forall j, 0 <= j < win_len ->
    (bitset_get bits' j = 1 <-> aget residual j = 1).
Proof.
  intros Hw Hlen Hclear bits'. subst bits'.
  set (I := fun i (b : list Z) =>
           length b = length bits /\
           forall j, 0 <= j < win_len ->
             (j < i -> (bitset_get b j = 1 <-> aget residual j = 1)) /\
             (i <= j -> bitset_get b j = 0)).
  enough (G : I win_len (for_range 0 win_len
                (fun i b => if aget residual i =? 1 then bitset_set b i else b)
                bits)).
  { destruct G as [Hl Hinv]. split; [exact Hl|].
    intros j Hj. apply Hinv; lia. }
  apply (for_range_inv I); [exact Hw| |].
  - split; [reflexivity|]. intros j Hj. split; [lia|]. intros _. auto.
  - intros i b Hi [Hl Hinv]. split.
    { destruct (aget residual i =? 1);
        [rewrite length_bitset_set|]; exact Hl. }
    intros j Hj. destruct (Hinv j Hj) as [Hlt Hge].
    assert (Hbyte : i / 8 < Z.of_nat (length b)).
    { rewrite Hl. eapply Z.lt_le_trans; [|exact Hlen].
      apply Z.div_lt_upper_bound; [lia|].
      pose proof (Z.div_mod (win_len + 7) 8 ltac:(lia)).
      pose proof (Z.mod_pos_bound (win_len + 7) 8 ltac:(lia)). lia. }
    destruct (Z.eq_dec j i) as [->|Hne].
    + split; [intros _|lia].
      destruct (Z.eqb_spec (aget residual i) 1) as [E|E].
      * rewrite bitset_get_set_eq by lia. tauto.
      * rewrite (Hge ltac:(lia)). split; [lia|contradiction].
    + destruct (aget residual i =? 1).
      * rewrite bitset_get_set_ne by lia.
        split; [intros; apply Hlt|intros; apply Hge]; lia.
      * split; [intros; apply Hlt|intros; apply Hge]; lia.
Qed.

Lemma sieve_window_spec fuel e base_test start_count
    (off residual bad_bits : list Z) :
  epoch_primes_ok e -> 1 <= e_k e -> 0 <= start_count ->
  start_count + 2 * e_k e + 8 <= 2 ^ 32 ->
  1 <= base_test -> base_test + start_count + e_k e <= 2 ^ 64 ->
  pl_count (e_primes e) <= Z.of_nat (length off) ->
  (forall pi, 0 <= pi < pl_count (e_primes e) ->
     least_offset (primes_at (e_primes e) pi) base_test (aget off pi)) ->
  start_count + e_k e <= Z.of_nat (length residual) ->
  (start_count + e_k e + 7) / 8 <= Z.of_nat (length bad_bits) ->
  start_count + 2 * e_k e + 64 <= Z.of_nat fuel ->
  exists off' residual' bad_bits',
    sieve_window_bad_bits_carried_fastdiv fuel e base_test start_count
      off residual bad_bits = Ok (off', residual', bad_bits') /\
    length off' = length off /\ length residual' = length residual /\
    length bad_bits' = length bad_bits /\
    (forall i, 0 <= i < start_count + e_k e ->
       (bitset_get bad_bits' i = 1 <-> smooth (e_k e) (base_test + i))) /\
    (forall pi, 0 <= pi < pl_count (e_primes e) ->
       aget off' pi =
       advance_off (primes_at (e_primes e) pi) (aget (e_step_mod e) pi)
         (aget off pi)) /\
    (forall pi, pl_count (e_primes e) <= pi -> aget off' pi = aget off pi).
Proof.
  intros Hok Hk Hsc H32 Hb H64 Hoff Hvalid Hlr Hlb Hfuel.
  unfold sieve_window_bad_bits_carried_fastdiv.
  rewrite (wrap32_small (start_count + e_k e)) by lia.
  set (win_len := start_count + e_k e) in *.
  destruct (sieve_seed_spec base_test win_len residual) as [Hsl Hseed];
    try lia.
  set (r0 := for_range 0 win_len _ residual) in *.
  destruct (sieve_primes_spec fuel e base_test win_len off r0)
    as (off' & r' & Hrun & Hl1 & Hl2 & Hstr & Hadv & Hrest);
    try assumption; try lia.
  rewrite Hrun. cbn [rbind].
  destruct (sieve_classify_spec win_len r' (bitset_clear bad_bits win_len))
    as [Hbl Hbits].
  - lia.
  - rewrite length_bitset_clear. exact Hlb.
  - intros j Hj. apply bitset_get_clear; lia.
  - eexists _, _, _. split; [reflexivity|].
    split; [exact Hl1|]. split; [lia|].
    split; [rewrite Hbl, length_bitset_clear; reflexivity|].
    split; [|split; assumption].
    intros i Hi. rewrite (Hbits i Hi).
    apply (stripped_by_smooth
             (primes_before (e_primes e) (pl_count (e_primes e)))).
    + intros q Hq. split.
      * intros (t & Ht & <-). apply epoch_primes_at; assumption.
      * intros Hle. apply epoch_primes_all; assumption.
    + apply Hstr. exact Hi.
Qed.

(** ** Carried offsets *)

Lemma advance_off_valid p sm o base_test step :
  2 <= p < 2 ^ 32 -> sm = step mod p -> 0 <= o < p ->
  (base_test + o) mod p = 0 ->
  0 <= advance_off p sm o < p /\
  (base_test + step + advance_off p sm o) mod p = 0.
Proof.
  intros Hp Hsm Ho Hd.
  pose proof (Z.mod_pos_bound step p ltac:(lia)) as Hsmr. rewrite <- Hsm in Hsmr.
  pose proof (Z.div_mod step p ltac:(lia)) as Es. rewrite <- Hsm in Es.
  apply Z.mod_divide in Hd as [c Hc]; [|lia].
  unfold advance_off. destruct (Z.eqb_spec sm 0) as [Hz|Hnz].
  - split; [lia|]. apply Z.mod_divide; [lia|].
    exists (c + step / p). lia.
  - destruct (Z.geb_spec o sm) as [Hge|Hlt].
    + rewrite wrap32_small by lia. split; [lia|].
      apply Z.mod_divide; [lia|]. exists (c + step / p). lia.
    + assert (E : wrap32 (wrap32 (o + p) - sm) = o + p - sm).
      { unfold wrap32. rewrite Zminus_mod_idemp_l. apply Z.mod_small. lia. }
      rewrite E. split; [lia|].
      apply Z.mod_divide; [lia|]. exists (c + step / p + 1). lia.
Qed.

Lemma sieve_primes_off fuel e win_len (off residual off' residual' : list Z) :
  sieve_primes fuel e win_len off residual = Ok (off', residual') ->
  pl_count (e_primes e) <= Z.of_nat (length off) ->
  forall pi, 0 <= pi < pl_count (e_primes e) ->
    aget off' pi =
    advance_off (primes_at (e_primes e) pi) (aget (e_step_mod e) pi)
      (aget off pi).
Proof.
  intros Hrun Hlen. unfold sieve_primes in Hrun.
  set (I := fun (pi : Z) (s : list Z * list Z) =>
    length (fst s) = length off /\
    (forall t, 0 <= t < pi ->
       aget (fst s) t =
       advance_off (primes_at (e_primes e) t) (aget (e_step_mod e) t)
         (aget off t)) /\
    (forall t, pi <= t -> aget (fst s) t = aget off t)).
  destruct (Z_lt_ge_dec (pl_count (e_primes e)) 0) as [Hneg|Hpos].
  { intros pi Hpi. lia. }
  eapply (for_range_r_partial I) in Hrun.
  - destruct Hrun as (_ & Hadv & _). exact Hadv.
  - lia.
  - split; [reflexivity|]. split; [intros t Ht; lia|]. intros t _. reflexivity.
  - intros pi [off1 r1] s' Hpi (Hl & Hadv & Hrest) Hbody. cbn [fst] in *.
    apply rbind_Ok in Hbody as (r2 & _ & Hbody). injection Hbody as <-.
    unfold I. cbn [fst]. split; [rewrite length_aset; exact Hl|]. split.
    + intros t Ht. destruct (Z.eq_dec t pi) as [->|Hne].
      * rewrite aget_aset_eq by lia. rewrite (Hrest pi) by lia. reflexivity.
      * rewrite aget_aset_ne by lia. apply Hadv. lia.
    + intros t Ht. rewrite aget_aset_ne by lia. apply Hrest. lia.
Qed.

Lemma sieve_window_off fuel e base_test start_count
    (off residual bad_bits off' residual' bad_bits' : list Z) :
  sieve_window_bad_bits_carried_fastdiv fuel e base_test start_count
    off residual bad_bits = Ok (off', residual', bad_bits') ->
  pl_count (e_primes e) <= Z.of_nat (length off) ->
  forall pi, 0 <= pi < pl_count (e_primes e) ->
    aget off' pi =
    advance_off (primes_at (e_primes e) pi) (aget (e_step_mod e) pi)
      (aget off pi).
Proof.
  intros Hrun. unfold sieve_window_bad_bits_carried_fastdiv in Hrun.
  apply rbind_Ok in Hrun as ([off1 r1] & Hp & Hrun).
  injection Hrun as <- <- <-.
  eapply sieve_primes_off. exact Hp.
Qed.

(** ** Example epochs *)

Lemma epoch_k1_ok : epoch_primes_ok epoch_k1.
Proof.
  split; [reflexivity|]. split; [reflexivity|]. split; [simpl; lia|].
  intros pi Hpi. simpl in Hpi. lia.
Qed.

Lemma epoch_k5_ok : epoch_primes_ok epoch_k5.
Proof.
  split; [reflexivity|]. split; [reflexivity|]. split; [simpl; lia|].
  intros pi Hpi. simpl in Hpi.
  assert (Hc : pi = 0 \/ pi = 1 \/ pi = 2) by lia.
  destruct Hc as [-> | [-> | ->]]; reflexivity.
Qed.

Lemma epoch_k5_offsets pi :
  0 <= pi < pl_count (e_primes epoch_k5) ->
  least_offset (primes_at (e_primes epoch_k5) pi) 1 (aget [1; 2; 4] pi).
Proof.
  intros Hpi. simpl in Hpi.
  assert (Hc : pi = 0 \/ pi = 1 \/ pi = 2) by lia.
  destruct Hc as [-> | [-> | ->]].
  - change (least_offset 2 1 1).
    apply least_offset_iff; [lia|]. split; [lia|]. exists 1. reflexivity.
  - change (least_offset 3 1 2).
    apply least_offset_iff; [lia|]. split; [lia|]. exists 1. reflexivity.
  - change (least_offset 5 1 4).
    apply least_offset_iff; [lia|]. split; [lia|]. exists 1. reflexivity.
Qed.

(** ** C5: smoothness classification *)

(** C5 (as amended): for an epoch whose prime table is that of [k >= 1], a
    window that stays inside the machine integers
    ([base_test + start_count + k <= 2^64], [start_count + 2k + 8 <= 2^32]),
    [base_test >= 1] and offsets that are the least [i >= 0] with
    [P[pi] | base_test + i], the tile sieve returns, and afterwards bit [i]
    of [bad_bits] is set exactly when [base_test + i] is k-smooth, for every
    [i] in [0, start_count + k). *)
Theorem sieve_classifies_smooth fuel e base_test start_count
    (off residual bad_bits : list Z) :
  epoch_primes_ok e -> 1 <= e_k e -> 0 <= start_count ->
  start_count + 2 * e_k e + 8 <= 2 ^ 32 ->
  1 <= base_test -> base_test + start_count + e_k e <= 2 ^ 64 ->
  pl_count (e_primes e) <= Z.of_nat (length off) ->
  (forall pi, 0 <= pi < pl_count (e_primes e) ->
     least_offset (primes_at (e_primes e) pi) base_test (aget off pi)) ->
  start_count + e_k e <= Z.of_nat (length residual) ->
  (start_count + e_k e + 7) / 8 <= Z.of_nat (length bad_bits) ->
  start_count + 2 * e_k e + 64 <= Z.of_nat fuel ->
  exists off' residual' bad_bits',
    sieve_window_bad_bits_carried_fastdiv fuel e base_test start_count
      off residual bad_bits = Ok (off', residual', bad_bits') /\
    forall i, 0 <= i < start_count + e_k e ->
      (bitset_get bad_bits' i = 1 <-> smooth (e_k e) (base_test + i)).
Proof.
  intros Hok Hk Hsc H32 Hb H64 Hoff Hvalid Hlr Hlb Hfuel.
  destruct (sieve_window_spec fuel e base_test start_count off residual
              bad_bits) as (off' & r' & b' & Hrun & _ & _ & _ & Hbits & _);
    try assumption.
  exists off', r', b'. split; assumption.
Qed.

Lemma sieve_classifies_smooth_witness :
  exists off' residual' bad_bits',
    sieve_window_bad_bits_carried_fastdiv 100 epoch_k5 1 4 [1; 2; 4]
      (replicate 9 0) [0; 0] = Ok (off', residual', bad_bits') /\
    forall i, 0 <= i < 4 + 5 ->
      (bitset_get bad_bits' i = 1 <-> smooth 5 (1 + i)).
Proof.
  apply (sieve_classifies_smooth 100 epoch_k5 1 4 [1; 2; 4] (replicate 9 0)
           [0; 0]).
  - exact epoch_k5_ok.
  - simpl. lia.
  - lia.
  - simpl. lia.
  - lia.
  - simpl. lia.
  - simpl. lia.
  - exact epoch_k5_offsets.
  - simpl. lia.
  - vm_compute. discriminate.
  - simpl. lia.
Defined.

Lemma not_smooth_1 n : 1 < n -> ~ smooth 1 n.
Proof.
  intros Hn [_ Hs]. destruct (exists_prime_divisor n Hn) as (p & Hp & Hd).
  specialize (Hs p Hp Hd). apply Z.prime_ge_2 in Hp. lia.
Qed.

(** C5 as stated fails at the top of the 64-bit range: with [k = 1] (no
    primes, so the offset premise is empty), [base_test = 2^64 - 1] and
    [start_count = 2], position 2 holds the wrapped value 1 and its bit is
    set, although [base_test + 2 = 2^64 + 1] is not 1-smooth. *)
Lemma sieve_classifies_smooth_counterexample :
  epoch_primes_ok epoch_k1 /\ 1 <= 2 ^ 64 - 1 /\
  (forall pi, 0 <= pi < pl_count (e_primes epoch_k1) ->
     least_offset (primes_at (e_primes epoch_k1) pi) (2 ^ 64 - 1)
       (aget [] pi)) /\
  exists off' residual' bad_bits',
    sieve_window_bad_bits_carried_fastdiv 100 epoch_k1 (2 ^ 64 - 1) 2 []
      [0; 0; 0] [0] = Ok (off', residual', bad_bits') /\
    0 <= 2 < 2 + e_k epoch_k1 /\
    ~ (bitset_get bad_bits' 2 = 1 <-> smooth (e_k epoch_k1) (2 ^ 64 - 1 + 2)).
Proof.
  split; [exact epoch_k1_ok|]. split; [lia|]. split.
  { intros pi Hpi. simpl in Hpi. lia. }
  eexists _, _, _. split; [vm_compute; reflexivity|].
  split; [simpl; lia|]. intros [Hset _].
  apply (not_smooth_1 (2 ^ 64 - 1 + 2)); [lia|]. apply Hset.
  vm_compute. reflexivity.
Qed.

(** ** C7: carried offsets *)

(** C7: for every prime index [pi] with prime [p = P[pi]], if on entry
    [off[pi] < p] and [p] divides [base_test + off[pi]], and
    [step_mod[pi] = step mod p], then whenever the tile sieve returns,
    [off[pi] < p] and [p] divides [base_test + step + off[pi]] afterwards;
    and the sieve does return on a window inside the machine integers. *)
Theorem carried_offsets_advance fuel e base_test start_count
    (off residual bad_bits : list Z) pi :
  0 <= pi < pl_count (e_primes e) ->
  pl_count (e_primes e) <= Z.of_nat (length off) ->
  Z.prime (primes_at (e_primes e) pi) ->
  primes_at (e_primes e) pi < 2 ^ 32 ->
  aget (e_step_mod e) pi = e_step e mod primes_at (e_primes e) pi ->
  0 <= aget off pi < primes_at (e_primes e) pi ->
  (base_test + aget off pi) mod primes_at (e_primes e) pi = 0 ->
  (forall off' residual' bad_bits',
     sieve_window_bad_bits_carried_fastdiv fuel e base_test start_count
       off residual bad_bits = Ok (off', residual', bad_bits') ->
     0 <= aget off' pi < primes_at (e_primes e) pi /\
     (base_test + e_step e + aget off' pi) mod primes_at (e_primes e) pi = 0)
  /\
  (epoch_primes_ok e -> 1 <= e_k e -> 0 <= start_count ->
   start_count + 2 * e_k e + 8 <= 2 ^ 32 ->
   1 <= base_test -> base_test + start_count + e_k e <= 2 ^ 64 ->
   (forall pj, 0 <= pj < pl_count (e_primes e) ->
      least_offset (primes_at (e_primes e) pj) base_test (aget off pj)) ->
   start_count + e_k e <= Z.of_nat (length residual) ->
   (start_count + e_k e + 7) / 8 <= Z.of_nat (length bad_bits) ->
   start_count + 2 * e_k e + 64 <= Z.of_nat fuel ->
   exists off' residual' bad_bits',
     sieve_window_bad_bits_carried_fastdiv fuel e base_test start_count
       off residual bad_bits = Ok (off', residual', bad_bits')).
Proof.
  intros Hpi Hlen Hprime Hp32 Hsm Ho Hd. split.
  - intros off' r' b' Hrun.
    rewrite (sieve_window_off _ _ _ _ _ _ _ _ _ _ Hrun Hlen pi Hpi).
    apply advance_off_valid; auto.
    apply Z.prime_ge_2 in Hprime. lia.
  - intros Hok Hk Hsc H32 Hb H64 Hvalid Hlr Hlb Hfuel.
    destruct (sieve_window_spec fuel e base_test start_count off residual
                bad_bits) as (off' & r' & b' & Hrun & _); try assumption.
    eauto.
Qed.

Lemma carried_offsets_advance_witness :
  0 <= aget [1; 1; 0] 1 < 3 /\ (1 + 4 + aget [1; 1; 0] 1) mod 3 = 0.
Proof.
  destruct (carried_offsets_advance 100 epoch_k5 1 4 [1; 2; 4]
              (replicate 9 0) [0; 0] 1) as [H _].
  - simpl. lia.
  - simpl. lia.
  - exact Z.prime_3.
  - vm_compute. reflexivity.
  - reflexivity.
  - vm_compute. split; [discriminate|reflexivity].
  - reflexivity.
  - apply (H [1; 1; 0] [1; 1; 1; 1; 1; 1; 7; 1; 1] [191; 1]).
    vm_compute. reflexivity.
Defined.

(** ** C8: the operands of the count-trailing-zeros branch *)







(** ** C3: the window scan *)

(** C3 (as amended): for every bit array, [k >= 1] and [start_count >= 1]
    with [start_count + k <= 2^32], the window scan returns [m0 + s] for the
    smallest [s] in [0, start_count) such that the [k] bits
    [bad_bits[s..s+k)] are all clear (a hit being a window whose running
    count of set bits equals 0), and returns [UINT64_MAX] when there is no
    such [s]. *)
Theorem window_scan_first_clear k start_count (bits : list Z) m0 :
  1 <= k -> 1 <= start_count -> start_count + k <= 2 ^ 32 ->
  0 <= m0 < 2 ^ 64 ->
  (exists s, first_window (window_clear bits k) start_count s /\
     window_scan k start_count bits m0 = wrap64 (m0 + s)) \/
  (no_window (window_clear bits k) start_count /\
     window_scan k start_count bits m0 = UINT64_MAX).
Proof. apply window_scan_spec. Qed.

Lemma window_scan_first_clear_witness :
  (exists s, first_window (window_clear [150; 1] 2) 4 s /\
     window_scan 2 4 [150; 1] 10 = wrap64 (10 + s)) \/
  (no_window (window_clear [150; 1] 2) 4 /\
     window_scan 2 4 [150; 1] 10 = UINT64_MAX).
Proof. apply (window_scan_first_clear 2 4 [150; 1] 10); lia. Defined.

(** C3 as stated fails: over a window whose bits are all set the scan
    reports no hit, and over a window whose bits are all clear it reports
    one. *)
Lemma window_scan_counterexample :
  (first_window (window_full [255] 1) 1 0 /\
   window_scan 1 1 [255] 0 = UINT64_MAX /\ UINT64_MAX <> 0 + 0) /\
  (no_window (window_full [0] 1) 1 /\
   window_scan 1 1 [0] 0 = 0 + 0 /\ 0 + 0 <> UINT64_MAX).
Proof.
  split.
  - split; [|split; [reflexivity|discriminate]].
    split; [lia|]. split.
    + intros j Hj. assert (j = 0) as -> by lia. reflexivity.
    + intros s' Hs'. lia.
  - split; [|split; [reflexivity|discriminate]].
    intros s Hs Hfull. assert (s = 0) as -> by lia.
    specialize (Hfull 0 ltac:(lia)). discriminate.
Qed.

(** ** C4: the two conventions *)

Lemma window_scan_normalized_from_complement k m0 (bits bits' : list Z)
    start_count : forall (n : nat) s bad,
  1 <= k -> 1 <= s -> s + Z.of_nat n = start_count ->
  start_count + k <= 2 ^ 32 ->
  (forall j, 0 <= j < start_count + k ->
     bitset_get bits' j = 1 - bitset_get bits j) ->
  bad = bits_upto bits (s - 1 + k) - bits_upto bits (s - 1) ->
  window_scan_from n k bits m0 s bad =
  window_scan_normalized_from n k bits' m0 s (k - bad).
Proof.
  induction n as [|n IH]; intros s bad Hk Hs Hn H32 Hcompl Hbad;
    [reflexivity|].
  cbn [window_scan_from window_scan_normalized_from].
  rewrite (wrap32_small (s - 1)), (wrap32_small (s + k)) by lia.
  rewrite (wrap32_small (s + k - 1)) by lia.
  pose proof (window_count bits k (s - 1) ltac:(lia) ltac:(lia)) as (Hr0 & _).
  pose proof (window_count bits k s ltac:(lia) ltac:(lia)) as (Hr1 & _).
  cbv zeta in Hr0, Hr1.
  pose proof (bits_upto_succ bits (s - 1) ltac:(lia)) as E1.
  pose proof (bits_upto_succ bits (s + k - 1) ltac:(lia)) as E2.
  replace (s - 1 + 1) with s in E1 by lia.
  replace (s + k - 1 + 1) with (s + k) in E2 by lia.
  replace (s - 1 + k) with (s + k - 1) in * by lia.
  pose proof (bitset_get_range bits (s - 1)).
  pose proof (bitset_get_range bits (s + k - 1)).
  assert (Hge : bitset_get bits (s - 1) <= bad).
  { subst bad.
    destruct (Z.eq_dec k 1) as [->|Hk1].
    - replace (s + 1 - 1) with s in * by lia. lia.
    - pose proof (window_count bits (k - 1) s ltac:(lia) ltac:(lia)) as (Hr2 & _).
      cbv zeta in Hr2. replace (s + (k - 1)) with (s + k - 1) in Hr2 by lia.
      lia. }
  rewrite (wrap32_small (bad - _)) by lia.
  rewrite (wrap32_small (bad - _ + _)) by lia.
  rewrite !Hcompl by lia.
  set (bad' := bad - bitset_get bits (s - 1) + bitset_get bits (s + k - 1)).
  replace (k - bad + (1 - bitset_get bits (s + k - 1)) -
           (1 - bitset_get bits (s - 1))) with (k - bad') by (unfold bad'; lia).
  destruct (Z.eqb_spec bad' 0) as [Hz|Hnz].
  - rewrite Hz, Z.sub_0_r, Z.eqb_refl. reflexivity.
  - destruct (Z.eqb_spec (k - bad') k) as [Hz'|_]; [lia|].
    apply IH; try lia; [exact Hcompl|].
    unfold bad'. replace (s + 1 - 1 + k) with (s + k) by lia.
    replace (s + 1 - 1) with s by lia. lia.
Qed.

Lemma bits_upto_complement (bits bits' : list Z) (n : nat) :
  (forall j, 0 <= j < Z.of_nat n ->
     bitset_get bits' j = 1 - bitset_get bits j) ->
  bits_upto bits' (Z.of_nat n) = Z.of_nat n - bits_upto bits (Z.of_nat n).
Proof.
  induction n as [|n IH]; intros Hc.
  - rewrite !bits_upto_0. reflexivity.
  - replace (Z.of_nat (Datatypes.S n)) with (Z.of_nat n + 1) in * by lia.
    rewrite !bits_upto_succ by lia. rewrite IH, Hc by (intros; try apply Hc; lia).
    lia.
Qed.

(** C4 (as amended): the scanner of the program (hit when the count of set
    bits in the window is 0) returns the same [m] as the scanner of the
    specification (hit when the count is [k]) run on the complemented bits,
    that is, with the bit set at the positions that are not k-smooth; on the
    same bits the two differ. *)
Theorem window_scan_conventions k start_count (bits bits' : list Z) m0 :
  1 <= k -> 1 <= start_count -> start_count + k <= 2 ^ 32 ->
  (forall j, 0 <= j < start_count + k ->
     bitset_get bits' j = 1 - bitset_get bits j) ->
  window_scan k start_count bits m0 =
  window_scan_normalized k start_count bits' m0.
Proof.
  intros Hk Hsc H32 Hcompl. unfold window_scan, window_scan_normalized.
  rewrite window_count_first by lia.
  pose proof (bits_upto_complement bits bits' (Z.to_nat k)) as Hup.
  rewrite Z2Nat.id in Hup by lia. rewrite Hup by (intros; apply Hcompl; lia).
  pose proof (window_count bits k 0 ltac:(lia) ltac:(lia)) as (Hr & _).
  cbv zeta in Hr. rewrite bits_upto_0, Z.add_0_l, Z.sub_0_r in Hr.
  destruct (Z.eqb_spec (bits_upto bits k) 0) as [Hz|Hnz].
  - rewrite Hz, Z.sub_0_r, Z.eqb_refl. reflexivity.
  - destruct (Z.eqb_spec (k - bits_upto bits k) k) as [Hz'|_]; [lia|].
    apply window_scan_normalized_from_complement with (start_count := start_count);
      try lia; [exact Hcompl|].
    replace (1 - 1 + k) with k by lia. replace (1 - 1) with 0 by lia.
    rewrite bits_upto_0. lia.
Qed.

Lemma window_scan_conventions_witness :
  window_scan 2 4 [150; 1] 10 = window_scan_normalized 2 4 [105; 0] 10.
Proof.
  apply (window_scan_conventions 2 4 [150; 1] [105; 0] 10); try lia.
  intros j Hj.
  assert (Hc : j = 0 \/ j = 1 \/ j = 2 \/ j = 3 \/ j = 4 \/ j = 5) by lia.
  destruct Hc as [-> | [-> | [-> | [-> | [-> | ->]]]]]; reflexivity.
Defined.

(** C4 as stated fails: on the bits the sieve produces for [k = 1] over the
    starts 0 and 1, the program's scanner returns [m = 1] (2 is not
    1-smooth) and the specification's scanner returns [m = 0] (1 is
    1-smooth). *)
Lemma window_scan_conventions_counterexample :
  scan_tile_find_m_carried_fastdiv 100 epoch_k1 0 2 [] [0; 0; 0] [0]
    = Ok (1, ([], [1; 2; 3], [1])) /\
  scan_tile_normalized 100 epoch_k1 0 2 [] [0; 0; 0] [0] = Ok 0 /\
  1 <> 0.
Proof. repeat split; try (vm_compute; reflexivity). discriminate. Qed.

(** ** The small-primes sieve *)

Lemma primes_mark_multiples_spec fuel n i (mark : list Z) :
  2 <= i -> i * i <= n -> n + 2 ^ 16 <= 2 ^ 32 ->
  marks_upto n i mark -> n + 1 <= Z.of_nat fuel ->
  exists mark', primes_mark_multiples fuel n i mark = Ok mark' /\
                marks_upto n (i + 1) mark'.
Proof.
  intros Hi Hii Hn (Hlen & Hm) Hfuel. unfold primes_mark_multiples.
  assert (Hi16 : i < 2 ^ 16) by nia.
  rewrite (wrap32_small (i * i)) by lia.
  set (I := fun s : Z * list Z =>
    let '(j, m) := s in
    i * i <= j <= n + i /\ j mod i = 0 /\
    Z.of_nat (length m) = n + 1 /\
    forall t, 0 <= t <= n ->
      (aget m t = 0 \/ aget m t = 1) /\
      (aget m t = 1 ->
         aget mark t = 1 \/ ((i | t) /\ i * i <= t)) /\
      (aget mark t = 1 -> aget m t = 1) /\
      ((i | t) -> i * i <= t -> t < j -> aget m t = 1)).
  match goal with
  | |- context [while_loop fuel ?c0 ?b0 ?s0] =>
      destruct (while_loop_total I (fun s => n + i - fst s) c0 b0)
        with (fuel := fuel) (s := s0) as ([j' m'] & Hrun & HI & Hcond)
  end.
  - intros [j m] (Hj & _). cbn [fst]. lia.
  - intros [j m] (Hj & Hjm & Hl & Hinv) Hc. apply Z.leb_le in Hc.
    eexists. split; [reflexivity|].
    rewrite wrap32_small by lia. cbn [fst]. split; [|lia].
    split; [lia|]. split.
    { replace (j + i) with (j + 1 * i) by lia.
      rewrite Z.mod_add by lia. exact Hjm. }
    split; [rewrite length_aset; exact Hl|].
    intros t Ht. destruct (Hinv t Ht) as (H01 & Hs & Hmono & Hc').
    destruct (Z.eq_dec t j) as [->|Hne].
    + rewrite aget_aset_eq by lia.
      split; [auto|]. split; [|auto].
      intros _. right. split; [|lia]. apply Z.mod_divide; [lia|exact Hjm].
    + rewrite aget_aset_ne by lia.
      split; [exact H01|]. split; [exact Hs|]. split; [exact Hmono|].
      intros Hd Hsq Hlt. apply Hc'; auto.
      destruct (Z_lt_ge_dec t j) as [|Hge]; [assumption|exfalso].
      (* j < t < j + i, both multiples of i *)
      destruct Hd as [a Ha]. apply Z.mod_divide in Hjm as [b Hb]; [|lia].
      assert (i * (a - b) = t - j) by lia.
      assert (0 < a - b) by nia. nia.
  - unfold I. split; [nia|]. split.
    { apply Z.mod_divide; [lia|]. apply Z.divide_factor_l. }
    split; [exact Hlen|]. intros t Ht. destruct (Hm t Ht) as (H01 & _).
    split; [exact H01|]. split; [auto|]. split; [auto|]. intros _ Hsq Hlt. lia.
  - cbn [fst]. nia.
  - rewrite Hrun. cbn [rbind]. exists m'. split; [reflexivity|].
    destruct HI as (Hj & _ & Hl & Hinv). apply Z.leb_gt in Hcond.
    split; [exact Hl|]. intros t Ht.
    destruct (Hinv t Ht) as (H01 & Hs & Hmono & Hc').
    destruct (Hm t Ht) as (_ & Hsound & Hcompl).
    split; [exact H01|]. split.
    + intros H1. destruct (Hs H1) as [Hold|[Hd Hsq]]; [auto|].
      exists i. split; [nia|exact Hd].
    + intros q Hq Hsq Hd. destruct (Z.eq_dec q i) as [->|Hne].
      * apply Hc'; auto. lia.
      * apply Hmono. apply (Hcompl q); auto. lia.
Qed.

Lemma marks_upto_skip n i mark :
  2 <= i <= n -> marks_upto n i mark -> aget mark i <> 0 ->
  marks_upto n (i + 1) mark.
Proof.
  intros Hi (Hlen & Hm) Hnz. split; [exact Hlen|]. intros t Ht.
  destruct (Hm t Ht) as (H01 & Hsound & Hcompl).
  split; [exact H01|]. split; [exact Hsound|].
  intros q Hq Hsq Hd. destruct (Z.eq_dec q i) as [->|Hne].
  - (* i is marked, hence composite: a smaller prime factor marked t *)
    destruct (Hm i ltac:(lia)) as (H01i & Hsi & _).
    assert (H1 : aget mark i = 1) by lia.
    destruct (Hsi H1) as (d & Hdr & Hdi).
    destruct (composite_small_prime_factor i ltac:(lia)) as (q & Hqp & Hqi & Hqq).
    { intros [_ Hp]. apply (Hp d Hdr Hdi). }
    apply (Hcompl q).
    + pose proof (Z.prime_ge_2 q Hqp).
      assert (q <= i) by (apply Z.divide_pos_le; [lia|exact Hqi]).
      assert (q <> i) by nia. lia.
    + pose proof (Z.prime_ge_2 q Hqp).
      assert (q <= i) by (apply Z.divide_pos_le; [lia|exact Hqi]). nia.
    + eapply Z.divide_trans; eauto.
  - apply (Hcompl q); auto. lia.
Qed.

Lemma marks_final n i mark t :
  marks_upto n i mark -> n < i * i -> 2 <= i -> 2 <= t <= n ->
  (aget mark t =? 0) = prime_b t.
Proof.
  intros (_ & Hm) Hsq Hi Ht. destruct (Hm t ltac:(lia)) as (H01 & Hs & Hc).
  destruct (prime_b t) eqn:Hp.
  - apply prime_b_spec in Hp. apply Z.eqb_eq.
    destruct H01 as [|H1]; [assumption|exfalso].
    destruct (Hs H1) as (d & Hd & Hdiv). destruct Hp as [_ Hp].
    apply (Hp d Hd Hdiv).
  - apply Z.eqb_neq. intros H0.
    assert (Hnp : ~ Z.prime t).
    { intros Hpr. apply prime_b_spec in Hpr. congruence. }
    destruct (composite_small_prime_factor t ltac:(lia) Hnp)
      as (q & Hq & Hqt & Hqq).
    pose proof (Z.prime_ge_2 q Hq).
    assert (aget mark t = 1); [|lia].
    apply (Hc q); auto. nia.
Qed.

Lemma primes_le_snoc i :
  2 <= i ->
  primes_le i = primes_le (i - 1) ++ (if prime_b i then [i] else []).
Proof.
  intros Hi. unfold primes_le.
  replace (seqZ 2 (i - 1)) with (seqZ 2 (i - 1 - 1) ++ [i]).
  - rewrite List.filter_app. reflexivity.
  - replace (i - 1) with (Z.of_nat (Datatypes.S (Z.to_nat (i - 2)))) at 2 by lia.
    rewrite seqZ_S. f_equal; [f_equal; lia|f_equal; lia].
Qed.

Lemma primes_le_length_mono i n :
  1 <= i <= n -> (length (primes_le i) <= length (primes_le n))%nat.
Proof.
  intros Hi. unfold primes_le.
  replace (n - 1) with ((i - 1) + (n - i)) by lia.
  rewrite seqZ_app by lia. rewrite List.filter_app, length_app. lia.
Qed.

Lemma primes_le_length_le n : 1 <= n -> Z.of_nat (length (primes_le n)) <= n - 1.
Proof.
  intros Hn. unfold primes_le.
  pose proof (List.filter_length_le prime_b (seqZ 2 (n - 1))) as H.
  rewrite length_seqZ in H. lia.
Qed.

Lemma primes_upto_small heap fuel n :
  n < 2 -> primes_upto heap fuel n = Ok PrimeList_zero.
Proof.
  intros Hn. unfold primes_upto.
  destruct (Z.ltb_spec n 2); [reflexivity|lia].
Qed.

Lemma primes_le_small n : n < 2 -> primes_le n = [].
Proof. intros Hn. unfold primes_le. rewrite seqZ_nil by lia. reflexivity. Qed.

(** With memory available and [n] clear of the 32-bit boundary, the sieve
    returns the ordered list of the primes [<= n]. *)
Lemma primes_upto_spec heap fuel n :
  2 <= n -> n + 2 ^ 16 <= 2 ^ 32 ->
  calloc_ok heap (n + 1) = true ->
  malloc_ok heap (Z.of_nat (length (primes_le n)) * 4) = true ->
  n + 3 <= Z.of_nat fuel ->
  primes_upto heap fuel n =
  Ok {| pl_p := Some (primes_le n);
        pl_count := Z.of_nat (length (primes_le n)) |}.
Proof.
  intros Hn H32 Hcalloc Hmalloc Hfuel. unfold primes_upto.
  destruct (Z.ltb_spec n 2); [lia|]. rewrite Hcalloc. cbn [negb].
  (* the marking loop *)
  set (mark0 := replicate (Z.to_nat (n + 1)) 0).
  set (I1 := fun s : Z * list Z =>
    let '(i, m) := s in
    2 <= i /\ (i - 1) * (i - 1) <= n /\ marks_upto n i m).
  match goal with
  | |- context [while_loop fuel ?c0 ?b0 (2, mark0)] =>
      destruct (while_loop_total I1 (fun s => n + 2 - fst s) c0 b0)
        with (fuel := fuel) (s := (2, mark0))
        as ([i1 mark] & Hrun1 & HI1 & Hcond1)
  end.
  { intros [i m] (Hi & Hsq & _). cbn [fst]. nia. }
  { intros [i m] (Hi & Hsq & Hm) Hc. apply Z.leb_le in Hc.
    assert (Hi16 : i < 2 ^ 16) by nia.
    destruct (Z.eqb_spec (aget m i) 0) as [Hz|Hnz]; cbn [negb].
    - destruct (primes_mark_multiples_spec fuel n i m) as (m' & Hrun & Hm');
        try assumption; try lia.
      rewrite Hrun. cbn [rbind]. eexists. split; [reflexivity|].
      rewrite wrap32_small by lia. cbn [fst]. split; [|lia].
      split; [lia|]. split; [|exact Hm']. replace (i + 1 - 1) with i by lia. lia.
    - eexists. split; [reflexivity|].
      rewrite wrap32_small by lia. cbn [fst]. split; [|lia].
      split; [lia|]. split; [replace (i + 1 - 1) with i by lia; lia|].
      apply marks_upto_skip; auto. nia. }
  { unfold I1. split; [lia|]. split; [lia|]. split.
    - unfold mark0. rewrite length_replicate. lia.
    - intros t Ht.
      assert (H0 : aget mark0 t = 0).
      { unfold mark0. apply aget_replicate. lia. }
      rewrite H0. split; [auto|]. split; [discriminate|]. intros q Hq. lia. }
  { cbn [fst]. lia. }
  rewrite Hrun1. cbn [rbind].
  destruct HI1 as (Hi1 & _ & Hmarks). apply Z.leb_gt in Hcond1.
  assert (Hmark : forall t, 2 <= t <= n -> (aget mark t =? 0) = prime_b t).
  { intros t Ht. eapply marks_final; eauto. }
  (* the counting loop *)
  set (I2 := fun s : Z * Z =>
    let '(i, cnt) := s in
    2 <= i <= n + 1 /\ cnt = Z.of_nat (length (primes_le (i - 1)))).
  match goal with
  | |- context [while_loop fuel ?c0 ?b0 (2, 0)] =>
      destruct (while_loop_total I2 (fun s => n + 1 - fst s) c0 b0)
        with (fuel := fuel) (s := (2, 0))
        as ([i2 cnt] & Hrun2 & HI2 & Hcond2)
  end.
  { intros [i c] (Hi & _). cbn [fst]. lia. }
  { intros [i c] (Hi & Hc) Hcond. apply Z.leb_le in Hcond.
    eexists. split; [reflexivity|].
    rewrite (wrap32_small (i + 1)) by lia. cbn [fst]. split; [|lia].
    split; [lia|]. replace (i + 1 - 1) with i by lia.
    rewrite (primes_le_snoc i) by lia. rewrite length_app.
    rewrite Hmark by lia.
    pose proof (primes_le_length_le (i - 1) ltac:(lia)).
    destruct (prime_b i); cbn [length].
    - rewrite wrap32_small by lia. lia.
    - lia. }
  { unfold I2. split; [lia|]. rewrite primes_le_small by lia. reflexivity. }
  { cbn [fst]. lia. }
  rewrite Hrun2. cbn [rbind].
  destruct HI2 as (Hi2 & Hcnt). apply Z.leb_gt in Hcond2.
  assert (i2 = n + 1) as -> by lia. replace (n + 1 - 1) with n in Hcnt by lia.
  subst cnt. rewrite Hmalloc. cbn [negb].
  rewrite Nat2Z.id.
  (* the filling loop *)
  set (p0 := replicate (length (primes_le n)) 0).
  set (I3 := fun s : Z * Z * list Z =>
    let '(i, w, p) := s in
    2 <= i <= n + 1 /\ w = Z.of_nat (length (primes_le (i - 1))) /\
    length p = length (primes_le n) /\
    take (Z.to_nat w) p = primes_le (i - 1)).
  match goal with
  | |- context [while_loop fuel ?c0 ?b0 (2, 0, p0)] =>
      destruct (while_loop_total I3 (fun s => n + 1 - fst (fst s)) c0 b0)
        with (fuel := fuel) (s := (2, 0, p0))
        as ([[i3 w] p] & Hrun3 & HI3 & Hcond3)
  end.
  { intros [[i w] p] (Hi & _). cbn [fst]. lia. }
  { intros [[i w] p] (Hi & Hw & Hl & Htake) Hcond. apply Z.leb_le in Hcond.
    rewrite Hmark by lia.
    pose proof (primes_le_snoc i ltac:(lia)) as Hsnoc.
    pose proof (primes_le_length_mono i n ltac:(lia)) as Hmono.
    pose proof (primes_le_length_le (i - 1) ltac:(lia)) as Hle.
    destruct (prime_b i); eexists; (split; [reflexivity|]);
      rewrite (wrap32_small (i + 1)) by lia; cbn [fst]; (split; [|lia]);
      (split; [lia|]); replace (i + 1 - 1) with i by lia;
      rewrite Hsnoc in *; rewrite length_app in *; cbn [length] in *.
    - rewrite wrap32_small by lia. split; [lia|].
      split; [rewrite length_aset; exact Hl|].
      replace (Z.to_nat (w + 1)) with (Datatypes.S (Z.to_nat w)) by lia.
      unfold aset.
      rewrite (take_S_r _ _ i).
      + rewrite take_insert_ge by lia. rewrite Htake. reflexivity.
      + apply list_lookup_insert_eq. lia.
    - split; [lia|]. split; [exact Hl|]. rewrite app_nil_r. exact Htake. }
  { unfold I3. split; [lia|]. rewrite primes_le_small by lia.
    split; [reflexivity|]. split; [apply length_replicate|reflexivity]. }
  { cbn [fst]. lia. }
  rewrite Hrun3. cbn [rbind].
  destruct HI3 as (Hi3 & Hw & Hl & Htake). apply Z.leb_gt in Hcond3.
  assert (i3 = n + 1) as -> by lia. replace (n + 1 - 1) with n in * by lia.
  rewrite take_ge in Htake by lia. rewrite Htake. reflexivity.
Qed.

(** ** The tile scan *)

Lemma first_window_ext (W W' : Z -> Prop) start_count s :
  (forall s, 0 <= s < start_count -> (W s <-> W' s)) ->
  first_window W start_count s -> first_window W' start_count s.
Proof.
  intros Hext (Hs & Hw & Hleast). split; [exact Hs|]. split.
  - apply Hext; assumption.
  - intros s' Hs' Hw'. apply (Hleast s' Hs'). apply Hext; [lia|exact Hw'].
Qed.

Lemma no_window_ext (W W' : Z -> Prop) start_count :
  (forall s, 0 <= s < start_count -> (W s <-> W' s)) ->
  no_window W start_count -> no_window W' start_count.
Proof.
  intros Hext Hno s Hs Hw'. apply (Hno s Hs). apply Hext; assumption.
Qed.

Lemma window_clear_hit (bits : list Z) k m0 start_count s :
  (forall i, 0 <= i < start_count + k ->
     (bitset_get bits i = 1 <-> smooth k (m0 + 1 + i))) ->
  0 <= s < start_count ->
  (window_clear bits k s <-> hit k (m0 + s)).
Proof.
  intros Hbits Hs. unfold window_clear, hit. split.
  - intros Hc j Hj Hsm.
    assert (H1 : bitset_get bits (s + j - 1) = 1).
    { apply Hbits; [lia|]. replace (m0 + 1 + (s + j - 1)) with (m0 + s + j) by lia.
      exact Hsm. }
    rewrite Hc in H1 by lia. discriminate.
  - intros Hh j Hj.
    pose proof (bitset_get_range bits j) as Hr.
    destruct (Z.eq_dec (bitset_get bits j) 0) as [|Hne]; [assumption|exfalso].
    apply (Hh (j - s + 1)); [lia|].
    replace (m0 + s + (j - s + 1)) with (m0 + 1 + j) by lia.
    apply Hbits; lia.
Qed.

Lemma scan_tile_spec fuel e m0 start_count (off residual bad_bits : list Z) :
  epoch_primes_ok e -> 1 <= e_k e -> 1 <= start_count ->
  start_count + 2 * e_k e + 8 <= 2 ^ 32 ->
  0 <= m0 -> m0 + 1 + start_count + e_k e <= 2 ^ 64 ->
  pl_count (e_primes e) <= Z.of_nat (length off) ->
  (forall pi, 0 <= pi < pl_count (e_primes e) ->
     least_offset (primes_at (e_primes e) pi) (m0 + 1) (aget off pi)) ->
  start_count + e_k e <= Z.of_nat (length residual) ->
  (start_count + e_k e + 7) / 8 <= Z.of_nat (length bad_bits) ->
  start_count + 2 * e_k e + 64 <= Z.of_nat fuel ->
  exists found off' residual' bad_bits',
    scan_tile_find_m_carried_fastdiv fuel e m0 start_count off residual
      bad_bits = Ok (found, (off', residual', bad_bits')) /\
    length off' = length off /\ length residual' = length residual /\
    length bad_bits' = length bad_bits /\
    (forall pi, 0 <= pi < pl_count (e_primes e) ->
       aget off' pi =
       advance_off (primes_at (e_primes e) pi) (aget (e_step_mod e) pi)
         (aget off pi)) /\
    ((exists s, first_window (fun s => hit (e_k e) (m0 + s)) start_count s /\
                found = m0 + s) \/
     (no_window (fun s => hit (e_k e) (m0 + s)) start_count /\
      found = UINT64_MAX)).
Proof.
  intros Hok Hk Hsc H32 Hm0 H64 Hoff Hvalid Hlr Hlb Hfuel.
  unfold scan_tile_find_m_carried_fastdiv.
  destruct (Z.eqb_spec start_count 0); [lia|].
  rewrite (wrap32_small (start_count + e_k e)) by lia.
  destruct (Z.ltb_spec (start_count + e_k e) (e_k e)); [lia|].
  rewrite (wrap64_small (m0 + 1)) by lia.
  destruct (sieve_window_spec fuel e (m0 + 1) start_count off residual
              bad_bits)
    as (off' & r' & b' & Hrun & Hl1 & Hl2 & Hl3 & Hbits & Hadv & _);
    try assumption; try lia.
  rewrite Hrun. cbn [rbind].
  exists (window_scan (e_k e) start_count b' m0), off', r', b'.
  split; [reflexivity|]. split; [exact Hl1|]. split; [exact Hl2|].
  split; [exact Hl3|]. split; [exact Hadv|].
  assert (Hext : forall s, 0 <= s < start_count ->
            (window_clear b' (e_k e) s <-> hit (e_k e) (m0 + s))).
  { intros s Hs. apply window_clear_hit with (start_count := start_count); auto. }
  destruct (window_scan_spec (e_k e) start_count b' m0)
    as [(s & Hfirst & Hres)|[Hno Hres]]; try lia.
  - left. exists s. split.
    + eapply first_window_ext; [exact Hext|exact Hfirst].
    + rewrite Hres. apply wrap64_small. destruct Hfirst as (Hs & _). lia.
  - right. split; [|exact Hres].
    eapply no_window_ext; [exact Hext|exact Hno].
Qed.

(** ** Per-k tables and per-epoch offsets *)

Lemma land_1_mod x : Z.land x 1 = x mod 2.
Proof. change 1 with (Z.ones 1). rewrite Z.land_ones by lia. reflexivity. Qed.

Lemma primes_le_range k x : x ∈ primes_le k -> 2 <= x <= k.
Proof.
  intros H. apply primes_le_elem in H as [Hp Hk].
  apply Z.prime_ge_2 in Hp. lia.
Qed.

Lemma epoch_prepare_math_spec e :
  default [] (pl_p (e_primes e)) = primes_le (e_k e) ->
  pl_count (e_primes e) = Z.of_nat (length (primes_le (e_k e))) ->
  e_k e < 2 ^ 32 -> 0 <= e_step e < 2 ^ 64 ->
  let e' := epoch_prepare_math e in
  epoch_primes_ok e' /\ epoch_step_mod_ok e' /\
  e_k e' = e_k e /\ e_tile_len e' = e_tile_len e /\ e_step e' = e_step e /\
  e_primes e' = e_primes e.
Proof.
  intros Hps Hcnt Hk Hstep e'. subst e'. unfold epoch_prepare_math.
  set (n := pl_count (e_primes e)) in *.
  destruct (Z.eqb_spec n 0) as [Hz|Hnz].
  - split; [|split; [|auto]].
    + split; [exact Hps|]. split; [exact Hcnt|]. cbn. fold n.
      split; [lia|]. intros pi Hpi. lia.
    + intros pi Hpi. cbn in Hpi. fold n in Hpi. lia.
  - assert (Hn : 0 < n) by lia.
    assert (Hp : forall i, 0 <= i < n ->
              2 <= primes_at (e_primes e) i <= e_k e).
    { intros i Hi. apply primes_le_range. unfold primes_at, aget.
      rewrite Hps. apply list_elem_of_lookup_total_2. lia. }
    set (fd := for_range 0 n _ (replicate (Z.to_nat n) inhabitant)).
    assert (Hfd : Z.of_nat (length fd) = n /\
              forall i, 0 <= i < n ->
                aget fd i = fastdiv_u32_make_prime (primes_at (e_primes e) i)).
    { subst fd.
      apply (for_range_inv (fun i (fd : list FastDivU32) =>
               Z.of_nat (length fd) = n /\
               forall t, 0 <= t < i ->
                 aget fd t =
                 fastdiv_u32_make_prime (primes_at (e_primes e) t))).
      - lia.
      - split; [rewrite length_replicate; lia|]. intros t Ht. lia.
      - intros i fd0 Hi [Hl Hinv]. split; [rewrite length_aset; exact Hl|].
        intros t Ht. destruct (Z.eq_dec t i) as [->|Hne].
        + rewrite aget_aset_eq by lia. reflexivity.
        + rewrite aget_aset_ne by lia. apply Hinv. lia. }
    destruct Hfd as [Hfl Hfd].
    set (sm := for_range 0 n _ (replicate (Z.to_nat n) 0)).
    assert (Hsm : forall i, 0 <= i < n ->
              aget sm i = e_step e mod primes_at (e_primes e) i).
    { subst sm.
      apply (for_range_inv (fun i (sm : list Z) =>
               Z.of_nat (length sm) = n /\
               forall t, 0 <= t < i ->
                 aget sm t = e_step e mod primes_at (e_primes e) t)).
      - lia.
      - split; [rewrite length_replicate; lia|]. intros t Ht. lia.
      - intros i sm0 Hi [Hl Hinv].
        pose proof (Hp i Hi) as Hpi.
        assert (Hval : (if primes_at (e_primes e) i =? 2
                        then wrap32 (Z.land (e_step e) 1)
                        else fastdiv_u32_mod (aget fd i) (e_step e))
                       = e_step e mod primes_at (e_primes e) i).
        { destruct (Z.eqb_spec (primes_at (e_primes e) i) 2) as [E|E].
          - rewrite E, land_1_mod. apply wrap32_small.
            pose proof (Z.mod_pos_bound (e_step e) 2 ltac:(lia)). lia.
          - rewrite Hfd by lia. apply fastdiv_u32_mod_correct; lia. }
        split.
        { destruct (primes_at (e_primes e) i =? 2); rewrite length_aset; exact Hl. }
        intros t Ht. destruct (Z.eq_dec t i) as [->|Hne].
        + rewrite <- Hval.
          destruct (primes_at (e_primes e) i =? 2);
            rewrite aget_aset_eq by lia; reflexivity.
        + destruct (primes_at (e_primes e) i =? 2);
            rewrite aget_aset_ne by lia; apply Hinv; lia. }
    split; [|split; [|auto]].
    + split; [exact Hps|]. split; [exact Hcnt|]. cbn. fold n.
      split; [lia|]. exact Hfd.
    + intros pi Hpi. cbn in Hpi |- *. fold n in Hpi. apply Hsm. exact Hpi.
Qed.

Lemma worker_init_offsets_spec e (w : WorkerCtx) :
  epoch_primes_ok e -> e_k e < 2 ^ 32 ->
  0 <= w_tid w -> 0 <= e_tile_len e -> 0 <= e_start_m e ->
  e_start_m e + w_tid w * e_tile_len e + 1 < 2 ^ 64 ->
  Z.of_nat (length (w_off w)) = w_off_cap w ->
  let w' := worker_init_offsets_for_epoch e w in
  offsets_for e (e_start_m e + w_tid w * e_tile_len e + 1) (w_off w') /\
  Z.of_nat (length (w_off w')) = w_off_cap w' /\
  w_tid w' = w_tid w /\ w_residual w' = w_residual w /\
  w_bad_bits w' = w_bad_bits w /\ w_cap_win_len w' = w_cap_win_len w /\
  w_pc w' = w_pc w.
Proof.
  intros Hok Hk Htid HL HA Hrange Hcap w'. subst w'.
  unfold worker_init_offsets_for_epoch.
  set (pc := pl_count (e_primes e)).
  assert (Hpc : 0 <= pc).
  { destruct Hok as (_ & Hc & _). fold pc in Hc. lia. }
  set (w1 := ensure_worker_off w pc).
  assert (Hw1 : pc <= Z.of_nat (length (w_off w1)) /\
                Z.of_nat (length (w_off w1)) = w_off_cap w1 /\
                w_tid w1 = w_tid w /\ w_residual w1 = w_residual w /\
                w_bad_bits w1 = w_bad_bits w /\
                w_cap_win_len w1 = w_cap_win_len w /\ w_pc w1 = w_pc w).
  { subst w1. unfold ensure_worker_off.
    destruct (Z.eqb_spec pc 0) as [Hz|Hnz]; [cbn; repeat split; lia|].
    destruct (Z.geb_spec (w_off_cap w) pc).
    - repeat split; try reflexivity; lia.
    - cbn. rewrite length_replicate. repeat split; lia. }
  destruct Hw1 as (Hl1 & Hc1 & Ht1 & Hr1 & Hb1 & Hcw1 & Hpc1).
  destruct (Z.eqb_spec pc 0) as [Hz|Hnz].
  - split; [|auto 10]. split; [fold pc; lia|]. intros pi Hpi. fold pc in Hpi. lia.
  - rewrite Ht1.
    assert (Hwrap : wrap64 (wrap64 (e_start_m e + wrap64 (w_tid w * e_tile_len e)) + 1)
                    = e_start_m e + w_tid w * e_tile_len e + 1).
    { assert (0 <= w_tid w * e_tile_len e) by nia.
      rewrite (wrap64_small (w_tid w * _)) by lia.
      rewrite (wrap64_small (e_start_m e + _)) by lia.
      apply wrap64_small. lia. }
    rewrite Hwrap. set (bt := e_start_m e + w_tid w * e_tile_len e + 1).
    set (offs := for_range 0 pc _ (w_off w1)).
    assert (Hoffs : length offs = length (w_off w1) /\
              forall pi, 0 <= pi < pc ->
                least_offset (primes_at (e_primes e) pi) bt (aget offs pi)).
    { subst offs.
      apply (for_range_inv (fun i (o : list Z) =>
               length o = length (w_off w1) /\
               forall t, 0 <= t < i ->
                 least_offset (primes_at (e_primes e) t) bt (aget o t))).
      - exact Hpc.
      - split; [reflexivity|]. intros t Ht. lia.
      - intros i o Hi [Hl Hinv].
        destruct (epoch_primes_at e i Hok Hi) as [Hprime Hple].
        set (p := primes_at (e_primes e) i) in *.
        assert (Hp2 : 2 <= p) by (apply Z.prime_ge_2; exact Hprime).
        assert (Hfd : aget (e_fd e) i = fastdiv_u32_make_prime p).
        { destruct Hok as (_ & _ & _ & Hfd). apply Hfd. exact Hi. }
        pose proof (Z.mod_pos_bound bt p ltac:(lia)) as Hr.
        pose proof (Z.div_mod bt p ltac:(lia)) as Ebt.
        assert (Hval : least_offset p bt
                  (if p =? 2 then wrap32 (Z.land bt 1)
                   else if negb (fastdiv_u32_mod (aget (e_fd e) i) bt =? 0)
                        then wrap32 (p - fastdiv_u32_mod (aget (e_fd e) i) bt)
                        else 0)).
        { apply least_offset_iff; [lia|].
          destruct (Z.eqb_spec p 2) as [E|E].
          - rewrite land_1_mod, wrap32_small by (rewrite E in Hr; lia).
            rewrite E in *. split; [lia|]. exists (bt / 2 + bt mod 2). lia.
          - rewrite Hfd, fastdiv_u32_mod_correct by (unfold bt; lia).
            destruct (Z.eqb_spec (bt mod p) 0) as [Hz0|Hnz0]; cbn [negb].
            + split; [lia|]. exists (bt / p). lia.
            + rewrite wrap32_small by lia. split; [lia|].
              exists (bt / p + 1). lia. }
        split.
        { destruct (p =? 2); rewrite length_aset; exact Hl. }
        intros t Ht. destruct (Z.eq_dec t i) as [->|Hne].
        + fold p. destruct (p =? 2); rewrite aget_aset_eq by lia; exact Hval.
        + destruct (p =? 2); rewrite aget_aset_ne by lia; apply Hinv; lia. }
    destruct Hoffs as [Hol Hov].
    cbn. split; [split; [fold pc; lia|exact Hov]|].
    split; [lia|]. auto 10.
Qed.

(** ** One step of a worker keeps the epoch invariants *)

Lemma running_cons x ws :
  running (x :: ws) = is_running (w_pc x) + running ws.
Proof. reflexivity. Qed.

Lemma running_insert (ws : list WorkerCtx) i w w' :
  ws !! i = Some w ->
  running (<[i := w']> ws) =
  running ws - is_running (w_pc w) + is_running (w_pc w').
Proof.
  revert i. induction ws as [|x ws IH]; intros [|i] Hl; try discriminate.
  - injection Hl as ->.
    change (<[0%nat := w']> (w :: ws)) with (w' :: ws).
    rewrite !running_cons. lia.
  - change (<[Datatypes.S i := w']> (x :: ws)) with (x :: <[i := w']> ws).
    rewrite !running_cons, (IH i Hl). lia.
Qed.

Lemma running_nonneg ws : 0 <= running ws.
Proof.
  induction ws as [|x ws IH]; [cbn; lia|]. rewrite running_cons.
  destruct (w_pc x); cbn; lia.
Qed.

Lemma running_zero ws i w :
  running ws = 0 -> ws !! i = Some w -> is_running (w_pc w) = 0.
Proof.
  revert i. induction ws as [|x ws IH]; intros [|i] H0 Hl; try discriminate.
  - injection Hl as ->. rewrite running_cons in H0.
    pose proof (running_nonneg ws).
    destruct (w_pc w); cbn in *; lia.
  - rewrite running_cons in H0. pose proof (running_nonneg ws).
    apply (IH i); [|exact Hl]. destruct (w_pc x); cbn in *; lia.
Qed.

Lemma signalling_cons x ws :
  signalling (x :: ws) = is_signalling (w_pc x) + signalling ws.
Proof. reflexivity. Qed.

Lemma signalling_insert (ws : list WorkerCtx) i w w' :
  ws !! i = Some w ->
  signalling (<[i := w']> ws) =
  signalling ws - is_signalling (w_pc w) + is_signalling (w_pc w').
Proof.
  revert i. induction ws as [|x ws IH]; intros [|i] Hl; try discriminate.
  - injection Hl as ->.
    change (<[0%nat := w']> (w :: ws)) with (w' :: ws).
    rewrite !signalling_cons. lia.
  - change (<[Datatypes.S i := w']> (x :: ws)) with (x :: <[i := w']> ws).
    rewrite !signalling_cons, (IH i Hl). lia.
Qed.

Lemma signalling_nonneg ws : 0 <= signalling ws.
Proof.
  induction ws as [|x ws IH]; [cbn; lia|]. rewrite signalling_cons.
  destruct (w_pc x); cbn; lia.
Qed.

Lemma signalling_ge (ws : list WorkerCtx) i w :
  ws !! i = Some w -> is_signalling (w_pc w) <= signalling ws.
Proof.
  intros Hl. pose proof (signalling_insert ws i w (set_pc w Parked) Hl) as E.
  pose proof (signalling_nonneg (<[i := set_pc w Parked]> ws)).
  cbn [w_pc set_pc is_signalling] in E. lia.
Qed.

Lemma signalling_pos_exists (ws : list WorkerCtx) :
  0 < signalling ws -> exists i w, ws !! i = Some w /\ w_pc w = EpochSignal.
Proof.
  induction ws as [|x ws IH]; [cbn; lia|]. rewrite signalling_cons.
  intros Hpos. destruct (w_pc x) eqn:Hx;
    try (destruct IH as (i & w & Hw & Hr);
         [cbn [is_signalling] in Hpos; lia|exists (Datatypes.S i), w; auto]).
  exists 0%nat, x. auto.
Qed.

Lemma signalling_parked (ws : list WorkerCtx) :
  (forall i w, ws !! i = Some w -> w_pc w = Parked) -> signalling ws = 0.
Proof.
  induction ws as [|x ws IH]; intros H; [reflexivity|].
  rewrite signalling_cons, (H 0%nat x eq_refl), IH; [reflexivity|].
  intros i w Hw. apply (H (Datatypes.S i)). exact Hw.
Qed.

Lemma same_header_eq e e0 :
  same_header e e0 ->
  e = set_atomics e0 (e_best_m e) (e_end_limit e) (e_active_workers e)
        (e_evt_done e).
Proof.
  intros (H1 & H2 & H3 & H4 & H5 & H6 & H7 & H8).
  destruct e, e0. cbn in *. subst. reflexivity.
Qed.

Lemma tile_covered_mono e0 T best best' i c :
  best' <= best -> tile_covered e0 T best i c -> tile_covered e0 T best' i c.
Proof. intros Hle Hc m Hs Ht. specialize (Hc m Hs Ht). lia. Qed.

Lemma at_tile_mono e0 T best best' i j base bt off n :
  best' <= best -> at_tile e0 T best i j base bt off n ->
  at_tile e0 T best' i j base bt off n.
Proof.
  intros Hle (Hj & Hb & Ho & Hc). split; [exact Hj|]. split; [exact Hb|].
  split; [exact Ho|]. intros c Hc'. eapply tile_covered_mono; eauto.
Qed.

(** The invariant of a worker survives the steps of the others: it depends
    on the epoch only through [best_m], which only decreases. *)
Lemma worker_inv_mono e0 T e e' (D D' : list nat) i w :
  e_best_m e' <= e_best_m e ->
  (i ∈ D <-> i ∈ D') ->
  worker_inv e0 T e D i w -> worker_inv e0 T e' D' i w.
Proof.
  intros Hle HD (Htid & Hbufs & Hpc). split; [exact Htid|].
  split; [exact Hbufs|].
  destruct (w_pc w) as [|base|base m|base m cur|base nl|base nl old| | |].
  - intros Hin c Hc. eapply tile_covered_mono; [exact Hle|].
    apply Hpc; [apply HD; exact Hin|exact Hc].
  - destruct Hpc as (Hin & j & Hat & Hb). split; [apply HD; exact Hin|].
    exists j. split; [eapply at_tile_mono; eauto|exact Hb].
  - destruct Hpc as (Hin & j & Hat & Hb & Hm & Hpend).
    split; [apply HD; exact Hin|]. exists j.
    split; [eapply at_tile_mono; eauto|]. split; [exact Hb|].
    split; [exact Hm|]. intros m' Hs Ht. destruct (Hpend m' Hs Ht); lia.
  - destruct Hpc as (Hin & j & Hat & Hb & Hm & Hpend & Hlt & Hcur).
    split; [apply HD; exact Hin|]. exists j.
    split; [eapply at_tile_mono; eauto|]. split; [exact Hb|].
    split; [exact Hm|]. split; [|lia].
    intros m' Hs Ht. destruct (Hpend m' Hs Ht); lia.
  - destruct Hpc as (Hin & j & Hat & Hb & Hnl & Hbest).
    split; [apply HD; exact Hin|]. exists j.
    split; [eapply at_tile_mono; eauto|]. split; [exact Hb|]. split; [exact Hnl|lia].
  - destruct Hpc as (Hin & j & Hat & Hb & Hnl & Hbest & Hlt).
    split; [apply HD; exact Hin|]. exists j.
    split; [eapply at_tile_mono; eauto|]. split; [exact Hb|].
    split; [exact Hnl|]. split; lia.
  - destruct Hpc as (Hin & Hc). split; [apply HD; exact Hin|].
    intros c Hc'. eapply tile_covered_mono; [exact Hle|]. apply Hc. exact Hc'.
  - destruct Hpc as (Hin & Hc). split; [apply HD; exact Hin|].
    intros c Hc'. eapply tile_covered_mono; [exact Hle|]. apply Hc. exact Hc'.
  - exact Hpc.
Qed.

Lemma tile_base_succ e0 T i j :
  tile_base e0 T i (j + 1) = tile_base e0 T i j + e_tile_len e0 * T.
Proof. unfold tile_base. ring. Qed.

Lemma tile_base_mono e0 T i j c :
  1 <= e_tile_len e0 -> 1 <= T -> j <= c ->
  tile_base e0 T i j <= tile_base e0 T i c.
Proof.
  intros HL HT Hjc. unfold tile_base.
  assert (j * T <= c * T) by nia.
  assert ((i + j * T) * e_tile_len e0 <= (i + c * T) * e_tile_len e0) by nia.
  lia.
Qed.

Lemma ensure_worker_buffers_spec w win_len :
  bufs_ok w -> 0 <= win_len -> win_len + 7 < 2 ^ 32 ->
  let w' := ensure_worker_buffers w win_len in
  bufs_ok w' /\ win_len <= Z.of_nat (length (w_residual w')) /\
  (win_len + 7) / 8 <= Z.of_nat (length (w_bad_bits w')) /\
  w_tid w' = w_tid w /\ w_off w' = w_off w /\ w_pc w' = w_pc w.
Proof.
  intros (Hcap & Hbits & Hoff) Hw H32 w'. subst w'.
  unfold ensure_worker_buffers.
  destruct (Z.geb_spec (w_cap_win_len w) win_len) as [Hge|Hlt].
  - split; [split; [exact Hcap|split; [exact Hbits|exact Hoff]]|].
    split; [lia|]. split; [|auto].
    eapply Z.le_trans; [|exact Hbits]. apply Z.div_le_mono; lia.
  - cbn. rewrite !length_replicate, wrap32_small, shiftr3 by lia.
    assert (0 <= (win_len + 7) / 8) by (apply Z.div_pos; lia).
    unfold bufs_ok. cbn. rewrite !length_replicate. repeat split; lia.
Qed.

Section EpochSteps.
Variables (fuel : nat) (e0 : Epoch) (T : Z).
Hypothesis Hrange : epoch_in_range e0 T fuel.
Hypothesis Hprimes : epoch_primes_ok e0.
Hypothesis Hsm : epoch_step_mod_ok e0.

Lemma offsets_advance base_test (off off' : list Z) :
  0 <= base_test ->
  offsets_for e0 base_test off -> length off' = length off ->
  (forall pi, 0 <= pi < pl_count (e_primes e0) ->
     aget off' pi =
     advance_off (primes_at (e_primes e0) pi) (aget (e_step_mod e0) pi)
       (aget off pi)) ->
  offsets_for e0 (base_test + e_step e0) off'.
Proof.
  destruct Hrange as (Hk & HL & HT & Hstep & HA & HB & H32 & Hfuel).
  intros Hbt [Hlen Hvalid] Hl Hadv. split; [lia|]. intros pi Hpi.
  destruct (epoch_primes_at e0 pi Hprimes Hpi) as [Hprime Hple].
  pose proof (Z.prime_ge_2 _ Hprime) as Hp2.
  specialize (Hvalid pi Hpi).
  apply least_offset_iff in Hvalid as [Ho Hd]; [|lia].
  apply least_offset_iff; [lia|]. rewrite (Hadv pi Hpi).
  destruct (advance_off_valid (primes_at (e_primes e0) pi)
              (aget (e_step_mod e0) pi) (aget off pi) base_test (e_step e0))
    as [Hr Hm]; try lia.
  - apply Hsm. exact Hpi.
  - apply Z.mod_divide; [lia|exact Hd].
  - split; [exact Hr|]. apply Z.mod_divide; [lia|exact Hm].
Qed.

(** What scanning the tile at [base] under the limit [l] yields. *)
Lemma tile_scan_step b l a d (w : WorkerCtx) (i : nat) base j :
  let E := set_atomics e0 b l a d in
  atomics_inv e0 E -> bufs_ok w ->
  at_tile e0 T b (Z.of_nat i) j base (base + 1) (w_off w) j ->
  base <= l ->
  let max_starts := wrap64 (l - base + 1) in
  let start_count :=
    if max_starts >=? e_tile_len E then e_tile_len E
    else wrap32 max_starts in
  let w1 := ensure_worker_buffers w (wrap32 (start_count + e_k E)) in
  exists found off' res' bits',
    scan_tile_find_m_carried_fastdiv fuel E base start_count
      (w_off w1) (w_residual w1) (w_bad_bits w1)
      = Ok (found, (off', res', bits')) /\
    bufs_ok (set_bufs w1 off' res' bits') /\
    w_tid (set_bufs w1 off' res' bits') = w_tid w /\
    offsets_for e0 (base + e_step e0 + 1) off' /\
    ((found <> UINT64_MAX /\ in_span e0 found /\
      forall m', in_span e0 m' -> in_tile e0 T (Z.of_nat i) j m' ->
        b <= m' \/ found <= m') \/
     (found = UINT64_MAX /\ tile_covered e0 T b (Z.of_nat i) j)).
Proof.
  destruct Hrange as (Hk & HL & HT & Hstep & HA & HB & H32 & Hfuel).
  intros E (Hhdr & Hbest & Hlim & Hshrunk) Hbufs (Hj & Hbase & Hoffs & Hcov)
    Hle max_starts start_count w1.
  cbn in Hlim, Hshrunk.
  assert (Hbase0 : e_start_m e0 <= base).
  { rewrite Hbase. unfold tile_base.
    assert (0 <= (Z.of_nat i + j * T) * e_tile_len e0) by nia. lia. }
  assert (Hms : max_starts = l - base + 1).
  { unfold max_starts. apply wrap64_small. lia. }
  assert (Hsc : start_count = Z.min (e_tile_len e0) (l - base + 1)).
  { unfold start_count. rewrite Hms. cbn [E e_tile_len set_atomics].
    destruct (Z.geb_spec (l - base + 1) (e_tile_len e0)); [lia|].
    rewrite wrap32_small by lia. lia. }
  assert (Hsc1 : 1 <= start_count <= e_tile_len e0) by lia.
  clearbody start_count. clear max_starts Hms.
  assert (Hwin : wrap32 (start_count + e_k E) = start_count + e_k e0).
  { cbn [E e_k set_atomics]. apply wrap32_small. lia. }
  destruct (ensure_worker_buffers_spec w (start_count + e_k e0) Hbufs)
    as (Hb1 & Hres1 & Hbits1 & Htid1 & Hoff1 & _); try lia.
  subst w1. rewrite Hwin.
  set (w1 := ensure_worker_buffers w (start_count + e_k e0)) in *.
  destruct Hoffs as [Hol Hov].
  destruct (scan_tile_spec fuel E base start_count (w_off w1)
              (w_residual w1) (w_bad_bits w1))
    as (found & off' & r' & b' & Hrun & Hl1 & Hl2 & Hl3 & Hadv & Hfound);
    try (cbn [E e_k e_primes set_atomics]; rewrite ?Hoff1; lia).
  { exact Hprimes. }
  { cbn [E e_k e_primes set_atomics]. rewrite Hoff1. exact Hov. }
  exists found, off', r', b'. split; [exact Hrun|].
  split.
  { destruct Hb1 as (Hc1 & Hc2 & Hc3). unfold bufs_ok. cbn.
    rewrite Hl1, Hl2, Hl3. auto. }
  split; [exact Htid1|]. split.
  { replace (base + e_step e0 + 1) with (base + 1 + e_step e0) by lia.
    apply (offsets_advance (base + 1) (w_off w)).
    - lia.
    - exact (conj Hol Hov).
    - rewrite Hl1, Hoff1. reflexivity.
    - intros pi Hpi. rewrite <- Hoff1. apply Hadv. exact Hpi. }
  (* hits of the tile beyond the scanned starts are above the limit *)
  assert (Hbeyond : forall m', in_span e0 m' ->
            in_tile e0 T (Z.of_nat i) j m' -> base + start_count <= m' ->
            b <= m').
  { intros m' [Hspan _] [_ Htile] Hge. rewrite <- Hbase in Htile.
    assert (l < m') by lia. lia. }
  destruct Hfound as [(s & (Hs & Hhit & Hfirst) & ->)|[Hno ->]].
  - left. split; [unfold UINT64_MAX; lia|]. split.
    + split; [lia|]. exact Hhit.
    + intros m' Hspan Htile.
      destruct (Z_lt_ge_dec m' (base + start_count)) as [Hlt|Hge].
      * right. destruct (Z_lt_ge_dec m' (base + s)) as [Hlt'|]; [|lia].
        exfalso. destruct Htile as [Hlo _]. rewrite <- Hbase in Hlo.
        apply (Hfirst (m' - base)); [lia|].
        replace (base + (m' - base)) with m' by lia. apply Hspan.
      * left. apply Hbeyond; [assumption|assumption|lia].
  - right. split; [reflexivity|]. intros m' Hspan Htile.
    destruct (Z_lt_ge_dec m' (base + start_count)) as [Hlt|Hge].
    + exfalso. destruct Htile as [Hlo _]. rewrite <- Hbase in Hlo.
      apply (Hno (m' - base)); [lia|].
      replace (base + (m' - base)) with m' by lia. apply Hspan.
    + apply Hbeyond; [assumption|assumption|lia].
Qed.

Lemma tile_base_ge i j :
  0 <= i -> 0 <= j -> e_start_m e0 <= tile_base e0 T i j.
Proof.
  destruct Hrange as (Hk & HL & HT & _).
  intros Hi Hj. unfold tile_base.
  assert (0 <= j * T) by nia.
  assert (0 <= (i + j * T) * e_tile_len e0) by nia. lia.
Qed.

Ltac simpl_atomics :=
  cbn [e_best_m e_end_limit e_active_workers e_evt_done e_step e_k
       e_tile_len e_start_m e_end_m set_atomics] in *.

Ltac sig_unchanged H :=
  left; repeat split; cbn [w_pc set_pc]; rewrite ?H; reflexivity.

Lemma worker_step_inv b l a d (q : nat) (D : list nat) (i : nat)
    (w : WorkerCtx) :
  let E := set_atomics e0 b l a d in
  atomics_inv e0 E -> worker_inv e0 T E D i w -> Z.of_nat i < T ->
  exists b' l' a' d' (q' : nat) w',
    worker_step fuel E (replicate q KEY_START) w
      = Ok (set_atomics e0 b' l' a' d', replicate q' KEY_START, w') /\
    let D' := D ++ (if took_start w q then [i] else []) in
    atomics_inv e0 (set_atomics e0 b' l' a' d') /\ b' <= b /\
    worker_inv e0 T (set_atomics e0 b' l' a' d') D' i w' /\
    Z.of_nat (length D') + Z.of_nat q' = Z.of_nat (length D) + Z.of_nat q /\
    a' - Z.of_nat q' - is_running (w_pc w')
      = a - Z.of_nat q - is_running (w_pc w) /\
    ((a' = a /\ d' = d /\
      is_signalling (w_pc w') = 0 /\ is_signalling (w_pc w) = 0) \/
     (is_running (w_pc w) = 1 /\ a' = a - 1 /\ d' = d /\
      is_signalling (w_pc w) = 0 /\
      is_signalling (w_pc w') = if a' =? 0 then 1 else 0) \/
     (is_signalling (w_pc w) = 1 /\ is_signalling (w_pc w') = 0 /\
      a' = a /\ d' = true)).
Proof.
  pose proof Hrange as (Hk & HL & HT & Hstep & HA & HB & H32 & Hfuel).
  intros E Hat (Htid & Hbufs & Hpc) Hi.
  pose proof Hat as (Hhdr & Hbest & Hlim & Hshrunk).
  subst E. cbn [e_best_m e_end_limit set_atomics] in Hbest, Hlim, Hshrunk.
  unfold worker_step, took_start. simpl_atomics.
  destruct (w_pc w) as [|base|base m|base m cur|base nl|base nl old| | |]
    eqn:Hpceq.
  - (* Parked *)
    destruct q as [|q'].
    + exists b, l, a, d, 0%nat, w. cbn [replicate].
      split; [reflexivity|]. cbv zeta. rewrite app_nil_r, Hpceq.
      split; [exact Hat|]. split; [lia|].
      split; [split; [exact Htid|split; [exact Hbufs|rewrite Hpceq; exact Hpc]]|].
      split; [lia|]. split; [lia|]. sig_unchanged Hpceq.
    + cbn [replicate]. change (KEY_START =? KEY_STOP) with false.
      change (KEY_START =? KEY_START) with true. cbv iota.
      assert (Hil : 0 <= Z.of_nat i * e_tile_len e0 <
                    e_tile_len e0 * T) by nia.
      destruct (worker_init_offsets_spec (set_atomics e0 b l a d) w)
        as (Hoffs & Hcap & Htid' & Hres' & Hbits' & Hcw' & Hpc');
        try (cbn [e_k e_tile_len e_start_m set_atomics]; rewrite ?Htid; lia).
      { exact Hprimes. }
      { apply Hbufs. }
      cbn [e_tile_len e_start_m set_atomics] in Hoffs |- *.
      rewrite Htid in *.
      rewrite (wrap64_small (Z.of_nat i * _)) by lia.
      rewrite (wrap64_small (e_start_m e0 + _)) by lia.
      set (w1 := worker_init_offsets_for_epoch (set_atomics e0 b l a d) w) in *.
      exists b, l, a, d, q', (set_pc w1
               (TileLoop (e_start_m e0 + Z.of_nat i * e_tile_len e0))).
      split; [reflexivity|]. cbv zeta.
      split; [exact Hat|]. split; [lia|]. split.
      { split; [cbn; exact Htid'|]. split.
        { destruct Hbufs as (Hb1 & Hb2 & Hb3). unfold bufs_ok. cbn.
          rewrite Hres', Hbits', Hcw'. auto. }
        cbn [w_pc set_pc]. simpl_atomics. split; [apply elem_of_app; right; constructor|].
        exists 0. split; [|cbn; lia].
        split; [lia|]. split; [unfold tile_base; ring|].
        split; [exact Hoffs|]. intros c Hc. lia. }
      split; [rewrite length_app; cbn; lia|].
      split; [cbn [w_pc set_pc is_running]; lia|]. sig_unchanged Hpceq.
  - (* TileLoop *)
    destruct Hpc as (Hin & j & Hatile & Hbnd).
    cbn [e_end_limit e_step set_atomics].
    destruct (Z.gtb_spec base l) as [Hgt|Hle].
    + exists b, l, a, d, q, (set_pc w EpochDone).
      split; [reflexivity|]. cbv zeta. rewrite app_nil_r.
      split; [exact Hat|]. split; [lia|]. split.
      { split; [exact Htid|]. split; [exact Hbufs|]. cbn [w_pc set_pc]. simpl_atomics.
        split; [exact Hin|]. intros c Hc.
        destruct Hatile as (Hj & Hbase & _ & Hcov).
        destruct (Z_lt_ge_dec c j) as [Hlt|Hge]; [apply Hcov; lia|].
        intros m' [Hspan _] [Hlo _]. cbn [e_best_m set_atomics].
        pose proof (tile_base_mono e0 T (Z.of_nat i) j c HL HT ltac:(lia)).
        assert (l < m') by lia. lia. }
      split; [lia|]. split; [cbn; lia|]. sig_unchanged Hpceq.
    + destruct (tile_scan_step b l a d w i base j Hat Hbufs Hatile Hle)
        as (found & off' & r' & b' & Hrun & Hbufs' & Htid' & Hoffs' & Hres).
      cbv zeta in Hrun. simpl_atomics. rewrite Hrun. cbn [rbind].
      set (w2 := set_bufs _ off' r' b') in *.
      destruct Hatile as (Hj & Hbase & _ & Hcov).
      pose proof (tile_base_ge (Z.of_nat i) j ltac:(lia) Hj) as Hb0.
      rewrite <- Hbase in Hb0.
      destruct Hres as [(Hne & Hspan & Hpend)|[-> Hcovj]].
      * destruct (Z.eqb_spec found UINT64_MAX) as [|_]; [contradiction|].
        cbn [negb].
        exists b, l, a, d, q, (set_pc w2 (BestLoad base found)).
        split; [reflexivity|]. cbv zeta. rewrite app_nil_r.
        split; [exact Hat|]. split; [lia|]. split.
        { split; [cbn; rewrite <- Htid; exact Htid'|].
          split; [exact Hbufs'|]. cbn [w_pc set_pc]. simpl_atomics.
          split; [exact Hin|]. exists j.
          split; [split; [exact Hj|split; [exact Hbase|split; [exact Hoffs'|exact Hcov]]]|].
          split; [lia|]. split; [exact Hspan|exact Hpend]. }
        split; [lia|]. split; [cbn; lia|]. sig_unchanged Hpceq.
      * rewrite Z.eqb_refl. cbn [negb].
        rewrite (wrap64_small (base + e_step e0)) by lia.
        exists b, l, a, d, q, (set_pc w2 (TileLoop (base + e_step e0))).
        split; [reflexivity|]. cbv zeta. rewrite app_nil_r.
        split; [exact Hat|]. split; [lia|]. split.
        { split; [cbn; rewrite <- Htid; exact Htid'|].
          split; [exact Hbufs'|]. cbn [w_pc set_pc]. simpl_atomics.
          split; [exact Hin|]. exists (j + 1). split; [|lia].
          split; [lia|]. split; [rewrite tile_base_succ; lia|].
          split; [exact Hoffs'|]. intros c Hc.
          destruct (Z.eq_dec c j) as [->|]; [exact Hcovj|apply Hcov; lia]. }
        split; [lia|]. split; [cbn; lia|]. sig_unchanged Hpceq.
  - (* BestLoad *)
    destruct Hpc as (Hin & j & (Hj & Hbase & Hoffs & Hcov) & Hbnd & Hspan & Hpend).
    pose proof (tile_base_ge (Z.of_nat i) j ltac:(lia) Hj) as Hb0.
    rewrite <- Hbase in Hb0.
    cbn [e_best_m e_step set_atomics].
    destruct (Z.geb_spec m b) as [Hge|Hlt].
    + rewrite (wrap64_small (base + e_step e0)) by lia.
      exists b, l, a, d, q, (set_pc w (TileLoop (base + e_step e0))).
      split; [reflexivity|]. cbv zeta. rewrite app_nil_r.
      split; [exact Hat|]. split; [lia|]. split.
      { split; [exact Htid|]. split; [exact Hbufs|]. cbn [w_pc set_pc]. simpl_atomics.
        split; [exact Hin|]. exists (j + 1). split; [|lia].
        split; [lia|]. split; [rewrite tile_base_succ; lia|].
        split; [exact Hoffs|]. intros c Hc.
        destruct (Z.eq_dec c j) as [->|]; [|apply Hcov; lia].
        intros m' Hs Ht. destruct (Hpend m' Hs Ht); lia. }
      split; [lia|]. split; [cbn; lia|]. sig_unchanged Hpceq.
    + exists b, l, a, d, q, (set_pc w (BestCas base m b)).
      split; [reflexivity|]. cbv zeta. rewrite app_nil_r.
      split; [exact Hat|]. split; [lia|]. split.
      { split; [exact Htid|]. split; [exact Hbufs|]. cbn [w_pc set_pc]. simpl_atomics.
        split; [exact Hin|]. exists j.
        split; [split; [exact Hj|split; [exact Hbase|split; [exact Hoffs|exact Hcov]]]|].
        split; [exact Hbnd|]. split; [exact Hspan|]. split; [exact Hpend|].
        cbn. lia. }
      split; [lia|]. split; [cbn; lia|]. sig_unchanged Hpceq.
  - (* BestCas *)
    destruct Hpc as (Hin & j & (Hj & Hbase & Hoffs & Hcov) & Hbnd & Hspan
                     & Hpend & Hlt & Hcur).
    cbn [e_best_m set_atomics] in Hpend, Hcur, Hcov |- *.
    destruct (Z.eqb_spec b cur) as [->|Hne].
    + set (nl := if m =? 0 then 0 else wrap64 (m - 1)).
      assert (Hnl : 0 <= nl <= e_end_m e0 /\ m <= nl + 1).
      { destruct Hspan as [Hm _]. unfold nl.
        destruct (Z.eqb_spec m 0) as [->|]; [lia|].
        rewrite wrap64_small by lia. lia. }
      exists m, l, a, d, q, (set_pc w (LimLoad base nl)).
      split; [reflexivity|]. cbv zeta. rewrite app_nil_r.
      split.
      { split; [exact Hhdr|]. cbn [e_best_m e_end_limit set_atomics].
        split; [right; exact Hspan|]. split; [exact Hlim|]. intros H. lia. }
      split; [lia|]. split.
      { split; [exact Htid|]. split; [exact Hbufs|]. cbn [w_pc set_pc]. simpl_atomics.
        split; [exact Hin|]. exists j. cbn [e_best_m set_atomics].
        split; [|split; [exact Hbnd|split; [lia|lia]]].
        split; [exact Hj|]. split; [exact Hbase|]. split; [exact Hoffs|].
        intros c Hc. destruct (Z.eq_dec c j) as [->|].
        - intros m' Hs Ht. destruct (Hpend m' Hs Ht); lia.
        - eapply tile_covered_mono; [|apply Hcov; lia]. lia. }
      split; [lia|]. split; [cbn; lia|]. sig_unchanged Hpceq.
    + exists b, l, a, d, q, (set_pc w (BestLoad base m)).
      split; [reflexivity|]. cbv zeta. rewrite app_nil_r.
      split; [exact Hat|]. split; [lia|]. split.
      { split; [exact Htid|]. split; [exact Hbufs|]. cbn [w_pc set_pc]. simpl_atomics.
        split; [exact Hin|]. exists j.
        split; [split; [exact Hj|split; [exact Hbase|split; [exact Hoffs|exact Hcov]]]|].
        split; [exact Hbnd|]. split; [exact Hspan|exact Hpend]. }
      split; [lia|]. split; [cbn; lia|]. sig_unchanged Hpceq.
  - (* LimLoad *)
    destruct Hpc as (Hin & j & (Hj & Hbase & Hoffs & Hcov) & Hbnd & Hnl & Hbnl).
    pose proof (tile_base_ge (Z.of_nat i) j ltac:(lia) Hj) as Hb0.
    rewrite <- Hbase in Hb0.
    cbn [e_best_m e_end_limit e_step set_atomics] in Hcov, Hbnl |- *.
    destruct (Z.geb_spec nl l) as [Hge|Hlt].
    + rewrite (wrap64_small (base + e_step e0)) by lia.
      exists b, l, a, d, q, (set_pc w (TileLoop (base + e_step e0))).
      split; [reflexivity|]. cbv zeta. rewrite app_nil_r.
      split; [exact Hat|]. split; [lia|]. split.
      { split; [exact Htid|]. split; [exact Hbufs|]. cbn [w_pc set_pc]. simpl_atomics.
        split; [exact Hin|]. exists (j + 1). split; [|lia].
        split; [lia|]. split; [rewrite tile_base_succ; lia|].
        split; [exact Hoffs|exact Hcov]. }
      split; [lia|]. split; [cbn; lia|]. sig_unchanged Hpceq.
    + exists b, l, a, d, q, (set_pc w (LimCas base nl l)).
      split; [reflexivity|]. cbv zeta. rewrite app_nil_r.
      split; [exact Hat|]. split; [lia|]. split.
      { split; [exact Htid|]. split; [exact Hbufs|]. cbn [w_pc set_pc]. simpl_atomics.
        split; [exact Hin|]. exists j.
        split; [split; [exact Hj|split; [exact Hbase|split; [exact Hoffs|exact Hcov]]]|].
        split; [exact Hbnd|]. split; [exact Hnl|]. split; [exact Hbnl|lia]. }
      split; [lia|]. split; [cbn; lia|]. sig_unchanged Hpceq.
  - (* LimCas *)
    destruct Hpc as (Hin & j & (Hj & Hbase & Hoffs & Hcov) & Hbnd & Hnl
                     & Hbnl & Hlt).
    pose proof (tile_base_ge (Z.of_nat i) j ltac:(lia) Hj) as Hb0.
    rewrite <- Hbase in Hb0.
    cbn [e_best_m e_end_limit e_step set_atomics] in Hcov, Hbnl |- *.
    destruct (Z.eqb_spec l old) as [->|Hne].
    + rewrite (wrap64_small (base + e_step e0)) by lia.
      exists b, nl, a, d, q, (set_pc w (TileLoop (base + e_step e0))).
      split; [reflexivity|]. cbv zeta. rewrite app_nil_r.
      split.
      { split; [exact Hhdr|]. cbn [e_best_m e_end_limit set_atomics].
        split; [exact Hbest|]. split; [lia|]. intros _. exact Hbnl. }
      split; [lia|]. split.
      { split; [exact Htid|]. split; [exact Hbufs|]. cbn [w_pc set_pc]. simpl_atomics.
        split; [exact Hin|]. exists (j + 1). split; [|lia].
        split; [lia|]. split; [rewrite tile_base_succ; lia|].
        split; [exact Hoffs|exact Hcov]. }
      split; [lia|]. split; [cbn; lia|]. sig_unchanged Hpceq.
    + exists b, l, a, d, q, (set_pc w (LimLoad base nl)).
      split; [reflexivity|]. cbv zeta. rewrite app_nil_r.
      split; [exact Hat|]. split; [lia|]. split.
      { split; [exact Htid|]. split; [exact Hbufs|]. cbn [w_pc set_pc]. simpl_atomics.
        split; [exact Hin|]. exists j.
        split; [split; [exact Hj|split; [exact Hbase|split; [exact Hoffs|exact Hcov]]]|].
        split; [exact Hbnd|]. split; [exact Hnl|exact Hbnl]. }
      split; [lia|]. split; [cbn; lia|]. sig_unchanged Hpceq.
  - (* EpochDone *)
    destruct Hpc as (Hin & Hcov).
    cbn [e_best_m e_end_limit e_active_workers e_evt_done set_atomics].
    exists b, l, (a - 1), d, q,
      (set_pc w (if a - 1 =? 0 then EpochSignal else Parked)).
    split; [reflexivity|]. cbv zeta. rewrite app_nil_r.
    split; [exact Hat|]. split; [lia|]. split.
    { split; [exact Htid|]. split; [exact Hbufs|]. cbn [w_pc set_pc]. simpl_atomics.
      destruct (a - 1 =? 0); [split; [exact Hin|exact Hcov]|].
      intros _. exact Hcov. }
    split; [lia|].
    split; [cbn [w_pc set_pc]; destruct (a - 1 =? 0); cbn; lia|].
    right. left. cbn [w_pc set_pc].
    destruct (a - 1 =? 0); cbn; auto.
  - (* EpochSignal *)
    destruct Hpc as (Hin & Hcov).
    cbn [e_best_m e_end_limit e_active_workers e_evt_done set_atomics].
    exists b, l, a, true, q, (set_pc w Parked).
    split; [reflexivity|]. cbv zeta. rewrite app_nil_r.
    split; [exact Hat|]. split; [lia|]. split.
    { split; [exact Htid|]. split; [exact Hbufs|]. cbn [w_pc set_pc]. simpl_atomics.
      intros _. exact Hcov. }
    split; [lia|]. split; [cbn; lia|]. right. right. cbn. auto.
  - destruct Hpc.
Qed.

Lemma running_ge (ws : list WorkerCtx) i w :
  ws !! i = Some w -> is_running (w_pc w) <= running ws.
Proof.
  intros Hl. pose proof (running_insert ws i w (set_pc w Parked) Hl) as E.
  pose proof (running_nonneg (<[i := set_pc w Parked]> ws)).
  cbn [w_pc set_pc is_running] in E. lia.
Qed.

Lemma takes_start_took sys i w (q : nat) :
  sys_w sys !! i = Some w ->
  js_iocp (sys_js sys) = replicate q KEY_START ->
  takes_start sys i = took_start w q.
Proof.
  intros Hw Hq. unfold takes_start, took_start. rewrite Hw, Hq.
  destruct q as [|q]; cbn [replicate]; destruct (w_pc w); reflexivity.
Qed.

Lemma system_step_inv (D : list nat) sys i :
  system_inv e0 T D sys ->
  exists sys',
    system_step fuel i sys = Ok sys' /\
    system_inv e0 T (D ++ (if takes_start sys i then [i] else [])) sys' /\
    e_best_m (sys_epoch sys') <= e_best_m (sys_epoch sys).
Proof.
  intros (Hat & (q & Hq & HD & Hact) & Hevt & Hlen & Hws & HDlt).
  unfold system_step.
  destruct (sys_w sys !! i) as [w|] eqn:Hw.
  - pose proof (lookup_lt_Some _ _ _ Hw) as Hi.
    rewrite (takes_start_took sys i w q Hw Hq).
    pose proof Hat as (Hhdr & _).
    pose proof (same_header_eq _ _ Hhdr) as He. unfold sys_epoch in *.
    set (e := js_epoch (sys_js sys)) in *.
    rewrite He in Hat. pose proof (Hws i w Hw) as Hwi. rewrite He in Hwi.
    destruct (worker_step_inv (e_best_m e) (e_end_limit e)
                (e_active_workers e) (e_evt_done e) q D i w Hat Hwi
                ltac:(lia))
      as (b' & l' & a' & d' & q' & w' & Hstep & Hat' & Hb' & Hw' & HD'
          & Hrun & Hd').
    cbv zeta in Hat', Hw', HD'.
    rewrite Hq, He, Hstep. cbn [rbind].
    eexists. split; [reflexivity|]. cbn [sys_js js_epoch sys_w].
    split; [|cbn [e_best_m set_atomics]; exact Hb'].
    unfold system_inv. cbn [sys_epoch sys_js js_epoch js_iocp sys_w].
    split; [exact Hat'|]. split.
    { exists q'. split; [reflexivity|]. split; [lia|].
      cbn [e_active_workers set_atomics].
      rewrite (running_insert _ _ _ w' Hw). lia. }
    split.
    { cbn [e_evt_done e_active_workers set_atomics].
      pose proof (running_ge _ _ _ Hw) as Hge.
      pose proof (running_nonneg (sys_w sys)) as Hrn.
      pose proof (signalling_ge _ _ _ Hw) as Hsg.
      pose proof (signalling_nonneg (sys_w sys)) as Hsn.
      rewrite (signalling_insert _ _ _ w' Hw).
      destruct Hd' as [(-> & -> & Hs' & Hs)|[(Hr & -> & -> & Hs & Hs')
                      |(Hs & Hs' & -> & ->)]].
      - rewrite Hs, Hs'. lia.
      - rewrite Hs, Hs'.
        destruct (Z.eqb_spec (e_active_workers e) 0) as [Hz|Hnz]; [lia|].
        destruct (e_evt_done e); [lia|].
        destruct (Z.eqb_spec (e_active_workers e - 1) 0); lia.
      - rewrite Hs, Hs'.
        destruct (Z.eqb_spec (e_active_workers e) 0) as [Hz|Hnz];
          destruct (e_evt_done e); lia. }
    split; [rewrite length_insert; exact Hlen|]. split.
    { intros j wj Hj. destruct (decide (j = i)) as [->|Hne].
      + rewrite list_lookup_insert_eq in Hj by exact Hi.
        injection Hj as <-. exact Hw'.
      + rewrite list_lookup_insert_ne in Hj by auto.
        apply (worker_inv_mono e0 T e _ D); [exact Hb'| |apply Hws; exact Hj].
        rewrite elem_of_app. destruct (took_start w q).
        * rewrite list_elem_of_singleton. tauto.
        * rewrite elem_of_nil. tauto. }
    intros j. rewrite elem_of_app. intros [Hj|Hj]; [apply HDlt; exact Hj|].
    destruct (took_start w q).
    + apply list_elem_of_singleton in Hj as ->. lia.
    + apply elem_of_nil in Hj. contradiction.
  - eexists. split; [reflexivity|]. split; [|lia].
    unfold takes_start. rewrite Hw, app_nil_r.
    split; [exact Hat|]. split; [exists q; auto|]. auto.
Qed.

Lemma run_workers_inv sched : forall (D : list nat) sys,
  system_inv e0 T D sys ->
  exists sys',
    run_workers fuel sched sys = Ok sys' /\
    system_inv e0 T (D ++ dequeues fuel sched sys) sys' /\
    e_best_m (sys_epoch sys') <= e_best_m (sys_epoch sys).
Proof.
  induction sched as [|i sched IH]; intros D sys Hinv.
  - exists sys. split; [reflexivity|]. cbn [dequeues].
    rewrite app_nil_r. split; [exact Hinv|lia].
  - destruct (system_step_inv D sys i Hinv) as (sys1 & Hstep & Hinv1 & Hb1).
    destruct (IH _ sys1 Hinv1) as (sys' & Hrun & Hinv' & Hb').
    exists sys'. unfold run_workers in *. cbn [rfoldl dequeues].
    rewrite Hstep. cbn [rbind]. split; [exact Hrun|].
    rewrite <- app_assoc in Hinv'. split; [exact Hinv'|lia].
Qed.

Lemma span_tile m :
  e_start_m e0 <= m ->
  let t := (m - e_start_m e0) / e_tile_len e0 in
  0 <= t mod T < T /\ 0 <= t / T /\ in_tile e0 T (t mod T) (t / T) m.
Proof.
  destruct Hrange as (Hk & HL & HT & _). intros Hm t.
  assert (Ht : 0 <= t) by (apply Z.div_pos; lia).
  pose proof (Z.mod_pos_bound t T ltac:(lia)) as Hi.
  assert (Hc : 0 <= t / T) by (apply Z.div_pos; lia).
  split; [exact Hi|]. split; [exact Hc|].
  unfold in_tile, tile_base.
  replace (t mod T + t / T * T) with t
    by (rewrite (Z.div_mod t T) at 1 by lia; lia).
  pose proof (Z.div_mod (m - e_start_m e0) (e_tile_len e0) ltac:(lia)) as E.
  pose proof (Z.mod_pos_bound (m - e_start_m e0) (e_tile_len e0) ltac:(lia)).
  fold t in E. lia.
Qed.

Lemma all_dequeued (D : list nat) :
  NoDup D -> (forall i, i ∈ D -> Z.of_nat i < T) ->
  Z.of_nat (length D) = T ->
  forall i : nat, Z.of_nat i < T -> i ∈ D.
Proof.
  intros Hnd Hlt Hlen i Hi. apply list_elem_of_In.
  apply (NoDup_length_incl (l := D) (l' := seq 0 (Z.to_nat T))).
  - apply NoDup_ListNoDup. exact Hnd.
  - rewrite length_seq. lia.
  - intros x Hx. apply in_seq. apply list_elem_of_In in Hx.
    specialize (Hlt x Hx). lia.
  - apply in_seq. lia.
Qed.

(** Once the done event is set, and every start packet went to a different
    worker, [best_m] is the least hit of the span. *)
Lemma epoch_done_least (D : list nat) sys :
  system_inv e0 T D sys -> NoDup D ->
  e_evt_done (sys_epoch sys) = true ->
  least_hit_in (e_k e0) (e_start_m e0) (e_end_m e0)
    (e_best_m (sys_epoch sys)).
Proof.
  pose proof Hrange as (Hk & HL & HT & Hstep & HA & HB & H32 & Hfuel).
  intros (Hat & (q & Hq & HD & Hact) & Hevt & Hlen & Hws & HDlt) Hnd Hdone.
  pose proof (running_nonneg (sys_w sys)) as Hrn.
  pose proof (signalling_nonneg (sys_w sys)) as Hsn.
  rewrite Hdone in Hevt.
  assert (Ha0 : e_active_workers (sys_epoch sys) = 0).
  { destruct (Z.eqb_spec (e_active_workers (sys_epoch sys)) 0); lia. }
  assert (Hq0 : q = 0%nat) by lia.
  assert (Hr0 : running (sys_w sys) = 0) by lia.
  assert (Hall : forall i : nat, Z.of_nat i < T -> i ∈ D).
  { apply all_dequeued; auto. lia. }
  assert (Hcov : forall m, in_span e0 m -> e_best_m (sys_epoch sys) <= m).
  { intros m Hspan. pose proof Hspan as [[Hm _] _].
    destruct (span_tile m Hm) as (Hi & Hc & Htile). cbv zeta in Hi, Hc, Htile.
    set (t := (m - e_start_m e0) / e_tile_len e0) in *.
    set (i := Z.to_nat (t mod T)).
    assert (Hil : (i < length (sys_w sys))%nat) by lia.
    apply lookup_lt_is_Some in Hil as [w Hw].
    pose proof (running_zero _ _ _ Hr0 Hw) as Hrw.
    destruct (Hws i w Hw) as (_ & _ & Hpc).
    replace (Z.of_nat i) with (t mod T) in Hpc by lia.
    destruct (w_pc w); cbn in Hrw; try lia.
    - apply (Hpc (Hall i ltac:(lia)) (t / T) Hc m Hspan Htile).
    - apply (proj2 Hpc (t / T) Hc m Hspan Htile). }
  destruct Hat as (_ & [Hmax|Hspan] & _).
  - right. split; [exact Hmax|]. intros m Hm Hhit.
    specialize (Hcov m (conj Hm Hhit)). rewrite Hmax in Hcov.
    unfold UINT64_MAX in Hcov. lia.
  - left. destruct Hspan as [Hb Hh]. split; [exact Hb|]. split; [exact Hh|].
    intros m Hm Hhit. apply Hcov. split; assumption.
Qed.
End EpochSteps.

(** ** Setting up and starting an epoch *)

Lemma find_m_setup_spec heap fuel js k tile_len :
  1 <= k -> k + 2 ^ 16 <= 2 ^ 32 ->
  0 <= tile_len * js_thread_count js < 2 ^ 64 ->
  calloc_ok heap (k + 1) = true ->
  malloc_ok heap (Z.of_nat (length (primes_le k)) * 4) = true ->
  k + 3 <= Z.of_nat fuel ->
  exists js1,
    find_m_setup heap fuel js k tile_len = Ok js1 /\
    js_iocp js1 = js_iocp js /\
    js_thread_count js1 = js_thread_count js /\
    epoch_primes_ok (js_epoch js1) /\ epoch_step_mod_ok (js_epoch js1) /\
    e_k (js_epoch js1) = k /\
    e_step (js_epoch js1) = tile_len * js_thread_count js.
Proof.
  intros Hk H32 Hstep Hcalloc Hmalloc Hfuel. unfold find_m_setup.
  assert (Hprimes : primes_upto heap fuel k =
            Ok {| pl_p := (if k <? 2 then None else Some (primes_le k));
                  pl_count := Z.of_nat (length (primes_le k)) |}).
  { destruct (Z.ltb_spec k 2).
    - rewrite primes_upto_small, primes_le_small by lia. reflexivity.
    - apply primes_upto_spec; assumption. }
  rewrite Hprimes. cbn [rbind].
  rewrite (wrap64_small (tile_len * _)) by lia.
  match goal with
  | |- context [epoch_prepare_math ?e1] =>
      destruct (epoch_prepare_math_spec e1)
        as (Hok & Hsm & Hk' & _ & Hs' & _)
  end.
  - cbn. destruct (Z.ltb_spec k 2); [|reflexivity].
    rewrite primes_le_small by lia. reflexivity.
  - reflexivity.
  - cbn. lia.
  - cbn. lia.
  - eexists. split; [reflexivity|]. cbn [js_iocp js_thread_count js_epoch set_epoch].
    auto 10.
Qed.

Lemma running_parked (ws : list WorkerCtx) :
  (forall i w, ws !! i = Some w -> w_pc w = Parked) -> running ws = 0.
Proof.
  induction ws as [|x ws IH]; intros H; [reflexivity|].
  rewrite running_cons, (H 0%nat x eq_refl), IH; [reflexivity|].
  intros i w Hw. apply (H (Datatypes.S i)). exact Hw.
Qed.

Lemma epoch_begin_inv sys js1 k start_m end_m tile_len :
  workers_parked sys -> js_iocp js1 = [] ->
  js_thread_count js1 = js_thread_count (sys_js sys) ->
  1 <= js_thread_count js1 -> 0 <= end_m ->
  system_inv (js_epoch (epoch_begin js1 k start_m end_m tile_len))
    (js_thread_count js1) []
    (set_js sys (epoch_begin js1 k start_m end_m tile_len)).
Proof.
  intros (Hq & Hlen & Hws) Hq1 HT HT1 HB.
  unfold system_inv, sys_epoch. cbn [set_js sys_js sys_w].
  split.
  { split; [repeat split|]. cbn. split; [left; reflexivity|]. split; lia. }
  split.
  { exists (Z.to_nat (js_thread_count js1)). cbn [epoch_begin js_iocp].
    rewrite Hq1. split; [reflexivity|]. split; [cbn [length]; lia|].
    cbn [epoch_begin js_epoch e_active_workers]. rewrite running_parked; [lia|].
    intros i w Hw. apply (Hws i w Hw). }
  split.
  { cbn [epoch_begin js_epoch e_evt_done e_active_workers].
    rewrite signalling_parked by (intros i w Hw; apply (Hws i w Hw)).
    destruct (Z.eqb_spec (js_thread_count js1) 0); lia. }
  split; [lia|]. split.
  - intros i w Hw. destruct (Hws i w Hw) as (Htid & Hbufs & Hpc).
    split; [exact Htid|]. split; [exact Hbufs|]. rewrite Hpc.
    intros Hin. apply elem_of_nil in Hin. contradiction.
  - intros i Hin. apply elem_of_nil in Hin. contradiction.
Qed.

Lemma epoch_begin_tables js1 k start_m end_m tile_len :
  epoch_primes_ok (js_epoch js1) -> epoch_step_mod_ok (js_epoch js1) ->
  e_k (js_epoch js1) = k ->
  e_step (js_epoch js1) = tile_len * js_thread_count js1 ->
  0 <= tile_len * js_thread_count js1 < 2 ^ 64 ->
  epoch_primes_ok (js_epoch (epoch_begin js1 k start_m end_m tile_len)) /\
  epoch_step_mod_ok (js_epoch (epoch_begin js1 k start_m end_m tile_len)).
Proof.
  intros Hok Hsm Hk Hstep Hr. split.
  - unfold epoch_primes_ok in *. cbn. rewrite <- Hk. exact Hok.
  - unfold epoch_step_mod_ok in *. cbn.
    rewrite (wrap64_small (tile_len * _)) by lia. rewrite <- Hstep. exact Hsm.
Qed.

(** ** Every unblocked step decreases the measure *)

Section EpochTermination.
Variables (fuel : nat) (e0 : Epoch) (T : Z).
Hypothesis Hrange : epoch_in_range e0 T fuel.
Hypothesis Hprimes : epoch_primes_ok e0.
Hypothesis Hsm : epoch_step_mod_ok e0.

Lemma step_pos : 1 <= e_step e0.
Proof. destruct Hrange as (Hk & HL & HT & -> & _). nia. Qed.

Lemma tiles_left_next base :
  tiles_left e0 (base + e_step e0) = tiles_left e0 base - 1.
Proof.
  pose proof step_pos. unfold tiles_left.
  replace (e_end_m e0 + e_step e0 - (base + e_step e0))
    with (e_end_m e0 + e_step e0 - base + (-1) * e_step e0) by lia.
  rewrite Z.div_add by lia. lia.
Qed.

Lemma tiles_left_nonneg base :
  base <= e_end_m e0 + e_step e0 -> 0 <= tiles_left e0 base.
Proof.
  pose proof step_pos. intros H'. unfold tiles_left.
  apply Z.div_pos; lia.
Qed.

Lemma tiles_left_pos base : base <= e_end_m e0 -> 1 <= tiles_left e0 base.
Proof.
  pose proof step_pos. intros H'. unfold tiles_left.
  apply Z.div_le_lower_bound; lia.
Qed.

Lemma tiles_left_mono base base' :
  base <= base' -> tiles_left e0 base' <= tiles_left e0 base.
Proof.
  pose proof step_pos. intros H'. unfold tiles_left.
  apply Z.div_le_mono; lia.
Qed.

Lemma worker_measure_stale b l b' l' pc :
  worker_measure e0 b' l' pc <= worker_measure e0 b l pc + 2.
Proof.
  destruct pc as [|base|base m|base m cur|base nl|base nl old| | |]; cbn;
    try lia.
  - destruct (b' =? cur), (b =? cur); lia.
  - destruct (l' =? old), (l =? old); lia.
Qed.

Lemma workers_measure_stale b l b' l' ws :
  workers_measure e0 b' l' ws
  <= workers_measure e0 b l ws + 2 * Z.of_nat (length ws).
Proof.
  induction ws as [|x ws IH]; [cbn; lia|].
  change (workers_measure e0 b' l' (x :: ws))
    with (worker_measure e0 b' l' (w_pc x) + workers_measure e0 b' l' ws).
  change (workers_measure e0 b l (x :: ws))
    with (worker_measure e0 b l (w_pc x) + workers_measure e0 b l ws).
  pose proof (worker_measure_stale b l b' l' (w_pc x)).
  cbn [length]. lia.
Qed.

Lemma workers_measure_insert b l (ws : list WorkerCtx) i w w' :
  ws !! i = Some w ->
  workers_measure e0 b l (<[i := w']> ws) =
  workers_measure e0 b l ws - worker_measure e0 b l (w_pc w)
  + worker_measure e0 b l (w_pc w').
Proof.
  revert i. induction ws as [|x ws IH]; intros [|i] Hl; try discriminate.
  - injection Hl as ->.
    change (<[0%nat := w']> (w :: ws)) with (w' :: ws). cbn. lia.
  - change (<[Datatypes.S i := w']> (x :: ws)) with (x :: <[i := w']> ws).
    change (workers_measure e0 b l (x :: <[i := w']> ws))
      with (worker_measure e0 b l (w_pc x)
            + workers_measure e0 b l (<[i := w']> ws)).
    change (workers_measure e0 b l (x :: ws))
      with (worker_measure e0 b l (w_pc x) + workers_measure e0 b l ws).
    rewrite (IH i Hl). lia.
Qed.

Lemma worker_inv_pc_range e (D : list nat) i w :
  worker_inv e0 T e D i w -> pc_in_range e0 (w_pc w).
Proof.
  intros (_ & _ & Hpc).
  destruct (w_pc w) as [|base|base m|base m cur|base nl|base nl old| | |];
    cbn; auto.
  - destruct Hpc as (_ & j & _ & Hb). exact Hb.
  - destruct Hpc as (_ & j & _ & Hb & _). exact Hb.
  - destruct Hpc as (_ & j & _ & Hb & _). exact Hb.
  - destruct Hpc as (_ & j & _ & Hb & _). exact Hb.
  - destruct Hpc as (_ & j & _ & Hb & _). exact Hb.
Qed.

Lemma worker_measure_nonneg b l pc :
  pc_in_range e0 pc -> 0 <= worker_measure e0 b l pc.
Proof.
  destruct pc as [|base|base m|base m cur|base nl|base nl old| | |];
    cbn; intros Hb; try lia.
  - pose proof (tiles_left_nonneg base Hb). lia.
  - pose proof (tiles_left_pos base Hb). lia.
  - pose proof (tiles_left_pos base Hb). destruct (b =? cur); lia.
  - pose proof (tiles_left_pos base Hb). lia.
  - pose proof (tiles_left_pos base Hb). destruct (l =? old); lia.
Qed.

Lemma workers_measure_nonneg b l (ws : list WorkerCtx) :
  Forall (fun w => pc_in_range e0 (w_pc w)) ws ->
  0 <= workers_measure e0 b l ws.
Proof.
  induction 1 as [|x ws Hx _ IH]; [cbn; lia|].
  change (workers_measure e0 b l (x :: ws))
    with (worker_measure e0 b l (w_pc x) + workers_measure e0 b l ws).
  pose proof (worker_measure_nonneg b l (w_pc x) Hx). lia.
Qed.

Lemma epoch_measure_nonneg (D : list nat) sys :
  system_inv e0 T D sys -> 0 <= epoch_measure e0 T sys.
Proof.
  pose proof Hrange as (Hk & HL & HT & Hstep & HA & HB & H32 & Hfuel).
  intros ((_ & Hbest & Hlim & _) & _ & _ & _ & Hws & _).
  unfold epoch_measure.
  assert (0 <= workers_measure e0 (e_best_m (sys_epoch sys))
                 (e_end_limit (sys_epoch sys)) (sys_w sys)).
  { apply workers_measure_nonneg. apply Forall_lookup.
    intros i w Hw. eapply worker_inv_pc_range. apply (Hws i w Hw). }
  assert (0 <= e_best_m (sys_epoch sys)).
  { destruct Hbest as [->|[[Hb _] _]]; [unfold UINT64_MAX|]; lia. }
  pose proof (tiles_left_nonneg (e_start_m e0) ltac:(pose proof step_pos; lia)).
  nia.
Qed.

Ltac simpl_atomics' :=
  cbn [e_best_m e_end_limit e_active_workers e_evt_done e_step e_k
       e_tile_len e_start_m e_end_m set_atomics set_best_m set_end_limit
       w_pc set_pc] in *.

Lemma worker_step_measure b l a d (q : nat) (D : list nat) (i : nat)
    (w : WorkerCtx) E' iocp' w' :
  let E := set_atomics e0 b l a d in
  atomics_inv e0 E -> worker_inv e0 T E D i w -> Z.of_nat i < T ->
  worker_step fuel E (replicate q KEY_START) w = Ok (E', iocp', w') ->
  took_start w q = true \/
    is_running (w_pc w) + is_signalling (w_pc w) = 1 ->
  let b' := e_best_m E' in
  let l' := e_end_limit E' in
  (b' = b /\ l' = l /\ length iocp' = q /\
   worker_measure e0 b l (w_pc w') < worker_measure e0 b l (w_pc w)) \/
  (b' = b /\ l' = l /\ q = Datatypes.S (length iocp') /\
   worker_measure e0 b l (w_pc w) = 0 /\
   worker_measure e0 b l (w_pc w')
     < 7 * tiles_left e0 (e_start_m e0) + 4) \/
  (0 <= b' + l' < b + l /\ length iocp' = q /\
   worker_measure e0 b' l' (w_pc w')
     <= worker_measure e0 b' l' (w_pc w)).
Proof.
  pose proof Hrange as (Hk & HL & HT & Hstep & HA & HB & H32 & Hfuel).
  pose proof step_pos as Hsp.
  intros E (Hhdr & Hbest & Hlim & Hshrunk) (Htid & Hbufs & Hpc) Hi Hrun Heff
    b' l'.
  subst E b' l'. unfold worker_step, took_start in *. simpl_atomics'.
  assert (Hb0 : 0 <= b).
  { destruct Hbest as [->|[[Hb _] _]]; [unfold UINT64_MAX|]; lia. }
  destruct (w_pc w) as [|base|base m|base m cur|base nl|base nl old| | |]
    eqn:Hpceq.
  - (* Parked *)
    destruct q as [|q0]; [destruct Heff; [discriminate|cbn in *; lia]|].
    cbn [replicate] in Hrun. change (KEY_START =? KEY_STOP) with false in Hrun.
    change (KEY_START =? KEY_START) with true in Hrun. cbv iota in Hrun.
    injection Hrun as <- <- <-. simpl_atomics'.
    right. left. rewrite length_replicate.
    split; [reflexivity|]. split; [reflexivity|]. split; [reflexivity|].
    split; [reflexivity|].
    assert (Hil : 0 <= Z.of_nat i * e_tile_len e0 < e_tile_len e0 * T) by nia.
    rewrite Htid. rewrite (wrap64_small (Z.of_nat i * _)) by lia.
    rewrite (wrap64_small (e_start_m e0 + _)) by lia.
    pose proof (tiles_left_mono (e_start_m e0)
                  (e_start_m e0 + Z.of_nat i * e_tile_len e0) ltac:(lia)).
    cbn [worker_measure]. lia.
  - (* TileLoop *)
    destruct Hpc as (_ & j & (Hj & Hbase & _) & Hbnd).
    pose proof (tile_base_ge fuel e0 T Hrange (Z.of_nat i) j ltac:(lia) Hj)
      as Hbase0.
    rewrite <- Hbase in Hbase0.
    pose proof (tiles_left_nonneg base Hbnd) as Htl.
    destruct (Z.gtb_spec base l) as [Hgt|Hle].
    + injection Hrun as <- <- <-. simpl_atomics'. left.
      rewrite length_replicate. cbn [worker_measure]. repeat split; lia.
    + apply rbind_Ok in Hrun as ([found [[off' r'] bits']] & _ & Hrun).
      pose proof (tiles_left_next base) as Hnext.
      destruct (negb (found =? UINT64_MAX)); injection Hrun as <- <- <-;
        simpl_atomics'; left; rewrite length_replicate;
        cbn [worker_measure]; rewrite ?wrap64_small by lia;
        repeat split; lia.
  - (* BestLoad *)
    destruct Hpc as (_ & j & (Hj & Hbase & _) & Hbnd & _).
    pose proof (tile_base_ge fuel e0 T Hrange (Z.of_nat i) j ltac:(lia) Hj)
      as Hbase0.
    rewrite <- Hbase in Hbase0.
    pose proof (tiles_left_next base) as Hnext.
    destruct (Z.geb_spec m b); injection Hrun as <- <- <-; simpl_atomics';
      left; rewrite length_replicate; cbn [worker_measure];
      rewrite ?wrap64_small by lia; rewrite ?Z.eqb_refl;
      repeat split; lia.
  - (* BestCas *)
    destruct Hpc as (_ & j & (Hj & Hbase & _) & Hbnd & [[Hm _] _] & _ & Hlt & _).
    destruct (Z.eqb_spec b cur) as [->|Hne]; injection Hrun as <- <- <-;
      simpl_atomics'; rewrite length_replicate; cbn [worker_measure].
    + right. right. destruct (Z.eqb_spec m cur); [lia|].
      repeat split; lia.
    + left. destruct (Z.eqb_spec b cur); [contradiction|].
      repeat split; lia.
  - (* LimLoad *)
    destruct Hpc as (_ & j & (Hj & Hbase & _) & Hbnd & _).
    pose proof (tile_base_ge fuel e0 T Hrange (Z.of_nat i) j ltac:(lia) Hj)
      as Hbase0.
    rewrite <- Hbase in Hbase0.
    pose proof (tiles_left_next base) as Hnext.
    destruct (Z.geb_spec nl l); injection Hrun as <- <- <-; simpl_atomics';
      left; rewrite length_replicate; cbn [worker_measure];
      rewrite ?wrap64_small by lia; rewrite ?Z.eqb_refl;
      repeat split; lia.
  - (* LimCas *)
    destruct Hpc as (_ & j & (Hj & Hbase & _) & Hbnd & Hnl & _ & Hlt).
    pose proof (tile_base_ge fuel e0 T Hrange (Z.of_nat i) j ltac:(lia) Hj)
      as Hbase0.
    rewrite <- Hbase in Hbase0.
    pose proof (tiles_left_next base) as Hnext.
    destruct (Z.eqb_spec l old) as [->|Hne]; injection Hrun as <- <- <-;
      simpl_atomics'; rewrite length_replicate; cbn [worker_measure];
      rewrite ?wrap64_small by lia.
    + right. right. destruct (Z.eqb_spec nl old); [lia|].
      repeat split; lia.
    + left. destruct (Z.eqb_spec l old); [contradiction|].
      repeat split; lia.
  - (* EpochDone *)
    injection Hrun as <- <- <-. simpl_atomics'. left.
    rewrite length_replicate.
    destruct (a - 1 =? 0); cbn [worker_measure]; repeat split; lia.
  - (* EpochSignal *)
    injection Hrun as <- <- <-. simpl_atomics'. left.
    rewrite length_replicate. cbn [worker_measure]. repeat split; lia.
  - destruct Heff; [discriminate|cbn in *; lia].
Qed.

Lemma effective_took sys i w (q : nat) :
  sys_w sys !! i = Some w ->
  js_iocp (sys_js sys) = replicate q KEY_START ->
  effective sys i = true ->
  took_start w q = true \/
    is_running (w_pc w) + is_signalling (w_pc w) = 1.
Proof.
  intros Hw Hq. unfold effective, took_start. rewrite Hw, Hq.
  destruct (w_pc w); cbn; auto; try discriminate.
  destruct q; cbn; auto.
Qed.

Lemma system_step_measure (D : list nat) sys i sys' :
  system_inv e0 T D sys -> system_step fuel i sys = Ok sys' ->
  effective sys i = true ->
  epoch_measure e0 T sys' < epoch_measure e0 T sys.
Proof.
  pose proof Hrange as (Hk & HL & HT & Hstep & HA & HB & H32 & Hfuel).
  intros (Hat & (q & Hq & HD & Hact) & Hevt & Hlen & Hws & HDlt) Hrun Heff.
  unfold system_step in Hrun.
  destruct (sys_w sys !! i) as [w|] eqn:Hw;
    [|unfold effective in Heff; rewrite Hw in Heff; discriminate].
  pose proof (lookup_lt_Some _ _ _ Hw) as Hi.
  pose proof (effective_took sys i w q Hw Hq Heff) as Heff'.
  apply rbind_Ok in Hrun as ([[E' iocp'] w'] & Hstepw & Hrun).
  injection Hrun as <-.
  pose proof Hat as (Hhdr & _).
  pose proof (same_header_eq _ _ Hhdr) as He. unfold sys_epoch in *.
  set (e := js_epoch (sys_js sys)) in *.
  rewrite He in Hat. pose proof (Hws i w Hw) as Hwi. rewrite He in Hwi.
  rewrite Hq, He in Hstepw.
  pose proof (worker_step_measure _ _ _ _ q D i w E' iocp' w' Hat Hwi
                ltac:(lia) Hstepw Heff') as Hm.
  cbv zeta in Hm. unfold epoch_measure, sys_epoch.
  cbn [sys_js js_epoch js_iocp sys_w]. fold e.
  rewrite Hq, length_replicate.
  set (M1 := 7 * tiles_left e0 (e_start_m e0) + 4) in *.
  destruct Hm as [(-> & -> & -> & Hlt)|[(-> & -> & Hq' & H0 & Hlt)
                 |(Hdec & -> & Hle)]].
  - rewrite (workers_measure_insert _ _ _ _ _ w' Hw). lia.
  - rewrite (workers_measure_insert _ _ _ _ _ w' Hw). rewrite Hq'.
    rewrite Nat2Z.inj_succ. lia.
  - rewrite (workers_measure_insert _ _ _ _ _ w' Hw).
    pose proof (workers_measure_stale (e_best_m e) (e_end_limit e)
                  (e_best_m E') (e_end_limit E') (sys_w sys)) as Hst.
    assert ((e_best_m E' + e_end_limit E') * (2 * T + 1)
            <= (e_best_m e + e_end_limit e - 1) * (2 * T + 1)) by nia.
    lia.
Qed.

(** An epoch cannot run for ever: whatever the schedule, the number of
    steps in which the scheduled worker was not blocked is bounded by the
    measure of the starting state. *)
Lemma effective_steps_bound sched : forall (D : list nat) sys,
  system_inv e0 T D sys ->
  Z.of_nat (effective_steps fuel sched sys) <= epoch_measure e0 T sys.
Proof.
  induction sched as [|i sched IH]; intros D sys Hinv.
  - cbn. eapply epoch_measure_nonneg; eauto.
  - cbn [effective_steps].
    destruct (system_step_inv fuel e0 T Hrange Hprimes Hsm D sys i Hinv)
      as (sys1 & Hstep & Hinv1 & _).
    rewrite Hstep. specialize (IH _ sys1 Hinv1).
    destruct (effective sys i) eqn:Heff.
    + pose proof (system_step_measure D sys i sys1 Hinv Hstep Heff). lia.
    + assert (sys1 = sys) as ->; [|cbn; lia].
      unfold system_step in Hstep. unfold effective in Heff.
      destruct (sys_w sys !! i) as [w|] eqn:Hw; [|congruence].
      destruct Hinv as (_ & _ & _ & _ & Hws & _).
      destruct (Hws i w Hw) as (_ & _ & Hpc).
      unfold worker_step in Hstep.
      destruct (w_pc w) eqn:Hpceq; try discriminate; [|destruct Hpc].
      destruct (js_iocp (sys_js sys)) eqn:Hq; [|discriminate].
      cbn [rbind] in Hstep. injection Hstep as <-.
      destruct sys as [[iocp tc e] ws]. cbn in *. subst iocp.
      rewrite list_insert_id by exact Hw. reflexivity.
Qed.

Lemma running_pos_exists (ws : list WorkerCtx) :
  0 < running ws -> exists i w, ws !! i = Some w /\ is_running (w_pc w) = 1.
Proof.
  induction ws as [|x ws IH]; [cbn; lia|]. rewrite running_cons.
  intros Hpos. destruct (Z.eq_dec (is_running (w_pc x)) 1) as [H1|H1].
  - exists 0%nat, x. auto.
  - destruct IH as (i & w & Hw & Hr).
    + destruct (w_pc x); cbn in *; lia.
    + exists (Datatypes.S i), w. auto.
Qed.

Lemma fresh_worker (D : list nat) :
  NoDup D -> Z.of_nat (length D) < T ->
  exists i : nat, Z.of_nat i < T /\ i ∉ D.
Proof.
  intros Hnd Hlen.
  destruct (decide (Forall (fun i => i ∈ D) (seq 0 (Z.to_nat T))))
    as [Hall|Hnot].
  - exfalso.
    assert (Hle : (length (seq 0 (Z.to_nat T)) <= length D)%nat).
    { apply NoDup_incl_length; [apply seq_NoDup|].
      intros x Hx. apply list_elem_of_In.
      rewrite Forall_forall in Hall. apply Hall.
      apply list_elem_of_In. exact Hx. }
    rewrite length_seq in Hle. lia.
  - apply not_Forall_Exists in Hnot; [|intros x; apply _].
    apply Exists_exists in Hnot as (i & Hin & Hni).
    apply list_elem_of_In, in_seq in Hin.
    exists i. split; [lia|exact Hni].
Qed.

(** While the done event is not set, some worker is not blocked; and one
    can be chosen that does not take a second start packet. *)
Lemma epoch_progress (D : list nat) sys :
  system_inv e0 T D sys -> NoDup D ->
  e_evt_done (sys_epoch sys) = false ->
  exists i, effective sys i = true /\
            (takes_start sys i = true -> i ∉ D).
Proof.
  pose proof Hrange as (Hk & HL & HT & _).
  intros (Hat & (q & Hq & HD & Hact) & Hevt & Hlen & Hws & HDlt) Hnd Hdone.
  pose proof (running_nonneg (sys_w sys)) as Hrn.
  rewrite Hdone in Hevt.
  destruct (Z.eqb_spec (e_active_workers (sys_epoch sys)) 0) as [Hz|Hne].
  { destruct (signalling_pos_exists (sys_w sys) ltac:(lia))
      as (i & w & Hw & Hpcw).
    exists i. unfold effective, takes_start. rewrite Hw, Hpcw.
    split; [reflexivity|].
    destruct (js_iocp (sys_js sys)); discriminate. }
  destruct (Z_lt_ge_dec 0 (running (sys_w sys))) as [Hpos|Hzero].
  - destruct (running_pos_exists _ Hpos) as (i & w & Hw & Hr).
    exists i. unfold effective, takes_start. rewrite Hw.
    destruct (w_pc w); cbn in Hr; try lia; split; auto;
      destruct (js_iocp (sys_js sys)); discriminate.
  - assert (Hr0 : running (sys_w sys) = 0) by lia.
    destruct q as [|q0]; [lia|].
    destruct (fresh_worker D Hnd ltac:(lia)) as (i & Hi & Hni).
    assert (Hil : (i < length (sys_w sys))%nat) by lia.
    apply lookup_lt_is_Some in Hil as [w Hw].
    exists i. split; [|intros _; exact Hni].
    pose proof (running_zero _ _ _ Hr0 Hw) as Hrw.
    destruct (Hws i w Hw) as (_ & _ & Hpc).
    unfold effective. rewrite Hw, Hq.
    destruct (w_pc w); cbn in Hrw; try lia; reflexivity.
Qed.
End EpochTermination.

(** ** The epoch finds the least hit of its span when the start packets
    go to different workers *)

Lemma dequeues_app fuel s1 : forall s2 sys sys1,
  run_workers fuel s1 sys = Ok sys1 ->
  dequeues fuel (s1 ++ s2) sys = dequeues fuel s1 sys ++ dequeues fuel s2 sys1.
Proof.
  induction s1 as [|i s1 IH]; intros s2 sys sys1 Hrun.
  - injection Hrun as <-. reflexivity.
  - unfold run_workers in Hrun. cbn [rfoldl] in Hrun.
    apply rbind_Ok in Hrun as (sys' & Hstep & Hrun).
    cbn [app dequeues]. rewrite Hstep.
    rewrite (IH s2 sys' sys1 Hrun), app_assoc. reflexivity.
Qed.

Lemma smooth_1 k : 1 <= k -> smooth k 1.
Proof.
  intros Hk. split; [lia|]. intros p Hp Hd.
  apply Z.divide_1_r_nonneg in Hd; [lia|]. apply Z.prime_ge_2 in Hp. lia.
Qed.

Lemma system_started_parked threads :
  0 <= threads -> workers_parked (system_started threads).
Proof.
  intros Ht. split; [reflexivity|]. split.
  - cbn. rewrite length_map, length_seqZ. lia.
  - intros i w Hw. cbn in Hw. rewrite list_lookup_fmap in Hw.
    destruct (seqZ 0 threads !! i) as [x|] eqn:Hx; [|discriminate].
    apply lookup_seqZ in Hx as [-> _]. injection Hw as <-. cbn.
    split; [lia|]. split; [|reflexivity].
    unfold bufs_ok. cbn. split; [lia|]. split; [|reflexivity].
    change ((0 + 7) / 8) with 0. lia.
Qed.

Lemma epoch_wait_run fuel sched : forall sys best sched' sys1,
  epoch_wait fuel sched sys = Ok (best, sched', sys1) ->
  exists pre,
    sched = pre ++ sched' /\ run_workers fuel pre sys = Ok sys1 /\
    e_evt_done (sys_epoch sys1) = true /\ best = e_best_m (sys_epoch sys1).
Proof.
  induction sched as [|i sched IH]; intros sys best sched' sys1 Hw.
  - cbn [epoch_wait] in Hw.
    destruct (e_evt_done (js_epoch (sys_js sys))) eqn:Hd; [|discriminate].
    injection Hw as <- <- <-. exists []. repeat split; assumption.
  - cbn [epoch_wait] in Hw.
    destruct (e_evt_done (js_epoch (sys_js sys))) eqn:Hd.
    + injection Hw as <- <- <-. exists []. repeat split; assumption.
    + apply rbind_Ok in Hw as (sys2 & Hstep & Hw).
      destruct (IH sys2 best sched' sys1 Hw) as (pre & -> & Hrun & Hdone & Hb).
      exists (i :: pre). split; [reflexivity|]. split; [|split; assumption].
      unfold run_workers. cbn [rfoldl]. rewrite Hstep. exact Hrun.
Qed.

(** For every [k >= 1], thread count [T >= 1] and tile length [>= 1], on a
    span [start_m .. end_m] that stays clear of
    the machine-integer bounds, with memory for the prime table: the epoch
    is set up, every schedule of the workers runs without fault, the number
    of steps of unblocked workers is bounded, while the done event is not
    set some worker can step without taking a second start packet, and
    once the done event is set in a run where every start packet went to a
    different worker, [best_m] (the value [epoch_wait] returns) is the least
    [m] of the span such that none of [m+1 .. m+k] is k-smooth, or
    [UINT64_MAX] when the span has no such [m]. *)
Theorem epoch_least_hit_distinct_workers heap fuel sys k start_m end_m tile_len :
  workers_parked sys ->
  1 <= k -> 1 <= tile_len -> 1 <= js_thread_count (sys_js sys) ->
  0 <= start_m <= end_m ->
  end_m + tile_len * js_thread_count (sys_js sys) + k + 2 <= 2 ^ 64 ->
  tile_len + 2 * k + 8 <= 2 ^ 32 ->
  tile_len + 2 * k + 64 <= Z.of_nat fuel -> k + 3 <= Z.of_nat fuel ->
  calloc_ok heap (k + 1) = true ->
  malloc_ok heap (Z.of_nat (length (primes_le k)) * 4) = true ->
  exists js1,
    find_m_setup heap fuel (sys_js sys) k tile_len = Ok js1 /\
    let sys0 := set_js sys (epoch_begin js1 k start_m end_m tile_len) in
    forall sched, exists sys',
      run_workers fuel sched sys0 = Ok sys' /\
      (NoDup (dequeues fuel sched sys0) ->
       e_evt_done (sys_epoch sys') = true ->
       least_hit_in k start_m end_m (e_best_m (sys_epoch sys'))) /\
      (forall best sched' sys1,
         epoch_wait fuel sched sys0 = Ok (best, sched', sys1) ->
         NoDup (dequeues fuel sched sys0) ->
         least_hit_in k start_m end_m best) /\
      Z.of_nat (effective_steps fuel sched sys0)
        <= epoch_measure (sys_epoch sys0) (js_thread_count (sys_js sys)) sys0 /\
      (NoDup (dequeues fuel sched sys0) ->
       e_evt_done (sys_epoch sys') = false ->
       exists i, effective sys' i = true /\
                 NoDup (dequeues fuel (sched ++ [i]) sys0)).
Proof.
  intros Hparked Hk HL HT HA HB H32 Hfuel Hfuel' Hcalloc Hmalloc.
  set (T := js_thread_count (sys_js sys)) in *.
  destruct (find_m_setup_spec heap fuel (sys_js sys) k tile_len)
    as (js1 & Hsetup & Hq1 & HT1 & Hok & Hsm & Hk1 & Hstep1);
    try assumption; try (fold T; nia).
  exists js1. split; [exact Hsetup|]. intros sys0.
  set (e0 := js_epoch (epoch_begin js1 k start_m end_m tile_len)).
  fold T in HT1, Hstep1.
  assert (Hstep0 : 0 <= tile_len * js_thread_count js1 < 2 ^ 64)
    by (rewrite HT1; nia).
  destruct (epoch_begin_tables js1 k start_m end_m tile_len Hok Hsm Hk1)
    as [Hok0 Hsm0]; [rewrite HT1; exact Hstep1|exact Hstep0|].
  fold e0 in Hok0, Hsm0.
  assert (Hrange : epoch_in_range e0 T fuel).
  { unfold epoch_in_range, e0. cbn [epoch_begin js_epoch e_k e_tile_len
      e_step e_start_m e_end_m].
    rewrite (wrap64_small (tile_len * _)) by exact Hstep0. rewrite HT1.
    repeat split; lia. }
  assert (Hinv0 : system_inv e0 T [] sys0).
  { unfold e0, sys0. rewrite <- HT1. apply epoch_begin_inv; try assumption.
    - destruct Hparked as (Hq & _). rewrite Hq1. exact Hq.
    - rewrite HT1. exact HT.
    - lia. }
  intros sched.
  destruct (run_workers_inv fuel e0 T Hrange Hok0 Hsm0 sched [] sys0 Hinv0)
    as (sys' & Hrun & Hinv' & _).
  cbn [app] in Hinv'.
  exists sys'. split; [exact Hrun|]. split; [|split; [|split]].
  - intros Hnd Hdone.
    apply (epoch_done_least fuel e0 T Hrange (dequeues fuel sched sys0) sys'
             Hinv' Hnd Hdone).
  - intros best sched' sys1 Hwait Hnd.
    destruct (epoch_wait_run fuel sched sys0 best sched' sys1 Hwait)
      as (pre & Hsched & Hpre & Hdone & ->).
    destruct (run_workers_inv fuel e0 T Hrange Hok0 Hsm0 pre [] sys0 Hinv0)
      as (sys1' & Hpre' & Hinv1 & _).
    rewrite Hpre in Hpre'. injection Hpre' as <-. cbn [app] in Hinv1.
    rewrite Hsched, (dequeues_app fuel pre sched' sys0 sys1 Hpre) in Hnd.
    apply NoDup_app in Hnd as (Hnd & _).
    apply (epoch_done_least fuel e0 T Hrange (dequeues fuel pre sys0) sys1
             Hinv1 Hnd Hdone).
  - apply (effective_steps_bound fuel e0 T Hrange Hok0 Hsm0 sched [] sys0 Hinv0).
  - intros Hnd Hdone.
    destruct (epoch_progress fuel e0 T Hrange _ sys' Hinv' Hnd Hdone)
      as (i & Heff & Hfresh).
    exists i. split; [exact Heff|].
    rewrite (dequeues_app fuel sched [i] sys0 sys' Hrun).
    cbn [dequeues].
    destruct (system_step_inv fuel e0 T Hrange Hok0 Hsm0 _ sys' i Hinv')
      as (sys2 & Hstep2 & _).
    rewrite Hstep2, app_nil_r.
    destruct (takes_start sys' i) eqn:Hts; [|rewrite app_nil_r; exact Hnd].
    apply NoDup_app. split; [exact Hnd|]. split.
    + intros x Hx Hx'. apply list_elem_of_singleton in Hx' as ->.
      apply (Hfresh eq_refl). exact Hx.
    + apply NoDup_singleton.
Qed.

Lemma epoch_least_hit_distinct_workers_witness :
  exists js1,
    find_m_setup heap_ok 200 (sys_js (system_started 2)) 3 4 = Ok js1 /\
    let sys0 := set_js (system_started 2) (epoch_begin js1 3 0 15 4) in
    forall sched, exists sys',
      run_workers 200 sched sys0 = Ok sys' /\
      (NoDup (dequeues 200 sched sys0) ->
       e_evt_done (sys_epoch sys') = true ->
       least_hit_in 3 0 15 (e_best_m (sys_epoch sys'))) /\
      (forall best sched' sys1,
         epoch_wait 200 sched sys0 = Ok (best, sched', sys1) ->
         NoDup (dequeues 200 sched sys0) ->
         least_hit_in 3 0 15 best) /\
      Z.of_nat (effective_steps 200 sched sys0)
        <= epoch_measure (sys_epoch sys0)
             (js_thread_count (sys_js (system_started 2))) sys0 /\
      (NoDup (dequeues 200 sched sys0) ->
       e_evt_done (sys_epoch sys') = false ->
       exists i, effective sys' i = true /\
                 NoDup (dequeues 200 (sched ++ [i]) sys0)).
Proof.
  apply (epoch_least_hit_distinct_workers heap_ok 200 (system_started 2) 3 0 15 4).
  - apply system_started_parked. lia.
  - lia.
  - lia.
  - simpl. lia.
  - lia.
  - simpl. lia.
  - lia.
  - lia.
  - lia.
  - reflexivity.
  - reflexivity.
Defined.

(** A run of that epoch: both workers take one packet each, and the epoch
    ends with [best_m = 12] (13, 14, 15 are not 3-smooth). *)
Example epoch_run_k3 :
  exists sys',
    epoch_run 2 3 0 15 4
      [0; 1; 0; 1; 0; 1; 0; 1; 0; 1; 0; 1; 0; 1; 0; 1; 0; 1; 0; 1]%nat
      = Ok sys' /\
    e_evt_done (sys_epoch sys') = true /\ e_best_m (sys_epoch sys') = 12.
Proof. eexists. split; [vm_compute; reflexivity|]. split; reflexivity. Qed.

(** A hit is a window with no k-smooth member, not an all-smooth one: for
    [k = 1] on the span [0 .. 0] (one thread, tiles of one start) the least
    [m] with [m+1] 1-smooth is 0, yet the finished epoch reports no
    result. *)
Example epoch_reports_clear_windows :
  exists sys',
    epoch_run 1 1 0 0 1 [0; 0; 0; 0; 0]%nat = Ok sys' /\
    e_evt_done (sys_epoch sys') = true /\
    e_best_m (sys_epoch sys') = UINT64_MAX /\
    all_smooth 1 0 /\
    ~ least_all_smooth_in 1 0 0 (e_best_m (sys_epoch sys')).
Proof.
  eexists. split; [vm_compute; reflexivity|].
  split; [reflexivity|]. split; [reflexivity|].
  assert (Hs : all_smooth 1 0).
  { intros j Hj. assert (j = 1) as -> by lia. apply smooth_1. lia. }
  split; [exact Hs|].
  intros [(Hr & _)|(_ & Hnone)].
  - cbn in Hr. unfold UINT64_MAX in Hr. lia.
  - apply (Hnone 0); [lia|exact Hs].
Qed.

(** ** C2: the end-to-end scenario *)

Lemma strip_factor_spec (fuel : nat) d : forall n,
  2 <= d -> 1 <= n -> Z.log2 n < Z.of_nat fuel ->
  stripped_of d n (strip_factor fuel d n).
Proof.
  induction fuel as [|fuel IH]; intros n Hd Hn Hlog.
  - pose proof (Z.log2_nonneg n). lia.
  - cbn [strip_factor].
    destruct (Z.eqb_spec (n mod d) 0) as [Hm|Hm].
    + pose proof (Z.div_mod n d ltac:(lia)) as E. rewrite Hm in E.
      assert (Hq : 1 <= n / d) by nia.
      assert (Hdbl : Z.log2 (2 * (n / d)) = Z.succ (Z.log2 (n / d))).
      { apply Z.log2_double. lia. }
      assert (Hle : Z.log2 (2 * (n / d)) <= Z.log2 n).
      { apply Z.log2_le_mono. nia. }
      destruct (IH (n / d) Hd Hq ltac:(lia)) as (Hr & Hnd & t & Ht & Et).
      split; [exact Hr|]. split; [exact Hnd|].
      exists (t + 1). split; [lia|].
      rewrite Z.pow_add_r, Z.pow_1_r by lia.
      rewrite E at 1. rewrite Et at 1. ring.
    + split; [exact Hn|]. split.
      * intros Hdiv. apply Hm. apply Z.mod_divide; [lia|exact Hdiv].
      * exists 0. split; [lia|]. rewrite Z.pow_0_r. lia.
Qed.

Lemma prime_divide_pow q d t :
  Z.prime q -> 0 <= t -> (q | d ^ t) -> (q | d).
Proof.
  intros Hq Ht. pattern t. apply natlike_ind; [| |exact Ht].
  - rewrite Z.pow_0_r. intros Hd.
    apply Z.divide_1_r_nonneg in Hd; apply Z.prime_ge_2 in Hq; lia.
  - intros x Hx IH. rewrite Z.pow_succ_r by exact Hx.
    intros Hd. apply (Z.divide_prime_mul d (d ^ x) q Hq) in Hd as [Hd|Hd]; auto.
Qed.

Lemma smooth_b_spec k n : 1 <= k -> (smooth_b k n = true <-> smooth k n).
Proof.
  intros Hk. unfold smooth_b. rewrite andb_true_iff, Z.ltb_lt, Z.eqb_eq.
  destruct (Z_lt_ge_dec 0 n) as [Hn|Hn]; [|split; [lia|intros [H' _]; lia]].
  set (body := fun d r => strip_factor (Datatypes.S (Z.to_nat (Z.log2 r))) d r).
  assert (Hinv : stripped_by (fun q => q < k + 1) n (for_range 2 (k + 1) body n)).
  { apply (for_range_inv (fun d r => stripped_by (fun q => q < d) n r)).
    - lia.
    - eapply stripped_by_ext; [|apply stripped_by_start; lia].
      intros q Hq. apply Z.prime_ge_2 in Hq. split; [intros []|lia].
    - intros d r Hd Hstr. pose proof (stripped_by_le _ _ _ Hstr) as Hr.
      assert (Hso : stripped_of d r (body d r)).
      { unfold body. apply strip_factor_spec; lia. }
      generalize dependent (body d r). intros r' Hso.
      destruct Hstr as (_ & c & Hc & E & H1 & H2).
      destruct Hso as (Hr' & Hnd & t & Ht & Et).
      assert (Hpt : 0 < d ^ t) by (apply Z.pow_pos_nonneg; lia).
      split; [exact Hr'|]. exists (c * d ^ t).
      split; [nia|]. split; [rewrite E, Et; ring|]. split.
      + intros q Hq Hdiv.
        apply (Z.divide_prime_mul c (d ^ t) q Hq) in Hdiv as [Hdiv|Hdiv].
        * specialize (H1 q Hq Hdiv). lia.
        * apply prime_divide_pow in Hdiv; [|exact Hq|exact Ht].
          apply Z.divide_pos_le in Hdiv; lia.
      + intros q Hq Hlt Hdiv. destruct (Z.eq_dec q d) as [->|Hne].
        * contradiction.
        * apply (H2 q Hq ltac:(lia)). rewrite Et.
          apply Z.divide_mul_r. exact Hdiv. }
  pose proof (stripped_by_smooth (fun q => q < k + 1) k n _ ltac:(intros q _; cbv beta; lia) Hinv) as Hiff.
  fold body. rewrite <- Hiff. tauto.
Qed.

Lemma hit_b_spec k m : 1 <= k -> (hit_b k m = true <-> hit k m).
Proof.
  intros Hk. unfold hit_b, hit. rewrite forallb_forall. split.
  - intros H j Hj Hs. apply smooth_b_spec in Hs; [|exact Hk].
    specialize (H j ltac:(apply list_elem_of_In, elem_of_seqZ; lia)).
    rewrite Hs in H. discriminate.
  - intros H j Hin. apply list_elem_of_In, elem_of_seqZ in Hin.
    destruct (smooth_b k (m + j)) eqn:Hs; [|reflexivity].
    apply smooth_b_spec in Hs; [|exact Hk]. exfalso. apply (H j); [lia|exact Hs].
Qed.

Lemma least_hit_b_spec k m :
  1 <= k -> least_hit_b k m = true ->
  hit k m /\ forall m', 0 <= m' < m -> ~ hit k m'.
Proof.
  intros Hk H. unfold least_hit_b in H.
  apply andb_true_iff in H as [Hh Hl]. split; [apply hit_b_spec; assumption|].
  intros m' Hm' Hhit. rewrite forallb_forall in Hl.
  specialize (Hl m' ltac:(apply list_elem_of_In, elem_of_seqZ; lia)).
  apply hit_b_spec in Hhit; [|exact Hk]. rewrite Hhit in Hl. discriminate.
Qed.

(** C2 (as amended): run with K = 10, tile_len = 4, batch_tiles = 2 and one
    thread, the program prints the rows (1, 1), (2, 4), (3, 12), (4, 18),
    (5, 54), (6, 64), (7, 112), (8, 150), (10, 225); run with K = 9 it
    prints no row after (8, 150), the search for k = 9 started at 150
    returning 150; and each of
    m(k) = 1, 4, 12, 18, 54, 64, 112, 150, 150, 225 is the smallest
    [m >= 0] such that none of [m+1 .. m+k] is k-smooth. *)
Theorem main_prints_plateaus :
  main_loop heap_ok 200 sched_one 10 1 4 2 =
    Ok [(1, 1); (2, 4); (3, 12); (4, 18); (5, 54); (6, 64); (7, 112);
        (8, 150); (10, 225)] /\
  main_loop heap_ok 200 sched_one 9 1 4 2 =
    Ok [(1, 1); (2, 4); (3, 12); (4, 18); (5, 54); (6, 64); (7, 112);
        (8, 150)] /\
  (exists sched' sys',
     find_m_for_k heap_ok 200 sched_one (system_started 1) 9 150 4 2
       = Ok (150, sched', sys')) /\
  Forall (fun km => hit (fst km) (snd km) /\
                    forall m', 0 <= m' < snd km -> ~ hit (fst km) m')
    [(1, 1); (2, 4); (3, 12); (4, 18); (5, 54); (6, 64); (7, 112);
     (8, 150); (9, 150); (10, 225)].
Proof.
  split; [vm_compute; reflexivity|]. split; [vm_compute; reflexivity|]. split.
  - eexists _, _. vm_compute. reflexivity.
  - repeat (apply Forall_cons; split;
            [apply least_hit_b_spec; [cbn; lia|vm_compute; reflexivity]|]).
    apply Forall_nil. exact I.
Qed.

(** C2 as stated fails: the rows printed are not those of the table, and for
    k = 2 the window of [m = 0] is already all 2-smooth, so the m(k) of the
    glossary would not be 3 either. *)
Lemma main_prints_plateaus_counterexample :
  main_loop heap_ok 200 sched_one 10 1 4 2 <>
    Ok [(1, 1); (2, 3); (3, 8); (7, 14); (9, 23)] /\
  ~ hit 2 3 /\ all_smooth 2 0.
Proof.
  split; [vm_compute; discriminate|]. split.
  - intros Hh. apply hit_b_spec in Hh; [|lia]. vm_compute in Hh. discriminate.
  - intros j Hj. apply smooth_b_spec; [lia|].
    assert (Hc : j = 1 \/ j = 2) by lia.
    destruct Hc as [-> | ->]; vm_compute; reflexivity.
Qed.

(** ** C9: allocation failure in the small-primes sieve *)

(** With memory available [primes_upto] returns the ordered list of the
    primes [<= n], and the empty list for [n <= 1]. *)
Lemma primes_upto_correct heap fuel n :
  0 <= n -> n + 2 ^ 16 <= 2 ^ 32 ->
  calloc_ok heap (n + 1) = true ->
  malloc_ok heap (Z.of_nat (length (primes_le n)) * 4) = true ->
  n + 3 <= Z.of_nat fuel ->
  exists pl,
    primes_upto heap fuel n = Ok pl /\
    default [] (pl_p pl) = primes_le n /\
    pl_count pl = Z.of_nat (length (primes_le n)) /\
    (forall x, x ∈ primes_le n <-> Z.prime x /\ x <= n) /\
    (n <= 1 -> pl = PrimeList_zero).
Proof.
  intros Hn H32 Hc Hm Hfuel. destruct (Z_lt_ge_dec n 2) as [Hlt|Hge].
  - exists PrimeList_zero. rewrite primes_upto_small, primes_le_small by lia.
    split; [reflexivity|]. split; [reflexivity|]. split; [reflexivity|].
    split; [|reflexivity]. intros x. rewrite <- (primes_le_small n) by lia.
    apply primes_le_elem.
  - eexists. split; [apply primes_upto_spec; try assumption; lia|].
    split; [reflexivity|]. split; [reflexivity|].
    split; [apply primes_le_elem|]. lia.
Qed.

(** C9, the failing case: when [calloc] or [malloc] fails, [primes_upto(10)]
    returns the zero [PrimeList], the very value it returns for [n <= 1]; no
    error is raised, and [main] goes on to print rows computed with an empty
    prime table. *)
Theorem primes_upto_out_of_memory :
  primes_upto {| calloc_ok := fun _ => false; malloc_ok := fun _ => true |}
    200 10 = Ok PrimeList_zero /\
  primes_upto {| calloc_ok := fun _ => true; malloc_ok := fun _ => false |}
    200 10 = Ok PrimeList_zero /\
  primes_upto heap_ok 200 1 = Ok PrimeList_zero /\
  primes_upto heap_ok 200 10 =
    Ok {| pl_p := Some [2; 3; 5; 7]; pl_count := 4 |} /\
  main_loop {| calloc_ok := fun _ => true; malloc_ok := fun _ => false |}
    200 sched_one 10 1 4 2 = Ok [(1, 1)].
Proof. repeat split; vm_compute; reflexivity. Qed.

(** ** C10 at a concrete state *)

Lemma try_set_best_never_raises_end_limit_witness :
  Forall (fun w => lim_cas_checked (w_pc w)) (sys_w sys_best0) /\
  exists sys',
    run_workers 200 [0; 0; 0; 0]%nat sys_best0 = Ok sys' /\
    e_best_m (sys_epoch sys') = 0 /\ e_end_limit (sys_epoch sys') = 0 /\
    e_end_limit (sys_epoch sys') <= e_end_limit (sys_epoch sys_best0).
Proof.
  assert (Hwf : Forall (fun w => lim_cas_checked (w_pc w)) (sys_w sys_best0)).
  { apply Forall_cons. split; [exact I|]. apply Forall_nil. exact I. }
  split; [exact Hwf|].
  eexists. split; [vm_compute; reflexivity|].
  split; [reflexivity|]. split; [reflexivity|].
  refine (proj1 (try_set_best_never_raises_end_limit 200 [0; 0; 0; 0]%nat
                   sys_best0 _ Hwf _)).
  vm_compute. reflexivity.
Defined.

(** ** C1: the search can miss the least hit *)

(** C1 (code defect): the search does not always return the least hit of
    the span.  The start packets of an epoch go to a shared completion
    port, so a worker that has finished its stride can take the packet
    meant for another worker: that stride is never scanned, the counter of
    active workers still reaches zero and the done event is set.  With two
    threads, [tile_len = 4] and [batch_tiles = 2], when worker 0 is the only
    one to run, [find_m_for_k] for [k = 3] from [start_m = 0] returns 18,
    although 12 is the least [m] such that none of [m+1 .. m+3] is 3-smooth;
    when the workers alternate it returns 12.  In one epoch for [k = 1] on
    the span [0 .. 1] with tiles of one start, worker 0 takes both packets
    and the finished epoch reports no result although [m = 1] is the least
    hit of the span.  [main] with [K = 4] then prints the row [(4, 36)]
    where the least hit for [k = 4] is 18. *)
Theorem find_m_for_k_misses_least_hit :
  least_hit_from 3 0 12 /\
  (exists sched' sys',
     find_m_for_k heap_ok 200 sched_one (system_started 2) 3 0 4 2
       = Ok (18, sched', sys')) /\
  (exists sched' sys',
     find_m_for_k heap_ok 200 sched_two (system_started 2) 3 0 4 2
       = Ok (12, sched', sys')) /\
  (exists sys0 sys',
     epoch_started 2 1 0 1 1 = Ok sys0 /\
     run_workers 200 (replicate 9 0%nat) sys0 = Ok sys' /\
     dequeues 200 (replicate 9 0%nat) sys0 = [0; 0]%nat /\
     e_evt_done (sys_epoch sys') = true /\
     e_active_workers (sys_epoch sys') = 0 /\
     e_best_m (sys_epoch sys') = UINT64_MAX /\
     least_hit_in 1 0 1 1 /\
     ~ least_hit_in 1 0 1 (e_best_m (sys_epoch sys'))) /\
  main_loop heap_ok 200 sched_one 4 2 4 2
    = Ok [(1, 1); (2, 4); (3, 12); (4, 36)] /\
  main_loop heap_ok 200 sched_two 4 2 4 2
    = Ok [(1, 1); (2, 4); (3, 12); (4, 18)] /\
  least_hit_from 4 0 18.
Proof.
  assert (Hleast : forall k m, 1 <= k -> 0 <= m ->
            least_hit_b k m = true -> least_hit_from k 0 m).
  { intros k m Hk Hm Hb. destruct (least_hit_b_spec k m Hk Hb) as [Hh Hl].
    split; [exact Hm|]. split; [exact Hh|exact Hl]. }
  split; [apply Hleast; [lia|lia|vm_compute; reflexivity]|].
  split; [eexists _, _; vm_compute; reflexivity|].
  split; [eexists _, _; vm_compute; reflexivity|].
  split.
  - eexists _, _. split; [vm_compute; reflexivity|].
    split; [vm_compute; reflexivity|].
    split; [vm_compute; reflexivity|].
    split; [reflexivity|]. split; [reflexivity|]. split; [reflexivity|].
    assert (H1 : hit 1 1) by (apply hit_b_spec; [lia|vm_compute; reflexivity]).
    assert (H0 : ~ hit 1 0).
    { intros H. apply hit_b_spec in H; [|lia]. vm_compute in H. discriminate. }
    split.
    + left. split; [lia|]. split; [exact H1|].
      intros m Hm Hh. destruct (Z.eq_dec m 0) as [->|]; [contradiction|lia].
    + intros [(Hr & _)|(_ & Hnone)].
      * cbn in Hr. unfold UINT64_MAX in Hr. lia.
      * apply (Hnone 1); [lia|exact H1].
  - split; [vm_compute; reflexivity|]. split; [vm_compute; reflexivity|].
    apply Hleast; [lia|lia|vm_compute; reflexivity].
Qed.

(** ** FastDiv beyond primes *)

(** For every divisor [1 <= d < 2^32], prime or not, and every 64-bit [n],
    the multiply-high estimate followed by the first conditional correction
    is already the exact quotient and remainder: the second correction,
    compiled in under [FASTDIV_2X_CORRECT], never fires, and the program
    built with [FASTDIV_2X_CORRECT] set to 0 computes the same results. *)
Theorem fastdiv_single_correction d n :
  1 <= d < 2 ^ 32 -> 0 <= n < 2 ^ 64 ->
  fastdiv_u32_divmod_1x (fastdiv_u32_make_prime d) n = (n / d, n mod d) /\
  fastdiv_u32_divmod (fastdiv_u32_make_prime d) n
    = fastdiv_u32_divmod_1x (fastdiv_u32_make_prime d) n.
Proof.
  intros Hd Hn.
  assert (E1 : fastdiv_u32_divmod_1x (fastdiv_u32_make_prime d) n
               = (n / d, n mod d)).
  { unfold fastdiv_u32_divmod_1x, fastdiv_u32_make_prime; cbn [fd_d fd_mul].
    pose proof (Z.div_mod n d ltac:(lia)) as En.
    pose proof (Z.mod_pos_bound n d ltac:(lia)) as Bn.
    assert (Hq : 0 <= n / d) by (apply Z.div_pos; lia).
    destruct (Z.eqb_spec d 2) as [->|Hne].
    - change (wrap64 (Z.shiftl 1 63)) with (2 ^ 63).
      rewrite mulhi_u64_spec by lia.
      assert (E : n * 2 ^ 63 / 2 ^ 64 = n / 2).
      { change (2 ^ 64) with (2 ^ 63 * 2).
        rewrite <- Z.div_div by lia. rewrite Z.div_mul by lia. reflexivity. }
      rewrite E. set (q := n / 2) in *. set (r := n mod 2) in *.
      rewrite (wrap64_small (q * 2)) by lia.
      rewrite (wrap64_small (n - q * 2)) by lia.
      replace (n - q * 2) with r by lia.
      unfold fastdiv_correct. destruct (Z.geb_spec r 2); [lia|].
      rewrite wrap32_small by lia. reflexivity.
    - assert (Hmu : 0 <= UINT64_MAX / d < 2 ^ 64).
      { split; [apply Z.div_pos; unfold UINT64_MAX; lia|].
        apply Z.div_lt_upper_bound; unfold UINT64_MAX; nia. }
      rewrite mulhi_u64_spec by assumption.
      pose proof (mulhi_estimate d n Hd Hn) as Hq0. cbv zeta in Hq0.
      set (q0 := n * (UINT64_MAX / d) / 2 ^ 64) in *.
      set (q := n / d) in *. set (r := n mod d) in *.
      assert (Hq00 : 0 <= q0).
      { apply Z.div_pos; [|lia]. apply Z.mul_nonneg_nonneg; lia. }
      assert (Hqd : 0 <= q0 * d <= n) by nia.
      rewrite (wrap64_small (q0 * d)) by lia.
      rewrite (wrap64_small (n - q0 * d)) by lia.
      assert (Hcase : q0 = q \/ q0 = q - 1) by lia.
      destruct Hcase as [-> | ->].
      + replace (n - q * d) with r by lia.
        unfold fastdiv_correct. destruct (Z.geb_spec r d); [lia|].
        rewrite wrap32_small by lia. reflexivity.
      + replace (n - (q - 1) * d) with (r + d) by lia.
        unfold fastdiv_correct. destruct (Z.geb_spec (r + d) d); [|lia].
        rewrite (wrap64_small (q - 1 + 1)), (wrap64_small (r + d - d)) by nia.
        replace (q - 1 + 1) with q by lia. replace (r + d - d) with r by lia.
        rewrite wrap32_small by lia. reflexivity. }
  split; [exact E1|]. rewrite E1. apply fastdiv_u32_divmod_correct; assumption.
Qed.

Lemma fastdiv_single_correction_witness :
  fastdiv_u32_divmod_1x (fastdiv_u32_make_prime 6) (2 ^ 64 - 1)
    = ((2 ^ 64 - 1) / 6, (2 ^ 64 - 1) mod 6) /\
  fastdiv_u32_divmod (fastdiv_u32_make_prime 6) (2 ^ 64 - 1)
    = fastdiv_u32_divmod_1x (fastdiv_u32_make_prime 6) (2 ^ 64 - 1).
Proof. apply (fastdiv_single_correction 6 (2 ^ 64 - 1)); lia. Defined.

(** [fastdiv_u32_divide_if_divisible] reports 1 exactly when [d] divides
    [*n_io]; it then stores the exact quotient ([n = d * n']), and otherwise
    leaves [*n_io] as it was. *)
Theorem divide_if_divisible_exact d n :
  1 <= d < 2 ^ 32 -> 0 <= n < 2 ^ 64 ->
  let '(flag, n') :=
    fastdiv_u32_divide_if_divisible (fastdiv_u32_make_prime d) n in
  (flag = true <-> (d | n)) /\
  (flag = true -> n = d * n' /\ 0 <= n' <= n) /\
  (flag = false -> n' = n).
Proof.
  intros Hd Hn. rewrite fastdiv_divide_if_divisible_correct by assumption.
  pose proof (Z.div_mod n d ltac:(lia)) as En.
  assert (Hq : 0 <= n / d) by (apply Z.div_pos; lia).
  destruct (Z.eqb_spec (n mod d) 0) as [Hm|Hm].
  - split; [|split].
    + split; [intros _|reflexivity]. apply Z.mod_divide; [lia|exact Hm].
    + intros _. split; [lia|nia].
    + discriminate.
  - split; [|split].
    + split; [discriminate|]. intros Hdiv.
      apply Z.mod_divide in Hdiv; [contradiction|lia].
    + discriminate.
    + reflexivity.
Qed.

Lemma divide_if_divisible_exact_witness :
  let '(flag, n') :=
    fastdiv_u32_divide_if_divisible (fastdiv_u32_make_prime 3) 54 in
  (flag = true <-> (3 | 54)) /\
  (flag = true -> 54 = 3 * n' /\ 0 <= n' <= 54) /\
  (flag = false -> n' = 54).
Proof. apply (divide_if_divisible_exact 3 54); lia. Defined.

(** ** Saturating addition *)

(** [safe_add_u64] is addition saturated at [UINT64_MAX]: on 64-bit
    operands it returns [min(a + b, UINT64_MAX)], so the result never wraps
    below an operand. *)
Theorem safe_add_u64_saturates a b :
  0 <= a < 2 ^ 64 -> 0 <= b < 2 ^ 64 ->
  safe_add_u64 a b = Z.min (a + b) UINT64_MAX /\
  a <= safe_add_u64 a b <= UINT64_MAX.
Proof.
  intros Ha Hb. unfold safe_add_u64. cbv zeta. unfold UINT64_MAX.
  destruct (Z_lt_ge_dec (a + b) (2 ^ 64)) as [Hlt|Hge].
  - rewrite (wrap64_small (a + b)) by lia.
    destruct (Z.ltb_spec (a + b) a); lia.
  - assert (E : wrap64 (a + b) = a + b - 2 ^ 64).
    { unfold wrap64.
      replace (a + b) with (a + b - 2 ^ 64 + 1 * 2 ^ 64) at 1 by ring.
      rewrite Z.mod_add by lia. apply Z.mod_small. lia. }
    rewrite E. destruct (Z.ltb_spec (a + b - 2 ^ 64) a); lia.
Qed.

Lemma safe_add_u64_saturates_witness :
  safe_add_u64 (2 ^ 64 - 2) 5 = Z.min (2 ^ 64 - 2 + 5) UINT64_MAX /\
  2 ^ 64 - 2 <= safe_add_u64 (2 ^ 64 - 2) 5 <= UINT64_MAX.
Proof. apply (safe_add_u64_saturates (2 ^ 64 - 2) 5); lia. Defined.

(** ** The prime list, in order *)

Lemma seqZ_sorted m (n : nat) : StronglySorted Z.lt (seqZ m (Z.of_nat n)).
Proof.
  induction n as [|n IH].
  - rewrite seqZ_nil by lia. constructor.
  - rewrite seqZ_S. apply StronglySorted_app. split; [|split].
    + intros x y Hx Hy. apply elem_of_seqZ in Hx.
      apply list_elem_of_singleton in Hy. lia.
    + exact IH.
    + repeat constructor.
Qed.

Lemma filter_sorted {A} (R : A -> A -> Prop) (f : A -> bool) (l : list A) :
  StronglySorted R l -> StronglySorted R (List.filter f l).
Proof.
  induction 1 as [|x l Hs IH Hall]; [constructor|].
  cbn [List.filter]. destruct (f x); [|exact IH].
  constructor; [exact IH|].
  apply List.Forall_forall. intros y Hy. apply filter_In in Hy as [Hy _].
  rewrite List.Forall_forall in Hall. apply Hall. exact Hy.
Qed.

(** With memory available and [2 <= n <= 2^32 - 2^16], [primes_upto(n)]
    terminates and returns, in strictly increasing order and without
    repetition, exactly the primes [<= n]; [count] is the length of the
    list and the first entry is 2. *)
Theorem primes_upto_ascending heap fuel n :
  2 <= n -> n + 2 ^ 16 <= 2 ^ 32 ->
  calloc_ok heap (n + 1) = true ->
  malloc_ok heap (Z.of_nat (length (primes_le n)) * 4) = true ->
  n + 3 <= Z.of_nat fuel ->
  exists ps,
    primes_upto heap fuel n =
      Ok {| pl_p := Some ps; pl_count := Z.of_nat (length ps) |} /\
    (forall x, x ∈ ps <-> Z.prime x /\ x <= n) /\
    StronglySorted Z.lt ps /\
    ps !! 0%nat = Some 2.
Proof.
  intros Hn H32 Hc Hm Hfuel. exists (primes_le n).
  split; [apply primes_upto_spec; assumption|].
  split; [apply primes_le_elem|]. split.
  - unfold primes_le. apply filter_sorted.
    replace (n - 1) with (Z.of_nat (Z.to_nat (n - 1))) by lia.
    apply seqZ_sorted.
  - unfold primes_le. rewrite seqZ_cons by lia. cbn [List.filter].
    change (prime_b 2) with true. reflexivity.
Qed.

Lemma primes_upto_ascending_witness :
  exists ps,
    primes_upto heap_ok 200 30 =
      Ok {| pl_p := Some ps; pl_count := Z.of_nat (length ps) |} /\
    (forall x, x ∈ ps <-> Z.prime x /\ x <= 30) /\
    StronglySorted Z.lt ps /\
    ps !! 0%nat = Some 2.
Proof.
  apply (primes_upto_ascending heap_ok 200 30);
    [lia|lia|reflexivity|reflexivity|vm_compute; discriminate].
Defined.

(** ** Bit sets *)

(** After [bitset_clear(bits, n)] every bit below [n] reads 0; after
    [bitset_set(bits, i)] bit [i] reads 1 and every other bit reads what it
    read before; neither changes the size of the buffer, and [bitset_get]
    only returns 0 or 1. *)
Theorem bitset_set_get_clear (bits : list Z) n i j :
  0 <= n -> n + 7 < 2 ^ 32 -> (n + 7) / 8 <= Z.of_nat (length bits) ->
  0 <= i < n -> 0 <= j < n ->
  bitset_get (bitset_clear bits n) j = 0 /\
  bitset_get (bitset_set bits i) j = (if j =? i then 1 else bitset_get bits j) /\
  bitset_get (bitset_set (bitset_clear bits n) i) j = (if j =? i then 1 else 0) /\
  length (bitset_set (bitset_clear bits n) i) = length bits /\
  0 <= bitset_get bits j <= 1.
Proof.
  intros Hn H32 Hlen Hi Hj.
  assert (Hi8 : i / 8 < Z.of_nat (length bits)).
  { assert (i / 8 <= (n + 7) / 8) by (apply Z.div_le_mono; lia).
    assert (i / 8 < (n + 7) / 8); [|lia].
    apply Z.div_lt_upper_bound; [lia|].
    pose proof (Z.div_mod (n + 7) 8 ltac:(lia)).
    pose proof (Z.mod_pos_bound (n + 7) 8 ltac:(lia)). lia. }
  assert (Hclr : bitset_get (bitset_clear bits n) j = 0)
    by (apply bitset_get_clear; assumption).
  split; [exact Hclr|]. split; [|split; [|split]].
  - destruct (Z.eqb_spec j i) as [->|Hne].
    + apply bitset_get_set_eq; lia.
    + apply bitset_get_set_ne; lia.
  - destruct (Z.eqb_spec j i) as [->|Hne].
    + apply bitset_get_set_eq; [lia|]. rewrite length_bitset_clear. exact Hi8.
    + rewrite bitset_get_set_ne by lia. exact Hclr.
  - rewrite length_bitset_set, length_bitset_clear. reflexivity.
  - apply bitset_get_range.
Qed.

Lemma bitset_set_get_clear_witness :
  bitset_get (bitset_clear [255; 255] 12) 3 = 0 /\
  bitset_get (bitset_set [255; 255] 9) 3
    = (if 3 =? 9 then 1 else bitset_get [255; 255] 3) /\
  bitset_get (bitset_set (bitset_clear [255; 255] 12) 9) 3
    = (if 3 =? 9 then 1 else 0) /\
  length (bitset_set (bitset_clear [255; 255] 12) 9) = length [255; 255] /\
  0 <= bitset_get [255; 255] 3 <= 1.
Proof.
  apply (bitset_set_get_clear [255; 255] 12 9 3); try lia.
  vm_compute. discriminate.
Defined.

(** ** Per-k tables and worker scratch *)

(** Called on an epoch whose prime list is that of [k < 2^32], with
    [step < 2^64], [epoch_prepare_math] fills [fd[i]] with the reciprocal
    record of the i-th prime and [step_mod[i]] with [step mod P[i]] (read
    off the low bit for [p == 2], by FastDiv otherwise), for every prime
    index; [k], [tile_len], [step] and the prime list are unchanged; and
    without primes both arrays are empty. *)
Theorem epoch_prepare_math_tables e :
  default [] (pl_p (e_primes e)) = primes_le (e_k e) ->
  pl_count (e_primes e) = Z.of_nat (length (primes_le (e_k e))) ->
  e_k e < 2 ^ 32 -> 0 <= e_step e < 2 ^ 64 ->
  let e' := epoch_prepare_math e in
  (forall pi, 0 <= pi < pl_count (e_primes e) ->
     let p := primes_at (e_primes e) pi in
     aget (e_fd e') pi = fastdiv_u32_make_prime p /\
     aget (e_step_mod e') pi = e_step e mod p /\
     0 <= aget (e_step_mod e') pi < p) /\
  e_k e' = e_k e /\ e_tile_len e' = e_tile_len e /\ e_step e' = e_step e /\
  e_primes e' = e_primes e /\
  (pl_count (e_primes e) = 0 -> e_fd e' = [] /\ e_step_mod e' = []).
Proof.
  intros Hps Hcnt Hk Hstep e'.
  destruct (epoch_prepare_math_spec e Hps Hcnt Hk Hstep)
    as (Hok & Hsm & Hk' & Htl & Hs' & Hp').
  fold e' in Hok, Hsm, Hk', Htl, Hs', Hp'.
  split; [|repeat split; try assumption].
  - intros pi Hpi p. subst p.
    destruct Hok as (_ & _ & _ & Hfd).
    rewrite <- Hp', <- Hs'. rewrite <- Hp' in Hpi.
    split; [apply Hfd; exact Hpi|]. split; [apply Hsm; exact Hpi|].
    rewrite (Hsm pi Hpi). apply Z.mod_pos_bound.
    assert (Hin : primes_at (e_primes e') pi ∈ primes_le (e_k e)).
    { unfold primes_at, aget. rewrite Hp', Hps.
      apply list_elem_of_lookup_total_2. rewrite Hp' in Hpi. lia. }
    apply primes_le_range in Hin. lia.
  - unfold e', epoch_prepare_math. rewrite H. reflexivity.
  - unfold e', epoch_prepare_math. rewrite H. reflexivity.
Qed.

Lemma epoch_prepare_math_tables_witness :
  let e' := epoch_prepare_math epoch_k5 in
  (forall pi, 0 <= pi < pl_count (e_primes epoch_k5) ->
     let p := primes_at (e_primes epoch_k5) pi in
     aget (e_fd e') pi = fastdiv_u32_make_prime p /\
     aget (e_step_mod e') pi = e_step epoch_k5 mod p /\
     0 <= aget (e_step_mod e') pi < p) /\
  e_k e' = e_k epoch_k5 /\ e_tile_len e' = e_tile_len epoch_k5 /\
  e_step e' = e_step epoch_k5 /\ e_primes e' = e_primes epoch_k5 /\
  (pl_count (e_primes epoch_k5) = 0 -> e_fd e' = [] /\ e_step_mod e' = []).
Proof.
  apply (epoch_prepare_math_tables epoch_k5);
    [reflexivity|reflexivity|simpl; lia|simpl; lia].
Defined.

(** [worker_init_offsets_for_epoch] leaves in [off[pi]], for every prime
    index, the least [i >= 0] such that [P[pi]] divides
    [start_m + tid * tile_len + 1 + i], the first number the worker's first
    tile tests; so [off[pi] < P[pi]].  The scratch buffers, the thread id
    and the capacity of the window are untouched. *)
Theorem worker_init_offsets_least e (w : WorkerCtx) :
  epoch_primes_ok e -> e_k e < 2 ^ 32 ->
  0 <= w_tid w -> 0 <= e_tile_len e -> 0 <= e_start_m e ->
  e_start_m e + w_tid w * e_tile_len e + 1 < 2 ^ 64 ->
  Z.of_nat (length (w_off w)) = w_off_cap w ->
  let w' := worker_init_offsets_for_epoch e w in
  let base_test0 := e_start_m e + w_tid w * e_tile_len e + 1 in
  (forall pi, 0 <= pi < pl_count (e_primes e) ->
     let p := primes_at (e_primes e) pi in
     0 <= aget (w_off w') pi < p /\ (p | base_test0 + aget (w_off w') pi) /\
     forall i, 0 <= i < aget (w_off w') pi -> ~ (p | base_test0 + i)) /\
  pl_count (e_primes e) <= Z.of_nat (length (w_off w')) /\
  w_tid w' = w_tid w /\ w_residual w' = w_residual w /\
  w_bad_bits w' = w_bad_bits w /\ w_cap_win_len w' = w_cap_win_len w.
Proof.
  intros Hok Hk Htid Htl Hsm H64 Hcap w' base_test0.
  destruct (worker_init_offsets_spec e w Hok Hk Htid Htl Hsm H64 Hcap)
    as ((Hlen & Hoff) & _ & Ht & Hr & Hb & Hc & _).
  fold w' in Hlen, Hoff, Ht, Hr, Hb, Hc. fold base_test0 in Hoff.
  split; [|repeat split; assumption].
  intros pi Hpi p. specialize (Hoff pi Hpi). fold p in Hoff.
  destruct (epoch_primes_at e pi Hok Hpi) as [Hp _]. fold p in Hp.
  apply Z.prime_ge_2 in Hp.
  pose proof Hoff as (_ & Hd & Hleast).
  apply least_offset_iff in Hoff as [Hr' _]; [|lia].
  split; [exact Hr'|]. split; [exact Hd|exact Hleast].
Qed.

Lemma worker_init_offsets_least_witness :
  let w' := worker_init_offsets_for_epoch epoch_k5 worker_fresh in
  let base_test0 :=
    e_start_m epoch_k5 + w_tid worker_fresh * e_tile_len epoch_k5 + 1 in
  (forall pi, 0 <= pi < pl_count (e_primes epoch_k5) ->
     let p := primes_at (e_primes epoch_k5) pi in
     0 <= aget (w_off w') pi < p /\ (p | base_test0 + aget (w_off w') pi) /\
     forall i, 0 <= i < aget (w_off w') pi -> ~ (p | base_test0 + i)) /\
  pl_count (e_primes epoch_k5) <= Z.of_nat (length (w_off w')) /\
  w_tid w' = w_tid worker_fresh /\ w_residual w' = w_residual worker_fresh /\
  w_bad_bits w' = w_bad_bits worker_fresh /\
  w_cap_win_len w' = w_cap_win_len worker_fresh.
Proof.
  apply (worker_init_offsets_least epoch_k5 worker_fresh);
    [exact epoch_k5_ok|simpl; lia|simpl; lia|simpl; lia|simpl; lia|simpl; lia
    |reflexivity].
Defined.

(** [ensure_worker_buffers] and [ensure_worker_off] only ever grow the
    scratch buffers: afterwards there is room for [win_len] residuals,
    [ceil(win_len / 8)] bytes of bits and [prime_count] offsets, the recorded
    capacity is the larger of the old one and the request, and a request the
    capacity already covers leaves the worker (and the contents of its
    buffers) exactly as it was. *)
Theorem worker_buffers_grow w win_len prime_count :
  bufs_ok w -> 0 <= win_len -> win_len + 7 < 2 ^ 32 -> 1 <= prime_count ->
  let w1 := ensure_worker_buffers w win_len in
  let w2 := ensure_worker_off w prime_count in
  win_len <= Z.of_nat (length (w_residual w1)) /\
  (win_len + 7) / 8 <= Z.of_nat (length (w_bad_bits w1)) /\
  w_cap_win_len w1 = Z.max (w_cap_win_len w) win_len /\
  (win_len <= w_cap_win_len w -> w1 = w) /\
  prime_count <= Z.of_nat (length (w_off w2)) /\
  w_off_cap w2 = Z.max (w_off_cap w) prime_count /\
  Z.of_nat (length (w_off w2)) = w_off_cap w2 /\
  (prime_count <= w_off_cap w -> w2 = w) /\
  w_off (ensure_worker_off w 0) = [] /\ w_off_cap (ensure_worker_off w 0) = 0.
Proof.
  intros Hb Hw H32 Hp w1 w2.
  destruct (ensure_worker_buffers_spec w win_len Hb Hw H32)
    as (_ & Hr & Hbits & _).
  fold w1 in Hr, Hbits. destruct Hb as (Hcap & Hbb & Hoff).
  split; [exact Hr|]. split; [exact Hbits|].
  unfold w1, w2, ensure_worker_buffers, ensure_worker_off.
  destruct (Z.eqb_spec prime_count 0) as [|_]; [lia|].
  destruct (Z.geb_spec (w_cap_win_len w) win_len) as [Hge|Hlt];
    destruct (Z.geb_spec (w_off_cap w) prime_count) as [Hge'|Hlt'];
    cbn [w_cap_win_len w_off w_off_cap];
    rewrite ?length_replicate;
    repeat split; try reflexivity; try lia.
Qed.

Lemma worker_buffers_grow_witness :
  let w1 := ensure_worker_buffers worker_fresh 9 in
  let w2 := ensure_worker_off worker_fresh 3 in
  9 <= Z.of_nat (length (w_residual w1)) /\
  (9 + 7) / 8 <= Z.of_nat (length (w_bad_bits w1)) /\
  w_cap_win_len w1 = Z.max (w_cap_win_len worker_fresh) 9 /\
  (9 <= w_cap_win_len worker_fresh -> w1 = worker_fresh) /\
  3 <= Z.of_nat (length (w_off w2)) /\
  w_off_cap w2 = Z.max (w_off_cap worker_fresh) 3 /\
  Z.of_nat (length (w_off w2)) = w_off_cap w2 /\
  (3 <= w_off_cap worker_fresh -> w2 = worker_fresh) /\
  w_off (ensure_worker_off worker_fresh 0) = [] /\
  w_off_cap (ensure_worker_off worker_fresh 0) = 0.
Proof.
  apply (worker_buffers_grow worker_fresh 9 3); try lia.
  repeat split; try reflexivity; vm_compute; discriminate.
Defined.

(** ** One tile, sieve and scan together *)

(** [scan_tile_find_m_carried_fastdiv] on the tile of [start_count] starts
    based at [m0], with the offsets of [m0 + 1] and a window inside the
    machine integers, returns the least [m] in [m0, m0 + start_count) such
    that none of [m+1 .. m+k] is k-smooth, and [UINT64_MAX] when the tile
    has no such [m]; the buffers keep their sizes. *)
Theorem scan_tile_least_hit fuel e m0 start_count
    (off residual bad_bits : list Z) :
  epoch_primes_ok e -> 1 <= e_k e -> 1 <= start_count ->
  start_count + 2 * e_k e + 8 <= 2 ^ 32 ->
  0 <= m0 -> m0 + 1 + start_count + e_k e <= 2 ^ 64 ->
  pl_count (e_primes e) <= Z.of_nat (length off) ->
  (forall pi, 0 <= pi < pl_count (e_primes e) ->
     least_offset (primes_at (e_primes e) pi) (m0 + 1) (aget off pi)) ->
  start_count + e_k e <= Z.of_nat (length residual) ->
  (start_count + e_k e + 7) / 8 <= Z.of_nat (length bad_bits) ->
  start_count + 2 * e_k e + 64 <= Z.of_nat fuel ->
  exists found off' residual' bad_bits',
    scan_tile_find_m_carried_fastdiv fuel e m0 start_count off residual
      bad_bits = Ok (found, (off', residual', bad_bits')) /\
    ((m0 <= found < m0 + start_count /\ hit (e_k e) found /\
      forall m, m0 <= m < found -> ~ hit (e_k e) m) \/
     (found = UINT64_MAX /\
      forall m, m0 <= m < m0 + start_count -> ~ hit (e_k e) m)) /\
    length off' = length off /\ length residual' = length residual /\
    length bad_bits' = length bad_bits.
Proof.
  intros Hok Hk Hsc H32 Hm0 H64 Hlo Hoff Hlr Hlb Hfuel.
  destruct (scan_tile_spec fuel e m0 start_count off residual bad_bits)
    as (found & off' & r' & b' & Hrun & Hl1 & Hl2 & Hl3 & _ & Hres);
    try assumption.
  exists found, off', r', b'. split; [exact Hrun|].
  split; [|repeat split; assumption].
  destruct Hres as [(s & (Hs & Hhit & Hfirst) & ->)|(Hnone & ->)].
  - left. split; [lia|]. split; [exact Hhit|].
    intros m Hm Hh. apply (Hfirst (m - m0)); [lia|].
    replace (m0 + (m - m0)) with m by lia. exact Hh.
  - right. split; [reflexivity|]. intros m Hm Hh.
    apply (Hnone (m - m0)); [lia|].
    replace (m0 + (m - m0)) with m by lia. exact Hh.
Qed.

Lemma scan_tile_least_hit_witness :
  exists found off' residual' bad_bits',
    scan_tile_find_m_carried_fastdiv 100 epoch_k5 0 4 [1; 2; 4]
      (replicate 9 0) [0; 0] = Ok (found, (off', residual', bad_bits')) /\
    ((0 <= found < 0 + 4 /\ hit (e_k epoch_k5) found /\
      forall m, 0 <= m < found -> ~ hit (e_k epoch_k5) m) \/
     (found = UINT64_MAX /\
      forall m, 0 <= m < 0 + 4 -> ~ hit (e_k epoch_k5) m)) /\
    length off' = length [1; 2; 4] /\
    length residual' = length (replicate 9 0) /\
    length bad_bits' = length [0; 0].
Proof.
  apply (scan_tile_least_hit 100 epoch_k5 0 4 [1; 2; 4] (replicate 9 0)
           [0; 0]).
  - exact epoch_k5_ok.
  - simpl. lia.
  - lia.
  - simpl. lia.
  - lia.
  - simpl. lia.
  - simpl. lia.
  - exact epoch_k5_offsets.
  - simpl. lia.
  - vm_compute. discriminate.
  - simpl. lia.
Defined.

(** The scratch buffers are reused from tile to tile without being cleared
    by the caller: whatever [residual] and [bad_bits] hold on entry, the
    tile scan returns the same [m] and the same carried offsets. *)
Theorem scan_tile_ignores_stale_buffers fuel e m0 start_count
    (off r1 b1 r2 b2 : list Z) :
  epoch_primes_ok e -> 1 <= e_k e -> 1 <= start_count ->
  start_count + 2 * e_k e + 8 <= 2 ^ 32 ->
  0 <= m0 -> m0 + 1 + start_count + e_k e <= 2 ^ 64 ->
  pl_count (e_primes e) <= Z.of_nat (length off) ->
  (forall pi, 0 <= pi < pl_count (e_primes e) ->
     least_offset (primes_at (e_primes e) pi) (m0 + 1) (aget off pi)) ->
  start_count + e_k e <= Z.of_nat (length r1) ->
  (start_count + e_k e + 7) / 8 <= Z.of_nat (length b1) ->
  start_count + e_k e <= Z.of_nat (length r2) ->
  (start_count + e_k e + 7) / 8 <= Z.of_nat (length b2) ->
  start_count + 2 * e_k e + 64 <= Z.of_nat fuel ->
  exists found o1 r1' b1' o2 r2' b2',
    scan_tile_find_m_carried_fastdiv fuel e m0 start_count off r1 b1
      = Ok (found, (o1, r1', b1')) /\
    scan_tile_find_m_carried_fastdiv fuel e m0 start_count off r2 b2
      = Ok (found, (o2, r2', b2')) /\
    forall pi, 0 <= pi < pl_count (e_primes e) -> aget o1 pi = aget o2 pi.
Proof.
  intros Hok Hk Hsc H32 Hm0 H64 Hlo Hoff Hr1 Hb1 Hr2 Hb2 Hfuel.
  destruct (scan_tile_spec fuel e m0 start_count off r1 b1)
    as (f1 & o1 & r1' & b1' & Hrun1 & _ & _ & _ & Ho1 & Hres1);
    try assumption.
  destruct (scan_tile_spec fuel e m0 start_count off r2 b2)
    as (f2 & o2 & r2' & b2' & Hrun2 & _ & _ & _ & Ho2 & Hres2);
    try assumption.
  assert (Hf : f1 = f2).
  { destruct Hres1 as [(s1 & (Hs1 & Hh1 & Hm1) & ->)|(Hn1 & ->)];
      destruct Hres2 as [(s2 & (Hs2 & Hh2 & Hm2) & ->)|(Hn2 & ->)].
    - destruct (Z.lt_trichotomy s1 s2) as [Hlt|[->|Hgt]]; [|reflexivity|].
      + exfalso. apply (Hm2 s1); [lia|exact Hh1].
      + exfalso. apply (Hm1 s2); [lia|exact Hh2].
    - exfalso. apply (Hn2 s1 Hs1 Hh1).
    - exfalso. apply (Hn1 s2 Hs2 Hh2).
    - reflexivity. }
  subst f2. exists f1, o1, r1', b1', o2, r2', b2'.
  split; [exact Hrun1|]. split; [exact Hrun2|].
  intros pi Hpi. rewrite (Ho1 pi Hpi), (Ho2 pi Hpi). reflexivity.
Qed.

Lemma scan_tile_ignores_stale_buffers_witness :
  exists found o1 r1' b1' o2 r2' b2',
    scan_tile_find_m_carried_fastdiv 100 epoch_k5 0 4 [1; 2; 4]
      (replicate 9 0) [0; 0] = Ok (found, (o1, r1', b1')) /\
    scan_tile_find_m_carried_fastdiv 100 epoch_k5 0 4 [1; 2; 4]
      (replicate 9 7) [255; 255] = Ok (found, (o2, r2', b2')) /\
    forall pi, 0 <= pi < pl_count (e_primes epoch_k5) ->
      aget o1 pi = aget o2 pi.
Proof.
  apply (scan_tile_ignores_stale_buffers 100 epoch_k5 0 4 [1; 2; 4]
           (replicate 9 0) [0; 0] (replicate 9 7) [255; 255]).
  - exact epoch_k5_ok.
  - simpl. lia.
  - lia.
  - simpl. lia.
  - lia.
  - simpl. lia.
  - simpl. lia.
  - exact epoch_k5_offsets.
  - simpl. lia.
  - vm_compute. discriminate.
  - simpl. lia.
  - vm_compute. discriminate.
  - simpl. lia.
Defined.

(** ** An epoch under every interleaving *)

(** The invariants of the epoch hold when [epoch_begin] returns. *)
Lemma epoch_setup_inv heap fuel sys k start_m end_m tile_len :
  workers_parked sys ->
  1 <= k -> 1 <= tile_len -> 1 <= js_thread_count (sys_js sys) ->
  0 <= start_m <= end_m ->
  end_m + tile_len * js_thread_count (sys_js sys) + k + 2 <= 2 ^ 64 ->
  tile_len + 2 * k + 8 <= 2 ^ 32 ->
  tile_len + 2 * k + 64 <= Z.of_nat fuel -> k + 3 <= Z.of_nat fuel ->
  calloc_ok heap (k + 1) = true ->
  malloc_ok heap (Z.of_nat (length (primes_le k)) * 4) = true ->
  exists js1,
    find_m_setup heap fuel (sys_js sys) k tile_len = Ok js1 /\
    let sys0 := set_js sys (epoch_begin js1 k start_m end_m tile_len) in
    let e0 := sys_epoch sys0 in
    let T := js_thread_count (sys_js sys) in
    epoch_in_range e0 T fuel /\ epoch_primes_ok e0 /\ epoch_step_mod_ok e0 /\
    system_inv e0 T [] sys0 /\
    e_k e0 = k /\ e_start_m e0 = start_m /\ e_end_m e0 = end_m /\
    js_thread_count (sys_js sys0) = T.
Proof.
  intros Hparked Hk HL HT HA HB H32 Hfuel Hfuel' Hcalloc Hmalloc.
  set (T := js_thread_count (sys_js sys)) in *.
  destruct (find_m_setup_spec heap fuel (sys_js sys) k tile_len)
    as (js1 & Hsetup & Hq1 & HT1 & Hok & Hsm & Hk1 & Hstep1);
    try assumption; try (fold T; nia).
  exists js1. split; [exact Hsetup|]. intros sys0 e0 T'. subst T'.
  fold T in HT1, Hstep1.
  assert (Hstep0 : 0 <= tile_len * js_thread_count js1 < 2 ^ 64)
    by (rewrite HT1; nia).
  destruct (epoch_begin_tables js1 k start_m end_m tile_len Hok Hsm Hk1)
    as [Hok0 Hsm0]; [rewrite HT1; exact Hstep1|exact Hstep0|].
  split.
  { unfold epoch_in_range, e0, sys0, sys_epoch.
    cbn [set_js sys_js epoch_begin js_epoch e_k e_tile_len e_step e_start_m
         e_end_m].
    rewrite (wrap64_small (tile_len * _)) by exact Hstep0. rewrite HT1.
    repeat split; lia. }
  split; [exact Hok0|]. split; [exact Hsm0|]. split.
  { unfold e0, sys0, sys_epoch. cbn [set_js sys_js]. rewrite <- HT1.
    apply epoch_begin_inv; try assumption.
    - destruct Hparked as (Hq & _). rewrite Hq1. exact Hq.
    - rewrite HT1. exact HT.
    - lia. }
  repeat split. exact HT1.
Qed.

Lemma run_workers_thread_count fuel sched : forall sys sys',
  run_workers fuel sched sys = Ok sys' ->
  js_thread_count (sys_js sys') = js_thread_count (sys_js sys).
Proof.
  induction sched as [|i sched IH]; intros sys sys' Hrun.
  - injection Hrun as <-. reflexivity.
  - unfold run_workers in Hrun. cbn [rfoldl] in Hrun.
    apply rbind_Ok in Hrun as (sys1 & Hstep & Hrun).
    rewrite (IH sys1 sys' Hrun). unfold system_step in Hstep.
    destruct (sys_w sys !! i) as [w|]; [|injection Hstep as <-; reflexivity].
    apply rbind_Ok in Hstep as ([[e q] w'] & _ & Hstep).
    injection Hstep as <-. reflexivity.
Qed.

(** A worker that is parked on an empty port does nothing when scheduled. *)
Lemma parked_step_noop fuel sys i :
  js_iocp (sys_js sys) = [] ->
  (forall j w, sys_w sys !! j = Some w -> w_pc w = Parked) ->
  system_step fuel i sys = Ok sys.
Proof.
  intros Hq Hpc. unfold system_step.
  destruct (sys_w sys !! i) as [w|] eqn:Hw; [|reflexivity].
  unfold worker_step. rewrite (Hpc i w Hw), Hq. cbn [rbind].
  destruct sys as [[q T e] ws]. cbn in *. subst q.
  rewrite list_insert_id by exact Hw. reflexivity.
Qed.

Lemma parked_run_noop fuel sched sys :
  js_iocp (sys_js sys) = [] ->
  (forall j w, sys_w sys !! j = Some w -> w_pc w = Parked) ->
  run_workers fuel sched sys = Ok sys.
Proof.
  intros Hq Hpc. induction sched as [|i sched IH]; [reflexivity|].
  unfold run_workers. cbn [rfoldl]. rewrite parked_step_noop by assumption.
  exact IH.
Qed.

(** What the done event implies. *)
Lemma done_quiescent e0 T (D : list nat) sys :
  system_inv e0 T D sys -> e_evt_done (sys_epoch sys) = true ->
  js_iocp (sys_js sys) = [] /\ e_active_workers (sys_epoch sys) = 0 /\
  Z.of_nat (length D) = T /\
  forall i w, sys_w sys !! i = Some w ->
    w_tid w = Z.of_nat i /\ bufs_ok w /\ w_pc w = Parked.
Proof.
  intros (Hat & (q & Hq & HD & Hact) & Hevt & Hlen & Hws & HDlt) Hdone.
  rewrite Hdone in Hevt.
  pose proof (running_nonneg (sys_w sys)) as Hrn.
  pose proof (signalling_nonneg (sys_w sys)) as Hsn.
  destruct (Z.eqb_spec (e_active_workers (sys_epoch sys)) 0) as [Ha0|Ha0];
    [|lia].
  assert (Hq0 : q = 0%nat) by lia. subst q.
  assert (Hr0 : running (sys_w sys) = 0) by lia.
  split; [exact Hq|]. split; [exact Ha0|]. split; [lia|].
  intros i w Hw. destruct (Hws i w Hw) as (Htid & Hbufs & Hpc).
  split; [exact Htid|]. split; [exact Hbufs|].
  pose proof (running_zero _ i w Hr0 Hw) as Hr.
  pose proof (signalling_ge _ i w Hw) as Hs.
  destruct (w_pc w); cbn in Hr, Hs; try lia; try contradiction; reflexivity.
Qed.

(** Whatever the interleaving of the workers, and even when one worker takes
    several start packets, the epoch never reports a false hit: at every
    point of the run [best_m] is [UINT64_MAX] or an [m] of the span
    [start_m .. end_m] such that none of [m+1 .. m+k] is k-smooth, and so is
    the value [epoch_wait] returns. *)
Theorem epoch_best_is_hit heap fuel sys k start_m end_m tile_len :
  workers_parked sys ->
  1 <= k -> 1 <= tile_len -> 1 <= js_thread_count (sys_js sys) ->
  0 <= start_m <= end_m ->
  end_m + tile_len * js_thread_count (sys_js sys) + k + 2 <= 2 ^ 64 ->
  tile_len + 2 * k + 8 <= 2 ^ 32 ->
  tile_len + 2 * k + 64 <= Z.of_nat fuel -> k + 3 <= Z.of_nat fuel ->
  calloc_ok heap (k + 1) = true ->
  malloc_ok heap (Z.of_nat (length (primes_le k)) * 4) = true ->
  exists js1,
    find_m_setup heap fuel (sys_js sys) k tile_len = Ok js1 /\
    let sys0 := set_js sys (epoch_begin js1 k start_m end_m tile_len) in
    forall sched, exists sys',
      run_workers fuel sched sys0 = Ok sys' /\
      (e_best_m (sys_epoch sys') = UINT64_MAX \/
       (start_m <= e_best_m (sys_epoch sys') <= end_m /\
        hit k (e_best_m (sys_epoch sys')))) /\
      (forall best sched' sys1,
         epoch_wait fuel sched sys0 = Ok (best, sched', sys1) ->
         best = UINT64_MAX \/ (start_m <= best <= end_m /\ hit k best)).
Proof.
  intros Hparked Hk HL HT HA HB H32 Hfuel Hfuel' Hcalloc Hmalloc.
  destruct (epoch_setup_inv heap fuel sys k start_m end_m tile_len)
    as (js1 & Hsetup & Hrange & Hok0 & Hsm0 & Hinv0 & Hk0 & Hs0 & He0 & HT0);
    try assumption.
  exists js1. split; [exact Hsetup|]. intros sys0 sched.
  fold sys0 in Hrange, Hok0, Hsm0, Hinv0, Hk0, Hs0, He0, HT0.
  set (e0 := sys_epoch sys0) in *.
  set (T := js_thread_count (sys_js sys)) in *.
  assert (Hsound : forall s sys1,
            run_workers fuel s sys0 = Ok sys1 ->
            e_best_m (sys_epoch sys1) = UINT64_MAX \/
            (start_m <= e_best_m (sys_epoch sys1) <= end_m /\
             hit k (e_best_m (sys_epoch sys1)))).
  { intros s sys1 Hrun.
    destruct (run_workers_inv fuel e0 T Hrange Hok0 Hsm0 s [] sys0 Hinv0)
      as (sys1' & Hrun' & Hinv1 & _).
    rewrite Hrun in Hrun'. injection Hrun' as <-.
    destruct Hinv1 as ((_ & Hbest & _) & _).
    destruct Hbest as [Hb|[Hspan Hhit]]; [left; exact Hb|right].
    rewrite Hs0, He0 in Hspan. rewrite Hk0 in Hhit. split; assumption. }
  destruct (run_workers_inv fuel e0 T Hrange Hok0 Hsm0 sched [] sys0 Hinv0)
    as (sys' & Hrun & _).
  exists sys'. split; [exact Hrun|]. split; [apply (Hsound sched); exact Hrun|].
  intros best sched' sys1 Hwait.
  destruct (epoch_wait_run fuel sched sys0 best sched' sys1 Hwait)
    as (pre & _ & Hpre & _ & ->).
  apply (Hsound pre). exact Hpre.
Qed.

Lemma epoch_best_is_hit_witness :
  exists js1,
    find_m_setup heap_ok 200 (sys_js (system_started 2)) 3 4 = Ok js1 /\
    let sys0 := set_js (system_started 2) (epoch_begin js1 3 0 15 4) in
    forall sched, exists sys',
      run_workers 200 sched sys0 = Ok sys' /\
      (e_best_m (sys_epoch sys') = UINT64_MAX \/
       (0 <= e_best_m (sys_epoch sys') <= 15 /\
        hit 3 (e_best_m (sys_epoch sys')))) /\
      (forall best sched' sys1,
         epoch_wait 200 sched sys0 = Ok (best, sched', sys1) ->
         best = UINT64_MAX \/ (0 <= best <= 15 /\ hit 3 best)).
Proof.
  apply (epoch_best_is_hit heap_ok 200 (system_started 2) 3 0 15 4).
  - apply system_started_parked. lia.
  - lia.
  - lia.
  - simpl. lia.
  - lia.
  - simpl. lia.
  - lia.
  - lia.
  - lia.
  - reflexivity.
  - reflexivity.
Defined.

(** The done event and the counter of active workers, under every
    interleaving.  [active_workers] never goes below 0; the done event is
    set only when it is 0; and when it is 0 the event is set or the worker
    whose decrement reached 0 stands between its [InterlockedDecrement] and
    its [SetEvent].  Once the event is set the port is empty and every
    worker is parked again in [GetQueuedCompletionStatus]; from then on no
    worker changes anything, so the [best_m] that [epoch_wait] loads after the
    wait is final and the pool is ready for the next [epoch_begin]. *)
Theorem epoch_done_is_quiescent heap fuel sys k start_m end_m tile_len :
  workers_parked sys ->
  1 <= k -> 1 <= tile_len -> 1 <= js_thread_count (sys_js sys) ->
  0 <= start_m <= end_m ->
  end_m + tile_len * js_thread_count (sys_js sys) + k + 2 <= 2 ^ 64 ->
  tile_len + 2 * k + 8 <= 2 ^ 32 ->
  tile_len + 2 * k + 64 <= Z.of_nat fuel -> k + 3 <= Z.of_nat fuel ->
  calloc_ok heap (k + 1) = true ->
  malloc_ok heap (Z.of_nat (length (primes_le k)) * 4) = true ->
  exists js1,
    find_m_setup heap fuel (sys_js sys) k tile_len = Ok js1 /\
    let sys0 := set_js sys (epoch_begin js1 k start_m end_m tile_len) in
    forall sched, exists sys',
      run_workers fuel sched sys0 = Ok sys' /\
      0 <= e_active_workers (sys_epoch sys') /\
      (e_evt_done (sys_epoch sys') = true ->
       e_active_workers (sys_epoch sys') = 0) /\
      (e_active_workers (sys_epoch sys') = 0 ->
       e_evt_done (sys_epoch sys') = true \/
       exists i w, sys_w sys' !! i = Some w /\ w_pc w = EpochSignal) /\
      (e_evt_done (sys_epoch sys') = true ->
       workers_parked sys' /\
       Z.of_nat (length (dequeues fuel sched sys0))
         = js_thread_count (sys_js sys) /\
       forall sched2, run_workers fuel (sched ++ sched2) sys0 = Ok sys').
Proof.
  intros Hparked Hk HL HT HA HB H32 Hfuel Hfuel' Hcalloc Hmalloc.
  destruct (epoch_setup_inv heap fuel sys k start_m end_m tile_len)
    as (js1 & Hsetup & Hrange & Hok0 & Hsm0 & Hinv0 & Hk0 & Hs0 & He0 & HT0);
    try assumption.
  exists js1. split; [exact Hsetup|]. intros sys0 sched.
  fold sys0 in Hrange, Hok0, Hsm0, Hinv0, Hk0, Hs0, He0, HT0.
  set (e0 := sys_epoch sys0) in *.
  set (T := js_thread_count (sys_js sys)) in *.
  destruct (run_workers_inv fuel e0 T Hrange Hok0 Hsm0 sched [] sys0 Hinv0)
    as (sys' & Hrun & Hinv' & _).
  cbn [app] in Hinv'.
  exists sys'. split; [exact Hrun|].
  pose proof Hinv' as (_ & (q & Hq & HD & Hact) & Hevt & Hlen & Hws & _).
  pose proof (signalling_nonneg (sys_w sys')) as Hsn.
  split; [|split; [|split]].
  - pose proof (running_nonneg (sys_w sys')) as Hrn. lia.
  - intros Hdone. rewrite Hdone in Hevt.
    destruct (Z.eqb_spec (e_active_workers (sys_epoch sys')) 0); lia.
  - intros Ha0. rewrite Ha0 in Hevt. cbn in Hevt.
    destruct (e_evt_done (sys_epoch sys')); [left; reflexivity|right].
    apply signalling_pos_exists. lia.
  - intros Hdone.
    destruct (done_quiescent e0 T _ sys' Hinv' Hdone)
      as (Hq0 & _ & HDT & Hpk).
    split; [|split; [exact HDT|]].
    + split; [exact Hq0|]. split; [|exact Hpk].
      rewrite (run_workers_thread_count fuel sched sys0 sys' Hrun), HT0.
      exact Hlen.
    + intros sched2. unfold run_workers. rewrite rfoldl_app.
      fold (run_workers fuel sched sys0). rewrite Hrun. cbn [rbind].
      apply parked_run_noop; [exact Hq0|]. intros j w Hw. apply (Hpk j w Hw).
Qed.

Lemma epoch_done_is_quiescent_witness :
  exists js1,
    find_m_setup heap_ok 200 (sys_js (system_started 2)) 3 4 = Ok js1 /\
    let sys0 := set_js (system_started 2) (epoch_begin js1 3 0 15 4) in
    forall sched, exists sys',
      run_workers 200 sched sys0 = Ok sys' /\
      0 <= e_active_workers (sys_epoch sys') /\
      (e_evt_done (sys_epoch sys') = true ->
       e_active_workers (sys_epoch sys') = 0) /\
      (e_active_workers (sys_epoch sys') = 0 ->
       e_evt_done (sys_epoch sys') = true \/
       exists i w, sys_w sys' !! i = Some w /\ w_pc w = EpochSignal) /\
      (e_evt_done (sys_epoch sys') = true ->
       workers_parked sys' /\
       Z.of_nat (length (dequeues 200 sched sys0))
         = js_thread_count (sys_js (system_started 2)) /\
       forall sched2, run_workers 200 (sched ++ sched2) sys0 = Ok sys').
Proof.
  apply (epoch_done_is_quiescent heap_ok 200 (system_started 2) 3 0 15 4).
  - apply system_started_parked. lia.
  - lia.
  - lia.
  - simpl. lia.
  - lia.
  - simpl. lia.
  - lia.
  - lia.
  - lia.
  - reflexivity.
  - reflexivity.
Defined.

(** The counter reaches 0 before the event is set: after four steps of the
    single worker of an epoch for [k = 1] on the span [0 .. 0] the counter
    is 0, the event is not set and the worker stands before [SetEvent]; its
    next step sets the event and parks it. *)
Example epoch_count_zero_before_event :
  exists sys4 sys5,
    epoch_run 1 1 0 0 1 [0; 0; 0; 0]%nat = Ok sys4 /\
    e_active_workers (sys_epoch sys4) = 0 /\
    e_evt_done (sys_epoch sys4) = false /\
    map w_pc (sys_w sys4) = [EpochSignal] /\
    system_step 200 0 sys4 = Ok sys5 /\
    e_active_workers (sys_epoch sys5) = 0 /\
    e_evt_done (sys_epoch sys5) = true /\
    map w_pc (sys_w sys5) = [Parked].
Proof.
  eexists _, _. split; [vm_compute; reflexivity|].
  split; [reflexivity|]. split; [reflexivity|]. split; [reflexivity|].
  split; [vm_compute; reflexivity|]. repeat split; reflexivity.
Qed.

(** Along every interleaving [best_m] never increases, and [end_limit] is
    never pushed below a candidate that could still improve on it: at every
    point of the run, each [m] of the span with [m < best_m] satisfies
    [m <= end_limit], so the pruning only drops tiles that lie wholly above
    the best hit found so far. *)
Theorem end_limit_keeps_better_candidates heap fuel sys k start_m end_m
    tile_len :
  workers_parked sys ->
  1 <= k -> 1 <= tile_len -> 1 <= js_thread_count (sys_js sys) ->
  0 <= start_m <= end_m ->
  end_m + tile_len * js_thread_count (sys_js sys) + k + 2 <= 2 ^ 64 ->
  tile_len + 2 * k + 8 <= 2 ^ 32 ->
  tile_len + 2 * k + 64 <= Z.of_nat fuel -> k + 3 <= Z.of_nat fuel ->
  calloc_ok heap (k + 1) = true ->
  malloc_ok heap (Z.of_nat (length (primes_le k)) * 4) = true ->
  exists js1,
    find_m_setup heap fuel (sys_js sys) k tile_len = Ok js1 /\
    let sys0 := set_js sys (epoch_begin js1 k start_m end_m tile_len) in
    forall sched1 sched2, exists sys1 sys2,
      run_workers fuel sched1 sys0 = Ok sys1 /\
      run_workers fuel (sched1 ++ sched2) sys0 = Ok sys2 /\
      e_best_m (sys_epoch sys2) <= e_best_m (sys_epoch sys1) <= UINT64_MAX /\
      0 <= e_end_limit (sys_epoch sys1) <= end_m /\
      (forall m, start_m <= m <= end_m -> m < e_best_m (sys_epoch sys1) ->
         m <= e_end_limit (sys_epoch sys1)).
Proof.
  intros Hparked Hk HL HT HA HB H32 Hfuel Hfuel' Hcalloc Hmalloc.
  destruct (epoch_setup_inv heap fuel sys k start_m end_m tile_len)
    as (js1 & Hsetup & Hrange & Hok0 & Hsm0 & Hinv0 & Hk0 & Hs0 & He0 & HT0);
    try assumption.
  exists js1. split; [exact Hsetup|]. intros sys0 sched1 sched2.
  fold sys0 in Hrange, Hok0, Hsm0, Hinv0, Hk0, Hs0, He0, HT0.
  set (e0 := sys_epoch sys0) in *.
  set (T := js_thread_count (sys_js sys)) in *.
  destruct (run_workers_inv fuel e0 T Hrange Hok0 Hsm0 sched1 [] sys0 Hinv0)
    as (sys1 & Hrun1 & Hinv1 & Hle1).
  destruct (run_workers_inv fuel e0 T Hrange Hok0 Hsm0 sched2 _ sys1 Hinv1)
    as (sys2 & Hrun2 & _ & Hle2).
  exists sys1, sys2. split; [exact Hrun1|]. split.
  { unfold run_workers. rewrite rfoldl_app.
    fold (run_workers fuel sched1 sys0). rewrite Hrun1. exact Hrun2. }
  destruct Hinv1 as ((_ & _ & Hlim & Hshrunk) & _).
  rewrite He0 in Hlim, Hshrunk.
  split; [split; [exact Hle2|]|].
  { etransitivity; [exact Hle1|]. unfold e0, sys0, sys_epoch. cbn. lia. }
  split; [exact Hlim|].
  intros m Hm Hlt.
  destruct (Z_lt_ge_dec (e_end_limit (sys_epoch sys1)) end_m) as [Hs|Hs].
  - specialize (Hshrunk Hs). lia.
  - lia.
Qed.

Lemma end_limit_keeps_better_candidates_witness :
  exists js1,
    find_m_setup heap_ok 200 (sys_js (system_started 2)) 3 4 = Ok js1 /\
    let sys0 := set_js (system_started 2) (epoch_begin js1 3 0 15 4) in
    forall sched1 sched2, exists sys1 sys2,
      run_workers 200 sched1 sys0 = Ok sys1 /\
      run_workers 200 (sched1 ++ sched2) sys0 = Ok sys2 /\
      e_best_m (sys_epoch sys2) <= e_best_m (sys_epoch sys1) <= UINT64_MAX /\
      0 <= e_end_limit (sys_epoch sys1) <= 15 /\
      (forall m, 0 <= m <= 15 -> m < e_best_m (sys_epoch sys1) ->
         m <= e_end_limit (sys_epoch sys1)).
Proof.
  apply (end_limit_keeps_better_candidates heap_ok 200 (system_started 2)
           3 0 15 4).
  - apply system_started_parked. lia.
  - lia.
  - lia.
  - simpl. lia.
  - lia.
  - simpl. lia.
  - lia.
  - lia.
  - lia.
  - reflexivity.
  - reflexivity.
Defined.

(** ** Stopping the pool *)

Lemma parked_cons x ws : parked (x :: ws) = is_parked (w_pc x) + parked ws.
Proof. reflexivity. Qed.

Lemma parked_insert (ws : list WorkerCtx) i w w' :
  ws !! i = Some w ->
  parked (<[i := w']> ws) = parked ws - is_parked (w_pc w) + is_parked (w_pc w').
Proof.
  revert i. induction ws as [|x ws IH]; intros [|i] Hl; try discriminate.
  - injection Hl as ->.
    change (<[0%nat := w']> (w :: ws)) with (w' :: ws).
    rewrite !parked_cons. lia.
  - change (<[Datatypes.S i := w']> (x :: ws)) with (x :: <[i := w']> ws).
    rewrite !parked_cons, (IH i Hl). lia.
Qed.

Lemma parked_nonneg ws : 0 <= parked ws.
Proof.
  induction ws as [|x ws IH]; [cbn; lia|]. rewrite parked_cons.
  destruct (w_pc x); cbn; lia.
Qed.

Lemma parked_ge (ws : list WorkerCtx) i w :
  ws !! i = Some w -> is_parked (w_pc w) <= parked ws.
Proof.
  intros Hl. pose proof (parked_insert ws i w (set_pc w Exited) Hl) as E.
  pose proof (parked_nonneg (<[i := set_pc w Exited]> ws)).
  cbn [w_pc set_pc is_parked] in E. lia.
Qed.

Lemma parked_all (ws : list WorkerCtx) :
  (forall i w, ws !! i = Some w -> w_pc w = Parked) ->
  parked ws = Z.of_nat (length ws).
Proof.
  induction ws as [|x ws IH]; intros H; [reflexivity|].
  rewrite parked_cons, (H 0%nat x eq_refl), IH.
  - cbn [is_parked length]. lia.
  - intros i w Hw. apply (H (Datatypes.S i)). exact Hw.
Qed.

Lemma parked_none (ws : list WorkerCtx) :
  (forall i w, ws !! i = Some w -> w_pc w = Exited) -> parked ws = 0.
Proof.
  induction ws as [|x ws IH]; intros H; [reflexivity|].
  rewrite parked_cons, (H 0%nat x eq_refl), IH; [reflexivity|].
  intros i w Hw. apply (H (Datatypes.S i)). exact Hw.
Qed.

Lemma stop_workers_queue js :
  0 <= js_thread_count js ->
  js_iocp (stop_workers js)
  = js_iocp js ++ replicate (Z.to_nat (js_thread_count js)) KEY_STOP.
Proof.
  intros HT. unfold stop_workers. cbn [js_iocp].
  apply (for_range_inv
           (fun i q => q = js_iocp js ++ replicate (Z.to_nat i) KEY_STOP)).
  - exact HT.
  - cbn. rewrite app_nil_r. reflexivity.
  - intros i q Hi ->. rewrite <- app_assoc. f_equal.
    replace (Z.to_nat (i + 1)) with (Z.to_nat i + 1)%nat by lia.
    rewrite replicate_add. reflexivity.
Qed.

Lemma system_step_stopping fuel e V sys i :
  stopping e V sys ->
  exists sys',
    system_step fuel i sys = Ok sys' /\ stopping e (V ++ [i]) sys' /\
    length (sys_w sys') = length (sys_w sys).
Proof.
  intros (He & (q & Hq & Hpk) & Hws). unfold system_step.
  destruct (sys_w sys !! i) as [w|] eqn:Hw.
  - destruct (Hws i w Hw) as [Hin Hout].
    destruct (decide (i ∈ V)) as [HV|HV].
    + (* already exited *)
      unfold worker_step. rewrite (Hin HV). cbn [rbind].
      eexists. split; [reflexivity|]. unfold stopping.
      cbn [sys_js sys_w js_epoch js_iocp].
      rewrite list_insert_id by exact Hw.
      split; [|reflexivity]. split; [exact He|]. split; [exists q; auto|].
      intros j w' Hw'. destruct (Hws j w' Hw') as [Hin' Hout']. split.
      * intros Hj. apply elem_of_app in Hj as [Hj|Hj]; [auto|].
        apply list_elem_of_singleton in Hj. subst j. exact (Hin' HV).
      * intros Hj. apply Hout'. intros Hj'. apply Hj.
        apply elem_of_app. left. exact Hj'.
    + (* parked: takes a stop packet *)
      pose proof (parked_ge _ i w Hw) as Hge. rewrite (Hout HV) in Hge.
      cbn [is_parked] in Hge.
      destruct q as [|q']; [lia|].
      unfold worker_step. rewrite (Hout HV), Hq. cbn [replicate].
      change (KEY_STOP =? KEY_STOP) with true. cbn [rbind].
      eexists. split; [reflexivity|]. unfold stopping.
      cbn [sys_js sys_w js_epoch js_iocp].
      split; [|apply length_insert]. split; [exact He|]. split.
      * exists q'. split; [reflexivity|].
        rewrite (parked_insert _ i w _ Hw), (Hout HV).
        cbn [w_pc set_pc is_parked]. lia.
      * intros j w' Hw'. cbn [sys_w] in Hw'.
        destruct (decide (j = i)) as [->|Hne].
        -- rewrite list_lookup_insert_eq in Hw'
             by (apply lookup_lt_Some in Hw; exact Hw).
           injection Hw' as <-. split; [reflexivity|].
           intros Hj. exfalso. apply Hj. apply elem_of_app. right.
           apply list_elem_of_singleton. reflexivity.
        -- rewrite list_lookup_insert_ne in Hw' by congruence.
           destruct (Hws j w' Hw') as [Hin' Hout']. split.
           ++ intros Hj. apply elem_of_app in Hj as [Hj|Hj]; [auto|].
              apply list_elem_of_singleton in Hj. contradiction.
           ++ intros Hj. apply Hout'. intros Hj'. apply Hj.
              apply elem_of_app. left. exact Hj'.
  - exists sys. split; [reflexivity|]. split; [|reflexivity].
    split; [exact He|]. split; [exists q; auto|].
    intros j w' Hw'. destruct (Hws j w' Hw') as [Hin' Hout']. split.
    + intros Hj. apply elem_of_app in Hj as [Hj|Hj]; [auto|].
      apply list_elem_of_singleton in Hj. subst j. congruence.
    + intros Hj. apply Hout'. intros Hj'. apply Hj.
      apply elem_of_app. left. exact Hj'.
Qed.

Lemma run_workers_stopping fuel e sched : forall V sys,
  stopping e V sys ->
  exists sys',
    run_workers fuel sched sys = Ok sys' /\ stopping e (V ++ sched) sys' /\
    length (sys_w sys') = length (sys_w sys).
Proof.
  induction sched as [|i sched IH]; intros V sys Hst.
  - exists sys. rewrite app_nil_r. auto.
  - destruct (system_step_stopping fuel e V sys i Hst)
      as (sys1 & Hstep & Hst1 & Hl1).
    destruct (IH _ sys1 Hst1) as (sys' & Hrun & Hst' & Hl').
    exists sys'. unfold run_workers. cbn [rfoldl]. rewrite Hstep. cbn [rbind].
    split; [exact Hrun|]. rewrite <- app_assoc in Hst'.
    split; [exact Hst'|]. congruence.
Qed.

(** After [stop_workers] has posted its packets to a quiescent pool, under
    every schedule no step faults, a worker has exited exactly when it has
    been scheduled at least once (a thread that has left its loop never
    takes a second packet), the packets left on the port are stop packets,
    one for each worker still parked, the epoch is untouched, and once every
    worker has run the port is empty and all threads have exited. *)
Theorem stop_workers_all_exit fuel sys :
  workers_parked sys -> 0 <= js_thread_count (sys_js sys) ->
  let sys0 := set_js sys (stop_workers (sys_js sys)) in
  forall sched, exists sys',
    run_workers fuel sched sys0 = Ok sys' /\
    js_epoch (sys_js sys') = js_epoch (sys_js sys) /\
    length (sys_w sys') = length (sys_w sys) /\
    (forall i w, sys_w sys' !! i = Some w ->
       (i ∈ sched -> w_pc w = Exited) /\ (i ∉ sched -> w_pc w = Parked)) /\
    (exists q : nat,
       js_iocp (sys_js sys') = replicate q KEY_STOP /\
       Z.of_nat q = parked (sys_w sys')) /\
    ((forall i : nat, Z.of_nat i < js_thread_count (sys_js sys) -> i ∈ sched) ->
     js_iocp (sys_js sys') = [] /\
     forall i w, sys_w sys' !! i = Some w -> w_pc w = Exited).
Proof.
  intros (Hq & Hlen & Hws) HT sys0 sched.
  assert (Hst : stopping (js_epoch (sys_js sys)) [] sys0).
  { unfold sys0. split; [reflexivity|]. split.
    - exists (Z.to_nat (js_thread_count (sys_js sys))).
      cbn [set_js sys_js sys_w]. rewrite stop_workers_queue by exact HT.
      rewrite Hq. split; [reflexivity|].
      rewrite parked_all; [lia|]. intros i w Hw. apply (Hws i w Hw).
    - intros i w Hw. split; [intros Hin; apply elem_of_nil in Hin; contradiction|].
      intros _. apply (Hws i w Hw). }
  destruct (run_workers_stopping fuel _ sched [] sys0 Hst)
    as (sys' & Hrun & (He & (q & Hq' & Hpk) & Hpc) & Hl).
  cbn [app] in Hpc.
  exists sys'. split; [exact Hrun|]. split; [exact He|]. split; [exact Hl|].
  split; [exact Hpc|]. split; [exists q; auto|].
  intros Hall.
  assert (Hex : forall i w, sys_w sys' !! i = Some w -> w_pc w = Exited).
  { intros i w Hw. apply (Hpc i w Hw). apply Hall.
    apply lookup_lt_Some in Hw. unfold sys0 in Hl. cbn [set_js sys_w] in Hl.
    lia. }
  split; [|exact Hex].
  rewrite (parked_none _ Hex) in Hpk. assert (q = 0%nat) as -> by lia.
  exact Hq'.
Qed.

Lemma stop_workers_all_exit_witness :
  0 <= js_thread_count (sys_js (system_started 3)) /\
  let sys0 :=
    set_js (system_started 3) (stop_workers (sys_js (system_started 3))) in
  forall sched, exists sys',
    run_workers 200 sched sys0 = Ok sys' /\
    js_epoch (sys_js sys') = js_epoch (sys_js (system_started 3)) /\
    length (sys_w sys') = length (sys_w (system_started 3)) /\
    (forall i w, sys_w sys' !! i = Some w ->
       (i ∈ sched -> w_pc w = Exited) /\ (i ∉ sched -> w_pc w = Parked)) /\
    (exists q : nat,
       js_iocp (sys_js sys') = replicate q KEY_STOP /\
       Z.of_nat q = parked (sys_w sys')) /\
    ((forall i : nat,
        Z.of_nat i < js_thread_count (sys_js (system_started 3)) ->
        i ∈ sched) ->
     js_iocp (sys_js sys') = [] /\
     forall i w, sys_w sys' !! i = Some w -> w_pc w = Exited).
Proof.
  split; [simpl; lia|].
  apply (stop_workers_all_exit 200 (system_started 3)).
  - apply system_started_parked. lia.
  - simpl. lia.
Defined.

(** ** The search over batches *)

Lemma safe_add_u64_small a b :
  0 <= a -> 0 <= b -> a + b < 2 ^ 64 -> safe_add_u64 a b = a + b.
Proof.
  intros Ha Hb Hs. unfold safe_add_u64. cbv zeta.
  rewrite wrap64_small by lia. destruct (Z.ltb_spec (a + b) a); lia.
Qed.

Lemma batch_span_range tile_len batch_tiles :
  1 <= tile_len < 2 ^ 64 -> 1 <= batch_span tile_len batch_tiles < 2 ^ 64.
Proof.
  intros Ht. unfold batch_span. cbv zeta.
  pose proof (wrap64_range (tile_len * batch_tiles)) as Hr.
  destruct (Z.eqb_spec (wrap64 (tile_len * batch_tiles)) 0); lia.
Qed.

Lemma epoch_ready_begin fuel k tile_len sys cur end_ :
  epoch_ready k tile_len sys ->
  1 <= k -> 1 <= tile_len -> 1 <= js_thread_count (sys_js sys) ->
  0 <= cur <= end_ ->
  end_ + tile_len * js_thread_count (sys_js sys) + k + 2 <= 2 ^ 64 ->
  tile_len + 2 * k + 8 <= 2 ^ 32 ->
  tile_len + 2 * k + 64 <= Z.of_nat fuel ->
  let sys0 := set_js sys (epoch_begin (sys_js sys) k cur end_ tile_len) in
  let e0 := sys_epoch sys0 in
  let T := js_thread_count (sys_js sys) in
  epoch_in_range e0 T fuel /\ epoch_primes_ok e0 /\ epoch_step_mod_ok e0 /\
  system_inv e0 T [] sys0 /\
  e_k e0 = k /\ e_start_m e0 = cur /\ e_end_m e0 = end_ /\
  js_thread_count (sys_js sys0) = T /\ e_step e0 = tile_len * T.
Proof.
  intros (Hparked & Hok & Hsm & Hk1 & Hstep1) Hk HL HT HA HB H32 Hfuel
    sys0 e0 T.
  unfold sys_epoch in Hok, Hsm, Hk1, Hstep1. fold T in Hstep1, HT, HB.
  assert (Hstep0 : 0 <= tile_len * js_thread_count (sys_js sys) < 2 ^ 64)
    by (fold T; nia).
  destruct (epoch_begin_tables (sys_js sys) k cur end_ tile_len Hok Hsm Hk1)
    as [Hok0 Hsm0]; [exact Hstep1|exact Hstep0|].
  assert (Hs0 : e_step e0 = tile_len * T).
  { unfold e0, sys0, sys_epoch.
    cbn [set_js sys_js epoch_begin js_epoch e_step].
    apply wrap64_small. exact Hstep0. }
  split.
  { unfold epoch_in_range. rewrite Hs0. unfold e0, sys0, sys_epoch.
    cbn [set_js sys_js epoch_begin js_epoch e_k e_tile_len e_start_m e_end_m].
    repeat split; lia. }
  split; [exact Hok0|]. split; [exact Hsm0|]. split.
  { unfold e0, sys0, sys_epoch. cbn [set_js sys_js].
    apply epoch_begin_inv; try assumption; try reflexivity; try lia.
    destruct Hparked as (Hq & _). exact Hq. }
  repeat split. exact Hs0.
Qed.

Lemma epoch_ready_after e0 T (D : list nat) k tile_len sys1 :
  system_inv e0 T D sys1 -> e_evt_done (sys_epoch sys1) = true ->
  js_thread_count (sys_js sys1) = T ->
  epoch_primes_ok e0 -> epoch_step_mod_ok e0 ->
  e_k e0 = k -> e_step e0 = tile_len * T ->
  epoch_ready k tile_len sys1.
Proof.
  intros Hinv Hdone HT Hok Hsm Hk Hstep.
  destruct (done_quiescent e0 T D sys1 Hinv Hdone) as (Hq0 & _ & _ & Hpk).
  destruct Hinv as ((Hhdr & _) & _ & _ & Hlen & _).
  destruct Hhdr as (H1 & H2 & H3 & H4 & H5 & H6 & H7 & H8).
  split; [|split; [|split; [|split]]].
  - split; [exact Hq0|]. split; [lia|exact Hpk].
  - unfold epoch_primes_ok. rewrite H6, H1, H7. exact Hok.
  - unfold epoch_step_mod_ok. rewrite H6, H8, H3. exact Hsm.
  - lia.
  - rewrite H3, HT. exact Hstep.
Qed.

(** One batch: what [epoch_wait] returns and the state it leaves. *)
Lemma batch_epoch fuel k tile_len sys cur end_ sched best sched' sys1 :
  epoch_ready k tile_len sys ->
  1 <= k -> 1 <= tile_len -> 1 <= js_thread_count (sys_js sys) ->
  0 <= cur <= end_ ->
  end_ + tile_len * js_thread_count (sys_js sys) + k + 2 <= 2 ^ 64 ->
  tile_len + 2 * k + 8 <= 2 ^ 32 ->
  tile_len + 2 * k + 64 <= Z.of_nat fuel ->
  epoch_wait fuel sched
    (set_js sys (epoch_begin (sys_js sys) k cur end_ tile_len))
    = Ok (best, sched', sys1) ->
  (best = UINT64_MAX \/ (cur <= best <= end_ /\ hit k best)) /\
  epoch_ready k tile_len sys1 /\
  js_thread_count (sys_js sys1) = js_thread_count (sys_js sys) /\
  (js_thread_count (sys_js sys) = 1 -> least_hit_in k cur end_ best).
Proof.
  intros Hready Hk HL HT HA HB H32 Hfuel Hwait.
  destruct (epoch_ready_begin fuel k tile_len sys cur end_)
    as (Hrange & Hok0 & Hsm0 & Hinv0 & Hk0 & Hs0 & He0 & HT0 & Hstep0);
    try assumption.
  set (sys0 := set_js sys (epoch_begin (sys_js sys) k cur end_ tile_len)) in *.
  set (e0 := sys_epoch sys0) in *.
  set (T := js_thread_count (sys_js sys)) in *.
  destruct (epoch_wait_run fuel sched sys0 best sched' sys1 Hwait)
    as (pre & _ & Hpre & Hdone & ->).
  destruct (run_workers_inv fuel e0 T Hrange Hok0 Hsm0 pre [] sys0 Hinv0)
    as (sys1' & Hpre' & Hinv1 & _).
  rewrite Hpre in Hpre'. injection Hpre' as <-. cbn [app] in Hinv1.
  assert (HT1 : js_thread_count (sys_js sys1) = T).
  { rewrite (run_workers_thread_count fuel pre sys0 sys1 Hpre). exact HT0. }
  split; [|split; [|split]].
  - pose proof Hinv1 as ((_ & Hbest & _) & _).
    destruct Hbest as [Hb|[Hspan Hhit]]; [left; exact Hb|right].
    rewrite Hs0, He0 in Hspan. rewrite Hk0 in Hhit. split; assumption.
  - apply (epoch_ready_after e0 T (dequeues fuel pre sys0)); assumption.
  - exact HT1.
  - intros HT1'.
    destruct (done_quiescent e0 T _ sys1 Hinv1 Hdone) as (_ & _ & HD & _).
    assert (Hnd : NoDup (dequeues fuel pre sys0)).
    { destruct (dequeues fuel pre sys0) as [|x [|y l]].
      - apply NoDup_nil_2.
      - apply NoDup_singleton.
      - cbn [length] in HD. lia. }
    pose proof (epoch_done_least fuel e0 T Hrange _ sys1 Hinv1 Hnd Hdone)
      as Hleast.
    rewrite Hk0, Hs0, He0 in Hleast. exact Hleast.
Qed.

Lemma find_m_batches_sound fuel k tile_len batch_tiles T :
  1 <= k -> 1 <= tile_len -> 1 <= T ->
  tile_len + 2 * k + 8 <= 2 ^ 32 ->
  tile_len + 2 * k + 64 <= Z.of_nat fuel ->
  forall (n : nat) sched sys cur m sched' sys',
    epoch_ready k tile_len sys -> js_thread_count (sys_js sys) = T ->
    0 <= cur ->
    cur + Z.of_nat n * batch_span tile_len batch_tiles + tile_len * T + k + 2
      <= 2 ^ 64 ->
    find_m_batches n fuel sched sys k cur tile_len batch_tiles
      = Ok (m, sched', sys') ->
    cur <= m < cur + Z.of_nat n * batch_span tile_len batch_tiles /\
    hit k m /\
    workers_parked sys' /\ js_thread_count (sys_js sys') = T /\
    e_primes (sys_epoch sys') = PrimeList_zero /\
    e_fd (sys_epoch sys') = [] /\ e_step_mod (sys_epoch sys') = [] /\
    (T = 1 -> forall m', cur <= m' < m -> ~ hit k m').
Proof.
  intros Hk HL HT H32 Hfuel.
  pose proof (batch_span_range tile_len batch_tiles ltac:(lia)) as Hspan.
  induction n as [|n IH]; intros sched sys cur m sched' sys' Hready HTs Hcur
    Hrange Hrun; [discriminate|].
  cbn [find_m_batches] in Hrun. fold (batch_span tile_len batch_tiles) in Hrun.
  set (span := batch_span tile_len batch_tiles) in *.
  assert (He : safe_add_u64 cur (wrap64 (span - 1)) = cur + span - 1).
  { rewrite (wrap64_small (span - 1)) by lia.
    rewrite safe_add_u64_small by nia. lia. }
  rewrite He in Hrun.
  assert (Hn : cur + span - 1 + 1 = cur + span) by lia.
  rewrite (safe_add_u64_small (cur + span - 1) 1) in Hrun by nia.
  rewrite Hn in Hrun.
  apply rbind_Ok in Hrun as ([[best sched1] sys1] & Hwait & Hrun).
  destruct (batch_epoch fuel k tile_len sys cur (cur + span - 1) sched best
              sched1 sys1) as (Hbest & Hready1 & HT1 & Hleast);
    try assumption; try (rewrite HTs); try nia.
  rewrite HTs in HT1, Hleast.
  destruct (Z.eqb_spec best UINT64_MAX) as [Hmax|Hfound]; cbn [negb] in Hrun.
  - destruct (IH sched1 sys1 (cur + span) m sched' sys' Hready1 HT1
                ltac:(lia) ltac:(nia) Hrun)
      as (Hm & Hhit & Hpk & HT' & Hp & Hfd & Hsm & Hmin).
    split; [nia|]. split; [exact Hhit|]. split; [exact Hpk|].
    split; [exact HT'|]. split; [exact Hp|]. split; [exact Hfd|].
    split; [exact Hsm|].
    intros HT1' m' Hm' Hh.
    destruct (Z_lt_ge_dec m' (cur + span)) as [Hlo|Hhi].
    + destruct (Hleast HT1') as [(Hb & _)|(_ & Hnone)].
      * unfold UINT64_MAX in Hmax. lia.
      * apply (Hnone m'); [lia|exact Hh].
    + apply (Hmin HT1' m'); [lia|exact Hh].
  - injection Hrun as <- <- <-.
    destruct Hbest as [Hb|[Hb Hhit]]; [contradiction|].
    destruct Hready1 as (Hpk & _).
    split; [nia|]. split; [exact Hhit|].
    split.
    { destruct Hpk as (Hq & Hlen & Hws). split; [exact Hq|]. split; assumption. }
    split; [exact HT1|]. split; [reflexivity|]. split; [reflexivity|].
    split; [reflexivity|].
    intros HT1' m' Hm' Hh.
    destruct (Hleast HT1') as [(_ & _ & Hmin)|(Hb' & _)]; [|contradiction].
    specialize (Hmin m' ltac:(lia) Hh). lia.
Qed.

Lemma find_m_setup_ready heap fuel sys k tile_len :
  workers_parked sys ->
  1 <= k -> k + 2 ^ 16 <= 2 ^ 32 ->
  0 <= tile_len * js_thread_count (sys_js sys) < 2 ^ 64 ->
  calloc_ok heap (k + 1) = true ->
  malloc_ok heap (Z.of_nat (length (primes_le k)) * 4) = true ->
  k + 3 <= Z.of_nat fuel ->
  exists js1,
    find_m_setup heap fuel (sys_js sys) k tile_len = Ok js1 /\
    epoch_ready k tile_len (set_js sys js1) /\
    js_thread_count js1 = js_thread_count (sys_js sys).
Proof.
  intros (Hq & Hlen & Hws) Hk H32 Hstep Hc Hm Hfuel.
  destruct (find_m_setup_spec heap fuel (sys_js sys) k tile_len)
    as (js1 & Hsetup & Hq1 & HT1 & Hok & Hsm & Hk1 & Hstep1); try assumption.
  exists js1. split; [exact Hsetup|]. split; [|exact HT1].
  split; [|split; [exact Hok|split; [exact Hsm|split; [exact Hk1|]]]].
  - split; [cbn; congruence|]. split; [cbn [set_js sys_js sys_w]; lia|exact Hws].
  - unfold sys_epoch. cbn [set_js sys_js]. rewrite HT1. exact Hstep1.
Qed.

(** Whatever the number of threads and the schedule, a search that
    [find_m_for_k] finishes returns an [m >= start_m] such that none of
    [m+1 .. m+k] is k-smooth, found within the batches run; it leaves the
    pool quiescent with the prime list and the per-k tables freed; and with
    a single worker thread the [m] returned is the least such
    [m >= start_m]. *)
Theorem find_m_for_k_returns_hit heap fuel sched sys k start_m tile_len
    batch_tiles m sched' sys' :
  workers_parked sys ->
  1 <= k -> 1 <= tile_len -> 1 <= js_thread_count (sys_js sys) ->
  0 <= start_m ->
  start_m + Z.of_nat fuel * batch_span tile_len batch_tiles
    + tile_len * js_thread_count (sys_js sys) + k + 2 <= 2 ^ 64 ->
  tile_len + 2 * k + 8 <= 2 ^ 32 ->
  tile_len + 2 * k + 64 <= Z.of_nat fuel ->
  calloc_ok heap (k + 1) = true ->
  malloc_ok heap (Z.of_nat (length (primes_le k)) * 4) = true ->
  find_m_for_k heap fuel sched sys k start_m tile_len batch_tiles
    = Ok (m, sched', sys') ->
  start_m <= m < start_m + Z.of_nat fuel * batch_span tile_len batch_tiles /\
  hit k m /\
  workers_parked sys' /\
  js_thread_count (sys_js sys') = js_thread_count (sys_js sys) /\
  e_primes (sys_epoch sys') = PrimeList_zero /\
  e_fd (sys_epoch sys') = [] /\ e_step_mod (sys_epoch sys') = [] /\
  (js_thread_count (sys_js sys) = 1 -> least_hit_from k start_m m).
Proof.
  intros Hparked Hk HL HT Hs Hrange H32 Hfuel Hc Hm Hrun.
  pose proof (batch_span_range tile_len batch_tiles ltac:(lia)) as Hspan.
  unfold find_m_for_k in Hrun.
  destruct (find_m_setup_ready heap fuel sys k tile_len)
    as (js1 & Hsetup & Hready & HT1); try assumption; try nia.
  rewrite Hsetup in Hrun. cbn [rbind] in Hrun.
  destruct (find_m_batches_sound fuel k tile_len batch_tiles
              (js_thread_count (sys_js sys)) Hk HL HT H32 Hfuel fuel sched
              (set_js sys js1) start_m m sched' sys' Hready HT1 Hs Hrange Hrun)
    as (Hm' & Hhit & Hpk & HT' & Hp & Hfd & Hsm & Hmin).
  repeat (split; [assumption|]).
  intros HT1'. split; [lia|]. split; [exact Hhit|]. apply Hmin. exact HT1'.
Qed.

Lemma find_m_for_k_returns_hit_witness :
  exists m sched' sys',
    find_m_for_k heap_ok 200 sched_two
      (system_started 2) 2 0 2 1 = Ok (m, sched', sys') /\
    0 <= m < 0 + Z.of_nat 200 * batch_span 2 1 /\
    hit 2 m /\
    workers_parked sys' /\
    js_thread_count (sys_js sys') = js_thread_count (sys_js (system_started 2)) /\
    e_primes (sys_epoch sys') = PrimeList_zero /\
    e_fd (sys_epoch sys') = [] /\ e_step_mod (sys_epoch sys') = [] /\
    (js_thread_count (sys_js (system_started 2)) = 1 -> least_hit_from 2 0 m).
Proof.
  eexists _, _, _. split; [vm_compute; reflexivity|].
  eapply (find_m_for_k_returns_hit heap_ok 200 sched_two (system_started 2)
           2 0 2 1).
  - apply system_started_parked. lia.
  - lia.
  - lia.
  - simpl. lia.
  - lia.
  - vm_compute. discriminate.
  - lia.
  - lia.
  - reflexivity.
  - reflexivity.
  - vm_compute. reflexivity.
Defined.

(** ** A single worker: the search terminates *)










(** ** The loop of [main] *)

Lemma smooth_mono k n : smooth k n -> smooth (k + 1) n.
Proof.
  intros [Hn Hs]. split; [exact Hn|]. intros p Hp Hd.
  specialize (Hs p Hp Hd). lia.
Qed.

(** A window that has no (k+1)-smooth member among [m+1 .. m+k+1] has no
    k-smooth member among [m+1 .. m+k]: the least hit can only grow with
    [k], which is why [main] may start each search at the previous [m]. *)
Lemma hit_mono k m : hit (k + 1) m -> hit k m.
Proof.
  intros Hh j Hj Hs. apply (Hh j); [lia|]. apply smooth_mono. exact Hs.
Qed.

Lemma plateau_snoc rows k m k' :
  plateau (rows ++ [(k, m)]) k' = if k <=? k' then m else plateau rows k'.
Proof. unfold plateau. rewrite foldl_snoc. reflexivity. Qed.

Lemma plateau_ext rows k1 k2 :
  Forall (fun r => (fst r <=? k1) = (fst r <=? k2)) rows ->
  plateau rows k1 = plateau rows k2.
Proof.
  unfold plateau. generalize 0 as acc.
  induction rows as [|r rows IH]; intros acc H; [reflexivity|].
  apply Forall_cons in H as [Hr H]. cbn [foldl]. rewrite Hr. apply IH. exact H.
Qed.

(** The bookkeeping of one turn of the loop of [main], once the search has
    returned. *)
Lemma table_step K T st m sched sys :
  K < 2 ^ 32 - 1 ->
  table_inv K T st -> ms_k st <= K ->
  ms_last_m st <= m < UINT64_MAX -> hit (ms_k st) m ->
  workers_parked sys -> js_thread_count (sys_js sys) = T ->
  (T = 1 -> forall m', ms_last_m st <= m' < m -> ~ hit (ms_k st) m') ->
  table_inv K T (main_next st m sched sys).
Proof.
  intros HK
    (Hk & Hpk & HTs & Hlast & Hsorted & Hrows & Hfirst & Hlater & Hleast)
    Hcond Hm Hhit Hpk' HT' Hmin.
  set (k := ms_k st) in *. set (last_m := ms_last_m st) in *.
  assert (Hglobal : T = 1 -> least_hit_from k 0 m).
  { intros HT1'. split; [lia|]. split; [exact Hhit|].
    intros m' Hm' Hh.
    destruct (Z_lt_ge_dec m' last_m) as [Hlo|Hhi];
      [|apply (Hmin HT1' m'); [lia|exact Hh]].
    destruct (Z.eq_dec k 1) as [Hk1|Hk1].
    - destruct (Hfirst Hk1) as (_ & _ & H0). fold last_m in H0. lia.
    - destruct (Hlater ltac:(lia)) as (_ & Hpl & _). fold last_m in Hpl.
      destruct (Hleast HT1' (k - 1) ltac:(lia)) as (_ & _ & Hmin').
      rewrite Hpl in Hmin'. apply (Hmin' m'); [lia|].
      apply hit_mono. replace (k - 1 + 1) with k by lia. exact Hh. }
  assert (Hrows_old : Forall (fun r => fst r < k /\ snd r <= last_m) (ms_out st)).
  { eapply Forall_impl; [exact Hrows|]. intros r (H1 & _ & H3). lia. }
  assert (Hext : plateau (ms_out st) k = plateau (ms_out st) (k - 1)).
  { apply plateau_ext. eapply Forall_impl; [exact Hrows_old|].
    intros r [Hr _]. cbv beta.
    destruct (Z.leb_spec (fst r) k); destruct (Z.leb_spec (fst r) (k - 1)); lia. }
  unfold table_inv, main_next.
  cbn [ms_k ms_last_m ms_last_print ms_out ms_sched ms_sys].
  fold k. rewrite wrap32_small by lia.
  replace (k + 1 - 1) with k by lia.
  destruct (Z.eqb_spec m (ms_last_print st)) as [Hsame|Hnew]; cbn [negb].
  - (* the row is suppressed *)
    assert (Hk1 : 1 < k).
    { destruct (Z.eq_dec k 1) as [Hk1|]; [|lia].
      destruct (Hfirst Hk1) as (_ & Hp & _). lia. }
    destruct (Hlater Hk1) as (Hp & Hpl & Hhead). fold last_m in Hp, Hpl.
    assert (Hml : m = last_m) by congruence.
    split; [lia|]. split; [exact Hpk'|]. split; [exact HT'|].
    split; [lia|]. split; [exact Hsorted|]. split.
    { eapply Forall_impl; [exact Hrows|]. intros r (H1 & H2 & H3).
      fold k last_m in H1, H3. split; [lia|]. split; [exact H2|lia]. }
    split; [lia|]. split.
    { intros _. split; [congruence|]. split; [|exact Hhead].
      rewrite Hext, Hpl. congruence. }
    intros HT1' k' Hk'. destruct (Z.eq_dec k' k) as [->|Hne].
    + rewrite Hext, Hpl, <- Hml. apply Hglobal. exact HT1'.
    + apply Hleast; [exact HT1'|lia].
  - (* the row is printed *)
    assert (Hgt : forall r, r ∈ ms_out st -> rows_lt r (k, m)).
    { intros r Hr. rewrite Forall_forall in Hrows.
      destruct (Hrows r Hr) as (H1 & _ & H3). fold k last_m in H1, H3.
      split; cbn [fst snd]; [lia|].
      destruct (Hlater ltac:(lia)) as (Hp & _). fold last_m in Hp. lia. }
    split; [lia|]. split; [exact Hpk'|]. split; [exact HT'|].
    split; [lia|]. split.
    { apply StronglySorted_app. split; [|split].
      - intros x y Hx Hy. apply list_elem_of_singleton in Hy as ->.
        apply Hgt. exact Hx.
      - exact Hsorted.
      - repeat constructor. }
    split.
    { apply Forall_app. split.
      - eapply Forall_impl; [exact Hrows|]. intros r (H1 & H2 & H3).
        fold k last_m in H1, H3. split; [lia|]. split; [exact H2|lia].
      - apply Forall_singleton. cbn [fst snd]. split; [lia|].
        split; [exact Hhit|lia]. }
    split; [lia|]. split.
    { intros _. split; [reflexivity|]. split.
      - rewrite plateau_snoc. destruct (Z.leb_spec k k); [reflexivity|lia].
      - destruct (Z.eq_dec k 1) as [Hk1|Hk1].
        + destruct (Hfirst Hk1) as (Hnil & _). rewrite Hnil, Hk1.
          exists m. reflexivity.
        + destruct (Hlater ltac:(lia)) as (_ & _ & m1 & Hhead).
          exists m1. destruct (ms_out st); [discriminate|exact Hhead]. }
    intros HT1' k' Hk'. rewrite plateau_snoc.
    destruct (Z.leb_spec k k') as [Hle|Hlt].
    + assert (k' = k) as -> by lia. apply Hglobal. exact HT1'.
    + apply Hleast; [exact HT1'|lia].
Qed.

Lemma main_step heap fuel K T tile_len batch_tiles st st' :
  1 <= T -> 1 <= tile_len -> K < 2 ^ 32 - 1 ->
  K * (Z.of_nat fuel * batch_span tile_len batch_tiles)
    + tile_len * T + K + 2 <= 2 ^ 64 ->
  tile_len + 2 * K + 8 <= 2 ^ 32 ->
  tile_len + 2 * K + 64 <= Z.of_nat fuel ->
  (forall n, calloc_ok heap n = true) -> (forall n, malloc_ok heap n = true) ->
  main_inv fuel K T tile_len batch_tiles st ->
  (ms_k st <=? K) = true ->
  (let* (m, sched, sys) :=
     find_m_for_k heap fuel (ms_sched st) (ms_sys st) (ms_k st)
       (ms_last_m st) tile_len batch_tiles in
   Ok {| ms_k := wrap32 (ms_k st + 1);
         ms_last_m := m;
         ms_last_print :=
           if negb (m =? ms_last_print st) then m else ms_last_print st;
         ms_out :=
           if negb (m =? ms_last_print st) then ms_out st ++ [(ms_k st, m)]
           else ms_out st;
         ms_sched := sched;
         ms_sys := sys |}) = Ok st' ->
  main_inv fuel K T tile_len batch_tiles st'.
Proof.
  intros HT HL HK Hrange H32 Hfuel Hcalloc Hmalloc [Htab Hlast] Hcond Hbody.
  pose proof Htab as (Hk & Hpk & HTs & Hlast0 & _).
  apply Z.leb_le in Hcond.
  pose proof (batch_span_range tile_len batch_tiles ltac:(lia)) as Hspan.
  set (F := Z.of_nat fuel * batch_span tile_len batch_tiles) in *.
  assert (HF : 0 <= F) by (unfold F; nia).
  set (k := ms_k st) in *. set (last_m := ms_last_m st) in *.
  assert (HlastF : last_m + F <= K * F) by nia.
  apply rbind_Ok in Hbody as ([[m sched] sys] & Hfind & Hbody).
  injection Hbody as <-.
  unfold find_m_for_k in Hfind.
  destruct (find_m_setup_ready heap fuel (ms_sys st) k tile_len)
    as (js1 & Hsetup & Hready & HT1); try assumption; try lia; try apply Hcalloc;
    try apply Hmalloc; try (rewrite HTs; nia).
  rewrite Hsetup in Hfind. cbn [rbind] in Hfind. rewrite HTs in HT1.
  destruct (find_m_batches_sound fuel k tile_len batch_tiles T
              ltac:(lia) HL HT ltac:(lia) ltac:(lia) fuel (ms_sched st)
              (set_js (ms_sys st) js1) last_m m sched sys Hready HT1
              ltac:(lia) ltac:(fold F; nia) Hfind)
    as (Hm & Hhit & Hpk' & HT' & _ & _ & _ & Hmin).
  fold F in Hm. split.
  - apply (table_step K T st m sched sys); try assumption; try lia.
    fold last_m. unfold UINT64_MAX. nia.
  - cbn [ms_k ms_last_m]. fold k. rewrite wrap32_small by lia. nia.
Qed.

Lemma main_loop_inv heap fuel sched K T tile_len batch_tiles rows :
  1 <= T -> 1 <= tile_len -> 0 <= K < 2 ^ 32 - 1 ->
  K * (Z.of_nat fuel * batch_span tile_len batch_tiles)
    + tile_len * T + K + 2 <= 2 ^ 64 ->
  tile_len + 2 * K + 8 <= 2 ^ 32 ->
  tile_len + 2 * K + 64 <= Z.of_nat fuel ->
  (forall n, calloc_ok heap n = true) -> (forall n, malloc_ok heap n = true) ->
  main_loop heap fuel sched K T tile_len batch_tiles = Ok rows ->
  exists st,
    table_inv K T st /\ ms_k st = K + 1 /\ ms_out st = rows.
Proof.
  intros HT HL HK Hrange H32 Hfuel Hcalloc Hmalloc Hrun.
  unfold main_loop in Hrun.
  apply rbind_Ok in Hrun as (st & Hloop & Hout). injection Hout as <-.
  apply (while_loop_partial (main_inv fuel K T tile_len batch_tiles))
    in Hloop as [Hinv Hcond].
  - exists st. destruct Hinv as [Htab _]. split; [exact Htab|].
    split; [|reflexivity].
    destruct Htab as (Hk & _). apply Z.leb_gt in Hcond. lia.
  - intros s s' Hinv Hc Hbody.
    apply (main_step heap fuel K T tile_len batch_tiles s s'); try assumption.
    lia.
  - split; [|cbn [ms_k ms_last_m]; lia].
    unfold table_inv. cbn [ms_k ms_last_m ms_last_print ms_out ms_sys].
    split; [lia|]. split; [apply system_started_parked; lia|].
    split; [reflexivity|]. split; [lia|]. split; [constructor|].
    split; [constructor|]. split; [auto|]. split; [lia|].
    intros _ k Hk. lia.
Qed.

(** Whatever the number of threads and the schedule, when the loop of
    [main] finishes (with memory for the prime lists and every search
    staying below [2^64]), the rows printed come with strictly increasing
    [k] and strictly increasing [m], start with a row for [k = 1], and each
    row [(k, m)] has [1 <= k <= K] and none of [m+1 .. m+k] k-smooth. *)
Theorem main_rows_are_hits heap fuel sched K T tile_len batch_tiles rows :
  1 <= T -> 1 <= tile_len -> 1 <= K < 2 ^ 32 - 1 ->
  K * (Z.of_nat fuel * batch_span tile_len batch_tiles)
    + tile_len * T + K + 2 <= 2 ^ 64 ->
  tile_len + 2 * K + 8 <= 2 ^ 32 ->
  tile_len + 2 * K + 64 <= Z.of_nat fuel ->
  (forall n, calloc_ok heap n = true) -> (forall n, malloc_ok heap n = true) ->
  main_loop heap fuel sched K T tile_len batch_tiles = Ok rows ->
  StronglySorted rows_lt rows /\
  Forall (fun r => 1 <= fst r <= K /\ hit (fst r) (snd r)) rows /\
  exists m, head rows = Some (1, m).
Proof.
  intros HT HL HK Hrange H32 Hfuel Hcalloc Hmalloc Hrun.
  destruct (main_loop_inv heap fuel sched K T tile_len batch_tiles rows)
    as (st & (_ & _ & _ & _ & Hsorted & Hrows & _ & Hlater & _) & Hk & <-);
    try assumption; try lia.
  split; [exact Hsorted|]. split.
  - eapply Forall_impl; [exact Hrows|]. intros r (H1 & H2 & _).
    split; [lia|exact H2].
  - destruct (Hlater ltac:(lia)) as (_ & _ & Hhead). exact Hhead.
Qed.

Lemma main_rows_are_hits_witness :
  exists rows,
    main_loop heap_ok 200 sched_two 3 2 2 1 = Ok rows /\
    StronglySorted rows_lt rows /\
    Forall (fun r => 1 <= fst r <= 3 /\ hit (fst r) (snd r)) rows /\
    exists m, head rows = Some (1, m).
Proof.
  eexists. split; [vm_compute; reflexivity|].
  apply (main_rows_are_hits heap_ok 200 sched_two 3 2 2 1).
  - lia.
  - lia.
  - lia.
  - vm_compute. discriminate.
  - lia.
  - lia.
  - reflexivity.
  - reflexivity.
  - vm_compute. reflexivity.
Defined.






(** The table for [K = 10] with tiles of 4 starts and batches of 2 tiles,
    one worker. *)
Example main_table_K10 :
  main_loop heap_ok 200 sched_one 10 1 4 2
    = Ok [(1, 1); (2, 4); (3, 12); (4, 18); (5, 54); (6, 64); (7, 112);
          (8, 150); (10, 225)].
Proof. vm_compute. reflexivity. Qed.

(** ** Waiting for the threads *)

(** [wait_all_threads] returns after [ceil(count / 64)] calls of
    [WaitForMultipleObjects]; each call waits on between 1 and 64 handles
    (the limit [MAXIMUM_WAIT_OBJECTS]), and the calls taken in order cover
    the handles [0 .. count-1] exactly once each. *)
Theorem wait_all_threads_covers fuel count :
  0 <= count < 2 ^ 32 -> (count + 63) / 64 < Z.of_nat fuel ->
  exists calls,
    wait_all_threads fuel count = Ok calls /\
    concat (map waited calls) = seqZ 0 count /\
    Forall (fun call => 1 <= snd call <= MAXIMUM_WAIT_OBJECTS) calls /\
    Z.of_nat (length calls) = (count + 63) / 64.
Proof.
  intros Hc Hfuel. unfold wait_all_threads. cbv zeta.
  set (I := fun s : Z * list (Z * Z) =>
    let '(i, calls) := s in
    0 <= i <= count /\ (i mod 64 = 0 \/ i = count) /\
    concat (map waited calls) = seqZ 0 i /\
    Forall (fun call => 1 <= snd call <= MAXIMUM_WAIT_OBJECTS) calls /\
    Z.of_nat (length calls) = (i + 63) / 64).
  set (V := fun s : Z * list (Z * Z) => (count - fst s + 63) / 64).
  destruct (while_loop_total I V
              (fun '(i, _) => i <? count)
              (fun '(i, calls) =>
                 let n := if wrap32 (count - i) >? MAXIMUM_WAIT_OBJECTS
                          then MAXIMUM_WAIT_OBJECTS
                          else wrap32 (count - i) in
                 Ok (wrap32 (i + n), calls ++ [(i, n)])))
    with (fuel := fuel) (s := (0, @nil (Z * Z)))
    as ([i calls] & Hrun & HI & Hcond).
  - intros [i calls] (Hi & _). unfold V. cbn [fst].
    apply Z.div_pos; lia.
  - intros [i calls] (Hi & Hal & Hcat & Hall & Hlen) Hlt.
    apply Z.ltb_lt in Hlt. cbv zeta. unfold MAXIMUM_WAIT_OBJECTS in *.
    assert (Hmod : i mod 64 = 0) by (destruct Hal; lia).
    pose proof (Z.div_mod i 64 ltac:(lia)) as Ei. rewrite Hmod in Ei.
    rewrite (wrap32_small (count - i)) by lia.
    eexists. split; [reflexivity|].
    destruct (Z.gtb_spec (count - i) 64) as [Hbig|Hsmall].
    + rewrite (wrap32_small (i + 64)) by lia. split; [|unfold V; cbn [fst]].
      * split; [lia|]. split.
        { left. replace (i + 64) with (i + 1 * 64) by lia.
          rewrite Z.mod_add by lia. exact Hmod. }
        split.
        { rewrite map_app, concat_app, Hcat. cbn [map concat waited fst snd].
          rewrite app_nil_r, (seqZ_app 0 i 64) by lia. reflexivity. }
        split.
        { apply Forall_app. split; [exact Hall|].
          apply Forall_singleton. cbn [snd]. lia. }
        rewrite length_app. cbn [length].
        replace (i + 64 + 63) with (i + 63 + 1 * 64) by lia.
        rewrite Z.div_add by lia. lia.
      * replace (count - i + 63) with (count - (i + 64) + 63 + 1 * 64) by lia.
        rewrite Z.div_add by lia. lia.
    + rewrite (wrap32_small (i + (count - i))) by lia.
      replace (i + (count - i)) with count by lia.
      split; [|unfold V; cbn [fst]].
      * split; [lia|]. split; [right; reflexivity|]. split.
        { rewrite map_app, concat_app, Hcat. cbn [map concat waited fst snd].
          rewrite app_nil_r.
          transitivity (seqZ 0 (i + (count - i)));
            [rewrite seqZ_app by lia; reflexivity|f_equal; lia]. }
        split.
        { apply Forall_app. split; [exact Hall|].
          apply Forall_singleton. cbn [snd]. lia. }
        rewrite length_app. cbn [length].
        assert (E1 : (i + 63) / 64 = i / 64).
        { symmetry. apply (Z.div_unique (i + 63) 64 (i / 64) 63); lia. }
        assert (E2 : (count + 63) / 64 = i / 64 + 1).
        { symmetry.
          apply (Z.div_unique (count + 63) 64 (i / 64 + 1) (count - i - 1));
            lia. }
        lia.
      * replace (count - count + 63) with 63 by lia.
        assert ((count - i + 63) / 64 = 1).
        { symmetry.
          apply (Z.div_unique (count - i + 63) 64 1 (count - i - 1)); lia. }
        change (63 / 64) with 0. lia.
  - unfold I. split; [lia|]. split; [left; reflexivity|].
    split; [reflexivity|]. split; [constructor|]. reflexivity.
  - unfold V. cbn [fst]. rewrite Z.sub_0_r. exact Hfuel.
  - cbv zeta in Hrun. rewrite Hrun. cbn [rbind].
    exists calls. split; [reflexivity|].
    destruct HI as (Hi & _ & Hcat & Hall & Hlen).
    apply Z.ltb_ge in Hcond. assert (i = count) as -> by lia.
    auto.
Qed.

Lemma wait_all_threads_covers_witness :
  exists calls,
    wait_all_threads 10 130 = Ok calls /\
    concat (map waited calls) = seqZ 0 130 /\
    Forall (fun call => 1 <= snd call <= MAXIMUM_WAIT_OBJECTS) calls /\
    Z.of_nat (length calls) = (130 + 63) / 64.
Proof.
  apply (wait_all_threads_covers 10 130); [lia|vm_compute; reflexivity].
Defined.

(** ** The prime sieve at the top of the 32-bit range *)

Lemma while_loop_diverges {S : Type} (I : S -> Prop) (cond : S -> bool)
    (body : S -> result S) :
  (forall s, I s -> cond s = true /\ exists s', body s = Ok s' /\ I s') ->
  forall fuel s, I s -> while_loop fuel cond body s = OutOfFuel.
Proof.
  intros Hstep fuel. induction fuel as [|fuel IH]; intros s HI; [reflexivity|].
  cbn [while_loop]. destruct (Hstep s HI) as (-> & s' & -> & HI').
  cbn [rbind]. apply IH. exact HI'.
Qed.

(** For [n >= 2^32 - 2] the loop that marks the multiples of 2 in
    [primes_upto(n)] never ends: its [uint32_t] counter [j] wraps around
    before it can exceed [n], so the function does not return, whatever the
    number of steps it is given. *)
Theorem primes_upto_hangs_near_uint32_max heap fuel n :
  2 ^ 32 - 2 <= n < 2 ^ 32 -> calloc_ok heap (n + 1) = true ->
  primes_upto heap fuel n = OutOfFuel.
Proof.
  intros Hn Hc. unfold primes_upto. cbv zeta.
  destruct (Z.ltb_spec n 2) as [|_]; [lia|]. rewrite Hc. cbn [negb].
  destruct fuel as [|fuel]; [reflexivity|].
  cbn [while_loop]. destruct (Z.leb_spec (2 * 2) n) as [_|]; [|lia].
  rewrite aget_replicate by lia. cbn [Z.eqb negb].
  assert (Hdiv : forall mark, primes_mark_multiples (Datatypes.S fuel) n 2 mark
                              = OutOfFuel).
  { intros mark. unfold primes_mark_multiples.
    rewrite (while_loop_diverges
               (fun s : Z * list Z => 0 <= fst s < 2 ^ 32 /\ fst s mod 2 = 0));
      [reflexivity| |].
    - intros [j mk] [Hj Hev]. cbn [fst] in *. split.
      + apply Z.leb_le.
        pose proof (Z.div_mod j 2 ltac:(lia)). lia.
      + eexists. split; [reflexivity|]. cbn [fst]. split.
        * apply wrap32_range.
        * unfold wrap32. change (2 ^ 32) with (2 * 2 ^ 31).
          rewrite Z.rem_mul_r by lia.
          rewrite Z.mul_comm, Z.mod_add by lia.
          replace (j + 2) with (j + 1 * 2) by lia.
          rewrite Z.mod_add by lia. rewrite Z.mod_mod by lia. exact Hev.
    - cbn [fst]. rewrite wrap32_small by lia. split; [lia|reflexivity]. }
  rewrite Hdiv. reflexivity.
Qed.

Lemma primes_upto_hangs_near_uint32_max_witness :
  primes_upto heap_ok 1000 (2 ^ 32 - 1) = OutOfFuel.
Proof.
  apply (primes_upto_hangs_near_uint32_max heap_ok 1000 (2 ^ 32 - 1));
    [lia|reflexivity].
Defined.

(** ** Starting the pool *)

Lemma seqZ_snoc m c : 0 <= c -> seqZ m (c + 1) = seqZ m c ++ [m + c].
Proof.
  intros Hc. rewrite seqZ_app by lia.
  rewrite (seqZ_cons (m + c) 1) by lia.
  rewrite (seqZ_nil _ (Z.pred 1)) by lia. reflexivity.
Qed.

Lemma aget_Forall (P : Z -> Prop) (os : list Z) g :
  Forall P os -> 0 <= g < Z.of_nat (length os) -> P (aget os g).
Proof.
  intros H Hg. unfold aget. apply Forall_lookup_total_1; [exact H|lia].
Qed.

Lemma cores_before_succ os g :
  0 <= g -> cores_before os (g + 1) = cores_before os g + aget os g.
Proof. intros Hg. unfold cores_before. rewrite for_range_snoc by lia. reflexivity. Qed.

Lemma cores_before_bound os g :
  Forall (fun c => 0 <= c <= 64) os -> 0 <= g <= Z.of_nat (length os) ->
  0 <= cores_before os g <= 64 * g.
Proof.
  intros Hos Hg. unfold cores_before.
  apply (for_range_inv (fun g t => 0 <= t <= 64 * g)); [lia|lia|].
  intros i t Hi Ht. pose proof (aget_Forall _ os i Hos ltac:(lia)). cbv beta in *.
  lia.
Qed.

Lemma count_total_logical_sum os :
  Forall (fun c => 0 <= c <= 64) os -> Z.of_nat (length os) < 2 ^ 16 ->
  count_total_logical os = cores_before os (Z.of_nat (length os)).
Proof.
  intros Hos Hlen. unfold count_total_logical.
  apply (for_range_inv (fun g t => t = cores_before os g)); [lia|reflexivity|].
  intros i t Hi ->. rewrite cores_before_succ by lia.
  pose proof (aget_Forall _ os i Hos ltac:(lia)) as Ha. cbv beta in Ha.
  pose proof (cores_before_bound os i Hos ltac:(lia)).
  rewrite (wrap32_small (aget os i)) by lia. apply wrap32_small. lia.
Qed.

Lemma start_workers_group_spec fuel thread_ok cap tc g cores p :
  (forall i, thread_ok i = true) -> 0 <= cores <= 64 ->
  tc <= cap -> tc < 2 ^ 32 -> 0 <= p_i p < tc -> p_ret p = None ->
  65 <= Z.of_nat fuel ->
  exists p',
    start_workers_group fuel thread_ok cap tc g cores p = Ok p' /\
    p_ret p' = None /\ p_i p' = Z.min tc (p_i p + cores) /\
    p_w p' = p_w p ++ map new_worker (seqZ (p_i p) (p_i p' - p_i p)) /\
    p_aff p' = p_aff p ++ (pair g <$> seqZ 0 (p_i p' - p_i p)).
Proof.
  intros Hok Hcores Hcap H32 Hi Hret Hfuel. unfold start_workers_group.
  set (I := fun s : Z * Pool =>
    let '(c, q) := s in
    0 <= c <= cores /\ p_ret q = None /\ p_i q = p_i p + c /\ p_i q <= tc /\
    p_w q = p_w p ++ map new_worker (seqZ (p_i p) c) /\
    p_aff q = p_aff p ++ (pair g <$> seqZ 0 c)).
  match goal with
  | |- context [while_loop fuel ?cond ?body ?s0] =>
      destruct (while_loop_total I (fun s => cores - fst s) cond body)
        with (fuel := fuel) (s := s0) as ([c q] & Hrun & HI & Hcond)
  end.
  - intros [c q] (Hc & _). cbn [fst]. lia.
  - intros [c q] (Hc & Hr & Hiq & Hle & Hw & Ha) Hcond.
    rewrite Hr in Hcond. apply andb_true_iff in Hcond as [Hc1 Hc2].
    apply Z.ltb_lt in Hc1, Hc2. cbv zeta.
    destruct (Z.leb_spec cap (p_i q)) as [|_]; [lia|].
    rewrite Hok. cbn [negb].
    eexists. split; [reflexivity|]. cbn [fst].
    rewrite (wrap32_small (c + 1)), (wrap32_small (p_i q + 1)) by lia.
    split; [|lia]. unfold I. cbn [p_i p_w p_aff p_ret].
    split; [lia|]. split; [reflexivity|]. split; [lia|]. split; [lia|]. split.
    + rewrite Hw, seqZ_snoc, map_app, <- app_assoc by lia.
      rewrite Hiq. reflexivity.
    + rewrite Ha, seqZ_snoc, fmap_app, <- app_assoc by lia. reflexivity.
  - unfold I. split; [lia|]. split; [exact Hret|]. split; [lia|].
    split; [lia|]. rewrite seqZ_nil by lia. cbn. rewrite !app_nil_r. auto.
  - cbn [fst]. lia.
  - rewrite Hrun. cbn [rbind]. exists q. split; [reflexivity|].
    destruct HI as (Hc & Hr & Hiq & Hle & Hw & Ha).
    rewrite Hr in Hcond. apply andb_false_iff in Hcond.
    assert (Hmin : p_i q = Z.min tc (p_i p + cores)).
    { destruct Hcond as [Hc'|Hc']; apply Z.ltb_ge in Hc'; lia. }
    split; [exact Hr|]. split; [exact Hmin|].
    replace (p_i q - p_i p) with c by lia. split; assumption.
Qed.

(** Called as [main] calls it, on arrays [w] and [threads] of
    [thread_count] entries with [1 <= thread_count], on a machine whose
    groups have at most 64 processors and where thread creation succeeds,
    [start_workers] clamps [thread_count] to the number of logical
    processors, never writes past the arrays, returns 1, and leaves exactly
    [thread_count] workers: worker [i] has [tid = i] and is blocked on the
    port (the state [system_started] describes), and no two workers are
    pinned to the same processor of the same group. *)
Theorem start_workers_pool os thread_ok fuel js :
  1 <= js_thread_count js < 2 ^ 32 ->
  Z.of_nat (length os) < 2 ^ 16 -> Forall (fun c => 0 <= c <= 64) os ->
  (forall i, thread_ok i = true) ->
  Z.of_nat (length os) + 66 <= Z.of_nat fuel ->
  let T := Z.min (js_thread_count js) (count_total_logical os) in
  exists aff,
    start_workers os thread_ok fuel (js_thread_count js) js
      = Ok (true,
            {| js_iocp := js_iocp js; js_thread_count := T;
               js_epoch := js_epoch js |},
            sys_w (system_started T), aff) /\
    Z.of_nat (length aff) = T /\ NoDup aff /\
    Forall (fun a => 0 <= fst a < Z.of_nat (length os) /\
                     0 <= snd a < aget os (fst a)) aff.
Proof.
  intros Hth Hlen Hos Hok Hfuel T.
  pose proof (count_total_logical_sum os Hos Hlen) as Htotal.
  pose proof (cores_before_bound os (Z.of_nat (length os)) Hos ltac:(lia))
    as Htb.
  rewrite <- Htotal in Htb.
  unfold start_workers. cbv zeta.
  destruct (Z.eqb_spec (js_thread_count js) 0) as [|_]; [lia|].
  assert (Htc : (if js_thread_count js >? count_total_logical os
                 then count_total_logical os else js_thread_count js) = T).
  { unfold T. destruct (Z.gtb_spec (js_thread_count js)
                          (count_total_logical os)); lia. }
  rewrite Htc.
  assert (HT : 0 <= T <= js_thread_count js /\ T <= count_total_logical os)
    by (unfold T; lia).
  set (groups := Z.of_nat (length os)) in *.
  set (J := fun s : Z * Pool =>
    let '(g, q) := s in
    0 <= g <= groups /\ p_ret q = None /\
    p_i q = Z.min T (cores_before os g) /\
    p_w q = map new_worker (seqZ 0 (p_i q)) /\
    Z.of_nat (length (p_aff q)) = p_i q /\ NoDup (p_aff q) /\
    Forall (fun a => 0 <= fst a < g /\ 0 <= snd a < aget os (fst a))
      (p_aff q)).
  match goal with
  | |- context [while_loop fuel ?cond ?body ?s0] =>
      destruct (while_loop_total J (fun s => groups - fst s) cond body)
        with (fuel := fuel) (s := s0) as ([g q] & Hrun & HJ & Hcond)
  end.
  - intros [g q] (Hg & _). cbn [fst]. lia.
  - intros [g q] (Hg & Hr & Hiq & Hw & Hal & Hnd & Haff) Hcond.
    rewrite Hr in Hcond. apply andb_true_iff in Hcond as [Hc1 Hc2].
    apply Z.ltb_lt in Hc1, Hc2. cbv zeta.
    pose proof (aget_Forall _ os g Hos ltac:(lia)) as Hcg. cbv beta in Hcg.
    pose proof (cores_before_bound os g Hos ltac:(lia)) as Hcb.
    destruct (Z.gtb_spec (aget os g) 64) as [|_]; [lia|].
    destruct (start_workers_group_spec fuel thread_ok (js_thread_count js) T g
                (aget os g) q Hok Hcg ltac:(lia) ltac:(lia) ltac:(lia) Hr
                ltac:(lia))
      as (q' & Hgrp & Hr' & Hi' & Hw' & Ha').
    rewrite Hgrp. cbn [rbind]. eexists. split; [reflexivity|]. cbn [fst].
    unfold wrap16. rewrite Z.mod_small by lia. split; [|lia].
    unfold J. split; [lia|]. split; [exact Hr'|].
    assert (Hge : p_i q <= p_i q') by lia.
    split; [rewrite cores_before_succ by lia; lia|]. split.
    { rewrite Hw', Hw, <- map_app. f_equal.
      transitivity (seqZ 0 (p_i q + (p_i q' - p_i q)));
        [rewrite seqZ_app by lia; reflexivity|f_equal; lia]. }
    split.
    { rewrite Ha', length_app, length_fmap, length_seqZ. lia. }
    split.
    { rewrite Ha'. apply NoDup_app. split; [exact Hnd|]. split.
      - intros a Ha Hin. apply list_elem_of_fmap in Hin as (c & -> & _).
        rewrite Forall_forall in Haff. specialize (Haff _ Ha). cbn [fst] in Haff.
        lia.
      - apply NoDup_fmap_2; [|apply NoDup_seqZ].
        intros x y E. injection E as ->. reflexivity. }
    rewrite Ha'. apply Forall_app. split.
    + eapply Forall_impl; [exact Haff|]. intros a [H1 H2]. split; [lia|exact H2].
    + apply Forall_fmap. apply Forall_forall. intros c Hc.
      apply elem_of_seqZ in Hc. cbn [fst snd compose]. lia.
  - unfold J. cbn [p_i p_w p_aff p_ret]. split; [lia|]. split; [reflexivity|].
    split; [unfold cores_before; rewrite for_range_empty by lia; lia|].
    split; [reflexivity|]. split; [reflexivity|]. split; [constructor|].
    constructor.
  - cbn [fst]. lia.
  - rewrite Hrun. cbn [rbind].
    destruct HJ as (Hg & Hr & Hiq & Hw & Hal & Hnd & Haff).
    rewrite Hr in Hcond. apply andb_false_iff in Hcond.
    assert (HiT : p_i q = T).
    { destruct Hcond as [Hc'|Hc']; apply Z.ltb_ge in Hc'; [|lia].
      assert (g = groups) as -> by lia. lia. }
    exists (p_aff q). rewrite Hr, HiT, Z.eqb_refl, Hw, HiT.
    split; [reflexivity|]. split; [lia|]. split; [exact Hnd|].
    eapply Forall_impl; [exact Haff|]. intros a [H1 H2]. split; [lia|exact H2].
Qed.

Lemma start_workers_pool_witness :
  let js := sys_js (system_started 3) in
  let T := Z.min (js_thread_count js) (count_total_logical [2; 4]) in
  exists aff,
    start_workers [2; 4] (fun _ => true) 100 (js_thread_count js) js
      = Ok (true,
            {| js_iocp := js_iocp js; js_thread_count := T;
               js_epoch := js_epoch js |},
            sys_w (system_started T), aff) /\
    Z.of_nat (length aff) = T /\ NoDup aff /\
    Forall (fun a => 0 <= fst a < Z.of_nat (length [2; 4]) /\
                     0 <= snd a < aget [2; 4] (fst a)) aff.
Proof.
  apply (start_workers_pool [2; 4] (fun _ => true) 100
           (sys_js (system_started 3))).
  - simpl. lia.
  - simpl. lia.
  - repeat constructor; lia.
  - reflexivity.
  - simpl. lia.
Defined.

(** The usage line offers [threads = 0] for "as many threads as the
    hardware has", and [start_workers] does replace a zero [thread_count] by
    the number of logical processors; but [main] has sized the arrays [w]
    and [threads] with the zero it was given, so the first thread started
    is written past the end of both arrays. *)
Theorem start_workers_zero_threads_overflows c0 os thread_ok fuel js :
  js_thread_count js = 0 -> 1 <= c0 ->
  1 <= count_total_logical (c0 :: os) ->
  start_workers (c0 :: os) thread_ok (Datatypes.S fuel) (js_thread_count js) js
    = Undefined.
Proof.
  intros Hz Hc0 Htotal. unfold start_workers. cbv zeta. rewrite Hz.
  change (0 =? 0) with true. cbv iota.
  destruct (Z.gtb_spec (count_total_logical (c0 :: os))
              (count_total_logical (c0 :: os))) as [|_]; [lia|].
  cbn [while_loop p_ret p_i].
  destruct (Z.ltb_spec 0 (Z.of_nat (length (c0 :: os)))) as [_|Hl];
    [|cbn [length] in Hl; lia].
  destruct (Z.ltb_spec 0 (count_total_logical (c0 :: os))) as [_|]; [|lia].
  cbn [andb]. change (aget (c0 :: os) 0) with c0.
  unfold start_workers_group. cbn [while_loop p_ret p_i].
  assert (Hcores : (0 <? (if c0 >? 64 then 64 else c0)) = true).
  { destruct (Z.gtb_spec c0 64); apply Z.ltb_lt; lia. }
  rewrite Hcores.
  destruct (Z.ltb_spec 0 (count_total_logical (c0 :: os))) as [_|]; [|lia].
  cbn [andb]. change (0 <=? 0) with true. reflexivity.
Qed.

Lemma start_workers_zero_threads_overflows_witness :
  start_workers [4] (fun _ => true) 100
    (js_thread_count (sys_js (system_started 0))) (sys_js (system_started 0))
    = Undefined.
Proof.
  apply (start_workers_zero_threads_overflows 4 [] (fun _ => true) 99
           (sys_js (system_started 0)));
    [reflexivity|lia|vm_compute; discriminate].
Defined.
